(** * gdls: a shallow embedding of the TSCN front-end, the LSP range and
      parent checks, and the GDShader analyzer, with the properties the
      specification states about them.

    Part I holds the embedding, one module per Go package; Part II holds
    the properties. *)

From Stdlib Require Import ZArith Ascii String List Bool Lia.
From stdpp Require Import base tactics option list gmap strings pretty.

Set Warnings "-register-all,-clear-no-such-hyp".
Local Open Scope string_scope.

(* ===================================================================== *)
(** * Part I: the embedding *)
(* ===================================================================== *)

(** Go strings are byte strings; [string] (a list of 8-bit [ascii]) is the
    same data.  [len(s)] is [String.length s]. *)

Definition byte_of (n : nat) : ascii := ascii_of_nat n.
Definition ch_quote : ascii := byte_of 34.
Definition ch_backslash : ascii := byte_of 92.
Definition ch_newline : ascii := byte_of 10.
Definition ch_tab : ascii := byte_of 9.
Definition ch_cr : ascii := byte_of 13.
Definition str1 (c : ascii) : string := String c EmptyString.

(** Methods that update their receiver are state-passing functions; [None]
    is a computation that gives no result (a Go panic, or a loop that is
    still running when its fuel is spent). *)
Definition SM (S A : Type) : Type := S -> option (A * S).

Definition ret {S A} (x : A) : SM S A := fun s => Some (x, s).

Definition bind {S A B} (m : SM S A) (f : A -> SM S B) : SM S B :=
  fun s => match m s with
           | Some (x, s') => f x s'
           | None => None
           end.

Definition get {S} : SM S S := fun s => Some (s, s).
Definition modify {S} (f : S -> S) : SM S unit := fun s => Some (tt, f s).
Definition when {S} (b : bool) (m : SM S unit) : SM S unit :=
  if b then m else ret tt.

Declare Scope sm_scope.
Delimit Scope sm_scope with sm.
Notation "x ← y ; z" := (bind y (fun x => z))
  (at level 20, y at level 100, z at level 200, only parsing) : sm_scope.
Notation "x ;; z" := (bind x (fun _ => z))
  (at level 100, z at level 200, only parsing, right associativity) : sm_scope.
Local Open Scope sm_scope.

(* --------------------------------------------------------------------- *)
(** ** Go library functions the code calls *)
(* --------------------------------------------------------------------- *)

(** [unicode/utf8]: decoding of the first rune of a byte string, as
    [utf8.DecodeRuneInString] and the [range] loop over a string do it.  An
    ill-formed sequence decodes to [RuneError] of width 1. *)
Module utf8.

Definition RuneError : Z := 65533.

Definition byteZ (c : ascii) : Z := Z.of_nat (nat_of_ascii c).

Definition inRange (lo hi b : Z) : bool := ((lo <=? b) && (b <=? hi))%Z.

(** Width and the accepted range of the second byte, by first byte. *)
Definition first (b0 : Z) : option (nat * Z * Z) :=
  if inRange 194 223 b0 then Some (2%nat, 128%Z, 191%Z)
  else if (b0 =? 224)%Z then Some (3%nat, 160%Z, 191%Z)
  else if inRange 225 236 b0 then Some (3%nat, 128%Z, 191%Z)
  else if (b0 =? 237)%Z then Some (3%nat, 128%Z, 159%Z)
  else if inRange 238 239 b0 then Some (3%nat, 128%Z, 191%Z)
  else if (b0 =? 240)%Z then Some (4%nat, 144%Z, 191%Z)
  else if inRange 241 243 b0 then Some (4%nat, 128%Z, 191%Z)
  else if (b0 =? 244)%Z then Some (4%nat, 128%Z, 143%Z)
  else None.

Definition DecodeRuneInString (s : string) : Z * nat :=
  match s with
  | EmptyString => (RuneError, 0)
  | String c0 rest =>
    let b0 := byteZ c0 in
    if (b0 <? 128)%Z then (b0, 1)
    else match first b0 with
    | None => (RuneError, 1)
    | Some (sz, lo, hi) =>
      match rest with
      | EmptyString => (RuneError, 1)
      | String c1 rest1 =>
        let b1 := byteZ c1 in
        if negb (inRange lo hi b1) then (RuneError, 1)
        else if (sz <=? 2)%nat
        then (Z.lor (Z.shiftl (Z.land b0 31) 6) (Z.land b1 63), 2)
        else match rest1 with
        | EmptyString => (RuneError, 1)
        | String c2 rest2 =>
          let b2 := byteZ c2 in
          if negb (inRange 128 191 b2) then (RuneError, 1)
          else if (sz <=? 3)%nat
          then (Z.lor (Z.lor (Z.shiftl (Z.land b0 15) 12)
                             (Z.shiftl (Z.land b1 63) 6)) (Z.land b2 63), 3)
          else match rest2 with
          | EmptyString => (RuneError, 1)
          | String c3 _ =>
            let b3 := byteZ c3 in
            if negb (inRange 128 191 b3) then (RuneError, 1)
            else (Z.lor (Z.lor (Z.lor (Z.shiftl (Z.land b0 7) 18)
                                      (Z.shiftl (Z.land b1 63) 12))
                               (Z.shiftl (Z.land b2 63) 6)) (Z.land b3 63), 4)
          end
        end
      end
    end
  end.

Fixpoint drop_string (n : nat) (s : string) : string :=
  match n, s with
  | O, _ => s
  | S n', String _ s' => drop_string n' s'
  | S _, EmptyString => EmptyString
  end.

(** The runes a [for _, ch := range s] loop visits. *)
Fixpoint runes_fuel (fuel : nat) (s : string) : list Z :=
  match fuel, s with
  | _, EmptyString => []
  | O, _ => []
  | S f, _ =>
    let '(r, w) := DecodeRuneInString s in
    r :: runes_fuel f (drop_string w s)
  end.

Definition runes (s : string) : list Z := runes_fuel (String.length s) s.

Definition byteOfZ (z : Z) : ascii := ascii_of_nat (Z.to_nat z).

(** The bytes [%c] prints for a rune ([utf8.EncodeRune]). *)
Definition EncodeRune (r : Z) : string :=
  let enc3 (r : Z) :=
    String (byteOfZ (Z.lor 224 (Z.shiftr r 12)))
   (String (byteOfZ (Z.lor 128 (Z.land (Z.shiftr r 6) 63)))
   (String (byteOfZ (Z.lor 128 (Z.land r 63))) EmptyString)) in
  if (r <? 0)%Z then enc3 RuneError
  else if (r <? 128)%Z then String (byteOfZ r) EmptyString
  else if (r <? 2048)%Z then
    String (byteOfZ (Z.lor 192 (Z.shiftr r 6)))
   (String (byteOfZ (Z.lor 128 (Z.land r 63))) EmptyString)
  else if (1114111 <? r)%Z || inRange 55296 57343 r then enc3 RuneError
  else if (r <? 65536)%Z then enc3 r
  else
    String (byteOfZ (Z.lor 240 (Z.shiftr r 18)))
   (String (byteOfZ (Z.lor 128 (Z.land (Z.shiftr r 12) 63)))
   (String (byteOfZ (Z.lor 128 (Z.land (Z.shiftr r 6) 63)))
   (String (byteOfZ (Z.lor 128 (Z.land r 63))) EmptyString))).

End utf8.

(** [strconv.Atoi]: an optional sign and decimal digits; a syntax error
    gives 0, a value out of the [int] range gives the nearest bound. *)
Module strconv.

Definition isDigitB (c : ascii) : bool :=
  (48 <=? nat_of_ascii c)%nat && (nat_of_ascii c <=? 57)%nat.

Fixpoint digitsValue (acc : Z) (s : string) : option Z :=
  match s with
  | EmptyString => Some acc
  | String c s' =>
    if isDigitB c
    then digitsValue (acc * 10 + Z.of_nat (nat_of_ascii c - 48))%Z s'
    else None
  end.

Definition maxInt : Z := 2 ^ 63 - 1.
Definition minInt : Z := - 2 ^ 63.

Definition clamp (z : Z) : Z :=
  if (maxInt <? z)%Z then maxInt else if (z <? minInt)%Z then minInt else z.

Definition unsignedValue (s : string) : option Z :=
  match s with
  | EmptyString => None
  | _ => digitsValue 0 s
  end.

(** The value of [val, _ := strconv.Atoi(s)]. *)
Definition Atoi (s : string) : Z :=
  match s with
  | String "-" s' =>
    match unsignedValue s' with Some v => clamp (- v) | None => 0%Z end
  | String "+" s' =>
    match unsignedValue s' with Some v => clamp v | None => 0%Z end
  | _ => match unsignedValue s with Some v => clamp v | None => 0%Z end
  end.

End strconv.

(** [unicode.IsLetter] and [unicode.IsDigit] are tables of the Go
    library; the embedding takes them as an interface. *)
Class Unicode := {
  IsLetter : Z -> bool;
  IsDigit : Z -> bool }.

(** Their restriction to ASCII, for running the embedding. *)
Definition asciiUnicode : Unicode := {|
  IsLetter := fun r => (utf8.inRange 97 122 r || utf8.inRange 65 90 r);
  IsDigit := fun r => utf8.inRange 48 57 r |}.

(* --------------------------------------------------------------------- *)
(** ** Package parser (TSCN): the syntax tree (ast.go) *)
(* --------------------------------------------------------------------- *)

Module Tscn.

Record Position := mkPosition { Line : nat; Column : nat; Offset : nat }.
Record Range := mkRange { Start : Position; End : Position }.

Definition zeroPosition : Position := mkPosition 0 0 0.
Definition zeroRange : Range := mkRange zeroPosition zeroPosition.

(** [Value] is the Go interface; a nil interface value is [None] of
    [option Value] at the places where the code tests for it. *)
Inductive Value :=
| StringValue (r : Range) (v : string)
| NumberValue (r : Range) (rawValue : string) (isInt : bool)
    (* the float64 field is strconv.ParseFloat of [rawValue]; it is kept
       as its source text *)
| BoolValue (r : Range) (b : bool)
| NullValue (r : Range)
| ArrayValue (r : Range) (values : list Value)
| DictValue (r : Range) (entries : list (Range * Value * Value))
| IdentValue (r : Range) (name : string)
| TypedValue (r : Range) (typeName : string) (typeRange : Range) (args : list Value)
| ResourceRef (r : Range) (refType : string) (id : string) (idRange : Range).

Definition GetRange (v : Value) : Range :=
  match v with
  | StringValue r _ | NumberValue r _ _ | BoolValue r _ | NullValue r
  | ArrayValue r _ | DictValue r _ | IdentValue r _ | TypedValue r _ _ _
  | ResourceRef r _ _ _ => r
  end.

Record Property := mkProperty {
  pRange : Range; Key : string; KeyRange : Range; pValue : Value }.

Record GdScene := mkGdScene {
  gRange : Range; gType : string; LoadSteps : option Z; Format : Z;
  gUID : string; ResourceType : string }.

Record ExtResource := mkExtResource {
  eRange : Range; eType : string; eUID : string; Path : string;
  PathRange : Range; eID : string }.

Record SubResource := mkSubResource {
  sRange : Range; sType : string; sID : string; sProperties : list Property }.

Record Node := mkNode {
  nRange : Range; Name : string; nType : string; Parent : string;
  Instance : option Value; InstancePlaceholder : string; Owner : string;
  Index : option Z; Groups : list string; nProperties : list Property }.

Record Connection := mkConnection {
  cRange : Range; Signal : string; From : string; To : string;
  Method : string; Flags : option Z; Binds : list Value }.

Record Comment := mkComment { cmRange : Range; Text : string }.
Record ParseError := mkParseError { peRange : Range; Message : string }.

Record Document := mkDocument {
  Descriptor : option GdScene;
  ExtResources : list ExtResource;
  SubResources : list SubResource;
  Nodes : list Node;
  Connections : list Connection;
  Comments : list Comment;
  Errors : list ParseError }.


(* --------------------------------------------------------------------- *)
(** ** Package parser (TSCN): tokens and the lexer (token.go, lexer.go) *)
(* --------------------------------------------------------------------- *)

Inductive TokenType :=
| TokenEOF | TokenError | TokenNewline | TokenComment
| TokenLBracket | TokenRBracket | TokenLParen | TokenRParen
| TokenLBrace | TokenRBrace
| TokenEquals | TokenColon | TokenComma | TokenSlash
| TokenIdent | TokenString | TokenNumber | TokenBool | TokenNull.

#[global] Instance TokenType_eq_dec : EqDecision TokenType.
Proof. solve_decision. Defined.

Definition isType (t u : TokenType) : bool := bool_decide (t = u).

Record Token := mkToken {
  Type_ : TokenType; tValue : string;
  tLine : nat; tColumn : nat; tOffset : nat; Length : nat }.

Record Lexer := mkLexer {
  input : string;
  lpos : nat;        (* byte offset *)
  line : nat;
  column : nat;
  start : nat;
  startLine : nat;
  startColumn : nat }.

Definition NewLexer (input : string) : Lexer := mkLexer input 0 0 0 0 0 0.

Definition len (l : Lexer) : nat := String.length (input l).

(** [l.input[i]], for [i] below the length. *)
Definition byteAt (s : string) (i : nat) : ascii :=
  default "000"%char (String.get i s).

(** [s[a:b]]. *)
Definition slice (s : string) (a b : nat) : string := String.substring a (b - a) s.

Definition peek (l : Lexer) : ascii :=
  if (len l <=? lpos l)%nat then "000"%char else byteAt (input l) (lpos l).

Definition peekN (n : nat) (l : Lexer) : ascii :=
  if (len l <=? lpos l + n)%nat then "000"%char else byteAt (input l) (lpos l + n).

Definition advance (l : Lexer) : ascii * Lexer :=
  if (len l <=? lpos l)%nat then ("000"%char, l)
  else
    let ch := byteAt (input l) (lpos l) in
    (ch,
     if Ascii.eqb ch ch_newline
     then mkLexer (input l) (lpos l + 1) (line l + 1) 0
            (start l) (startLine l) (startColumn l)
     else mkLexer (input l) (lpos l + 1) (line l) (column l + 1)
            (start l) (startLine l) (startColumn l)).

Definition advance_ (l : Lexer) : Lexer := snd (advance l).

Definition makeToken (typ : TokenType) (value : string) (l : Lexer) : Token :=
  mkToken typ value (startLine l) (startColumn l) (start l) (lpos l - start l).

(** A [for l.pos < len(l.input)] loop whose body either stops or consumes
    input: [step] gives the state after one round, or [None] at a [break].
    No such loop runs more rounds than there are bytes left, which is the
    fuel it is given. *)
Fixpoint loopWhile (fuel : nat) (step : Lexer -> option Lexer) (l : Lexer) : Lexer :=
  match fuel with
  | O => l
  | S f =>
    if (lpos l <? len l)%nat then
      match step l with
      | Some l' => loopWhile f step l'
      | None => l
      end
    else l
  end.

Definition remaining (l : Lexer) : nat := len l - lpos l.

Definition isSpace (ch : ascii) : bool :=
  Ascii.eqb ch " " || Ascii.eqb ch ch_tab || Ascii.eqb ch ch_cr.

Definition isDigitByte (ch : ascii) : bool :=
  (48 <=? nat_of_ascii ch)%nat && (nat_of_ascii ch <=? 57)%nat.

Definition skipWhitespace (l : Lexer) : Lexer :=
  loopWhile (remaining l)
    (fun l => if isSpace (peek l) then Some (advance_ l) else None) l.

Definition scanComment (l : Lexer) : Token * Lexer :=
  let l := advance_ l in
  let start := lpos l in
  let l := loopWhile (remaining l)
             (fun l => if negb (Ascii.eqb (peek l) ch_newline)
                       then Some (advance_ l) else None) l in
  (makeToken TokenComment (slice (input l) start (lpos l)) l, l).

Definition writeByte (builder : string) (c : ascii) : string :=
  builder +:+ str1 c.

(** The loop of [scanString]; it returns from inside the loop. *)
Fixpoint scanStringLoop (fuel : nat) (builder : string) (l : Lexer) : Token * Lexer :=
  if (lpos l <? len l)%nat then
    match fuel with
    | O => (makeToken TokenError "unterminated string" l, l)
    | S f =>
      let ch := peek l in
      if Ascii.eqb ch ch_quote then
        let l := advance_ l in (makeToken TokenString builder l, l)
      else if Ascii.eqb ch ch_backslash then
        let l := advance_ l in
        if (lpos l <? len l)%nat then
          let '(escaped, l) := advance l in
          let builder :=
            if Ascii.eqb escaped "n" then writeByte builder ch_newline
            else if Ascii.eqb escaped "t" then writeByte builder ch_tab
            else if Ascii.eqb escaped "r" then writeByte builder ch_cr
            else if Ascii.eqb escaped ch_backslash then writeByte builder ch_backslash
            else if Ascii.eqb escaped ch_quote then writeByte builder ch_quote
            else writeByte (writeByte builder ch_backslash) escaped in
          scanStringLoop f builder l
        else scanStringLoop f builder l
      else if Ascii.eqb ch ch_newline then
        (makeToken TokenError "unterminated string" l, l)
      else
        let '(c, l) := advance l in
        scanStringLoop f (writeByte builder c) l
    end
  else (makeToken TokenError "unterminated string" l, l).

Definition scanString (l : Lexer) : Token * Lexer :=
  let l := advance_ l in
  scanStringLoop (remaining l) "" l.

Section WithUnicode.
Context `{Unicode}.

Definition isIdentStart (ch : ascii) : bool :=
  let n := nat_of_ascii ch in
  ((97 <=? n)%nat && (n <=? 122)%nat) || ((65 <=? n)%nat && (n <=? 90)%nat)
  || Ascii.eqb ch "_" || Ascii.eqb ch "@".

Definition isIdentPart (r : Z) : bool :=
  IsLetter r || IsDigit r || (r =? 95)%Z || (r =? 64)%Z.

(** [l.input[i:]]. *)
Definition suffix (s : string) (i : nat) : string := utf8.drop_string i s.

Definition matchKeyword (keyword : string) (l : Lexer) : bool * Lexer :=
  let n := String.length keyword in
  if (len l <? lpos l + n)%nat then (false, l)
  else if String.eqb (slice (input l) (lpos l) (lpos l + n)) keyword then
    if (lpos l + n <? len l)%nat
       && isIdentPart (fst (utf8.DecodeRuneInString (suffix (input l) (lpos l + n))))
    then (false, l)
    else (true, mkLexer (input l) (lpos l + n) (line l) (column l + n)
                  (start l) (startLine l) (startColumn l))
  else (false, l).

Definition scanDigits (l : Lexer) : Lexer :=
  loopWhile (remaining l)
    (fun l => if isDigitByte (peek l) then Some (advance_ l) else None) l.

Definition scanNumber (l : Lexer) : Token * Lexer :=
  let l := if Ascii.eqb (peek l) "-" || Ascii.eqb (peek l) "+"
           then advance_ l else l in
  let '(isInf, l) := matchKeyword "inf" l in
  let '(isNan, l) := if isInf then (false, l) else matchKeyword "nan" l in
  if isInf || isNan
  then (makeToken TokenNumber (slice (input l) (start l) (lpos l)) l, l)
  else
    let before := lpos l in
    let l := scanDigits l in
    let hasDigits := negb (lpos l =? before)%nat in
    let decimal := Ascii.eqb (peek l) "." && isDigitByte (peekN 1 l) in
    if negb decimal && Ascii.eqb (peek l) "." && negb hasDigits
    then (makeToken TokenError "invalid number" l, l)
    else
      let l := if decimal then scanDigits (advance_ l) else l in
      let l :=
        if Ascii.eqb (peek l) "e" || Ascii.eqb (peek l) "E" then
          let l := advance_ l in
          let l := if Ascii.eqb (peek l) "-" || Ascii.eqb (peek l) "+"
                   then advance_ l else l in
          scanDigits l
        else l in
      (makeToken TokenNumber (slice (input l) (start l) (lpos l)) l, l).

Definition scanIdentifier (l : Lexer) : Token * Lexer :=
  let l :=
    loopWhile (remaining l)
      (fun l =>
         let '(r, size) := utf8.DecodeRuneInString (suffix (input l) (lpos l)) in
         if negb (isIdentPart r) then None
         else Some (mkLexer (input l) (lpos l + size) (line l) (column l + 1)
                      (start l) (startLine l) (startColumn l))) l in
  let value := slice (input l) (start l) (lpos l) in
  if String.eqb value "true" || String.eqb value "false"
  then (makeToken TokenBool value l, l)
  else if String.eqb value "null" then (makeToken TokenNull value l, l)
  else if String.eqb value "inf" || String.eqb value "nan"
  then (makeToken TokenNumber value l, l)
  else (makeToken TokenIdent value l, l).

Definition single (typ : TokenType) (value : string) (l : Lexer) : Token * Lexer :=
  let l := advance_ l in (makeToken typ value l, l).

(** [Next].  For an unknown character the value is [string(ch)] of the
    byte: the encoding of the rune of that value, two bytes from 128 on. *)
Definition Next (l : Lexer) : Token * Lexer :=
  let l := skipWhitespace l in
  let l := mkLexer (input l) (lpos l) (line l) (column l)
             (lpos l) (line l) (column l) in
  if (len l <=? lpos l)%nat then (makeToken TokenEOF "" l, l)
  else
    let ch := peek l in
    if Ascii.eqb ch "[" then single TokenLBracket "[" l
    else if Ascii.eqb ch "]" then single TokenRBracket "]" l
    else if Ascii.eqb ch "(" then single TokenLParen "(" l
    else if Ascii.eqb ch ")" then single TokenRParen ")" l
    else if Ascii.eqb ch "{" then single TokenLBrace "{" l
    else if Ascii.eqb ch "}" then single TokenRBrace "}" l
    else if Ascii.eqb ch "=" then single TokenEquals "=" l
    else if Ascii.eqb ch ":" then single TokenColon ":" l
    else if Ascii.eqb ch "," then single TokenComma "," l
    else if Ascii.eqb ch "/" then single TokenSlash "/" l
    else if Ascii.eqb ch ch_newline then single TokenNewline (str1 ch_newline) l
    else if Ascii.eqb ch ";" then scanComment l
    else if Ascii.eqb ch ch_quote then scanString l
    else if Ascii.eqb ch "&" then
      if (lpos l + 1 <? len l)%nat && Ascii.eqb (byteAt (input l) (lpos l + 1)) ch_quote
      then scanString (advance_ l)
      else single TokenError "&" l
    else if Ascii.eqb ch "-" || Ascii.eqb ch "+" then
      if (lpos l + 1 <? len l)%nat
         && (isDigitByte (byteAt (input l) (lpos l + 1))
             || Ascii.eqb (byteAt (input l) (lpos l + 1)) ".")
      then scanNumber l
      else scanIdentifier l
    else if isDigitByte ch || Ascii.eqb ch "." then scanNumber l
    else if isIdentStart ch then scanIdentifier l
    else single TokenError (utf8.EncodeRune (utf8.byteZ ch)) l.

(** [Tokenize]: the loop ends at the end-of-file token; [None] when it is
    still running after [fuel] rounds. *)
Fixpoint tokenizeLoop (fuel : nat) (tokens : list Token) (l : Lexer)
    : option (list Token) :=
  match fuel with
  | O => None
  | S f =>
    let '(tok, l) := Next l in
    let tokens := (tokens ++ [tok])%list in
    if isType (Type_ tok) TokenEOF then Some tokens
    else tokenizeLoop f tokens l
  end.

Definition Tokenize (fuel : nat) (l : Lexer) : option (list Token) :=
  tokenizeLoop fuel [] l.

End WithUnicode.


(* --------------------------------------------------------------------- *)
(** ** Package parser (TSCN): the parser (parser.go) *)
(* --------------------------------------------------------------------- *)

Record Parser := mkParser {
  tokens : list Token;
  pos : nat;
  doc : Document;
  current : Token }.

(** The zero [Token]; its type is [TokenEOF], the first of the [iota]. *)
Definition zeroToken : Token := mkToken TokenEOF "" 0 0 0 0.

(** The parser's methods: state passing; [None] is a loop or a recursion
    that is still running when the fuel is spent. *)
Definition P (A : Type) : Type := SM Parser A.

Definition set_doc (d : Document) (p : Parser) : Parser :=
  mkParser (tokens p) (pos p) d (current p).

Definition cur : P Token := fun p => Some (current p, p).
Definition curType : P TokenType := fun p => Some (Type_ (current p), p).
Definition curIs (t : TokenType) : P bool :=
  fun p => Some (isType (Type_ (current p)) t, p).

(** [advance]: [if p.pos < len(p.tokens)-1]. *)
Definition advanceP : P unit :=
  modify (fun p =>
    if (pos p <? length (tokens p) - 1)%nat
    then mkParser (tokens p) (pos p + 1) (doc p)
           (nth (pos p + 1) (tokens p) zeroToken)
    else p).

Definition prevToken : P Token := fun p =>
  Some (if (0 <? pos p)%nat then nth (pos p - 1) (tokens p) zeroToken
        else current p, p).

Definition isAtEnd : P bool := curIs TokenEOF.

Definition makeRange (tok : Token) : Range :=
  mkRange (mkPosition (tLine tok) (tColumn tok) (tOffset tok))
          (mkPosition (tLine tok) (tColumn tok + Length tok)
                      (tOffset tok + Length tok)).

(** The range from the start of one token to the end of another. *)
Definition spanRange (startToken endToken : Token) : Range :=
  mkRange (mkPosition (tLine startToken) (tColumn startToken) (tOffset startToken))
          (mkPosition (tLine endToken) (tColumn endToken + Length endToken)
                      (tOffset endToken + Length endToken)).

Definition maxErrors : nat := 100.

Definition addErrorDoc (e : ParseError) (d : Document) : Document :=
  mkDocument (Descriptor d) (ExtResources d) (SubResources d) (Nodes d)
    (Connections d) (Comments d) (Errors d ++ [e]).

(** [addError]. *)
Definition addError (msg : string) : P unit :=
  modify (fun p =>
    if (maxErrors <=? length (Errors (doc p)))%nat then p
    else set_doc (addErrorDoc (mkParseError (makeRange (current p)) msg) (doc p)) p).

Definition addCommentDoc (c : Comment) (d : Document) : Document :=
  mkDocument (Descriptor d) (ExtResources d) (SubResources d) (Nodes d)
    (Connections d) (Comments d ++ [c]) (Errors d).
Definition setDescriptorDoc (g : GdScene) (d : Document) : Document :=
  mkDocument (Some g) (ExtResources d) (SubResources d) (Nodes d)
    (Connections d) (Comments d) (Errors d).
Definition addExtResourceDoc (e : ExtResource) (d : Document) : Document :=
  mkDocument (Descriptor d) (ExtResources d ++ [e]) (SubResources d) (Nodes d)
    (Connections d) (Comments d) (Errors d).
Definition addSubResourceDoc (s : SubResource) (d : Document) : Document :=
  mkDocument (Descriptor d) (ExtResources d) (SubResources d ++ [s]) (Nodes d)
    (Connections d) (Comments d) (Errors d).
Definition addNodeDoc (n : Node) (d : Document) : Document :=
  mkDocument (Descriptor d) (ExtResources d) (SubResources d) (Nodes d ++ [n])
    (Connections d) (Comments d) (Errors d).
Definition addConnectionDoc (c : Connection) (d : Document) : Document :=
  mkDocument (Descriptor d) (ExtResources d) (SubResources d) (Nodes d)
    (Connections d ++ [c]) (Comments d) (Errors d).

Definition modifyDoc (f : Document -> Document) : P unit :=
  modify (fun p => set_doc (f (doc p)) p).

Definition parseComment : P unit :=
  c ← cur;
  modifyDoc (addCommentDoc (mkComment (makeRange c) (tValue c)));;
  advanceP.

(** A loop with [continue] and [break]: the body gives the next loop
    state ([inl], also at a [continue]) or the result at the exit of the
    loop ([inr], the condition false or a [break]). *)
Fixpoint iter {A B} (fuel : nat) (body : A -> P (A + B)) (a : A) : P B :=
  match fuel with
  | O => fun _ => None
  | S f =>
    x ← body a;
    match x with
    | inl a' => iter f body a'
    | inr b => ret b
    end
  end.

Definition continue {A B} (a : A) : P (A + B) := ret (inl a).
Definition break {A B} (b : B) : P (A + B) := ret (inr b).

Definition skipNewlines (fuel : nat) : P unit :=
  iter fuel
    (fun _ : unit =>
       t ← curType;
       if isType t TokenComment then parseComment;; continue tt
       else if isType t TokenNewline then advanceP;; continue tt
       else break tt) tt.

Definition skipToNextSection (fuel : nat) : P unit :=
  iter fuel
    (fun _ : unit =>
       t ← curType;
       if isType t TokenEOF then break tt
       else if isType t TokenLBracket then break tt
       else advanceP;; continue tt) tt.

(** [containsAny]: both loops range over runes. *)
Definition containsAny (s chars : string) : bool :=
  existsb (fun c => existsb (fun sc => (c =? sc)%Z) (utf8.runes s))
    (utf8.runes chars).

Definition numberValue (c : Token) : Value :=
  let rawVal := tValue c in
  let isInt := negb (containsAny rawVal ".eE") && negb (String.eqb rawVal "inf")
               && negb (String.eqb rawVal "nan") && negb (String.eqb rawVal "-inf") in
  NumberValue (makeRange c) rawVal isInt.

(** [parseArray], over the parser of the nested values. *)
Definition parseArray (parseValue : P (option Value)) (fuel : nat) : P Value :=
  startToken ← cur;
  advanceP;;
  values ← iter fuel
    (fun values : list Value =>
       t ← curType;
       if isType t TokenRBracket || isType t TokenEOF then break values
       else
         skipNewlines fuel;;
         t ← curType;
         if isType t TokenRBracket then break values
         else
           val ← parseValue;
           values ← match val with
                    | Some v => ret (values ++ [v])%list
                    | None => advanceP;; ret values
                    end;
           skipNewlines fuel;;
           t ← curType;
           when (isType t TokenComma) advanceP;;
           continue values) [];
  endToken ← cur;
  when (isType (Type_ endToken) TokenRBracket) advanceP;;
  ret (ArrayValue (spanRange startToken endToken) values).

(** The recovery loop of [parseDict]: skip to the next comma, closing
    brace, or newline. *)
Definition skipEntry (fuel : nat) : P unit :=
  iter fuel
    (fun _ : unit =>
       t ← curType;
       if isType t TokenEOF || isType t TokenComma
          || isType t TokenRBrace || isType t TokenNewline
       then break tt
       else advanceP;; continue tt) tt.

(** [parseDict]. *)
Definition parseDict (parseValue : P (option Value)) (fuel : nat) : P Value :=
  startToken ← cur;
  advanceP;;
  entries ← iter fuel
    (fun entries : list (Range * Value * Value) =>
       t ← curType;
       if isType t TokenRBrace || isType t TokenEOF then break entries
       else
         skipNewlines fuel;;
         keyStart ← cur;
         if isType (Type_ keyStart) TokenRBrace then break entries
         else
           key ← (if isType (Type_ keyStart) TokenString
                  then advanceP;;
                       ret (Some (StringValue (makeRange keyStart) (tValue keyStart)))
                  else if isType (Type_ keyStart) TokenIdent
                  then advanceP;;
                       ret (Some (IdentValue (makeRange keyStart) (tValue keyStart)))
                  else addError "expected string or identifier as dictionary key";;
                       advanceP;; ret None);
           match key with
           | None => continue entries
           | Some key =>
             t ← curType;
             if negb (isType t TokenColon) then
               addError "expected ':' after dictionary key";;
               skipEntry fuel;;
               continue entries
             else
               advanceP;;
               val ← parseValue;
               entries ← match val with
                         | Some v =>
                           ret (entries
                                ++ [(mkRange (Start (makeRange keyStart))
                                       (End (GetRange v)), key, v)])%list
                         | None =>
                           t ← curType;
                           when (negb (isType t TokenComma)
                                 && negb (isType t TokenRBrace)) advanceP;;
                           ret entries
                         end;
               skipNewlines fuel;;
               t ← curType;
               when (isType t TokenComma) advanceP;;
               continue entries
           end) [];
  endToken ← cur;
  when (isType (Type_ endToken) TokenRBrace) advanceP;;
  ret (DictValue (spanRange startToken endToken) entries).

(** [parseTypedValueOrIdent]. *)
Definition parseTypedValueOrIdent (parseValue : P (option Value)) (fuel : nat)
    : P Value :=
  startToken ← cur;
  let name := tValue startToken in
  let typeRange := makeRange startToken in
  advanceP;;
  t ← curType;
  if isType t TokenLParen then
    advanceP;;
    idToken ← cur;
    if (String.eqb name "ExtResource" || String.eqb name "SubResource")
       && isType (Type_ idToken) TokenString
    then
      advanceP;;
      endToken ← cur;
      endToken ← (if isType (Type_ endToken) TokenRParen
                  then advanceP;; prevToken else ret endToken);
      ret (ResourceRef (spanRange startToken endToken) name (tValue idToken)
             (makeRange idToken))
    else
      args ← iter fuel
        (fun args : list Value =>
           t ← curType;
           if isType t TokenRParen || isType t TokenEOF then break args
           else
             val ← parseValue;
             args ← match val with
                    | Some v => ret (args ++ [v])%list
                    | None =>
                      t ← curType;
                      when (negb (isType t TokenRParen)
                            && negb (isType t TokenComma)) advanceP;;
                      ret args
                    end;
             t ← curType;
             when (isType t TokenComma) advanceP;;
             continue args) [];
      endToken ← cur;
      endToken ← (if isType (Type_ endToken) TokenRParen
                  then advanceP;; prevToken else ret endToken);
      ret (TypedValue (spanRange startToken endToken) name typeRange args)
  else ret (IdentValue typeRange name).

(** [parseValue]; [fuel] bounds the nesting of values. *)
Fixpoint parseValue (fuel : nat) : P (option Value) :=
  match fuel with
  | O => fun _ => None
  | S f =>
    c ← cur;
    match Type_ c with
    | TokenString => advanceP;; ret (Some (StringValue (makeRange c) (tValue c)))
    | TokenNumber => advanceP;; ret (Some (numberValue c))
    | TokenBool =>
      advanceP;; ret (Some (BoolValue (makeRange c) (String.eqb (tValue c) "true")))
    | TokenNull => advanceP;; ret (Some (NullValue (makeRange c)))
    | TokenLBracket => v ← parseArray (parseValue f) f; ret (Some v)
    | TokenLBrace => v ← parseDict (parseValue f) f; ret (Some v)
    | TokenIdent => v ← parseTypedValueOrIdent (parseValue f) f; ret (Some v)
    | _ => ret None
    end
  end.


(** [parseProperty]. *)
Definition parseProperty (fuel : nat) : P (option Property) :=
  c ← cur;
  if negb (isType (Type_ c) TokenIdent) then ret None
  else
    let keyStart := Start (makeRange c) in
    key ← iter fuel
      (fun key : string =>
         c ← cur;
         if isType (Type_ c) TokenIdent || isType (Type_ c) TokenNumber
         then advanceP;; continue (key +:+ tValue c)
         else if isType (Type_ c) TokenSlash
         then advanceP;; continue (key +:+ "/")
         else break key) "";
    prev ← prevToken;
    let keyEnd := End (makeRange prev) in
    t ← curType;
    if negb (isType t TokenEquals) then
      addError "expected '=' after property key";; ret None
    else
      advanceP;;
      value ← parseValue fuel;
      match value with
      | None => ret None
      | Some v =>
        ret (Some (mkProperty (mkRange keyStart (End (GetRange v))) key
                     (mkRange keyStart keyEnd) v))
      end.

(** The loop over the [key=value] pairs of a section header.  The five
    section parsers have the same loop text around their [switch key];
    [attribute] is that switch. *)
Definition parseHeader {A} (fuel : nat) (attribute : string -> A -> P A) (a : A)
    : P A :=
  iter fuel
    (fun a : A =>
       c ← cur;
       if isType (Type_ c) TokenRBracket || isType (Type_ c) TokenEOF then break a
       else if isType (Type_ c) TokenIdent then
         let key := tValue c in
         advanceP;;
         t ← curType;
         if negb (isType t TokenEquals) then
           addError "expected '=' after key";; continue a
         else
           advanceP;;
           a ← attribute key a;
           continue a
       else break a) a.

(** [if p.current.Type == typ { field = ...; p.advance() }]. *)
Definition takeIf {A} (typ : TokenType) (store : Token -> A -> A) (a : A) : P A :=
  c ← cur;
  if isType (Type_ c) typ then advanceP;; ret (store c a) else ret a.

Definition closeBracket : P unit :=
  t ← curType; when (isType t TokenRBracket) advanceP.

Definition keyIs (key name : string) : bool := String.eqb key name.

(** [parseGdScene]. *)
Definition parseGdScene (fuel : nat) (startToken : Token) (sectionType : string)
    : P unit :=
  gd ← parseHeader fuel
    (fun key (gd : GdScene) =>
       if keyIs key "load_steps" then
         takeIf TokenNumber
           (fun c gd => mkGdScene (gRange gd) (gType gd)
                          (Some (strconv.Atoi (tValue c))) (Format gd) (gUID gd)
                          (ResourceType gd)) gd
       else if keyIs key "format" then
         takeIf TokenNumber
           (fun c gd => mkGdScene (gRange gd) (gType gd) (LoadSteps gd)
                          (strconv.Atoi (tValue c)) (gUID gd) (ResourceType gd)) gd
       else if keyIs key "uid" then
         takeIf TokenString
           (fun c gd => mkGdScene (gRange gd) (gType gd) (LoadSteps gd)
                          (Format gd) (tValue c) (ResourceType gd)) gd
       else if keyIs key "type" then
         takeIf TokenString
           (fun c gd => mkGdScene (gRange gd) (gType gd) (LoadSteps gd)
                          (Format gd) (gUID gd) (tValue c)) gd
       else _ ← parseValue fuel; ret gd)
    (mkGdScene zeroRange sectionType None 3 "" "");
  closeBracket;;
  prev ← prevToken;
  modifyDoc (setDescriptorDoc
    (mkGdScene (spanRange startToken prev) (gType gd) (LoadSteps gd) (Format gd)
       (gUID gd) (ResourceType gd))).

(** [parseExtResource]. *)
Definition parseExtResource (fuel : nat) (startToken : Token) : P unit :=
  ext ← parseHeader fuel
    (fun key (ext : ExtResource) =>
       if keyIs key "type" then
         takeIf TokenString
           (fun c ext => mkExtResource (eRange ext) (tValue c) (eUID ext)
                           (Path ext) (PathRange ext) (eID ext)) ext
       else if keyIs key "uid" then
         takeIf TokenString
           (fun c ext => mkExtResource (eRange ext) (eType ext) (tValue c)
                           (Path ext) (PathRange ext) (eID ext)) ext
       else if keyIs key "path" then
         takeIf TokenString
           (fun c ext => mkExtResource (eRange ext) (eType ext) (eUID ext)
                           (tValue c) (makeRange c) (eID ext)) ext
       else if keyIs key "id" then
         takeIf TokenString
           (fun c ext => mkExtResource (eRange ext) (eType ext) (eUID ext)
                           (Path ext) (PathRange ext) (tValue c)) ext
       else _ ← parseValue fuel; ret ext)
    (mkExtResource zeroRange "" "" "" zeroRange "");
  closeBracket;;
  prev ← prevToken;
  modifyDoc (addExtResourceDoc
    (mkExtResource (spanRange startToken prev) (eType ext) (eUID ext) (Path ext)
       (PathRange ext) (eID ext))).

(** The loop over the properties below a section header; the parsers of
    [sub_resource], [node] and [resource] sections have the same loop
    text.  The result is the list of the properties that parsed. *)
Definition parseProperties (fuel : nat) : P (list Property) :=
  iter fuel
    (fun props : list Property =>
       t ← curType;
       if isType t TokenEOF || isType t TokenLBracket then break props
       else if isType t TokenComment then parseComment;; continue props
       else if isType t TokenIdent then
         prop ← parseProperty fuel;
         match prop with
         | Some pr => continue (props ++ [pr])%list
         | None => continue props
         end
       else if isType t TokenNewline then advanceP;; continue props
       else break props) [].

(** The end of a section with properties: the header's last token, or
    the end of the last property. *)
Definition sectionEnd (endToken : Token) (props : list Property) : Token :=
  match last props with
  | Some lastProp =>
    mkToken TokenEOF "" (Line (End (pRange lastProp)))
      (Column (End (pRange lastProp))) (Offset (End (pRange lastProp))) 0
  | None => endToken
  end.

(** [parseSubResource]. *)
Definition parseSubResource (fuel : nat) (startToken : Token) : P unit :=
  sub ← parseHeader fuel
    (fun key (sub : SubResource) =>
       if keyIs key "type" then
         takeIf TokenString
           (fun c sub => mkSubResource (sRange sub) (tValue c) (sID sub)
                           (sProperties sub)) sub
       else if keyIs key "id" then
         takeIf TokenString
           (fun c sub => mkSubResource (sRange sub) (sType sub) (tValue c)
                           (sProperties sub)) sub
       else _ ← parseValue fuel; ret sub)
    (mkSubResource zeroRange "" "" []);
  endToken ← cur;
  closeBracket;;
  skipNewlines fuel;;
  props ← parseProperties fuel;
  modifyDoc (addSubResourceDoc
    (mkSubResource (spanRange startToken (sectionEnd endToken props))
       (sType sub) (sID sub) props)).

Definition stringValues (v : option Value) : list string :=
  match v with
  | Some (ArrayValue _ values) =>
    omap (fun v => match v with StringValue _ s => Some s | _ => None end) values
  | _ => []
  end.

(** [parseNode]. *)
Definition parseNode (fuel : nat) (startToken : Token) : P unit :=
  node ← parseHeader fuel
    (fun key (n : Node) =>
       if keyIs key "name" then
         takeIf TokenString
           (fun c n => mkNode (nRange n) (tValue c) (nType n) (Parent n)
                         (Instance n) (InstancePlaceholder n) (Owner n) (Index n)
                         (Groups n) (nProperties n)) n
       else if keyIs key "type" then
         takeIf TokenString
           (fun c n => mkNode (nRange n) (Name n) (tValue c) (Parent n)
                         (Instance n) (InstancePlaceholder n) (Owner n) (Index n)
                         (Groups n) (nProperties n)) n
       else if keyIs key "parent" then
         takeIf TokenString
           (fun c n => mkNode (nRange n) (Name n) (nType n) (tValue c)
                         (Instance n) (InstancePlaceholder n) (Owner n) (Index n)
                         (Groups n) (nProperties n)) n
       else if keyIs key "instance" then
         v ← parseValue fuel;
         ret (mkNode (nRange n) (Name n) (nType n) (Parent n) v
                (InstancePlaceholder n) (Owner n) (Index n) (Groups n)
                (nProperties n))
       else if keyIs key "instance_placeholder" then
         takeIf TokenString
           (fun c n => mkNode (nRange n) (Name n) (nType n) (Parent n)
                         (Instance n) (tValue c) (Owner n) (Index n)
                         (Groups n) (nProperties n)) n
       else if keyIs key "owner" then
         takeIf TokenString
           (fun c n => mkNode (nRange n) (Name n) (nType n) (Parent n)
                         (Instance n) (InstancePlaceholder n) (tValue c) (Index n)
                         (Groups n) (nProperties n)) n
       else if keyIs key "index" then
         takeIf TokenNumber
           (fun c n => mkNode (nRange n) (Name n) (nType n) (Parent n)
                         (Instance n) (InstancePlaceholder n) (Owner n)
                         (Some (strconv.Atoi (tValue c))) (Groups n)
                         (nProperties n)) n
       else if keyIs key "groups" then
         v ← parseValue fuel;
         ret (mkNode (nRange n) (Name n) (nType n) (Parent n) (Instance n)
                (InstancePlaceholder n) (Owner n) (Index n)
                (Groups n ++ stringValues v)%list (nProperties n))
       else _ ← parseValue fuel; ret n)
    (mkNode zeroRange "" "" "" None "" "" None [] []);
  endToken ← cur;
  closeBracket;;
  skipNewlines fuel;;
  props ← parseProperties fuel;
  modifyDoc (addNodeDoc
    (mkNode (spanRange startToken (sectionEnd endToken props)) (Name node)
       (nType node) (Parent node) (Instance node) (InstancePlaceholder node)
       (Owner node) (Index node) (Groups node) props)).

(** [parseConnection]. *)
Definition parseConnection (fuel : nat) (startToken : Token) : P unit :=
  conn ← parseHeader fuel
    (fun key (c0 : Connection) =>
       if keyIs key "signal" then
         takeIf TokenString
           (fun c c0 => mkConnection (cRange c0) (tValue c) (From c0) (To c0)
                          (Method c0) (Flags c0) (Binds c0)) c0
       else if keyIs key "from" then
         takeIf TokenString
           (fun c c0 => mkConnection (cRange c0) (Signal c0) (tValue c) (To c0)
                          (Method c0) (Flags c0) (Binds c0)) c0
       else if keyIs key "to" then
         takeIf TokenString
           (fun c c0 => mkConnection (cRange c0) (Signal c0) (From c0) (tValue c)
                          (Method c0) (Flags c0) (Binds c0)) c0
       else if keyIs key "method" then
         takeIf TokenString
           (fun c c0 => mkConnection (cRange c0) (Signal c0) (From c0) (To c0)
                          (tValue c) (Flags c0) (Binds c0)) c0
       else if keyIs key "flags" then
         takeIf TokenNumber
           (fun c c0 => mkConnection (cRange c0) (Signal c0) (From c0) (To c0)
                          (Method c0) (Some (strconv.Atoi (tValue c))) (Binds c0)) c0
       else if keyIs key "binds" then
         v ← parseValue fuel;
         ret (match v with
              | Some (ArrayValue _ values) =>
                mkConnection (cRange c0) (Signal c0) (From c0) (To c0)
                  (Method c0) (Flags c0) values
              | _ => c0
              end)
       else _ ← parseValue fuel; ret c0)
    (mkConnection zeroRange "" "" "" "" None []);
  closeBracket;;
  prev ← prevToken;
  modifyDoc (addConnectionDoc
    (mkConnection (spanRange startToken prev) (Signal conn) (From conn) (To conn)
       (Method conn) (Flags conn) (Binds conn))).

(** [parseResourceSection]. *)
Definition parseResourceSection (fuel : nat) : P unit :=
  iter fuel
    (fun _ : unit =>
       t ← curType;
       if isType t TokenRBracket || isType t TokenEOF then break tt
       else advanceP;; continue tt) tt;;
  closeBracket;;
  skipNewlines fuel;;
  _ ← parseProperties fuel;
  ret tt.

(** [parseSection]. *)
Definition parseSection (fuel : nat) : P unit :=
  startToken ← cur;
  advanceP;;
  c ← cur;
  if negb (isType (Type_ c) TokenIdent) then
    addError "expected section type after '['";;
    skipToNextSection fuel
  else
    let sectionType := tValue c in
    advanceP;;
    if keyIs sectionType "gd_scene" || keyIs sectionType "gd_resource"
    then parseGdScene fuel startToken sectionType
    else if keyIs sectionType "ext_resource" then parseExtResource fuel startToken
    else if keyIs sectionType "sub_resource" then parseSubResource fuel startToken
    else if keyIs sectionType "node" then parseNode fuel startToken
    else if keyIs sectionType "connection" then parseConnection fuel startToken
    else if keyIs sectionType "resource" then parseResourceSection fuel
    else
      addError ("unknown section type: " +:+ sectionType);;
      skipToNextSection fuel.

(** [parse]. *)
Definition parse (fuel : nat) : P unit :=
  iter fuel
    (fun _ : unit =>
       t ← curType;
       if isType t TokenEOF then break tt
       else
         skipNewlines fuel;;
         c ← cur;
         if isType (Type_ c) TokenEOF then break tt
         else if isType (Type_ c) TokenComment then parseComment;; continue tt
         else if isType (Type_ c) TokenLBracket then parseSection fuel;; continue tt
         else if isType (Type_ c) TokenIdent
         then _ ← parseProperty fuel; continue tt
         else
           addError ("unexpected token: " +:+ tValue c);;
           advanceP;;
           continue tt) tt.

Definition emptyDocument : Document := mkDocument None [] [] [] [] [] [].

Definition newParser (tokens : list Token) : Parser :=
  mkParser tokens 0 emptyDocument (nth 0 tokens zeroToken).

(** The parser run on a token list.  No loop of the parser runs more
    rounds, and no value nests deeper, than there are tokens; one more
    than that is the fuel (see [parseTokens_total]). *)
Definition parseTokens (tokens : list Token) : option Document :=
  match parse (S (length tokens)) (newParser tokens) with
  | Some (_, p) => Some (doc p)
  | None => None
  end.

Section WithUnicode.
Context `{Unicode}.

(** [Parse]; [fuel] bounds the rounds of the lexer's loop. *)
Definition Parse (fuel : nat) (input : string) : option Document :=
  match Tokenize fuel (NewLexer input) with
  | Some tokens => parseTokens tokens
  | None => None
  end.

End WithUnicode.

End Tscn.

(* --------------------------------------------------------------------- *)
(** ** Package lsp: range containment and the parent-reference check *)
(* --------------------------------------------------------------------- *)

Module Lsp.
Import Tscn.

(** hover.go, [isInRange].  [line] and [col] are Go [int]s; the fields of
    a range are never negative. *)
Definition isInRange (r : Range) (line col : Z) : bool :=
  if (line <? Z.of_nat (Line (Start r)))%Z || (line >? Z.of_nat (Line (End r)))%Z
  then false
  else if (line =? Z.of_nat (Line (Start r)))%Z && (col <? Z.of_nat (Column (Start r)))%Z
  then false
  else if (line =? Z.of_nat (Line (End r)))%Z && (col >? Z.of_nat (Column (End r)))%Z
  then false
  else true.

(** The protocol types of the diagnostics that are published. *)
Record ProtoPosition := mkProtoPosition { pLine : N; pCharacter : N }.
Record ProtoRange := mkProtoRange { pStart : ProtoPosition; pEnd : ProtoPosition }.
Inductive DiagnosticSeverity := SeverityError | SeverityWarning.
Record Diagnostic := mkDiagnostic {
  dRange : ProtoRange; dSeverity : DiagnosticSeverity;
  dSource : string; dMessage : string }.

(** The conversion [uint32(x)] of a non-negative [int]. *)
Definition uint32 (n : nat) : N := (N.of_nat n mod 2 ^ 32)%N.

Definition protoRange (r : Range) : ProtoRange :=
  mkProtoRange
    (mkProtoPosition (uint32 (Line (Start r))) (uint32 (Column (Start r))))
    (mkProtoPosition (uint32 (Line (End r))) (uint32 (Column (End r)))).

(** Reading a Go [map[string]bool]: a missing key reads as [false]. *)
Definition mapGet (m : gmap string bool) (k : string) : bool :=
  default false (m !! k).

(** semantic_tokens.go, [checkParentReferences]: the first loop. *)
Definition buildNodePaths (nodes : list Node) : gmap string bool * string :=
  fold_left
    (fun (acc : gmap string bool * string) (node : Node) =>
       let '(nodePaths, rootName) := acc in
       if String.eqb (Parent node) ""
       then (<["." := true]> (<["" := true]> nodePaths), Name node)
       else
         let fullPath :=
           if String.eqb (Parent node) "." then Name node
           else Parent node +:+ "/" +:+ Name node in
         (<[fullPath := true]> nodePaths, rootName))
    nodes (∅, "").

Definition parentWarning (node : Node) : Diagnostic :=
  mkDiagnostic (protoRange (nRange node)) SeverityWarning "gdls"
    ("Parent node not found: " +:+ Parent node).

(** The second loop. *)
Definition checkParentReferences (nodes : list Node) : list Diagnostic :=
  let '(nodePaths, rootName) := buildNodePaths nodes in
  fold_left
    (fun (diagnostics : list Diagnostic) (node : Node) =>
       if String.eqb (Parent node) "" || String.eqb (Parent node) "."
       then diagnostics
       else if negb (mapGet nodePaths (Parent node))
               && negb (String.eqb (Parent node) rootName)
       then (diagnostics ++ [parentWarning node])%list
       else diagnostics)
    nodes [].

(** The values a callback is called on by [walkValue], the value itself
    first: [cb] changes the state that the closure of the Go callback
    captures. *)
Fixpoint walk {S : Type} (cb : Value -> S -> S) (v : Value) (s : S) : S :=
  let s := cb v s in
  match v with
  | ArrayValue _ values => fold_left (fun s elem => walk cb elem s) values s
  | DictValue _ entries =>
    fold_left
      (fun s (entry : Range * Value * Value) =>
         let '(_, key, value) := entry in walk cb value (walk cb key s))
      entries s
  | TypedValue _ _ _ args => fold_left (fun s arg => walk cb arg s) args s
  | _ => s
  end.

(** semantic_tokens.go, [walkValue]; a nil value is [None]. *)
Definition walkValue {S : Type} (v : option Value) (cb : Value -> S -> S) (s : S) : S :=
  match v with
  | None => s
  | Some v => walk cb v s
  end.

Definition undefinedReference (r : Range) (id : string) : Diagnostic :=
  mkDiagnostic (protoRange r) SeverityError "gdls"
    ("Reference to undefined resource: " +:+ id).

(** The closure [checkValue] of [checkResourceReferences]. *)
Definition checkValue (extIDs subIDs : gmap string bool) (v : Value)
    (diagnostics : list Diagnostic) : list Diagnostic :=
  match v with
  | ResourceRef r refType id _ =>
    let valid :=
      if String.eqb refType "ExtResource" then mapGet extIDs id
      else if String.eqb refType "SubResource" then mapGet subIDs id
      else false in
    if negb valid then (diagnostics ++ [undefinedReference r id])%list
    else diagnostics
  | _ => diagnostics
  end.

(** semantic_tokens.go, [checkResourceReferences]. *)
Definition checkResourceReferences (doc : Document) : list Diagnostic :=
  let extIDs :=
    fold_left (fun (m : gmap string bool) ext => <[eID ext := true]> m)
      (ExtResources doc) ∅ in
  let subIDs :=
    fold_left (fun (m : gmap string bool) sub => <[sID sub := true]> m)
      (SubResources doc) ∅ in
  let checkProperties (props : list Property) (diagnostics : list Diagnostic) :=
    fold_left
      (fun diagnostics prop =>
         walkValue (Some (pValue prop)) (checkValue extIDs subIDs) diagnostics)
      props diagnostics in
  let diagnostics :=
    fold_left (fun diagnostics sub => checkProperties (sProperties sub) diagnostics)
      (SubResources doc) [] in
  fold_left
    (fun diagnostics node =>
       let diagnostics :=
         match Instance node with
         | Some v => checkValue extIDs subIDs v diagnostics
         | None => diagnostics
         end in
       checkProperties (nProperties node) diagnostics)
    (Nodes doc) diagnostics.

Definition duplicateExtResource (ext : ExtResource) : Diagnostic :=
  mkDiagnostic (protoRange (eRange ext)) SeverityError "gdls"
    ("Duplicate external resource ID: " +:+ eID ext).

Definition duplicateSubResource (sub : SubResource) : Diagnostic :=
  mkDiagnostic (protoRange (sRange sub)) SeverityError "gdls"
    ("Duplicate sub-resource ID: " +:+ sID sub).

(** One loop of [checkDuplicateIDs]: the map of the resources seen, by
    ID, and the diagnostics. *)
Definition checkDuplicates {A : Type} (id : A -> string) (report : A -> Diagnostic)
    (resources : list A) (diagnostics : list Diagnostic) : list Diagnostic :=
  snd (fold_left
         (fun (acc : gmap string A * list Diagnostic) (res : A) =>
            let '(ids, diagnostics) := acc in
            match ids !! id res with
            | Some _ => (ids, (diagnostics ++ [report res])%list)
            | None => (<[id res := res]> ids, diagnostics)
            end)
         resources (∅, diagnostics)).

(** semantic_tokens.go, [checkDuplicateIDs]. *)
Definition checkDuplicateIDs (doc : Document) : list Diagnostic :=
  let diagnostics :=
    checkDuplicates eID duplicateExtResource (ExtResources doc) [] in
  checkDuplicates sID duplicateSubResource (SubResources doc) diagnostics.

(** The protocol type of a location. *)
Record Location := mkLocation { lURI : string; lRange : ProtoRange }.

Definition locationOf (uri : string) (r : Range) : Location :=
  mkLocation uri (protoRange r).

(** A loop that returns the first result that is not nil. *)
Fixpoint firstSome {A B : Type} (f : A -> option B) (l : list A) : option B :=
  match l with
  | [] => None
  | x :: rest =>
    match f x with
    | Some y => Some y
    | None => firstSome f rest
    end
  end.

(** definition.go, [findDefinitionInValue], on a value that is not nil. *)
Fixpoint findDefinitionIn (ast : Document) (uri : string) (line col : Z)
    (v : Value) : option Location :=
  match v with
  | ResourceRef r refType id _ =>
    if isInRange r line col then
      if String.eqb refType "ExtResource" then
        firstSome (fun ext => if String.eqb (eID ext) id
                              then Some (locationOf uri (eRange ext)) else None)
          (ExtResources ast)
      else if String.eqb refType "SubResource" then
        firstSome (fun sub => if String.eqb (sID sub) id
                              then Some (locationOf uri (sRange sub)) else None)
          (SubResources ast)
      else None
    else None
  | ArrayValue _ values => firstSome (findDefinitionIn ast uri line col) values
  | DictValue _ entries =>
    firstSome (fun entry : Range * Value * Value =>
                 let '(_, _, value) := entry in
                 findDefinitionIn ast uri line col value) entries
  | TypedValue _ _ _ args => firstSome (findDefinitionIn ast uri line col) args
  | _ => None
  end.

Definition findDefinitionInValue (v : option Value) (ast : Document) (uri : string)
    (line col : Z) : option Location :=
  match v with
  | None => None
  | Some v => findDefinitionIn ast uri line col v
  end.

(** The path of a node, as [findNodeByPath] and [findReferences] compute
    it. *)
Definition nodePathOf (node : Node) : string :=
  if String.eqb (Parent node) "" then ""
  else if String.eqb (Parent node) "." then Name node
  else Parent node +:+ "/" +:+ Name node.

(** definition.go, [findNodeByPath]. *)
Definition findNodeByPath (ast : Document) (path uri : string) : option Location :=
  let pathToNode :=
    fold_left (fun (m : gmap string Node) node => <[nodePathOf node := node]> m)
      (Nodes ast) ∅ in
  match pathToNode !! path with
  | Some node => Some (locationOf uri (nRange node))
  | None => None
  end.

(** definition.go, [findDefinition]; [resolveResourcePath] looks at the
    file system and is a parameter here. *)
Definition findDefinition (resolveResourcePath : string -> string -> option Location)
    (ast : Document) (uri : string) (line col : Z) : option Location :=
  let inProperties (props : list Property) :=
    firstSome (fun prop => findDefinitionInValue (Some (pValue prop)) ast uri line col)
      props in
  match firstSome (fun sub => inProperties (sProperties sub)) (SubResources ast) with
  | Some loc => Some loc
  | None =>
    match firstSome
            (fun node =>
               match findDefinitionInValue (Instance node) ast uri line col with
               | Some loc => Some loc
               | None => inProperties (nProperties node)
               end) (Nodes ast) with
    | Some loc => Some loc
    | None =>
      match List.find (fun ext => isInRange (eRange ext) line col) (ExtResources ast) with
      | Some ext => resolveResourcePath (Path ext) uri
      | None =>
        match List.find
                (fun node => isInRange (nRange node) line col
                             && negb (String.eqb (Parent node) "")
                             && negb (String.eqb (Parent node) "."))
                (Nodes ast) with
        | Some node => findNodeByPath ast (Parent node) uri
        | None => None
        end
      end
    end
  end.

(** references.go, the closure [findInValue] of [findResourceReferences],
    on a value that is not nil. *)
Fixpoint findInValue (id refType uri : string) (v : Value)
    (locations : list Location) : list Location :=
  match v with
  | ResourceRef r valType valID _ =>
    if String.eqb valType refType && String.eqb valID id
    then (locations ++ [locationOf uri r])%list
    else locations
  | ArrayValue _ values =>
    fold_left (fun locations elem => findInValue id refType uri elem locations)
      values locations
  | DictValue _ entries =>
    fold_left (fun locations (entry : Range * Value * Value) =>
                 let '(_, _, value) := entry in
                 findInValue id refType uri value locations)
      entries locations
  | TypedValue _ _ _ args =>
    fold_left (fun locations arg => findInValue id refType uri arg locations)
      args locations
  | _ => locations
  end.

(** references.go, [findResourceReferences]. *)
Definition findResourceReferences (ast : Document) (id refType uri : string)
    : list Location :=
  let inProperties (props : list Property) (locations : list Location) :=
    fold_left (fun locations prop => findInValue id refType uri (pValue prop) locations)
      props locations in
  let locations :=
    fold_left (fun locations sub => inProperties (sProperties sub) locations)
      (SubResources ast) [] in
  fold_left
    (fun locations node =>
       let locations :=
         match Instance node with
         | Some v => findInValue id refType uri v locations
         | None => locations
         end in
       inProperties (nProperties node) locations)
    (Nodes ast) locations.

(** references.go, [findNodeReferences]. *)
Definition findNodeReferences (ast : Document) (nodePath uri : string)
    : list Location :=
  let locations :=
    fold_left
      (fun locations node =>
         if String.eqb (Parent node) nodePath
            || (String.eqb nodePath "" && String.eqb (Parent node) ".")
         then (locations ++ [locationOf uri (nRange node)])%list
         else locations)
      (Nodes ast) [] in
  fold_left
    (fun locations conn =>
       if String.eqb (From conn) nodePath || String.eqb (To conn) nodePath
       then (locations ++ [locationOf uri (cRange conn)])%list
       else locations)
    (Connections ast) locations.

(** references.go, [findReferences]. *)
Definition findReferences (ast : Document) (uri : string) (line col : Z)
    (includeDeclaration : bool) : list Location :=
  let declaration (r : Range) : list Location :=
    if includeDeclaration then [locationOf uri r] else [] in
  match List.find (fun ext => isInRange (eRange ext) line col) (ExtResources ast) with
  | Some ext =>
    (declaration (eRange ext)
     ++ findResourceReferences ast (eID ext) "ExtResource" uri)%list
  | None =>
    match List.find (fun sub => isInRange (sRange sub) line col) (SubResources ast) with
    | Some sub =>
      (declaration (sRange sub)
       ++ findResourceReferences ast (sID sub) "SubResource" uri)%list
    | None =>
      match List.find (fun node => isInRange (nRange node) line col) (Nodes ast) with
      | Some node =>
        (declaration (nRange node)
         ++ findNodeReferences ast (nodePathOf node) uri)%list
      | None => []
      end
    end
  end.

(** The protocol types of document symbols. *)
Inductive ProtoSymbolKind :=
| SymbolKindFile | SymbolKindModule | SymbolKindClass | SymbolKindMethod
| SymbolKindField | SymbolKindInterface | SymbolKindFunction
| SymbolKindEvent | SymbolKindStruct.

Inductive DocumentSymbol := mkDocumentSymbol {
  dsName : string; dsDetail : string; dsKind : ProtoSymbolKind;
  dsRange : ProtoRange; dsSelectionRange : ProtoRange;
  dsChildren : list DocumentSymbol }.

(** symbols.go, [getNodeSymbolKind]. *)
Definition getNodeSymbolKind (nodeType : string) : ProtoSymbolKind :=
  if existsb (String.eqb nodeType) ["Node"; "Node2D"; "Node3D"]
  then SymbolKindClass
  else if existsb (String.eqb nodeType)
            ["Control"; "Label"; "Button"; "TextEdit"; "LineEdit"]
  then SymbolKindInterface
  else if existsb (String.eqb nodeType) ["Camera2D"; "Camera3D"]
  then SymbolKindFunction
  else if existsb (String.eqb nodeType) ["Sprite2D"; "Sprite3D"; "MeshInstance3D"]
  then SymbolKindField
  else if existsb (String.eqb nodeType) ["CollisionShape2D"; "CollisionShape3D"]
  then SymbolKindStruct
  else if existsb (String.eqb nodeType) ["AnimationPlayer"; "AnimationTree"]
  then SymbolKindMethod
  else if String.eqb nodeType "Timer" then SymbolKindEvent
  else if String.eqb nodeType "" then SymbolKindModule
  else SymbolKindClass.

(** The first pass of [buildNodeTree]: the node and its children by path,
    and the root node. *)
Definition nodeInfos (nodes : list Node)
    : gmap string (Node * list Node) * option Node :=
  fold_left
    (fun (acc : gmap string (Node * list Node) * option Node) node =>
       let '(pathToNode, rootNode) := acc in
       let rootNode := if String.eqb (Parent node) "" then Some node else rootNode in
       (<[nodePathOf node := (node, [])]> pathToNode, rootNode))
    nodes (∅, None).

(** The second pass: every node but a root is appended to the children
    of the node at its parent's path, if there is one. *)
Definition linkChildren (nodes : list Node) (pathToNode : gmap string (Node * list Node))
    : gmap string (Node * list Node) :=
  fold_left
    (fun (pathToNode : gmap string (Node * list Node)) node =>
       if String.eqb (Parent node) "" then pathToNode
       else
         let parentPath := if String.eqb (Parent node) "." then "" else Parent node in
         match pathToNode !! parentPath with
         | Some (parent, children) =>
           <[parentPath := (parent, (children ++ [node])%list)]> pathToNode
         | None => pathToNode
         end)
    nodes pathToNode.

(** The closure [buildSymbol]; [fuel] bounds the depth of the recursion,
    [None] when it is used up. *)
Fixpoint buildSymbol (pathToNode : gmap string (Node * list Node)) (fuel : nat)
    (node : Node) (path : string) : option DocumentSymbol :=
  match fuel with
  | O => None
  | S f =>
    let detail := if String.eqb (nType node) "" then "(instance)" else nType node in
    let children :=
      match pathToNode !! path with
      | Some (_, children) =>
        mapM (fun child =>
                let childPath :=
                  if String.eqb path "" then Name child
                  else path +:+ "/" +:+ Name child in
                buildSymbol pathToNode f child childPath) children
      | None => Some []
      end in
    match children with
    | Some children =>
      Some (mkDocumentSymbol (Name node) detail (getNodeSymbolKind (nType node))
              (protoRange (nRange node)) (protoRange (nRange node)) children)
    | None => None
    end
  end.

(** symbols.go, [buildNodeTree]; a nil slice is the empty list. *)
Definition buildNodeTree (fuel : nat) (nodes : list Node)
    : option (list DocumentSymbol) :=
  match nodes with
  | [] => Some []
  | _ =>
    let '(pathToNode, rootNode) := nodeInfos nodes in
    let pathToNode := linkChildren nodes pathToNode in
    match rootNode with
    | None => Some []
    | Some root =>
      match buildSymbol pathToNode fuel root "" with
      | Some sym => Some [sym]
      | None => None
      end
    end
  end.

End Lsp.

(* --------------------------------------------------------------------- *)
(** ** Package gdshader: the type system (types.go) *)
(* --------------------------------------------------------------------- *)

Module GDShader.

Record Position := mkPosition { Line : nat; Column : nat }.
Record Range := mkRange { Start : Position; End : Position }.
Definition zeroRange : Range := mkRange (mkPosition 0 0) (mkPosition 0 0).

Inductive TypeKind :=
| TypeKindVoid | TypeKindBool | TypeKindInt | TypeKindUint | TypeKindFloat
| TypeKindVec2 | TypeKindVec3 | TypeKindVec4
| TypeKindBvec2 | TypeKindBvec3 | TypeKindBvec4
| TypeKindIvec2 | TypeKindIvec3 | TypeKindIvec4
| TypeKindUvec2 | TypeKindUvec3 | TypeKindUvec4
| TypeKindMat2 | TypeKindMat3 | TypeKindMat4
| TypeKindSampler2D | TypeKindSampler2DArray | TypeKindSampler3D
| TypeKindSamplerCube | TypeKindSamplerCubeArray | TypeKindSamplerExternalOES
| TypeKindIsampler2D | TypeKindIsampler2DArray | TypeKindIsampler3D
| TypeKindUsampler2D | TypeKindUsampler2DArray | TypeKindUsampler3D
| TypeKindStruct | TypeKindArray | TypeKindError.

#[global] Instance TypeKind_eq_dec : EqDecision TypeKind.
Proof. solve_decision. Defined.

Definition kindEq (a b : TypeKind) : bool := bool_decide (a = b).

(** The Go struct [Type]; a [*Type] is an [option Ty], nil being [None]. *)
Inductive Ty := mkTy {
  Kind : TypeKind;
  TName : string;
  ArraySize : Z;
  ElementType : option Ty;
  Fields : list (string * option Ty) }.

Definition prim (k : TypeKind) : Ty := mkTy k "" 0 None [].

Definition TypeVoid := prim TypeKindVoid.
Definition TypeBool := prim TypeKindBool.
Definition TypeInt := prim TypeKindInt.
Definition TypeUint := prim TypeKindUint.
Definition TypeFloat := prim TypeKindFloat.
Definition TypeVec2 := prim TypeKindVec2.
Definition TypeVec3 := prim TypeKindVec3.
Definition TypeVec4 := prim TypeKindVec4.
Definition TypeBvec2 := prim TypeKindBvec2.
Definition TypeBvec3 := prim TypeKindBvec3.
Definition TypeBvec4 := prim TypeKindBvec4.
Definition TypeIvec2 := prim TypeKindIvec2.
Definition TypeIvec3 := prim TypeKindIvec3.
Definition TypeIvec4 := prim TypeKindIvec4.
Definition TypeUvec2 := prim TypeKindUvec2.
Definition TypeUvec3 := prim TypeKindUvec3.
Definition TypeUvec4 := prim TypeKindUvec4.
Definition TypeMat2 := prim TypeKindMat2.
Definition TypeMat3 := prim TypeKindMat3.
Definition TypeMat4 := prim TypeKindMat4.
Definition TypeError := prim TypeKindError.
Definition TypeSampler2D := prim TypeKindSampler2D.
Definition TypeSampler2DArray := prim TypeKindSampler2DArray.
Definition TypeSampler3D := prim TypeKindSampler3D.
Definition TypeSamplerCube := prim TypeKindSamplerCube.
Definition TypeSamplerCubeArray := prim TypeKindSamplerCubeArray.
Definition TypeSamplerExternalOES := prim TypeKindSamplerExternalOES.
Definition TypeIsampler2D := prim TypeKindIsampler2D.
Definition TypeIsampler2DArray := prim TypeKindIsampler2DArray.
Definition TypeIsampler3D := prim TypeKindIsampler3D.
Definition TypeUsampler2D := prim TypeKindUsampler2D.
Definition TypeUsampler2DArray := prim TypeKindUsampler2DArray.
Definition TypeUsampler3D := prim TypeKindUsampler3D.

(** [Type.String] on a non-nil receiver, then on any receiver. *)
Fixpoint TyString (t : Ty) : string :=
  match t with
  | mkTy k name size elem _ =>
    let elemString :=
      match elem with None => "error" | Some e => TyString e end in
    match k with
    | TypeKindVoid => "void" | TypeKindBool => "bool" | TypeKindInt => "int"
    | TypeKindUint => "uint" | TypeKindFloat => "float"
    | TypeKindVec2 => "vec2" | TypeKindVec3 => "vec3" | TypeKindVec4 => "vec4"
    | TypeKindBvec2 => "bvec2" | TypeKindBvec3 => "bvec3" | TypeKindBvec4 => "bvec4"
    | TypeKindIvec2 => "ivec2" | TypeKindIvec3 => "ivec3" | TypeKindIvec4 => "ivec4"
    | TypeKindUvec2 => "uvec2" | TypeKindUvec3 => "uvec3" | TypeKindUvec4 => "uvec4"
    | TypeKindMat2 => "mat2" | TypeKindMat3 => "mat3" | TypeKindMat4 => "mat4"
    | TypeKindSampler2D => "sampler2D"
    | TypeKindSampler2DArray => "sampler2DArray"
    | TypeKindSampler3D => "sampler3D"
    | TypeKindSamplerCube => "samplerCube"
    | TypeKindSamplerCubeArray => "samplerCubeArray"
    | TypeKindSamplerExternalOES => "samplerExternalOES"
    | TypeKindIsampler2D => "isampler2D"
    | TypeKindIsampler2DArray => "isampler2DArray"
    | TypeKindIsampler3D => "isampler3D"
    | TypeKindUsampler2D => "usampler2D"
    | TypeKindUsampler2DArray => "usampler2DArray"
    | TypeKindUsampler3D => "usampler3D"
    | TypeKindStruct => name
    | TypeKindArray =>
      if (size <? 0)%Z then elemString +:+ "[]"
      else elemString +:+ "[" +:+ pretty size +:+ "]"
    | TypeKindError => "error"
    end
  end.

Definition TypeString (t : option Ty) : string :=
  match t with None => "error" | Some t => TyString t end.

(** [Type.Equals] on a non-nil receiver, then on any receiver. *)
Fixpoint EqualsTy (t : Ty) (other : option Ty) : bool :=
  match t, other with
  | _, None => false
  | mkTy k name size elem _, Some o =>
    if negb (kindEq k (Kind o)) then false
    else if kindEq k TypeKindStruct then String.eqb name (TName o)
    else if kindEq k TypeKindArray
    then (size =? ArraySize o)%Z &&
         match elem with
         | None => match ElementType o with None => true | Some _ => false end
         | Some e => EqualsTy e (ElementType o)
         end
    else true
  end.

Definition Equals (t other : option Ty) : bool :=
  match t with
  | None => match other with None => true | Some _ => false end
  | Some t => EqualsTy t other
  end.

Definition IsScalar (t : Ty) : bool :=
  match Kind t with
  | TypeKindBool | TypeKindInt | TypeKindUint | TypeKindFloat => true
  | _ => false
  end.

Definition IsVector (t : Ty) : bool :=
  match Kind t with
  | TypeKindVec2 | TypeKindVec3 | TypeKindVec4
  | TypeKindBvec2 | TypeKindBvec3 | TypeKindBvec4
  | TypeKindIvec2 | TypeKindIvec3 | TypeKindIvec4
  | TypeKindUvec2 | TypeKindUvec3 | TypeKindUvec4 => true
  | _ => false
  end.

Definition IsMatrix (t : Ty) : bool :=
  match Kind t with
  | TypeKindMat2 | TypeKindMat3 | TypeKindMat4 => true
  | _ => false
  end.

Definition IsNumeric (t : Ty) : bool :=
  match Kind t with
  | TypeKindInt | TypeKindUint | TypeKindFloat => true
  | _ => false
  end.

Definition IsInteger (t : Ty) : bool :=
  match Kind t with
  | TypeKindInt | TypeKindUint => true
  | _ => false
  end.

Definition VectorSize (t : Ty) : Z :=
  match Kind t with
  | TypeKindVec2 | TypeKindBvec2 | TypeKindIvec2 | TypeKindUvec2 => 2
  | TypeKindVec3 | TypeKindBvec3 | TypeKindIvec3 | TypeKindUvec3 => 3
  | TypeKindVec4 | TypeKindBvec4 | TypeKindIvec4 | TypeKindUvec4 => 4
  | _ => 0
  end.

Definition MatrixSize (t : Ty) : Z :=
  match Kind t with
  | TypeKindMat2 => 2 | TypeKindMat3 => 3 | TypeKindMat4 => 4
  | _ => 0
  end.

Definition ComponentType (t : Ty) : option Ty :=
  match Kind t with
  | TypeKindVec2 | TypeKindVec3 | TypeKindVec4 => Some TypeFloat
  | TypeKindBvec2 | TypeKindBvec3 | TypeKindBvec4 => Some TypeBool
  | TypeKindIvec2 | TypeKindIvec3 | TypeKindIvec4 => Some TypeInt
  | TypeKindUvec2 | TypeKindUvec3 | TypeKindUvec4 => Some TypeUint
  | TypeKindMat2 | TypeKindMat3 | TypeKindMat4 => Some TypeFloat
  | _ => None
  end.

Definition typeNames : list (string * Ty) :=
  [ ("void", TypeVoid); ("bool", TypeBool); ("int", TypeInt);
    ("uint", TypeUint); ("float", TypeFloat);
    ("vec2", TypeVec2); ("vec3", TypeVec3); ("vec4", TypeVec4);
    ("bvec2", TypeBvec2); ("bvec3", TypeBvec3); ("bvec4", TypeBvec4);
    ("ivec2", TypeIvec2); ("ivec3", TypeIvec3); ("ivec4", TypeIvec4);
    ("uvec2", TypeUvec2); ("uvec3", TypeUvec3); ("uvec4", TypeUvec4);
    ("mat2", TypeMat2); ("mat3", TypeMat3); ("mat4", TypeMat4);
    ("sampler2D", TypeSampler2D); ("sampler2DArray", TypeSampler2DArray);
    ("sampler3D", TypeSampler3D); ("samplerCube", TypeSamplerCube);
    ("samplerCubeArray", TypeSamplerCubeArray);
    ("samplerExternalOES", TypeSamplerExternalOES);
    ("isampler2D", TypeIsampler2D); ("isampler2DArray", TypeIsampler2DArray);
    ("isampler3D", TypeIsampler3D); ("usampler2D", TypeUsampler2D);
    ("usampler2DArray", TypeUsampler2DArray); ("usampler3D", TypeUsampler3D) ].

(** [TypeFromName]: the [switch] over the names; nil for any other. *)
Definition TypeFromName (name : string) : option Ty :=
  snd <$> List.find (fun e => String.eqb name (fst e)) typeNames.

Definition MakeArrayType (elemType : option Ty) (size : Z) : Ty :=
  mkTy TypeKindArray "" size elemType [].

Definition MakeStructType (name : string) (fields : list (string * option Ty)) : Ty :=
  mkTy TypeKindStruct name 0 None fields.

Definition VectorTypeForSize (componentType : Ty) (size : Z) : Ty :=
  match Kind componentType, size with
  | TypeKindFloat, 2%Z => TypeVec2
  | TypeKindFloat, 3%Z => TypeVec3
  | TypeKindFloat, 4%Z => TypeVec4
  | TypeKindInt, 2%Z => TypeIvec2
  | TypeKindInt, 3%Z => TypeIvec3
  | TypeKindInt, 4%Z => TypeIvec4
  | TypeKindUint, 2%Z => TypeUvec2
  | TypeKindUint, 3%Z => TypeUvec3
  | TypeKindUint, 4%Z => TypeUvec4
  | TypeKindBool, 2%Z => TypeBvec2
  | TypeKindBool, 3%Z => TypeBvec3
  | TypeKindBool, 4%Z => TypeBvec4
  | _, _ => TypeError
  end.

Definition CanImplicitlyConvert (srcType dstType : option Ty) : bool :=
  match srcType, dstType with
  | Some s, Some d =>
    if Equals srcType dstType then true
    else match Kind s, Kind d with
    | TypeKindInt, TypeKindFloat | TypeKindUint, TypeKindFloat
    | TypeKindInt, TypeKindUint
    | TypeKindIvec2, TypeKindVec2 | TypeKindIvec3, TypeKindVec3
    | TypeKindIvec4, TypeKindVec4
    | TypeKindUvec2, TypeKindVec2 | TypeKindUvec3, TypeKindVec3
    | TypeKindUvec4, TypeKindVec4 => true
    | _, _ => false
    end
  | _, _ => false
  end.


(** [CommonType]; the one recursive call is on component types, which are
    scalars, so [rec] is only ever asked about scalars. *)
Definition CommonTypeWith (rec : option Ty -> option Ty -> option Ty)
    (left right : option Ty) : option Ty :=
  match left, right with
  | Some l, Some r =>
    if Equals left right then left
    else if IsNumeric l && IsNumeric r then
      if kindEq (Kind l) TypeKindFloat || kindEq (Kind r) TypeKindFloat
      then Some TypeFloat
      else if kindEq (Kind l) TypeKindUint || kindEq (Kind r) TypeKindUint
      then Some TypeUint
      else Some TypeInt
    else if IsVector l && IsScalar r && CanImplicitlyConvert right (ComponentType l)
    then left
    else if IsVector r && IsScalar l && CanImplicitlyConvert left (ComponentType r)
    then right
    else if IsVector l && IsVector r && (VectorSize l =? VectorSize r)%Z then
      match rec (ComponentType l) (ComponentType r) with
      | Some commonComp => Some (VectorTypeForSize commonComp (VectorSize l))
      | None => None
      end
    else None
  | _, _ => None
  end.

Definition CommonType : option Ty -> option Ty -> option Ty :=
  CommonTypeWith (CommonTypeWith (fun _ _ => None)).

(** Swizzle tables, keyed by rune. *)
Definition swizzleTable : list (Z * (Z * Z)) :=
  (* rune, (index, set) *)
  [ (120, (0, 0)); (121, (1, 0)); (122, (2, 0)); (119, (3, 0));   (* x y z w *)
    (114, (0, 1)); (103, (1, 1)); (98, (2, 1)); (97, (3, 1));     (* r g b a *)
    (115, (0, 2)); (116, (1, 2)); (112, (2, 2)); (113, (3, 2)) ]%Z. (* s t p q *)

Definition ValidSwizzleChars (ch : Z) : option Z :=
  (fun e => fst (snd e)) <$> List.find (fun e => (fst e =? ch)%Z) swizzleTable.

Definition SwizzleSet (ch : Z) : Z :=
  default 0%Z
    ((fun e => snd (snd e)) <$> List.find (fun e => (fst e =? ch)%Z) swizzleTable).

(** The loop of [ValidateSwizzle] over the runes of the swizzle. *)
Fixpoint swizzleLoop (vectorType : Ty) (vecSize : Z) (seenSet : Z)
    (chars : list Z) : option string :=
  match chars with
  | [] => None
  | ch :: rest =>
    match ValidSwizzleChars ch with
    | None => Some ("invalid swizzle character '" +:+ utf8.EncodeRune ch +:+ "'")
    | Some idx =>
      let set := SwizzleSet ch in
      if negb (seenSet =? -1)%Z && negb (set =? seenSet)%Z
      then Some "cannot mix swizzle sets (xyzw, rgba, stpq)"
      else if (idx >=? vecSize)%Z
      then Some ("swizzle component '" +:+ utf8.EncodeRune ch +:+ "' invalid for "
                 +:+ TyString vectorType)
      else swizzleLoop vectorType vecSize set rest
    end
  end.

(** [ValidateSwizzle]: the result type, or the error. *)
Definition ValidateSwizzle (vectorType : Ty) (swizzle : string)
    : option Ty * option string :=
  if negb (IsVector vectorType)
  then (None, Some "swizzle can only be applied to vector types")
  else
    let vecSize := VectorSize vectorType in
    if (String.length swizzle =? 0)%nat || (4 <? String.length swizzle)%nat
    then (None, Some "swizzle must have 1-4 components")
    else match swizzleLoop vectorType vecSize (-1) (utf8.runes swizzle) with
    | Some err => (None, Some err)
    | None =>
      let compType := ComponentType vectorType in
      if (String.length swizzle =? 1)%nat then (compType, None)
      else match compType with
      | Some c => (Some (VectorTypeForSize c (Z.of_nat (String.length swizzle))), None)
      | None => (None, None) (* not reached: a vector has a component type *)
      end
    end.

(** The operator tokens; [operatorToTokenType] gives no other token. *)
Inductive TokenType :=
| TokenError
| TokenAssign | TokenPlus | TokenMinus | TokenStar | TokenSlash | TokenPercent
| TokenAmpersand | TokenPipe | TokenCaret | TokenTilde | TokenBang
| TokenLT | TokenGT | TokenLTE | TokenGTE | TokenEQ | TokenNE
| TokenAnd | TokenOr | TokenLeftShift | TokenRightShift
| TokenPlusAssign | TokenMinusAssign | TokenStarAssign | TokenSlashAssign
| TokenPercentAssign | TokenAmpAssign | TokenPipeAssign | TokenCaretAssign
| TokenLeftShiftAssign | TokenRightShiftAssign
| TokenIncrement | TokenDecrement.

#[global] Instance TokenType_eq_dec : EqDecision TokenType.
Proof. solve_decision. Defined.

Definition isErrorKind (t : Ty) : bool := kindEq (Kind t) TypeKindError.

(** [BinaryOpResultType]; the result can be nil, through [CommonType]. *)
Definition BinaryOpResultType (op : TokenType) (left right : option Ty) : option Ty :=
  match left, right with
  | Some l, Some r =>
    if isErrorKind l || isErrorKind r then Some TypeError
    else match op with
    | TokenLT | TokenLTE | TokenGT | TokenGTE =>
      if IsNumeric l && IsNumeric r then Some TypeBool
      else if IsVector l && IsVector r && (VectorSize l =? VectorSize r)%Z
      then Some (VectorTypeForSize TypeBool (VectorSize l))
      else Some TypeError
    | TokenEQ | TokenNE =>
      if Equals left right || CanImplicitlyConvert left right
         || CanImplicitlyConvert right left
      then if IsVector l then Some (VectorTypeForSize TypeBool (VectorSize l))
           else Some TypeBool
      else Some TypeError
    | TokenAnd | TokenOr =>
      if kindEq (Kind l) TypeKindBool && kindEq (Kind r) TypeKindBool
      then Some TypeBool else Some TypeError
    | TokenAmpersand | TokenPipe | TokenCaret | TokenLeftShift | TokenRightShift =>
      if IsInteger l && IsInteger r then CommonType left right
      else if kindEq (Kind l) TypeKindIvec2
              && (kindEq (Kind r) TypeKindIvec2 || kindEq (Kind r) TypeKindInt)
      then Some TypeIvec2
      else if kindEq (Kind l) TypeKindIvec3
              && (kindEq (Kind r) TypeKindIvec3 || kindEq (Kind r) TypeKindInt)
      then Some TypeIvec3
      else if kindEq (Kind l) TypeKindIvec4
              && (kindEq (Kind r) TypeKindIvec4 || kindEq (Kind r) TypeKindInt)
      then Some TypeIvec4
      else if kindEq (Kind l) TypeKindUvec2
              && (kindEq (Kind r) TypeKindUvec2 || kindEq (Kind r) TypeKindUint)
      then Some TypeUvec2
      else if kindEq (Kind l) TypeKindUvec3
              && (kindEq (Kind r) TypeKindUvec3 || kindEq (Kind r) TypeKindUint)
      then Some TypeUvec3
      else if kindEq (Kind l) TypeKindUvec4
              && (kindEq (Kind r) TypeKindUvec4 || kindEq (Kind r) TypeKindUint)
      then Some TypeUvec4
      else Some TypeError
    | TokenPlus | TokenMinus | TokenStar | TokenSlash =>
      if IsMatrix l && IsVector r && (MatrixSize l =? VectorSize r)%Z then right
      else if IsVector l && IsMatrix r && (MatrixSize r =? VectorSize l)%Z then left
      else if IsMatrix l && IsMatrix r && (MatrixSize l =? MatrixSize r)%Z then left
      else if IsMatrix l && IsScalar r && kindEq (Kind r) TypeKindFloat then left
      else if IsMatrix r && IsScalar l && kindEq (Kind l) TypeKindFloat then right
      else CommonType left right
    | TokenPercent =>
      if IsInteger l && IsInteger r then CommonType left right
      else Some TypeError
    | _ => Some TypeError
    end
  | _, _ => Some TypeError
  end.

Definition UnaryOpResultType (op : TokenType) (operand : option Ty) : option Ty :=
  match operand with
  | None => Some TypeError
  | Some o =>
    if isErrorKind o then Some TypeError
    else match op with
    | TokenMinus =>
      if IsNumeric o || IsVector o || IsMatrix o then operand else Some TypeError
    | TokenBang =>
      if kindEq (Kind o) TypeKindBool then Some TypeBool
      else if kindEq (Kind o) TypeKindBvec2 || kindEq (Kind o) TypeKindBvec3
              || kindEq (Kind o) TypeKindBvec4
      then operand else Some TypeError
    | TokenTilde =>
      if IsInteger o then operand
      else match Kind o with
      | TypeKindIvec2 | TypeKindIvec3 | TypeKindIvec4
      | TypeKindUvec2 | TypeKindUvec3 | TypeKindUvec4 => operand
      | _ => Some TypeError
      end
    | TokenIncrement | TokenDecrement =>
      if IsNumeric o then operand
      else if IsVector o then
        match ComponentType o with
        | Some c => if IsNumeric c then operand else Some TypeError
        | None => None (* not reached: a vector has a component type *)
        end
      else Some TypeError
    | _ => Some TypeError
    end
  end.

Definition IndexResultType (baseType : option Ty) : option Ty :=
  match baseType with
  | None => Some TypeError
  | Some b =>
    match Kind b with
    | TypeKindArray => ElementType b
    | TypeKindVec2 | TypeKindVec3 | TypeKindVec4 => Some TypeFloat
    | TypeKindIvec2 | TypeKindIvec3 | TypeKindIvec4 => Some TypeInt
    | TypeKindUvec2 | TypeKindUvec3 | TypeKindUvec4 => Some TypeUint
    | TypeKindBvec2 | TypeKindBvec3 | TypeKindBvec4 => Some TypeBool
    | TypeKindMat2 => Some TypeVec2
    | TypeKindMat3 => Some TypeVec3
    | TypeKindMat4 => Some TypeVec4
    | _ => Some TypeError
    end
  end.

Definition IsBuiltinTypeName (name : string) : bool :=
  match TypeFromName name with Some _ => true | None => false end.


(* --------------------------------------------------------------------- *)
(** ** Package gdshader: the syntax tree (ast.go) *)
(* --------------------------------------------------------------------- *)

(** [Expr] is a Go interface; [NilExpr] is its nil value. *)
Inductive Expr :=
| NilExpr
| LiteralExpr (r : Range) (kind value : string)
| IdentExpr (r : Range) (name : string)
| BinaryExpr (r : Range) (left : Expr) (operator : string) (right : Expr)
| UnaryExpr (r : Range) (operator : string) (operand : Expr) (isPrefix : bool)
| CallExpr (r : Range) (func : Expr) (args : list Expr)
| IndexExpr (r : Range) (e : Expr) (index : Expr)
| MemberExpr (r : Range) (e : Expr) (member : string)
| TernaryExpr (r : Range) (cond thenE elseE : Expr)
| ArrayExpr (r : Range) (elements : list Expr).

(** [Expr.GetRange]; calling it on the nil interface panics. *)
Definition ExprRange (e : Expr) : option Range :=
  match e with
  | NilExpr => None
  | LiteralExpr r _ _ | IdentExpr r _ | BinaryExpr r _ _ _ | UnaryExpr r _ _ _
  | CallExpr r _ _ | IndexExpr r _ _ | MemberExpr r _ _ | TernaryExpr r _ _ _
  | ArrayExpr r _ => Some r
  end.

Record TypeSpec := mkTypeSpec {
  tsRange : Range; Precision : string; tsName : string; tsArraySize : Expr }.

Record VarDecl := mkVarDecl {
  vdRange : Range; vdName : string; vdArraySize : Expr; Init : Expr }.

(** [Stmt] is a Go interface; [NilStmt] is its nil value. *)
Inductive Stmt :=
| NilStmt
| BlockStmt (r : Range) (stmts : list Stmt)
| VarDeclStmt (r : Range) (isConst : bool) (type : option TypeSpec)
    (decls : list VarDecl)
| ExprStmt (r : Range) (e : Expr)
| IfStmt (r : Range) (cond : Expr) (thenS elseS : Stmt)
| ForStmt (r : Range) (init : Stmt) (cond post : Expr) (body : Stmt)
| WhileStmt (r : Range) (cond : Expr) (body : Stmt)
| DoWhileStmt (r : Range) (body : Stmt) (cond : Expr)
| SwitchStmt (r : Range) (e : Expr) (cases : list CaseClause)
| ReturnStmt (r : Range) (value : Expr)
| BreakStmt (r : Range)
| ContinueStmt (r : Range)
| DiscardStmt (r : Range)
| EmptyStmt (r : Range)
with CaseClause :=
| mkCaseClause (r : Range) (values : list Expr) (body : list Stmt).

Record ShaderTypeDecl := mkShaderTypeDecl { stRange : Range; stType : string }.
Record RenderModeDecl := mkRenderModeDecl { rmRange : Range; Modes : list string }.
Record StructMember := mkStructMember {
  smRange : Range; smType : option TypeSpec; smName : string }.
Record StructDecl := mkStructDecl {
  sdRange : Range; sdName : string; Members : list StructMember }.
Record Hint := mkHint { hRange : Range; hName : string; hArgs : list Expr }.
Record UniformDecl := mkUniformDecl {
  uRange : Range; IsGlobal : bool; uType : option TypeSpec; uName : string;
  Hints : list Hint; DefaultValue : Expr; DocComment : string;
  GroupName : string }.
Record VaryingDecl := mkVaryingDecl {
  vRange : Range; Interpolation : string; vType : option TypeSpec;
  vName : string }.
Record ConstDecl := mkConstDecl {
  cRange : Range; cType : option TypeSpec; cName : string; cValue : Expr }.
Record ParamDecl := mkParamDecl {
  pRange : Range; Qualifier : string; pType : option TypeSpec; pName : string }.
(** [Body] is a [*BlockStmt]: the range and statements of the block. *)
Record FunctionDecl := mkFunctionDecl {
  fRange : Range; ReturnType : option TypeSpec; fName : string;
  Params : list ParamDecl; Body : option (Range * list Stmt) }.

Record ShaderDocument := mkShaderDocument {
  ShaderType : option ShaderTypeDecl;
  RenderModes : option RenderModeDecl;
  Structs : list StructDecl;
  Uniforms : list UniformDecl;
  Varyings : list VaryingDecl;
  Constants : list ConstDecl;
  Functions : list FunctionDecl }.

(* --------------------------------------------------------------------- *)
(** ** Package gdshader: the built-in registry (builtins.go) *)
(* --------------------------------------------------------------------- *)

(** The description texts of the registry are hover texts; the analyzer
    does not read them and they are left out. *)
Record FunctionSig := mkFunctionSig { sigParams : list string; sigReturn : string }.
Record BuiltinFunction := mkBuiltinFunction {
  bfName : string; Signatures : list FunctionSig }.
Record BuiltinVariable := mkBuiltinVariable {
  bvName : string; bvType : string; bvStage : string; ReadWrite : string }.
Record BuiltinConstant := mkBuiltinConstant {
  bcName : string; bcType : string; bcValue : string }.

Definition ShaderTypeSpatial := "spatial".
Definition ShaderTypeCanvasItem := "canvas_item".
Definition ShaderTypeParticles := "particles".
Definition ShaderTypeSky := "sky".
Definition ShaderTypeFog := "fog".

Definition sig (params : list string) (ret : string) : FunctionSig :=
  mkFunctionSig params ret.
Definition fn (name : string) (sigs : list FunctionSig)
    : string * BuiltinFunction := (name, mkBuiltinFunction name sigs).
Definition var (name type stage rw : string) : string * BuiltinVariable :=
  (name, mkBuiltinVariable name type stage rw).

Definition builtinFunctionList : list (string * BuiltinFunction) :=
  [
  fn "radians" [
      sig ["float"] "float";
      sig ["vec2"] "vec2";
      sig ["vec3"] "vec3";
      sig ["vec4"] "vec4" ];
  fn "degrees" [
      sig ["float"] "float";
      sig ["vec2"] "vec2";
      sig ["vec3"] "vec3";
      sig ["vec4"] "vec4" ];
  fn "sin" [
      sig ["float"] "float";
      sig ["vec2"] "vec2";
      sig ["vec3"] "vec3";
      sig ["vec4"] "vec4" ];
  fn "cos" [
      sig ["float"] "float";
      sig ["vec2"] "vec2";
      sig ["vec3"] "vec3";
      sig ["vec4"] "vec4" ];
  fn "tan" [
      sig ["float"] "float";
      sig ["vec2"] "vec2";
      sig ["vec3"] "vec3";
      sig ["vec4"] "vec4" ];
  fn "asin" [
      sig ["float"] "float";
      sig ["vec2"] "vec2";
      sig ["vec3"] "vec3";
      sig ["vec4"] "vec4" ];
  fn "acos" [
      sig ["float"] "float";
      sig ["vec2"] "vec2";
      sig ["vec3"] "vec3";
      sig ["vec4"] "vec4" ];
  fn "atan" [
      sig ["float"] "float";
      sig ["float"; "float"] "float";
      sig ["vec2"] "vec2";
      sig ["vec3"] "vec3";
      sig ["vec4"] "vec4" ];
  fn "sinh" [
      sig ["float"] "float";
      sig ["vec2"] "vec2";
      sig ["vec3"] "vec3";
      sig ["vec4"] "vec4" ];
  fn "cosh" [
      sig ["float"] "float";
      sig ["vec2"] "vec2";
      sig ["vec3"] "vec3";
      sig ["vec4"] "vec4" ];
  fn "tanh" [
      sig ["float"] "float";
      sig ["vec2"] "vec2";
      sig ["vec3"] "vec3";
      sig ["vec4"] "vec4" ];
  fn "asinh" [
      sig ["float"] "float";
      sig ["vec2"] "vec2";
      sig ["vec3"] "vec3";
      sig ["vec4"] "vec4" ];
  fn "acosh" [
      sig ["float"] "float";
      sig ["vec2"] "vec2";
      sig ["vec3"] "vec3";
      sig ["vec4"] "vec4" ];
  fn "atanh" [
      sig ["float"] "float";
      sig ["vec2"] "vec2";
      sig ["vec3"] "vec3";
      sig ["vec4"] "vec4" ];
  fn "pow" [
      sig ["float"; "float"] "float";
      sig ["vec2"; "vec2"] "vec2";
      sig ["vec3"; "vec3"] "vec3";
      sig ["vec4"; "vec4"] "vec4" ];
  fn "exp" [
      sig ["float"] "float";
      sig ["vec2"] "vec2";
      sig ["vec3"] "vec3";
      sig ["vec4"] "vec4" ];
  fn "exp2" [
      sig ["float"] "float";
      sig ["vec2"] "vec2";
      sig ["vec3"] "vec3";
      sig ["vec4"] "vec4" ];
  fn "log" [
      sig ["float"] "float";
      sig ["vec2"] "vec2";
      sig ["vec3"] "vec3";
      sig ["vec4"] "vec4" ];
  fn "log2" [
      sig ["float"] "float";
      sig ["vec2"] "vec2";
      sig ["vec3"] "vec3";
      sig ["vec4"] "vec4" ];
  fn "sqrt" [
      sig ["float"] "float";
      sig ["vec2"] "vec2";
      sig ["vec3"] "vec3";
      sig ["vec4"] "vec4" ];
  fn "inversesqrt" [
      sig ["float"] "float";
      sig ["vec2"] "vec2";
      sig ["vec3"] "vec3";
      sig ["vec4"] "vec4" ];
  fn "abs" [
      sig ["float"] "float";
      sig ["vec2"] "vec2";
      sig ["vec3"] "vec3";
      sig ["vec4"] "vec4";
      sig ["int"] "int";
      sig ["ivec2"] "ivec2";
      sig ["ivec3"] "ivec3";
      sig ["ivec4"] "ivec4" ];
  fn "sign" [
      sig ["float"] "float";
      sig ["vec2"] "vec2";
      sig ["vec3"] "vec3";
      sig ["vec4"] "vec4";
      sig ["int"] "int";
      sig ["ivec2"] "ivec2";
      sig ["ivec3"] "ivec3";
      sig ["ivec4"] "ivec4" ];
  fn "floor" [
      sig ["float"] "float";
      sig ["vec2"] "vec2";
      sig ["vec3"] "vec3";
      sig ["vec4"] "vec4" ];
  fn "ceil" [
      sig ["float"] "float";
      sig ["vec2"] "vec2";
      sig ["vec3"] "vec3";
      sig ["vec4"] "vec4" ];
  fn "round" [
      sig ["float"] "float";
      sig ["vec2"] "vec2";
      sig ["vec3"] "vec3";
      sig ["vec4"] "vec4" ];
  fn "roundEven" [
      sig ["float"] "float";
      sig ["vec2"] "vec2";
      sig ["vec3"] "vec3";
      sig ["vec4"] "vec4" ];
  fn "trunc" [
      sig ["float"] "float";
      sig ["vec2"] "vec2";
      sig ["vec3"] "vec3";
      sig ["vec4"] "vec4" ];
  fn "fract" [
      sig ["float"] "float";
      sig ["vec2"] "vec2";
      sig ["vec3"] "vec3";
      sig ["vec4"] "vec4" ];
  fn "mod" [
      sig ["float"; "float"] "float";
      sig ["vec2"; "float"] "vec2";
      sig ["vec2"; "vec2"] "vec2";
      sig ["vec3"; "float"] "vec3";
      sig ["vec3"; "vec3"] "vec3";
      sig ["vec4"; "float"] "vec4";
      sig ["vec4"; "vec4"] "vec4" ];
  fn "min" [
      sig ["float"; "float"] "float";
      sig ["vec2"; "vec2"] "vec2";
      sig ["vec2"; "float"] "vec2";
      sig ["vec3"; "vec3"] "vec3";
      sig ["vec3"; "float"] "vec3";
      sig ["vec4"; "vec4"] "vec4";
      sig ["vec4"; "float"] "vec4";
      sig ["int"; "int"] "int";
      sig ["uint"; "uint"] "uint" ];
  fn "max" [
      sig ["float"; "float"] "float";
      sig ["vec2"; "vec2"] "vec2";
      sig ["vec2"; "float"] "vec2";
      sig ["vec3"; "vec3"] "vec3";
      sig ["vec3"; "float"] "vec3";
      sig ["vec4"; "vec4"] "vec4";
      sig ["vec4"; "float"] "vec4";
      sig ["int"; "int"] "int";
      sig ["uint"; "uint"] "uint" ];
  fn "clamp" [
      sig ["float"; "float"; "float"] "float";
      sig ["vec2"; "vec2"; "vec2"] "vec2";
      sig ["vec2"; "float"; "float"] "vec2";
      sig ["vec3"; "vec3"; "vec3"] "vec3";
      sig ["vec3"; "float"; "float"] "vec3";
      sig ["vec4"; "vec4"; "vec4"] "vec4";
      sig ["vec4"; "float"; "float"] "vec4";
      sig ["int"; "int"; "int"] "int";
      sig ["uint"; "uint"; "uint"] "uint" ];
  fn "mix" [
      sig ["float"; "float"; "float"] "float";
      sig ["vec2"; "vec2"; "float"] "vec2";
      sig ["vec2"; "vec2"; "vec2"] "vec2";
      sig ["vec3"; "vec3"; "float"] "vec3";
      sig ["vec3"; "vec3"; "vec3"] "vec3";
      sig ["vec4"; "vec4"; "float"] "vec4";
      sig ["vec4"; "vec4"; "vec4"] "vec4" ];
  fn "step" [
      sig ["float"; "float"] "float";
      sig ["float"; "vec2"] "vec2";
      sig ["float"; "vec3"] "vec3";
      sig ["float"; "vec4"] "vec4";
      sig ["vec2"; "vec2"] "vec2";
      sig ["vec3"; "vec3"] "vec3";
      sig ["vec4"; "vec4"] "vec4" ];
  fn "smoothstep" [
      sig ["float"; "float"; "float"] "float";
      sig ["float"; "float"; "vec2"] "vec2";
      sig ["float"; "float"; "vec3"] "vec3";
      sig ["float"; "float"; "vec4"] "vec4";
      sig ["vec2"; "vec2"; "vec2"] "vec2";
      sig ["vec3"; "vec3"; "vec3"] "vec3";
      sig ["vec4"; "vec4"; "vec4"] "vec4" ];
  fn "length" [
      sig ["float"] "float";
      sig ["vec2"] "float";
      sig ["vec3"] "float";
      sig ["vec4"] "float" ];
  fn "distance" [
      sig ["float"; "float"] "float";
      sig ["vec2"; "vec2"] "float";
      sig ["vec3"; "vec3"] "float";
      sig ["vec4"; "vec4"] "float" ];
  fn "dot" [
      sig ["float"; "float"] "float";
      sig ["vec2"; "vec2"] "float";
      sig ["vec3"; "vec3"] "float";
      sig ["vec4"; "vec4"] "float" ];
  fn "cross" [
      sig ["vec3"; "vec3"] "vec3" ];
  fn "normalize" [
      sig ["float"] "float";
      sig ["vec2"] "vec2";
      sig ["vec3"] "vec3";
      sig ["vec4"] "vec4" ];
  fn "reflect" [
      sig ["float"; "float"] "float";
      sig ["vec2"; "vec2"] "vec2";
      sig ["vec3"; "vec3"] "vec3";
      sig ["vec4"; "vec4"] "vec4" ];
  fn "refract" [
      sig ["float"; "float"; "float"] "float";
      sig ["vec2"; "vec2"; "float"] "vec2";
      sig ["vec3"; "vec3"; "float"] "vec3";
      sig ["vec4"; "vec4"; "float"] "vec4" ];
  fn "faceforward" [
      sig ["float"; "float"; "float"] "float";
      sig ["vec2"; "vec2"; "vec2"] "vec2";
      sig ["vec3"; "vec3"; "vec3"] "vec3";
      sig ["vec4"; "vec4"; "vec4"] "vec4" ];
  fn "matrixCompMult" [
      sig ["mat2"; "mat2"] "mat2";
      sig ["mat3"; "mat3"] "mat3";
      sig ["mat4"; "mat4"] "mat4" ];
  fn "transpose" [
      sig ["mat2"] "mat2";
      sig ["mat3"] "mat3";
      sig ["mat4"] "mat4" ];
  fn "inverse" [
      sig ["mat2"] "mat2";
      sig ["mat3"] "mat3";
      sig ["mat4"] "mat4" ];
  fn "determinant" [
      sig ["mat2"] "float";
      sig ["mat3"] "float";
      sig ["mat4"] "float" ];
  fn "outerProduct" [
      sig ["vec2"; "vec2"] "mat2";
      sig ["vec3"; "vec3"] "mat3";
      sig ["vec4"; "vec4"] "mat4" ];
  fn "texture" [
      sig ["sampler2D"; "vec2"] "vec4";
      sig ["sampler2D"; "vec2"; "float"] "vec4";
      sig ["sampler2DArray"; "vec3"] "vec4";
      sig ["sampler3D"; "vec3"] "vec4";
      sig ["samplerCube"; "vec3"] "vec4" ];
  fn "textureSize" [
      sig ["sampler2D"; "int"] "ivec2";
      sig ["sampler2DArray"; "int"] "ivec3";
      sig ["sampler3D"; "int"] "ivec3";
      sig ["samplerCube"; "int"] "ivec2" ];
  fn "textureLod" [
      sig ["sampler2D"; "vec2"; "float"] "vec4";
      sig ["sampler2DArray"; "vec3"; "float"] "vec4";
      sig ["sampler3D"; "vec3"; "float"] "vec4";
      sig ["samplerCube"; "vec3"; "float"] "vec4" ];
  fn "textureProj" [
      sig ["sampler2D"; "vec3"] "vec4";
      sig ["sampler2D"; "vec4"] "vec4" ];
  fn "texelFetch" [
      sig ["sampler2D"; "ivec2"; "int"] "vec4";
      sig ["sampler2DArray"; "ivec3"; "int"] "vec4";
      sig ["sampler3D"; "ivec3"; "int"] "vec4" ];
  fn "textureGrad" [
      sig ["sampler2D"; "vec2"; "vec2"; "vec2"] "vec4";
      sig ["sampler3D"; "vec3"; "vec3"; "vec3"] "vec4";
      sig ["samplerCube"; "vec3"; "vec3"; "vec3"] "vec4" ];
  fn "dFdx" [
      sig ["float"] "float";
      sig ["vec2"] "vec2";
      sig ["vec3"] "vec3";
      sig ["vec4"] "vec4" ];
  fn "dFdy" [
      sig ["float"] "float";
      sig ["vec2"] "vec2";
      sig ["vec3"] "vec3";
      sig ["vec4"] "vec4" ];
  fn "fwidth" [
      sig ["float"] "float";
      sig ["vec2"] "vec2";
      sig ["vec3"] "vec3";
      sig ["vec4"] "vec4" ];
  fn "lessThan" [
      sig ["vec2"; "vec2"] "bvec2";
      sig ["vec3"; "vec3"] "bvec3";
      sig ["vec4"; "vec4"] "bvec4";
      sig ["ivec2"; "ivec2"] "bvec2";
      sig ["ivec3"; "ivec3"] "bvec3";
      sig ["ivec4"; "ivec4"] "bvec4" ];
  fn "greaterThan" [
      sig ["vec2"; "vec2"] "bvec2";
      sig ["vec3"; "vec3"] "bvec3";
      sig ["vec4"; "vec4"] "bvec4";
      sig ["ivec2"; "ivec2"] "bvec2";
      sig ["ivec3"; "ivec3"] "bvec3";
      sig ["ivec4"; "ivec4"] "bvec4" ];
  fn "equal" [
      sig ["vec2"; "vec2"] "bvec2";
      sig ["vec3"; "vec3"] "bvec3";
      sig ["vec4"; "vec4"] "bvec4";
      sig ["ivec2"; "ivec2"] "bvec2";
      sig ["ivec3"; "ivec3"] "bvec3";
      sig ["ivec4"; "ivec4"] "bvec4";
      sig ["bvec2"; "bvec2"] "bvec2";
      sig ["bvec3"; "bvec3"] "bvec3";
      sig ["bvec4"; "bvec4"] "bvec4" ];
  fn "notEqual" [
      sig ["vec2"; "vec2"] "bvec2";
      sig ["vec3"; "vec3"] "bvec3";
      sig ["vec4"; "vec4"] "bvec4";
      sig ["ivec2"; "ivec2"] "bvec2";
      sig ["ivec3"; "ivec3"] "bvec3";
      sig ["ivec4"; "ivec4"] "bvec4";
      sig ["bvec2"; "bvec2"] "bvec2";
      sig ["bvec3"; "bvec3"] "bvec3";
      sig ["bvec4"; "bvec4"] "bvec4" ];
  fn "any" [
      sig ["bvec2"] "bool";
      sig ["bvec3"] "bool";
      sig ["bvec4"] "bool" ];
  fn "all" [
      sig ["bvec2"] "bool";
      sig ["bvec3"] "bool";
      sig ["bvec4"] "bool" ];
  fn "not" [
      sig ["bvec2"] "bvec2";
      sig ["bvec3"] "bvec3";
      sig ["bvec4"] "bvec4" ];
  fn "floatBitsToInt" [
      sig ["float"] "int";
      sig ["vec2"] "ivec2";
      sig ["vec3"] "ivec3";
      sig ["vec4"] "ivec4" ];
  fn "floatBitsToUint" [
      sig ["float"] "uint";
      sig ["vec2"] "uvec2";
      sig ["vec3"] "uvec3";
      sig ["vec4"] "uvec4" ];
  fn "intBitsToFloat" [
      sig ["int"] "float";
      sig ["ivec2"] "vec2";
      sig ["ivec3"] "vec3";
      sig ["ivec4"] "vec4" ];
  fn "uintBitsToFloat" [
      sig ["uint"] "float";
      sig ["uvec2"] "vec2";
      sig ["uvec3"] "vec3";
      sig ["uvec4"] "vec4" ];
  fn "packHalf2x16" [
      sig ["vec2"] "uint" ];
  fn "unpackHalf2x16" [
      sig ["uint"] "vec2" ];
  fn "packUnorm2x16" [
      sig ["vec2"] "uint" ];
  fn "unpackUnorm2x16" [
      sig ["uint"] "vec2" ];
  fn "packSnorm2x16" [
      sig ["vec2"] "uint" ];
  fn "unpackSnorm2x16" [
      sig ["uint"] "vec2" ] ].

Definition GetSpatialVertexBuiltins : list (string * BuiltinVariable) :=
  [ var "VERTEX" "vec3" "vertex" "inout";
    var "NORMAL" "vec3" "vertex" "inout";
    var "TANGENT" "vec3" "vertex" "inout";
    var "BINORMAL" "vec3" "vertex" "inout";
    var "UV" "vec2" "vertex" "inout";
    var "UV2" "vec2" "vertex" "inout";
    var "COLOR" "vec4" "vertex" "inout";
    var "POINT_SIZE" "float" "vertex" "inout";
    var "INSTANCE_ID" "int" "vertex" "in";
    var "VERTEX_ID" "int" "vertex" "in";
    var "INSTANCE_CUSTOM" "vec4" "vertex" "in";
    var "MODEL_MATRIX" "mat4" "vertex" "in";
    var "MODEL_NORMAL_MATRIX" "mat3" "vertex" "in";
    var "VIEW_MATRIX" "mat4" "vertex" "in";
    var "INV_VIEW_MATRIX" "mat4" "vertex" "in";
    var "PROJECTION_MATRIX" "mat4" "vertex" "inout";
    var "INV_PROJECTION_MATRIX" "mat4" "vertex" "in";
    var "MODELVIEW_MATRIX" "mat4" "vertex" "in";
    var "MODELVIEW_NORMAL_MATRIX" "mat3" "vertex" "in";
    var "VIEWPORT_SIZE" "vec2" "vertex" "in";
    var "OUTPUT_IS_SRGB" "bool" "vertex" "in";
    var "NODE_POSITION_WORLD" "vec3" "vertex" "in";
    var "CAMERA_POSITION_WORLD" "vec3" "vertex" "in";
    var "CAMERA_DIRECTION_WORLD" "vec3" "vertex" "in";
    var "CAMERA_VISIBLE_LAYERS" "uint" "vertex" "in";
    var "POSITION" "vec4" "vertex" "out";
    var "TIME" "float" "vertex" "in" ].

Definition GetSpatialFragmentBuiltins : list (string * BuiltinVariable) :=
  [ var "VERTEX" "vec3" "fragment" "in";
    var "FRAGCOORD" "vec4" "fragment" "in";
    var "FRONT_FACING" "bool" "fragment" "in";
    var "NORMAL" "vec3" "fragment" "inout";
    var "TANGENT" "vec3" "fragment" "in";
    var "BINORMAL" "vec3" "fragment" "in";
    var "UV" "vec2" "fragment" "in";
    var "UV2" "vec2" "fragment" "in";
    var "COLOR" "vec4" "fragment" "in";
    var "ALBEDO" "vec3" "fragment" "out";
    var "ALPHA" "float" "fragment" "out";
    var "METALLIC" "float" "fragment" "out";
    var "ROUGHNESS" "float" "fragment" "out";
    var "SPECULAR" "float" "fragment" "out";
    var "RIM" "float" "fragment" "out";
    var "RIM_TINT" "float" "fragment" "out";
    var "CLEARCOAT" "float" "fragment" "out";
    var "CLEARCOAT_ROUGHNESS" "float" "fragment" "out";
    var "ANISOTROPY" "float" "fragment" "out";
    var "ANISOTROPY_FLOW" "vec2" "fragment" "out";
    var "SSS_STRENGTH" "float" "fragment" "out";
    var "SSS_TRANSMITTANCE_COLOR" "vec4" "fragment" "out";
    var "SSS_TRANSMITTANCE_DEPTH" "float" "fragment" "out";
    var "SSS_TRANSMITTANCE_BOOST" "float" "fragment" "out";
    var "BACKLIGHT" "vec3" "fragment" "out";
    var "AO" "float" "fragment" "out";
    var "AO_LIGHT_AFFECT" "float" "fragment" "out";
    var "EMISSION" "vec3" "fragment" "out";
    var "NORMAL_MAP" "vec3" "fragment" "out";
    var "NORMAL_MAP_DEPTH" "float" "fragment" "out";
    var "ALPHA_SCISSOR_THRESHOLD" "float" "fragment" "out";
    var "ALPHA_HASH_SCALE" "float" "fragment" "out";
    var "ALPHA_ANTIALIASING_EDGE" "float" "fragment" "out";
    var "ALPHA_TEXTURE_COORDINATE" "vec2" "fragment" "out";
    var "FOG" "vec4" "fragment" "out";
    var "MODEL_MATRIX" "mat4" "fragment" "in";
    var "MODEL_NORMAL_MATRIX" "mat3" "fragment" "in";
    var "VIEW_MATRIX" "mat4" "fragment" "in";
    var "INV_VIEW_MATRIX" "mat4" "fragment" "in";
    var "PROJECTION_MATRIX" "mat4" "fragment" "in";
    var "INV_PROJECTION_MATRIX" "mat4" "fragment" "in";
    var "VIEWPORT_SIZE" "vec2" "fragment" "in";
    var "NODE_POSITION_WORLD" "vec3" "fragment" "in";
    var "CAMERA_POSITION_WORLD" "vec3" "fragment" "in";
    var "CAMERA_DIRECTION_WORLD" "vec3" "fragment" "in";
    var "CAMERA_VISIBLE_LAYERS" "uint" "fragment" "in";
    var "VIEW" "vec3" "fragment" "in";
    var "TIME" "float" "fragment" "in";
    var "SCREEN_UV" "vec2" "fragment" "in";
    var "SCREEN_PIXEL_SIZE" "vec2" "fragment" "in";
    var "DEPTH" "float" "fragment" "out" ].

Definition GetSpatialLightBuiltins : list (string * BuiltinVariable) :=
  [ var "ALBEDO" "vec3" "light" "in";
    var "ROUGHNESS" "float" "light" "in";
    var "METALLIC" "float" "light" "in";
    var "SPECULAR" "float" "light" "in";
    var "BACKLIGHT" "vec3" "light" "in";
    var "AO" "float" "light" "in";
    var "LIGHT" "vec3" "light" "in";
    var "LIGHT_COLOR" "vec3" "light" "in";
    var "ATTENUATION" "float" "light" "in";
    var "SHADOW_ATTENUATION" "vec3" "light" "in";
    var "LIGHT_IS_DIRECTIONAL" "bool" "light" "in";
    var "VIEW" "vec3" "light" "in";
    var "NORMAL" "vec3" "light" "in";
    var "DIFFUSE_LIGHT" "vec3" "light" "out";
    var "SPECULAR_LIGHT" "vec3" "light" "out";
    var "ALPHA" "float" "light" "out" ].

Definition GetCanvasItemVertexBuiltins : list (string * BuiltinVariable) :=
  [ var "VERTEX" "vec2" "vertex" "inout";
    var "UV" "vec2" "vertex" "inout";
    var "COLOR" "vec4" "vertex" "inout";
    var "POINT_SIZE" "float" "vertex" "inout";
    var "MODEL_MATRIX" "mat4" "vertex" "in";
    var "CANVAS_MATRIX" "mat4" "vertex" "in";
    var "SCREEN_MATRIX" "mat4" "vertex" "in";
    var "INSTANCE_CUSTOM" "vec4" "vertex" "in";
    var "INSTANCE_ID" "int" "vertex" "in";
    var "VERTEX_ID" "int" "vertex" "in";
    var "AT_LIGHT_PASS" "bool" "vertex" "in";
    var "TEXTURE_PIXEL_SIZE" "vec2" "vertex" "in";
    var "TIME" "float" "vertex" "in" ].

Definition GetCanvasItemFragmentBuiltins : list (string * BuiltinVariable) :=
  [ var "FRAGCOORD" "vec4" "fragment" "in";
    var "UV" "vec2" "fragment" "in";
    var "COLOR" "vec4" "fragment" "inout";
    var "NORMAL" "vec3" "fragment" "out";
    var "NORMAL_MAP" "vec3" "fragment" "out";
    var "NORMAL_MAP_DEPTH" "float" "fragment" "out";
    var "TEXTURE" "sampler2D" "fragment" "in";
    var "TEXTURE_PIXEL_SIZE" "vec2" "fragment" "in";
    var "SCREEN_UV" "vec2" "fragment" "in";
    var "SCREEN_PIXEL_SIZE" "vec2" "fragment" "in";
    var "POINT_COORD" "vec2" "fragment" "in";
    var "AT_LIGHT_PASS" "bool" "fragment" "in";
    var "TIME" "float" "fragment" "in";
    var "SPECULAR_SHININESS" "vec4" "fragment" "in";
    var "VERTEX" "vec2" "fragment" "in" ].

Definition GetCanvasItemLightBuiltins : list (string * BuiltinVariable) :=
  [ var "FRAGCOORD" "vec4" "light" "in";
    var "NORMAL" "vec3" "light" "in";
    var "COLOR" "vec4" "light" "in";
    var "UV" "vec2" "light" "in";
    var "SPECULAR_SHININESS" "vec4" "light" "in";
    var "LIGHT_COLOR" "vec4" "light" "in";
    var "LIGHT_POSITION" "vec3" "light" "in";
    var "LIGHT_DIRECTION" "vec3" "light" "in";
    var "LIGHT_IS_DIRECTIONAL" "bool" "light" "in";
    var "LIGHT_ENERGY" "float" "light" "in";
    var "LIGHT_VERTEX" "vec3" "light" "in";
    var "LIGHT" "vec4" "light" "out";
    var "SHADOW_MODULATE" "vec4" "light" "in";
    var "SCREEN_UV" "vec2" "light" "in";
    var "TEXTURE" "sampler2D" "light" "in";
    var "TEXTURE_PIXEL_SIZE" "vec2" "light" "in";
    var "POINT_COORD" "vec2" "light" "in";
    var "TIME" "float" "light" "in" ].

Definition GetParticlesBuiltins : list (string * BuiltinVariable) :=
  [ var "COLOR" "vec4" "start" "inout";
    var "VELOCITY" "vec3" "start" "inout";
    var "MASS" "float" "start" "inout";
    var "ACTIVE" "bool" "start" "inout";
    var "RESTART" "bool" "start" "in";
    var "CUSTOM" "vec4" "start" "inout";
    var "TRANSFORM" "mat4" "start" "inout";
    var "LIFETIME" "float" "start" "in";
    var "DELTA" "float" "start" "in";
    var "NUMBER" "uint" "start" "in";
    var "INDEX" "int" "start" "in";
    var "EMISSION_TRANSFORM" "mat4" "start" "in";
    var "RANDOM_SEED" "uint" "start" "in";
    var "TIME" "float" "start" "in";
    var "INTERPOLATE_TO_END" "float" "start" "in";
    var "AMOUNT_RATIO" "float" "start" "in" ].

Definition GetSkyBuiltins : list (string * BuiltinVariable) :=
  [ var "RADIANCE" "vec3" "sky" "out";
    var "IRRADIANCE" "vec3" "sky" "out";
    var "FOG" "vec4" "sky" "out";
    var "AT_CUBEMAP_PASS" "bool" "sky" "in";
    var "AT_HALF_RES_PASS" "bool" "sky" "in";
    var "AT_QUARTER_RES_PASS" "bool" "sky" "in";
    var "EYEDIR" "vec3" "sky" "in";
    var "HALF_RES_COLOR" "vec4" "sky" "in";
    var "QUARTER_RES_COLOR" "vec4" "sky" "in";
    var "SCREEN_UV" "vec2" "sky" "in";
    var "SKY_COORDS" "vec2" "sky" "in";
    var "TIME" "float" "sky" "in";
    var "POSITION" "vec3" "sky" "in";
    var "LIGHT0_ENABLED" "bool" "sky" "in";
    var "LIGHT0_DIRECTION" "vec3" "sky" "in";
    var "LIGHT0_ENERGY" "float" "sky" "in";
    var "LIGHT0_COLOR" "vec3" "sky" "in";
    var "LIGHT0_SIZE" "float" "sky" "in";
    var "LIGHT1_ENABLED" "bool" "sky" "in";
    var "LIGHT1_DIRECTION" "vec3" "sky" "in";
    var "LIGHT1_ENERGY" "float" "sky" "in";
    var "LIGHT1_COLOR" "vec3" "sky" "in";
    var "LIGHT1_SIZE" "float" "sky" "in";
    var "LIGHT2_ENABLED" "bool" "sky" "in";
    var "LIGHT2_DIRECTION" "vec3" "sky" "in";
    var "LIGHT2_ENERGY" "float" "sky" "in";
    var "LIGHT2_COLOR" "vec3" "sky" "in";
    var "LIGHT2_SIZE" "float" "sky" "in";
    var "LIGHT3_ENABLED" "bool" "sky" "in";
    var "LIGHT3_DIRECTION" "vec3" "sky" "in";
    var "LIGHT3_ENERGY" "float" "sky" "in";
    var "LIGHT3_COLOR" "vec3" "sky" "in";
    var "LIGHT3_SIZE" "float" "sky" "in" ].

Definition GetFogBuiltins : list (string * BuiltinVariable) :=
  [ var "WORLD_POSITION" "vec3" "fog" "in";
    var "OBJECT_POSITION" "vec3" "fog" "in";
    var "UVW" "vec3" "fog" "in";
    var "SIZE" "vec3" "fog" "in";
    var "SDF" "float" "fog" "in";
    var "ALBEDO" "vec3" "fog" "out";
    var "DENSITY" "float" "fog" "out";
    var "EMISSION" "vec3" "fog" "out";
    var "TIME" "float" "fog" "in" ].

Definition BuiltinFunctions : gmap string BuiltinFunction :=
  list_to_map builtinFunctionList.

Definition builtinConstantList : list (string * BuiltinConstant) :=
  [ ("PI", mkBuiltinConstant "PI" "float" "3.14159265358979323846");
    ("TAU", mkBuiltinConstant "TAU" "float" "6.28318530717958647692");
    ("E", mkBuiltinConstant "E" "float" "2.71828182845904523536") ].

Definition BuiltinConstants : gmap string BuiltinConstant :=
  list_to_map builtinConstantList.


(* --------------------------------------------------------------------- *)
(** ** Package gdshader: the semantic analyzer (analyzer.go) *)
(* --------------------------------------------------------------------- *)

Record SemanticError := mkSemanticError { Message : string; seRange : Range }.

Inductive SymbolKind :=
| SymbolVariable | SymbolConstant | SymbolUniform | SymbolVarying
| SymbolFunction | SymbolStruct | SymbolParameter
| SymbolBuiltinVariable | SymbolBuiltinFunction.

Inductive Symbol := mkSymbol {
  symName : string;
  symType : option Ty;
  symKind : SymbolKind;
  symRange : Range;
  Constant : bool;
  ReadOnly : bool;
  WriteOnly : bool;
  Qualifiers : list string;
  Function : option FunctionSymbol }
with FunctionSymbol := mkFunctionSymbol {
  fsParams : list Symbol;
  fsReturnType : option Ty;
  IsBuiltin : bool }.

(** A scope with its chain of parents: the symbol tables from the
    innermost scope to the global one.  [currentScope] is the whole chain,
    [globalScope] its last table; [enterScope] and [exitScope] are only
    called in pairs, so the chain is never empty when a table is used. *)
Record Analyzer := mkAnalyzer {
  shaderType : string;
  scopes : list (gmap string Symbol);
  errors : list SemanticError;
  currentFunc : option FunctionDecl;
  currentStage : string;
  structs : gmap string Ty;
  loopDepth : Z;
  switchDepth : Z }.

Definition NewAnalyzer : Analyzer :=
  mkAnalyzer "" [∅] [] None "" ∅ 0 0.

(** The analyzer's methods: state passing, with [None] for a Go panic
    (a nil dereference). *)
Definition M (A : Type) : Type := SM Analyzer A.

Definition panic {A} : M A := fun _ => None.

(** Dereferencing a [*Type]. *)
Definition deref {A} (o : option A) : M A :=
  match o with Some x => ret x | None => panic end.

Fixpoint forEach {A} (f : A -> M unit) (l : list A) : M unit :=
  match l with
  | [] => ret tt
  | x :: rest => f x ;; forEach f rest
  end.

Definition mapM {A B} (f : A -> M B) : list A -> M (list B) :=
  fix go (l : list A) : M (list B) :=
    match l with
    | [] => ret []
    | x :: rest => y ← f x; ys ← go rest; ret (y :: ys)
    end.

Definition set_shaderType (v : string) (a : Analyzer) : Analyzer :=
  mkAnalyzer v (scopes a) (errors a) (currentFunc a) (currentStage a)
    (structs a) (loopDepth a) (switchDepth a).
Definition set_scopes (v : list (gmap string Symbol)) (a : Analyzer) : Analyzer :=
  mkAnalyzer (shaderType a) v (errors a) (currentFunc a) (currentStage a)
    (structs a) (loopDepth a) (switchDepth a).
Definition set_errors (v : list SemanticError) (a : Analyzer) : Analyzer :=
  mkAnalyzer (shaderType a) (scopes a) v (currentFunc a) (currentStage a)
    (structs a) (loopDepth a) (switchDepth a).
Definition set_currentFunc (v : option FunctionDecl) (a : Analyzer) : Analyzer :=
  mkAnalyzer (shaderType a) (scopes a) (errors a) v (currentStage a)
    (structs a) (loopDepth a) (switchDepth a).
Definition set_currentStage (v : string) (a : Analyzer) : Analyzer :=
  mkAnalyzer (shaderType a) (scopes a) (errors a) (currentFunc a) v
    (structs a) (loopDepth a) (switchDepth a).
Definition set_structs (v : gmap string Ty) (a : Analyzer) : Analyzer :=
  mkAnalyzer (shaderType a) (scopes a) (errors a) (currentFunc a)
    (currentStage a) v (loopDepth a) (switchDepth a).
Definition set_loopDepth (v : Z) (a : Analyzer) : Analyzer :=
  mkAnalyzer (shaderType a) (scopes a) (errors a) (currentFunc a)
    (currentStage a) (structs a) v (switchDepth a).
Definition set_switchDepth (v : Z) (a : Analyzer) : Analyzer :=
  mkAnalyzer (shaderType a) (scopes a) (errors a) (currentFunc a)
    (currentStage a) (structs a) (loopDepth a) v.

Definition addError (rng : Range) (msg : string) : M unit :=
  modify (fun a => set_errors (errors a ++ [mkSemanticError msg rng]) a).

Definition enterScope : M unit :=
  modify (fun a => set_scopes (∅ :: scopes a) a).

Definition exitScope : M unit :=
  modify (fun a => set_scopes (tail (scopes a)) a).

(** [Scope.define] on one table: the new table, or the error text. *)
Definition define (symbols : gmap string Symbol) (sym : Symbol)
    : gmap string Symbol * option string :=
  match symbols !! symName sym with
  | Some existing =>
    (symbols, Some ("symbol '" +:+ symName sym +:+ "' already defined at line "
                    +:+ pretty (Line (Start (symRange existing)) + 1)))
  | None => (<[symName sym := sym]> symbols, None)
  end.

(** [a.currentScope.define(sym)]. *)
Definition defineCurrent (sym : Symbol) : M (option string) := fun a =>
  match scopes a with
  | [] => None
  | s :: rest =>
    let '(s', err) := define s sym in Some (err, set_scopes (s' :: rest) a)
  end.

Fixpoint defineLast (chain : list (gmap string Symbol)) (sym : Symbol)
    : option (list (gmap string Symbol) * option string) :=
  match chain with
  | [] => None
  | [s] => let '(s', err) := define s sym in Some ([s'], err)
  | s :: rest =>
    match defineLast rest sym with
    | Some (rest', err) => Some (s :: rest', err)
    | None => None
    end
  end.

(** [a.globalScope.define(sym)]. *)
Definition defineGlobal (sym : Symbol) : M (option string) := fun a =>
  match defineLast (scopes a) sym with
  | Some (chain, err) => Some (err, set_scopes chain a)
  | None => None
  end.

(** [Scope.lookup] along the chain. *)
Fixpoint lookupChain (chain : list (gmap string Symbol)) (name : string)
    : option Symbol :=
  match chain with
  | [] => None
  | s :: parent =>
    match s !! name with
    | Some sym => Some sym
    | None => lookupChain parent name
    end
  end.

(** [a.currentScope.lookup(name)]; a nil current scope panics. *)
Definition lookup (name : string) : M (option Symbol) := fun a =>
  match scopes a with
  | [] => None
  | chain => Some (lookupChain chain name, a)
  end.

(** [evaluateConstExpr]. *)
Definition evaluateConstExpr (expr : Expr) : M Z :=
  match expr with
  | LiteralExpr _ kind value =>
    if String.eqb kind "int" then ret (strconv.Atoi value) else ret (-1)%Z
  | IdentExpr _ name =>
    sym ← lookup name;
    match sym with
    | Some s => if Constant s then ret (-1)%Z else ret (-1)%Z
    | None => ret (-1)%Z
    end
  | _ => ret (-1)%Z
  end.

Definition isNilExpr (e : Expr) : bool :=
  match e with NilExpr => true | _ => false end.

(** [resolveType]. *)
Definition resolveType (typeSpec : option TypeSpec) : M (option Ty) :=
  match typeSpec with
  | None => ret None
  | Some ts =>
    match TypeFromName (tsName ts) with
    | Some t =>
      if negb (isNilExpr (tsArraySize ts)) then
        size ← evaluateConstExpr (tsArraySize ts);
        ret (Some (MakeArrayType (Some t) size))
      else ret (Some t)
    | None =>
      a ← get;
      match structs a !! tsName ts with
      | Some structType =>
        if negb (isNilExpr (tsArraySize ts)) then
          size ← evaluateConstExpr (tsArraySize ts);
          ret (Some (MakeArrayType (Some structType) size))
        else ret (Some structType)
      | None => ret None
      end
    end
  end.

(** The common step of the [register...] methods: an unresolved type is
    reported at the range of the type specification and replaced by the
    error type; [decl.Type.Range] on a nil specification panics. *)
Definition resolveOrReport (typeSpec : option TypeSpec) : M (option Ty) :=
  t ← resolveType typeSpec;
  match t with
  | Some _ => ret t
  | None =>
    ts ← deref typeSpec;
    addError (tsRange ts) ("unknown type '" +:+ tsName ts +:+ "'");;
    ret (Some TypeError)
  end.


Definition operatorTable : list (string * TokenType) :=
  [ ("+", TokenPlus); ("-", TokenMinus); ("*", TokenStar); ("/", TokenSlash);
    ("%", TokenPercent); ("&", TokenAmpersand); ("|", TokenPipe);
    ("^", TokenCaret); ("<", TokenLT); (">", TokenGT); ("<=", TokenLTE);
    (">=", TokenGTE); ("==", TokenEQ); ("!=", TokenNE); ("&&", TokenAnd);
    ("||", TokenOr); ("<<", TokenLeftShift); (">>", TokenRightShift);
    ("=", TokenAssign); ("+=", TokenPlusAssign); ("-=", TokenMinusAssign);
    ("*=", TokenStarAssign); ("/=", TokenSlashAssign);
    ("%=", TokenPercentAssign); ("&=", TokenAmpAssign);
    ("|=", TokenPipeAssign); ("^=", TokenCaretAssign);
    ("<<=", TokenLeftShiftAssign); (">>=", TokenRightShiftAssign);
    ("!", TokenBang); ("~", TokenTilde); ("++", TokenIncrement);
    ("--", TokenDecrement) ].

Definition operatorToTokenType (op : string) : TokenType :=
  default TokenError
    (snd <$> List.find (fun e => String.eqb op (fst e)) operatorTable).

Definition isAssignOp (op : TokenType) : bool :=
  match op with
  | TokenAssign | TokenPlusAssign | TokenMinusAssign | TokenStarAssign
  | TokenSlashAssign | TokenPercentAssign | TokenAmpAssign | TokenPipeAssign
  | TokenCaretAssign | TokenLeftShiftAssign | TokenRightShiftAssign => true
  | _ => false
  end.

Definition compoundToOp (op : TokenType) : TokenType :=
  match op with
  | TokenPlusAssign => TokenPlus
  | TokenMinusAssign => TokenMinus
  | TokenStarAssign => TokenStar
  | TokenSlashAssign => TokenSlash
  | TokenPercentAssign => TokenPercent
  | TokenAmpAssign => TokenAmpersand
  | TokenPipeAssign => TokenPipe
  | TokenCaretAssign => TokenCaret
  | TokenLeftShiftAssign => TokenLeftShift
  | TokenRightShiftAssign => TokenRightShift
  | _ => op
  end.

(** [t.Kind] on a [*Type]. *)
Definition kindOf (t : option Ty) : M TypeKind := t' ← deref t; ret (Kind t').

(** [!dst.Equals(src) && !CanImplicitlyConvert(src, dst)]. *)
Definition notAssignable (dst src : option Ty) : bool :=
  negb (Equals dst src) && negb (CanImplicitlyConvert src dst).

Definition analyzeLiteral (kind : string) : option Ty :=
  if String.eqb kind "int" then Some TypeInt
  else if String.eqb kind "float" then Some TypeFloat
  else if String.eqb kind "bool" then Some TypeBool
  else Some TypeError.

Definition analyzeIdent (r : Range) (name : string) : M (option Ty) :=
  match BuiltinConstants !! name with
  | Some constant => ret (TypeFromName (bcType constant))
  | None =>
    sym ← lookup name;
    match sym with
    | None => addError r ("undefined symbol '" +:+ name +:+ "'");;
              ret (Some TypeError)
    | Some s => ret (symType s)
    end
  end.

(** The loop of [checkAssignable] over the runes of a member name. *)
Fixpoint hasDuplicate (seen : gset Z) (chars : list Z) : bool :=
  match chars with
  | [] => false
  | ch :: rest =>
    if bool_decide (ch ∈ seen) then true
    else hasDuplicate ({[ch]} ∪ seen) rest
  end.

(** The signature search of [analyzeBuiltinCall]: the inner loop over the
    parameters of one signature, then the loop over the signatures. *)
Fixpoint sigParamsMatch (params : list string) (argTypes : list (option Ty)) : bool :=
  match params, argTypes with
  | [], _ => true
  | paramTypeName :: params', argType :: argTypes' =>
    match TypeFromName paramTypeName with
    | None => false
    | Some paramType =>
      if notAssignable (Some paramType) argType then false
      else sigParamsMatch params' argTypes'
    end
  | _ :: _, [] => false (* not reached: the lengths are equal *)
  end.

Fixpoint findSignature (sigs : list FunctionSig) (argTypes : list (option Ty))
    : option FunctionSig :=
  match sigs with
  | [] => None
  | s :: rest =>
    if negb (length (sigParams s) =? length argTypes)%nat
    then findSignature rest argTypes
    else if sigParamsMatch (sigParams s) argTypes then Some s
    else findSignature rest argTypes
  end.

Definition joinStrings (sep : string) (l : list string) : string :=
  match l with
  | [] => ""
  | x :: rest => fold_left (fun acc y => acc +:+ sep +:+ y) rest x
  end.

Definition analyzeBuiltinCall (analyzeExpr : Expr -> M (option Ty))
    (builtin : BuiltinFunction) (r : Range) (args : list Expr) : M (option Ty) :=
  argTypes ← mapM analyzeExpr args;
  match findSignature (Signatures builtin) argTypes with
  | Some s => ret (TypeFromName (sigReturn s))
  | None =>
    addError r ("no matching overload for '" +:+ bfName builtin +:+ "("
                +:+ joinStrings ", " (TypeString <$> argTypes) +:+ ")'");;
    match Signatures builtin with
    | s :: _ => ret (TypeFromName (sigReturn s))
    | [] => ret (Some TypeError)
    end
  end.

(** The component count of the vector constructor's arguments. *)
Fixpoint vectorComponents (r : Range) (argTypes : list (option Ty)) (total : Z) : M Z :=
  match argTypes with
  | [] => ret total
  | argType :: rest =>
    t ← deref argType;
    if IsScalar t then vectorComponents r rest (total + 1)%Z
    else if IsVector t then vectorComponents r rest (total + VectorSize t)%Z
    else
      addError r ("invalid argument type '" +:+ TyString t
                  +:+ "' for vector constructor");;
      vectorComponents r rest total
  end.

Fixpoint matrixComponents (argTypes : list (option Ty)) (total : Z) : M Z :=
  match argTypes with
  | [] => ret total
  | argType :: rest =>
    t ← deref argType;
    if IsScalar t then matrixComponents rest (total + 1)%Z
    else if IsVector t then matrixComponents rest (total + VectorSize t)%Z
    else if IsMatrix t
    then matrixComponents rest (total + MatrixSize t * MatrixSize t)%Z
    else matrixComponents rest total
  end.

(** [argTypes[0].IsScalar()] and [argTypes[0].IsMatrix()]. *)
Definition firstIs (p : Ty -> bool) (argTypes : list (option Ty)) : M bool :=
  match argTypes with
  | t :: _ => t' ← deref t; ret (p t')
  | [] => panic
  end.

Definition analyzeTypeConstructor (analyzeExpr : Expr -> M (option Ty))
    (typeName : string) (r : Range) (args : list Expr) : M (option Ty) :=
  match TypeFromName typeName with
  | None => ret (Some TypeError)
  | Some targetType =>
    if (length args =? 0)%nat then
      addError r "type constructor requires at least one argument";;
      ret (Some targetType)
    else
      argTypes ← mapM analyzeExpr args;
      if IsScalar targetType then
        when (negb (length args =? 1)%nat)
          (addError r "scalar constructor requires exactly one argument");;
        ret (Some targetType)
      else if IsVector targetType then
        let size := VectorSize targetType in
        totalComponents ← vectorComponents r argTypes 0;
        splat ← (if (length args =? 1)%nat then firstIs IsScalar argTypes
                 else ret false);
        if splat then ret (Some targetType)
        else
          when (negb (totalComponents =? size)%Z)
            (addError r ("vector constructor requires " +:+ pretty size
                         +:+ " components, got " +:+ pretty totalComponents));;
          ret (Some targetType)
      else if IsMatrix targetType then
        let size := MatrixSize targetType in
        diag ← (if (length args =? 1)%nat then firstIs IsScalar argTypes
                else ret false);
        if diag then ret (Some targetType)
        else
          totalComponents ← matrixComponents argTypes 0;
          let expected := (size * size)%Z in
          fromMatrix ← (if negb (totalComponents =? expected)%Z
                           && (length args =? 1)%nat
                        then firstIs IsMatrix argTypes else ret false);
          when (negb (totalComponents =? expected)%Z
                && (negb (length args =? 1)%nat || negb fromMatrix))
            (addError r ("matrix constructor requires " +:+ pretty expected
                         +:+ " components, got " +:+ pretty totalComponents));;
          ret (Some targetType)
      else ret (Some targetType)
  end.

(** The argument loop of a call to a user function. *)
Definition analyzeUserArgs (analyzeExpr : Expr -> M (option Ty))
    (checkAssignable : Expr -> M unit)
    : nat -> list Expr -> list Symbol -> M unit :=
  fix go (i : nat) (args : list Expr) (params : list Symbol) : M unit :=
    match args, params with
    | arg :: args', param :: params' =>
      argType ← analyzeExpr arg;
      let paramType := symType param in
      let qualifier := match Qualifiers param with q :: _ => q | [] => "" end in
      when (String.eqb qualifier "out" || String.eqb qualifier "inout")
        (checkAssignable arg);;
      (if notAssignable paramType argType then
         rng ← deref (ExprRange arg);
         addError rng ("argument " +:+ pretty (i + 1) +:+ ": cannot convert '"
                       +:+ TypeString argType +:+ "' to '"
                       +:+ TypeString paramType +:+ "'")
       else ret tt);;
      go (S i) args' params'
    | _, _ => ret tt
    end.

Definition analyzeCall (analyzeExpr : Expr -> M (option Ty))
    (checkAssignable : Expr -> M unit)
    (r : Range) (func : Expr) (args : list Expr) : M (option Ty) :=
  match func with
  | IdentExpr _ funcName =>
    if IsBuiltinTypeName funcName
    then analyzeTypeConstructor analyzeExpr funcName r args
    else match BuiltinFunctions !! funcName with
    | Some builtin => analyzeBuiltinCall analyzeExpr builtin r args
    | None =>
      sym ← lookup funcName;
      match sym with
      | None => addError r ("undefined function '" +:+ funcName +:+ "'");;
                ret (Some TypeError)
      | Some s =>
        match symKind s, Function s with
        | SymbolFunction, Some f =>
          if negb (length args =? length (fsParams f))%nat then
            addError r ("function '" +:+ funcName +:+ "' expects "
                        +:+ pretty (length (fsParams f)) +:+ " arguments, got "
                        +:+ pretty (length args));;
            ret (fsReturnType f)
          else
            analyzeUserArgs analyzeExpr checkAssignable 0 args (fsParams f);;
            ret (fsReturnType f)
        | _, _ => addError r ("'" +:+ funcName +:+ "' is not a function");;
                  ret (Some TypeError)
        end
      end
    end
  | _ => addError r "expected function name";; ret (Some TypeError)
  end.

Definition analyzeBinary (analyzeExpr : Expr -> M (option Ty))
    (checkAssignable : Expr -> M unit)
    (r : Range) (left : Expr) (operator : string) (right : Expr) : M (option Ty) :=
  leftType ← analyzeExpr left;
  rightType ← analyzeExpr right;
  let op := operatorToTokenType operator in
  let invalid :=
    addError r ("invalid operands for '" +:+ operator +:+ "': '"
                +:+ TypeString leftType +:+ "' and '" +:+ TypeString rightType
                +:+ "'") in
  if isAssignOp op then
    checkAssignable left;;
    (if bool_decide (op = TokenAssign) then
       when (notAssignable leftType rightType)
         (addError r ("cannot assign '" +:+ TypeString rightType +:+ "' to '"
                      +:+ TypeString leftType +:+ "'"))
     else
       let resultType := BinaryOpResultType (compoundToOp op) leftType rightType in
       k ← kindOf resultType;
       when (kindEq k TypeKindError) invalid);;
    ret leftType
  else
    let resultType := BinaryOpResultType op leftType rightType in
    k ← kindOf resultType;
    when (kindEq k TypeKindError) invalid;;
    ret resultType.

Definition analyzeUnary (analyzeExpr : Expr -> M (option Ty))
    (checkAssignable : Expr -> M unit)
    (r : Range) (operator : string) (operand : Expr) : M (option Ty) :=
  operandType ← analyzeExpr operand;
  let op := operatorToTokenType operator in
  when (bool_decide (op = TokenIncrement) || bool_decide (op = TokenDecrement))
    (checkAssignable operand);;
  let resultType := UnaryOpResultType op operandType in
  k ← kindOf resultType;
  when (kindEq k TypeKindError)
    (addError r ("invalid operand for '" +:+ operator +:+ "': '"
                 +:+ TypeString operandType +:+ "'"));;
  ret resultType.

Definition analyzeTernary (analyzeExpr : Expr -> M (option Ty))
    (r : Range) (cond thenE elseE : Expr) : M (option Ty) :=
  condType ← analyzeExpr cond;
  k ← kindOf condType;
  (if negb (kindEq k TypeKindBool) then
     rng ← deref (ExprRange cond);
     addError rng ("ternary condition must be boolean, got '"
                   +:+ TypeString condType +:+ "'")
   else ret tt);;
  thenType ← analyzeExpr thenE;
  elseType ← analyzeExpr elseE;
  if Equals thenType elseType then ret thenType
  else if CanImplicitlyConvert elseType thenType then ret thenType
  else if CanImplicitlyConvert thenType elseType then ret elseType
  else
    addError r ("incompatible types in ternary expression: '"
                +:+ TypeString thenType +:+ "' and '" +:+ TypeString elseType
                +:+ "'");;
    ret (Some TypeError).

Definition analyzeIndex (analyzeExpr : Expr -> M (option Ty))
    (r : Range) (e index : Expr) : M (option Ty) :=
  baseType ← analyzeExpr e;
  indexType ← analyzeExpr index;
  it ← deref indexType;
  (if negb (IsInteger it) then
     rng ← deref (ExprRange index);
     addError rng ("index must be an integer, got '" +:+ TyString it +:+ "'")
   else ret tt);;
  let resultType := IndexResultType baseType in
  k ← kindOf resultType;
  when (kindEq k TypeKindError)
    (addError r ("cannot index type '" +:+ TypeString baseType +:+ "'"));;
  ret resultType.

Definition analyzeMember (analyzeExpr : Expr -> M (option Ty))
    (r : Range) (e : Expr) (member : string) : M (option Ty) :=
  baseType ← analyzeExpr e;
  b ← deref baseType;
  if IsVector b then
    match ValidateSwizzle b member with
    | (_, Some err) => addError r err;; ret (Some TypeError)
    | (resultType, None) => ret resultType
    end
  else if kindEq (Kind b) TypeKindStruct then
    match List.find (fun f => String.eqb (fst f) member) (Fields b) with
    | Some f => ret (snd f)
    | None =>
      addError r ("struct '" +:+ TName b +:+ "' has no field '" +:+ member +:+ "'");;
      ret (Some TypeError)
    end
  else if IsMatrix b then
    addError r "cannot use member access on matrix type, use index instead";;
    ret (Some TypeError)
  else
    addError r ("cannot access member '" +:+ member +:+ "' on type '"
                +:+ TyString b +:+ "'");;
    ret (Some TypeError).

Definition analyzeArrayExpr (analyzeExpr : Expr -> M (option Ty))
    (r : Range) (elements : list Expr) : M (option Ty) :=
  match elements with
  | [] => addError r "empty array initializer";; ret (Some TypeError)
  | first :: rest =>
    elemType ← analyzeExpr first;
    (fix go (l : list Expr) : M unit :=
       match l with
       | [] => ret tt
       | el :: l' =>
         t ← analyzeExpr el;
         (if notAssignable t elemType then
            rng ← deref (ExprRange el);
            addError rng ("array element type mismatch: expected '"
                          +:+ TypeString elemType +:+ "', got '"
                          +:+ TypeString t +:+ "'")
          else ret tt);;
         go l'
       end) rest;;
    ret (Some (MakeArrayType elemType (Z.of_nat (length elements))))
  end.

(** [analyzeExpr] and [checkAssignable]. *)
Fixpoint analyzeExpr (expr : Expr) : M (option Ty) :=
  match expr with
  | NilExpr => ret (Some TypeError)
  | LiteralExpr _ kind _ => ret (analyzeLiteral kind)
  | IdentExpr r name => analyzeIdent r name
  | BinaryExpr r lhs operator rhs =>
    analyzeBinary analyzeExpr checkAssignable r lhs operator rhs
  | UnaryExpr r operator operand _ =>
    analyzeUnary analyzeExpr checkAssignable r operator operand
  | TernaryExpr r cond thenE elseE => analyzeTernary analyzeExpr r cond thenE elseE
  | CallExpr r func args => analyzeCall analyzeExpr checkAssignable r func args
  | IndexExpr r e index => analyzeIndex analyzeExpr r e index
  | MemberExpr r e member => analyzeMember analyzeExpr r e member
  | ArrayExpr r elements => analyzeArrayExpr analyzeExpr r elements
  end
with checkAssignable (expr : Expr) : M unit :=
  match expr with
  | IdentExpr r name =>
    sym ← lookup name;
    match sym with
    | None => ret tt
    | Some s =>
      when (Constant s || ReadOnly s)
        (addError r ("cannot assign to '" +:+ name +:+ "' (read-only)"))
    end
  | IndexExpr _ e _ => checkAssignable e
  | MemberExpr r e member =>
    baseType ← analyzeExpr e;
    b ← deref baseType;
    if IsVector b && hasDuplicate ∅ (utf8.runes member)
    then addError r "cannot assign to swizzle with duplicate components"
    else checkAssignable e
  | NilExpr => panic
  | LiteralExpr r _ _ | BinaryExpr r _ _ _ | UnaryExpr r _ _ _
  | CallExpr r _ _ | TernaryExpr r _ _ _ | ArrayExpr r _ =>
    addError r "expression is not assignable"
  end.


(** The condition checks of [if], [for], [while] and [do]-[while]. *)
Definition checkCondition (analyzeExpr : Expr -> M (option Ty))
    (cond : Expr) (msg : option Ty -> string) : M unit :=
  condType ← analyzeExpr cond;
  k ← kindOf condType;
  if negb (kindEq k TypeKindBool) then
    rng ← deref (ExprRange cond);
    addError rng (msg condType)
  else ret tt.

Definition checkInteger (e : Expr) (msg : string) : M unit :=
  t ← analyzeExpr e;
  t' ← deref t;
  if negb (IsInteger t') then
    rng ← deref (ExprRange e);
    addError rng msg
  else ret tt.

(** [analyzeVarDeclStmt]. *)
Definition analyzeVarDeclStmt (isConst : bool) (type : option TypeSpec)
    (decls : list VarDecl) : M unit :=
  varType ← resolveOrReport type;
  forEach
    (fun decl =>
       declType ←
         (if negb (isNilExpr (vdArraySize decl)) then
            size ← evaluateConstExpr (vdArraySize decl);
            ret (Some (MakeArrayType varType size))
          else ret varType);
       (if negb (isNilExpr (Init decl)) then
          initType ← analyzeExpr (Init decl);
          when (notAssignable declType initType)
            (addError (vdRange decl)
               ("cannot initialize '" +:+ vdName decl +:+ "' of type '"
                +:+ TypeString declType +:+ "' with '" +:+ TypeString initType
                +:+ "'"))
        else ret tt);;
       err ← defineCurrent
         (mkSymbol (vdName decl) declType SymbolVariable (vdRange decl)
            isConst isConst false [] None);
       match err with
       | Some msg => addError (vdRange decl) msg
       | None => ret tt
       end)
    decls.

(** [analyzeStmt]. *)
Fixpoint analyzeStmt (stmt : Stmt) : M unit :=
  match stmt with
  | NilStmt => ret tt
  | BlockStmt _ stmts =>
    enterScope;;
    (fix go (l : list Stmt) : M unit :=
       match l with
       | [] => ret tt
       | st :: l' => analyzeStmt st;; go l'
       end) stmts;;
    exitScope
  | VarDeclStmt _ isConst type decls => analyzeVarDeclStmt isConst type decls
  | ExprStmt _ e => _ ← analyzeExpr e; ret tt
  | IfStmt _ cond thenS elseS =>
    checkCondition analyzeExpr cond
      (fun condType => "condition must be a boolean expression, got '"
                       +:+ TypeString condType +:+ "'");;
    analyzeStmt thenS;;
    analyzeStmt elseS
  | ForStmt _ init cond post body =>
    enterScope;;
    modify (fun a => set_loopDepth (loopDepth a + 1) a);;
    analyzeStmt init;;
    (if negb (isNilExpr cond)
     then checkCondition analyzeExpr cond
            (fun _ => "for condition must be a boolean expression")
     else ret tt);;
    (if negb (isNilExpr post) then _ ← analyzeExpr post; ret tt else ret tt);;
    analyzeStmt body;;
    modify (fun a => set_loopDepth (loopDepth a - 1) a);;
    exitScope
  | WhileStmt _ cond body =>
    checkCondition analyzeExpr cond
      (fun _ => "while condition must be a boolean expression");;
    modify (fun a => set_loopDepth (loopDepth a + 1) a);;
    analyzeStmt body;;
    modify (fun a => set_loopDepth (loopDepth a - 1) a)
  | DoWhileStmt _ body cond =>
    modify (fun a => set_loopDepth (loopDepth a + 1) a);;
    analyzeStmt body;;
    modify (fun a => set_loopDepth (loopDepth a - 1) a);;
    checkCondition analyzeExpr cond
      (fun _ => "do-while condition must be a boolean expression")
  | SwitchStmt _ e cases =>
    checkInteger e "switch expression must be an integer type";;
    modify (fun a => set_switchDepth (switchDepth a + 1) a);;
    (fix goCases (l : list CaseClause) : M unit :=
       match l with
       | [] => ret tt
       | mkCaseClause _ values body :: l' =>
         forEach (fun val => checkInteger val "case value must be an integer")
           values;;
         (fix go (b : list Stmt) : M unit :=
            match b with
            | [] => ret tt
            | st :: b' => analyzeStmt st;; go b'
            end) body;;
         goCases l'
       end) cases;;
    modify (fun a => set_switchDepth (switchDepth a - 1) a)
  | ReturnStmt r value =>
    a ← get;
    match currentFunc a with
    | None => addError r "return statement outside function"
    | Some f =>
      returnType ← resolveType (ReturnType f);
      if negb (isNilExpr value) then
        exprType ← analyzeExpr value;
        k ← kindOf returnType;
        if kindEq k TypeKindVoid
        then addError r "void function should not return a value"
        else when (notAssignable returnType exprType)
               (addError r ("cannot return '" +:+ TypeString exprType
                            +:+ "' from function returning '"
                            +:+ TypeString returnType +:+ "'"))
      else
        k ← kindOf returnType;
        when (negb (kindEq k TypeKindVoid))
          (addError r "non-void function must return a value")
    end
  | BreakStmt r =>
    a ← get;
    when ((loopDepth a =? 0)%Z && (switchDepth a =? 0)%Z)
      (addError r "break statement outside loop or switch")
  | ContinueStmt r =>
    a ← get;
    when (loopDepth a =? 0)%Z (addError r "continue statement outside loop")
  | DiscardStmt r =>
    a ← get;
    when (negb (String.eqb (currentStage a) "fragment"))
      (addError r "discard can only be used in fragment stage")
  | EmptyStmt _ => ret tt
  end.

Definition reportDefine (rng : Range) (err : option string) : M unit :=
  match err with
  | Some msg => addError rng msg
  | None => ret tt
  end.

(** [registerStruct]. *)
Definition registerStruct (decl : StructDecl) : M unit :=
  a ← get;
  match structs a !! sdName decl with
  | Some _ =>
    addError (sdRange decl) ("struct '" +:+ sdName decl +:+ "' already defined")
  | None =>
    fields ← mapM (fun member =>
                     fieldType ← resolveOrReport (smType member);
                     ret (smName member, fieldType))
                  (Members decl);
    let structType := MakeStructType (sdName decl) fields in
    modify (fun a => set_structs (<[sdName decl := structType]> (structs a)) a);;
    _ ← defineGlobal
      (mkSymbol (sdName decl) (Some structType) SymbolStruct (sdRange decl)
         false false false [] None);
    ret tt
  end.

(** [registerUniform]. *)
Definition registerUniform (decl : UniformDecl) : M unit :=
  varType ← resolveOrReport (uType decl);
  err ← defineGlobal
    (mkSymbol (uName decl) varType SymbolUniform (uRange decl)
       false true false ["uniform"] None);
  reportDefine (uRange decl) err.

(** [registerVarying]. *)
Definition registerVarying (decl : VaryingDecl) : M unit :=
  varType ← resolveOrReport (vType decl);
  let qualifiers :=
    if negb (String.eqb (Interpolation decl) "")
    then ["varying"; Interpolation decl] else ["varying"] in
  err ← defineGlobal
    (mkSymbol (vName decl) varType SymbolVarying (vRange decl)
       false false false qualifiers None);
  reportDefine (vRange decl) err.

(** [registerConstant]. *)
Definition registerConstant (decl : ConstDecl) : M unit :=
  varType ← resolveOrReport (cType decl);
  (if negb (isNilExpr (cValue decl)) then
     initType ← analyzeExpr (cValue decl);
     when (notAssignable varType initType)
       (addError (cRange decl)
          ("cannot initialize '" +:+ cName decl +:+ "' of type '"
           +:+ TypeString varType +:+ "' with '" +:+ TypeString initType +:+ "'"))
   else ret tt);;
  err ← defineGlobal
    (mkSymbol (cName decl) varType SymbolConstant (cRange decl)
       true true false ["const"] None);
  reportDefine (cRange decl) err.

(** [registerFunction]. *)
Definition registerFunction (decl : FunctionDecl) : M unit :=
  returnType ← resolveOrReport (ReturnType decl);
  params ← mapM (fun param =>
                   paramType ← resolveOrReport (pType param);
                   ret (mkSymbol (pName param) paramType SymbolParameter
                          (pRange param) false false false [Qualifier param]
                          None))
                (Params decl);
  err ← defineGlobal
    (mkSymbol (fName decl) returnType SymbolFunction (fRange decl)
       false false false []
       (Some (mkFunctionSymbol params returnType false)));
  reportDefine (fRange decl) err.

(** The stage that [analyzeFunction] derives from the function name. *)
Definition stageOfFunction (name : string) : string :=
  if String.eqb name "vertex" then "vertex"
  else if String.eqb name "fragment" then "fragment"
  else if String.eqb name "light" then "light"
  else if String.eqb name "start" || String.eqb name "process" then "compute"
  else if String.eqb name "sky" then "sky"
  else if String.eqb name "fog" then "fog"
  else "".

(** The table [registerBuiltinVariables] selects; no table is the nil map. *)
Definition selectBuiltins (shaderType stage : string)
    : list (string * BuiltinVariable) :=
  if String.eqb shaderType ShaderTypeSpatial then
    if String.eqb stage "vertex" then GetSpatialVertexBuiltins
    else if String.eqb stage "fragment" then GetSpatialFragmentBuiltins
    else if String.eqb stage "light" then GetSpatialLightBuiltins
    else []
  else if String.eqb shaderType ShaderTypeCanvasItem then
    if String.eqb stage "vertex" then GetCanvasItemVertexBuiltins
    else if String.eqb stage "fragment" then GetCanvasItemFragmentBuiltins
    else if String.eqb stage "light" then GetCanvasItemLightBuiltins
    else []
  else if String.eqb shaderType ShaderTypeParticles then
    if String.eqb stage "start" || String.eqb stage "process"
    then GetParticlesBuiltins else []
  else if String.eqb shaderType ShaderTypeSky then
    if String.eqb stage "sky" then GetSkyBuiltins else []
  else if String.eqb shaderType ShaderTypeFog then
    if String.eqb stage "fog" then GetFogBuiltins else []
  else [].

(** [registerBuiltinVariables].  The Go loop ranges over a map, in no fixed
    order; the keys of a table are distinct and the scope is new, so every
    order defines the same symbols. *)
Definition registerBuiltinVariables : M unit :=
  a ← get;
  forEach
    (fun entry : string * BuiltinVariable =>
       let '(name, builtin) := entry in
       match TypeFromName (bvType builtin) with
       | None => ret tt
       | Some varType =>
         _ ← defineCurrent
           (mkSymbol name (Some varType) SymbolBuiltinVariable zeroRange
              false (String.eqb (ReadWrite builtin) "in") false [] None);
         ret tt
       end)
    (selectBuiltins (shaderType a) (currentStage a)).

(** [analyzeFunction]. *)
Definition analyzeFunction (decl : FunctionDecl) : M unit :=
  modify (set_currentFunc (Some decl));;
  enterScope;;
  modify (set_currentStage (stageOfFunction (fName decl)));;
  registerBuiltinVariables;;
  forEach
    (fun param =>
       t ← resolveType (pType param);
       let paramType := match t with Some _ => t | None => Some TypeError end in
       _ ← defineCurrent
         (mkSymbol (pName param) paramType SymbolParameter (pRange param)
            false (String.eqb (Qualifier param) "in")
            (String.eqb (Qualifier param) "out") [Qualifier param] None);
       ret tt)
    (Params decl);;
  match Body decl with
  | Some (r, stmts) => analyzeStmt (BlockStmt r stmts)
  | None => ret tt
  end;;
  modify (set_currentStage "");;
  modify (set_currentFunc None);;
  exitScope.

(** [Analyze]: the three passes; the result is the list of errors. *)
Definition Analyze (doc : ShaderDocument) : M unit :=
  match ShaderType doc with
  | Some st => modify (set_shaderType (stType st))
  | None => addError zeroRange "missing shader_type declaration"
  end;;
  forEach
    (fun entry : string * BuiltinConstant =>
       _ ← defineGlobal
         (mkSymbol (fst entry) (TypeFromName (bcType (snd entry)))
            SymbolConstant zeroRange true true false [] None);
       ret tt)
    builtinConstantList;;
  forEach registerStruct (Structs doc);;
  forEach registerUniform (Uniforms doc);;
  forEach registerVarying (Varyings doc);;
  forEach registerConstant (Constants doc);;
  forEach registerFunction (Functions doc);;
  forEach analyzeFunction (Functions doc).

(** The errors of a document, from a new analyzer. *)
Definition analyzeDocument (doc : ShaderDocument) : option (list SemanticError) :=
  match Analyze doc NewAnalyzer with
  | Some (_, a) => Some (errors a)
  | None => None
  end.

End GDShader.

(* ===================================================================== *)
(** * Part II: properties *)
(* ===================================================================== *)

Module LspProps.
Import Tscn Lsp.

(** The set of node paths as the specification words it. *)
Definition nodePath (n : Node) : string :=
  if String.eqb (Parent n) "" then ""
  else if String.eqb (Parent n) "." then Name n
  else Parent n +:+ "/" +:+ Name n.

Definition pathSet (nodes : list Node) : gset string :=
  list_to_set (nodePath <$> nodes).

(** The root name the first loop leaves behind: the name of the last node
    with an empty parent, or the empty string. *)
Definition rootNameOf (nodes : list Node) : string :=
  default "" (last (Name <$> filter (fun n => Parent n = "") nodes)).

(** *** Range containment *)

(** C4, as the code has it: containment is closed on both column ends.  A
    position is in the range exactly when its line is between the start
    and end lines, its column is not before the start column on the start
    line, and not after the end column on the end line.  So the position
    at the end column of the end line passes the test of every range
    whose start is not after its end. *)
Theorem isInRange_closed_columns (r : Range) (line col : Z) :
  (isInRange r line col = true <->
   (Z.of_nat (Line (Start r)) <= line <= Z.of_nat (Line (End r)) /\
    (line = Z.of_nat (Line (Start r)) -> Z.of_nat (Column (Start r)) <= col) /\
    (line = Z.of_nat (Line (End r)) -> col <= Z.of_nat (Column (End r))))%Z) /\
  ((Line (Start r) < Line (End r) \/
    (Line (Start r) = Line (End r) /\ Column (Start r) <= Column (End r))) ->
   isInRange r (Z.of_nat (Line (End r))) (Z.of_nat (Column (End r))) = true).
Proof.
  assert (forall line col,
    isInRange r line col = true <->
    (Z.of_nat (Line (Start r)) <= line <= Z.of_nat (Line (End r)) /\
     (line = Z.of_nat (Line (Start r)) -> Z.of_nat (Column (Start r)) <= col) /\
     (line = Z.of_nat (Line (End r)) -> col <= Z.of_nat (Column (End r))))%Z) as Hiff.
  { intros l c. unfold isInRange.
    repeat match goal with
    | |- context [(?a <? ?b)%Z] => destruct (Z.ltb_spec a b)
    | |- context [(?a >? ?b)%Z] => rewrite (Z.gtb_ltb a b)
    | |- context [(?a =? ?b)%Z] => destruct (Z.eqb_spec a b)
    end; simpl; split; try discriminate; try lia; intros; try reflexivity. }
  split; [apply Hiff|].
  intros H. apply Hiff. lia.
Qed.

(** C4 as stated fails: the position at the end column of the range of an
    entity that spans columns 4 to 9 of line 0 is matched. *)
Lemma isInRange_end_column_matched :
  isInRange (mkRange (mkPosition 0 4 4) (mkPosition 0 9 9)) 0 9 = true.
Proof. reflexivity. Qed.

(** *** The parent-reference check *)

Definition isRoot (n : Node) : Prop := Parent n = "".

Lemma eqb_decide (a b : string) : String.eqb a b = bool_decide (a = b).
Proof.
  destruct (String.eqb_spec a b); [by rewrite bool_decide_eq_true_2|
                                   by rewrite bool_decide_eq_false_2].
Qed.

Lemma mapGet_insert (m : gmap string bool) (k k' : string) :
  mapGet (<[k := true]> m) k' = bool_decide (k = k') || mapGet m k'.
Proof.
  unfold mapGet. rewrite lookup_insert. case_decide.
  - by rewrite bool_decide_eq_true_2.
  - by rewrite bool_decide_eq_false_2.
Qed.

Lemma mapGet_empty (k : string) : mapGet ∅ k = false.
Proof. unfold mapGet. by rewrite lookup_empty. Qed.

Lemma buildNodePaths_spec (nodes : list Node) :
  (forall k : string, k <> "." ->
     (mapGet (buildNodePaths nodes).1 k = true) <-> (k ∈ pathSet nodes)) /\
  ((buildNodePaths nodes).2 = rootNameOf nodes).
Proof.
  unfold buildNodePaths, pathSet, rootNameOf.
  induction nodes as [|n ns IH] using rev_ind.
  - simpl. split; [|done]. intros k _. rewrite mapGet_empty. set_solver.
  - rewrite fold_left_app, fmap_app, list_to_set_app_L, filter_app, fmap_app.
    simpl. destruct IH as [IHm IHr].
    destruct (fold_left _ ns _) as [m r] eqn:E. simpl in *.
    unfold nodePath. rewrite !eqb_decide.
    destruct (decide (Parent n = "")) as [Hp|Hp].
    + rewrite bool_decide_eq_true_2 by done. simpl. split.
      * intros k Hk. rewrite !mapGet_insert, !orb_true_iff, !bool_decide_eq_true.
        rewrite IHm by done. set_solver.
      * rewrite filter_cons_True by done. simpl. by rewrite last_snoc.
    + rewrite bool_decide_eq_false_2 by done. simpl. split.
      * intros k Hk. rewrite mapGet_insert, orb_true_iff, bool_decide_eq_true.
        rewrite IHm by done.
        destruct (decide (Parent n = ".")).
        -- rewrite bool_decide_eq_true_2 by done. set_solver.
        -- rewrite bool_decide_eq_false_2 by done. set_solver.
      * rewrite filter_cons_False by done. simpl. by rewrite app_nil_r.
Qed.

Definition unresolvedParent (nodes : list Node) (n : Node) : Prop :=
  Parent n <> "" /\ Parent n <> "." /\
  (Parent n ∉ pathSet nodes) /\ Parent n <> rootNameOf nodes.

#[local] Instance unresolvedParent_dec nodes n : Decision (unresolvedParent nodes n).
Proof. unfold unresolvedParent. apply _. Defined.

(** C5, as the code has it: the warnings are those of the nodes whose
    parent is not empty, not ["."], not in the path set, and not the name of
    the root node, in document order. *)
Theorem checkParentReferences_spec (nodes : list Node) :
  checkParentReferences nodes
  = parentWarning <$> filter (unresolvedParent nodes) nodes.
Proof.
  unfold checkParentReferences.
  destruct (buildNodePaths_spec nodes) as [Hm Hr].
  destruct (buildNodePaths nodes) as [m r]. simpl in *. subst r.
  enough (forall ns acc,
    fold_left
      (fun (diagnostics : list Diagnostic) (node : Node) =>
         if String.eqb (Parent node) "" || String.eqb (Parent node) "."
         then diagnostics
         else if negb (mapGet m (Parent node))
                 && negb (String.eqb (Parent node) (rootNameOf nodes))
         then (diagnostics ++ [parentWarning node])%list
         else diagnostics) ns acc
    = (acc ++ (parentWarning <$> filter (unresolvedParent nodes) ns))%list) as H
    by apply (H nodes []).
  induction ns as [|n ns IH]; intros acc; simpl.
  - by rewrite app_nil_r.
  - rewrite IH. rewrite !eqb_decide.
    destruct (decide (Parent n = "")) as [H1|H1].
    { rewrite bool_decide_eq_true_2 by done. simpl.
      rewrite filter_cons_False; [done|]. unfold unresolvedParent. tauto. }
    rewrite (bool_decide_eq_false_2 _ H1). simpl.
    destruct (decide (Parent n = ".")) as [H2|H2].
    { rewrite bool_decide_eq_true_2 by done.
      rewrite filter_cons_False; [done|]. unfold unresolvedParent. tauto. }
    rewrite (bool_decide_eq_false_2 _ H2).
    specialize (Hm _ H2).
    destruct (mapGet m (Parent n)) eqn:Hg; simpl.
    { rewrite filter_cons_False; [done|]. unfold unresolvedParent.
      intros (_ & _ & Hn & _). apply Hn, Hm. done. }
    destruct (decide (Parent n = rootNameOf nodes)) as [H3|H3].
    { rewrite bool_decide_eq_true_2 by done. simpl.
      rewrite filter_cons_False; [done|]. unfold unresolvedParent. tauto. }
    rewrite (bool_decide_eq_false_2 _ H3). simpl.
    rewrite filter_cons_True.
    + by rewrite fmap_cons, <- app_assoc.
    + unfold unresolvedParent. repeat split; try done.
      intros Hin. apply Hm in Hin. congruence.
Qed.

Definition node0 (name parent : string) : Node :=
  mkNode zeroRange name "" parent None "" "" None [] [].

(** C5 as stated fails: a node whose parent is the root's name is not in
    the path set and still gets no warning. *)
Lemma checkParentReferences_root_name_unwarned :
  let nodes := [node0 "Root" ""; node0 "Child" "Root"] in
  (Parent (node0 "Child" "Root") <> "") /\
  (Parent (node0 "Child" "Root") <> ".") /\
  (Parent (node0 "Child" "Root") ∉ pathSet nodes) /\
  (checkParentReferences nodes = []).
Proof.
  simpl. split; [discriminate|]. split; [discriminate|]. split.
  - unfold pathSet. simpl. unfold nodePath. simpl. set_solver.
  - vm_compute. reflexivity.
Qed.

(** *** References to resources *)

(** Induction over values, with the values nested in arrays, dictionaries
    and typed values. *)
Section ValueInduction.
Variable P : Value -> Prop.
Hypothesis HString : forall r v, P (StringValue r v).
Hypothesis HNumber : forall r raw isInt, P (NumberValue r raw isInt).
Hypothesis HBool : forall r b, P (BoolValue r b).
Hypothesis HNull : forall r, P (NullValue r).
Hypothesis HArray : forall r values, Forall P values -> P (ArrayValue r values).
Hypothesis HDict : forall r entries,
  Forall (fun e : Range * Value * Value => P e.1.2 /\ P e.2) entries ->
  P (DictValue r entries).
Hypothesis HIdent : forall r name, P (IdentValue r name).
Hypothesis HTyped : forall r name tr args, Forall P args -> P (TypedValue r name tr args).
Hypothesis HRef : forall r refType id idRange, P (ResourceRef r refType id idRange).

Fixpoint Value_nested_ind (v : Value) : P v :=
  match v with
  | StringValue r s => HString r s
  | NumberValue r raw isInt => HNumber r raw isInt
  | BoolValue r b => HBool r b
  | NullValue r => HNull r
  | ArrayValue r values =>
    HArray r values
      ((fix go (l : list Value) : Forall P l :=
          match l with
          | [] => List.Forall_nil P
          | x :: l' => @List.Forall_cons _ P x l' (Value_nested_ind x) (go l')
          end) values)
  | DictValue r entries =>
    HDict r entries
      ((fix go (l : list (Range * Value * Value))
          : Forall (fun e : Range * Value * Value => P e.1.2 /\ P e.2) l :=
          match l with
          | [] => List.Forall_nil _
          | (r0, k, x) :: l' =>
            @List.Forall_cons _ _ (r0, k, x) l'
              (conj (Value_nested_ind k) (Value_nested_ind x)) (go l')
          end) entries)
  | IdentValue r name => HIdent r name
  | TypedValue r name tr args =>
    HTyped r name tr args
      ((fix go (l : list Value) : Forall P l :=
          match l with
          | [] => List.Forall_nil P
          | x :: l' => @List.Forall_cons _ P x l' (Value_nested_ind x) (go l')
          end) args)
  | ResourceRef r refType id idRange => HRef r refType id idRange
  end.

End ValueInduction.

(** A value and the values nested in it, in the order [walkValue] visits
    them. *)
Fixpoint subValues (v : Value) : list Value :=
  v :: match v with
       | ArrayValue _ values => flat_map subValues values
       | DictValue _ entries =>
         flat_map (fun e : Range * Value * Value =>
                     let '(_, key, value) := e in
                     (subValues key ++ subValues value)%list) entries
       | TypedValue _ _ _ args => flat_map subValues args
       | _ => []
       end.

Lemma fold_left_flat_map {A B S : Type} (f : S -> B -> S) (g : A -> list B)
    (l : list A) (s : S) :
  fold_left f (flat_map g l) s = fold_left (fun s a => fold_left f (g a) s) l s.
Proof.
  revert s. induction l as [|a l IH]; intros s; simpl; [reflexivity|].
  rewrite fold_left_app. apply IH.
Qed.

Lemma flat_map_flat_map {A B C : Type} (f : A -> list B) (g : B -> list C)
    (l : list A) :
  flat_map g (flat_map f l) = flat_map (fun a => flat_map g (f a)) l.
Proof.
  induction l as [|a l IH]; simpl; [reflexivity|].
  rewrite flat_map_app. f_equal. exact IH.
Qed.

Lemma fold_left_ext_Forall {A S : Type} (f g : S -> A -> S) (l : list A) :
  Forall (fun a => forall s, f s a = g s a) l ->
  forall s, fold_left f l s = fold_left g l s.
Proof.
  induction 1 as [|a l Ha _ IH]; intros s; simpl; [reflexivity|].
  rewrite Ha. apply IH.
Qed.

Lemma walk_subValues {S : Type} (cb : Value -> S -> S) (v : Value) :
  forall s, walk cb v s = fold_left (fun s x => cb x s) (subValues v) s.
Proof.
  induction v as [| | | |r values IH|r entries IH| |r name tr args IH|]
    using Value_nested_ind; intros s; try reflexivity.
  - cbn [walk subValues fold_left]. rewrite fold_left_flat_map.
    apply fold_left_ext_Forall.
    eapply Forall_impl; [exact IH|]. intros x Hx s'. apply Hx.
  - cbn [walk subValues fold_left]. rewrite fold_left_flat_map.
    apply fold_left_ext_Forall.
    eapply Forall_impl; [exact IH|]. intros [[r0 k] x] [Hk Hx] s'. simpl in *.
    rewrite fold_left_app, Hx, Hk. reflexivity.
  - cbn [walk subValues fold_left]. rewrite fold_left_flat_map.
    apply fold_left_ext_Forall.
    eapply Forall_impl; [exact IH|]. intros x Hx s'. apply Hx.
Qed.

(** The values that [checkResourceReferences] looks at: the values of the
    properties of the sub-resources and of the nodes with all that is
    nested in them, and the instance of a node, itself only. *)
Definition propertyValues (props : list Property) : list Value :=
  flat_map (fun prop => subValues (pValue prop)) props.

Definition checkedValues (doc : Document) : list Value :=
  (flat_map (fun sub => propertyValues (sProperties sub)) (SubResources doc)
   ++ flat_map (fun node => option_list (Instance node)
                            ++ propertyValues (nProperties node))
        (Nodes doc))%list.

(** A reference resolves when a resource of its kind has its ID. *)
Definition resolves (doc : Document) (refType id : string) : Prop :=
  (refType = "ExtResource" /\ id ∈ eID <$> ExtResources doc) \/
  (refType = "SubResource" /\ id ∈ sID <$> SubResources doc).

#[local] Instance resolves_dec doc refType id : Decision (resolves doc refType id).
Proof. unfold resolves. apply _. Defined.

Definition reportReference (doc : Document) (v : Value) : list Diagnostic :=
  match v with
  | ResourceRef r refType id _ =>
    if decide (resolves doc refType id) then [] else [undefinedReference r id]
  | _ => []
  end.

Lemma idMap_spec {A : Type} (key : A -> string) (l : list A) (k : string) :
  forall m : gmap string bool,
    mapGet (fold_left (fun (m : gmap string bool) x => <[key x := true]> m) l m) k
    = true <-> (k ∈ key <$> l) \/ mapGet m k = true.
Proof.
  induction l as [|x l IH]; intros m; simpl.
  - rewrite elem_of_nil. tauto.
  - rewrite IH, mapGet_insert, orb_true_iff, bool_decide_eq_true, elem_of_cons.
    intuition congruence.
Qed.

Lemma idMap_empty {A : Type} (key : A -> string) (l : list A) (k : string) :
  mapGet (fold_left (fun (m : gmap string bool) x => <[key x := true]> m) l ∅) k
  = true <-> k ∈ key <$> l.
Proof. rewrite idMap_spec, mapGet_empty. intuition discriminate. Qed.

Lemma fold_left_report {A : Type} (f : list Diagnostic -> A -> list Diagnostic)
    (g : A -> list Diagnostic) (l : list A) :
  (forall d a, f d a = (d ++ g a)%list) ->
  forall d, fold_left f l d = (d ++ flat_map g l)%list.
Proof.
  intros Hf. induction l as [|a l IH]; intros d; simpl.
  - by rewrite app_nil_r.
  - by rewrite IH, Hf, <- app_assoc.
Qed.

Lemma checkResourceReferences_report (doc : Document) :
  checkResourceReferences doc = flat_map (reportReference doc) (checkedValues doc).
Proof.
  unfold checkResourceReferences, checkedValues.
  set (extIDs := fold_left _ (ExtResources doc) ∅).
  set (subIDs := fold_left _ (SubResources doc) ∅).
  assert (forall v d, checkValue extIDs subIDs v d = (d ++ reportReference doc v)%list)
    as Hcheck.
  { intros v d. destruct v; simpl; try by rewrite app_nil_r.
    rewrite !eqb_decide.
    pose proof (idMap_empty eID (ExtResources doc) id) as He.
    pose proof (idMap_empty sID (SubResources doc) id) as Hs.
    fold extIDs in He. fold subIDs in Hs.
    destruct (decide (resolves doc refType id)) as [Hr|Hr]; unfold resolves in Hr.
    - destruct Hr as [[-> Hin]|[-> Hin]]; simpl.
      + apply He in Hin. rewrite Hin. simpl. by rewrite app_nil_r.
      + apply Hs in Hin. rewrite Hin. simpl. by rewrite app_nil_r.
    - case_bool_decide as H1; [|case_bool_decide as H2]; [| |reflexivity].
      + destruct (mapGet extIDs id) eqn:Hg; [|reflexivity].
        exfalso. apply Hr. left. split; [exact H1 | apply He; reflexivity].
      + destruct (mapGet subIDs id) eqn:Hg; [|reflexivity].
        exfalso. apply Hr. right. split; [exact H2 | apply Hs; reflexivity]. }
  assert (forall props d,
    fold_left
      (fun diagnostics prop =>
         walkValue (Some (pValue prop)) (checkValue extIDs subIDs) diagnostics)
      props d
    = (d ++ flat_map (reportReference doc) (propertyValues props))%list) as Hprops.
  { intros props d. unfold propertyValues. rewrite flat_map_flat_map.
    apply fold_left_report. intros d0 prop. unfold walkValue. rewrite walk_subValues.
    apply fold_left_report. intros d1 v. apply Hcheck. }
  rewrite (fold_left_report _
             (fun sub => flat_map (reportReference doc)
                           (propertyValues (sProperties sub))))
    by (intros d sub; apply Hprops).
  rewrite (fold_left_report _
             (fun node => flat_map (reportReference doc)
                            (option_list (Instance node)
                             ++ propertyValues (nProperties node)))).
  - simpl. by rewrite flat_map_app, !flat_map_flat_map.
  - intros d node. rewrite Hprops, flat_map_app, app_assoc. f_equal.
    destruct (Instance node) as [v|]; simpl.
    + rewrite Hcheck, app_nil_r. reflexivity.
    + by rewrite app_nil_r.
Qed.

(** The diagnostics of [checkResourceReferences] are those of the
    references among the values it looks at that do not resolve, in the
    order of the document: an ExtResource reference resolves against the
    IDs of the external resources only, a SubResource reference against
    those of the sub-resources only, wherever the resource is declared.  There is no
    diagnostic exactly when every reference among these values
    resolves. *)
Theorem checkResourceReferences_spec (doc : Document) :
  checkResourceReferences doc = flat_map (reportReference doc) (checkedValues doc) /\
  (checkResourceReferences doc = [] <->
   forall r refType id idRange,
     ResourceRef r refType id idRange ∈ checkedValues doc -> resolves doc refType id).
Proof.
  split; [apply checkResourceReferences_report|].
  rewrite checkResourceReferences_report. split.
  - intros Hnil r refType id idRange Hin.
    destruct (decide (resolves doc refType id)) as [Hr|Hr]; [exact Hr|].
    exfalso. apply list_elem_of_In in Hin.
    assert (In (undefinedReference r id)
              (flat_map (reportReference doc) (checkedValues doc))) as Hd.
    { apply in_flat_map. eexists. split; [exact Hin|]. simpl.
      rewrite decide_False by exact Hr. left. reflexivity. }
    rewrite Hnil in Hd. destruct Hd.
  - intros Hall.
    assert (Forall (fun v => reportReference doc v = []) (checkedValues doc)) as Hf.
    { apply Forall_forall. intros v Hv. destruct v; try reflexivity. simpl.
      rewrite decide_True; [reflexivity|]. eapply Hall. exact Hv. }
    clear Hall. induction Hf as [|v l Hv _ IH]; [reflexivity|].
    simpl. rewrite Hv, IH. reflexivity.
Qed.

(** *** Duplicate IDs *)

Section CheckDuplicates.
Context {A : Type} (id : A -> string) (report : A -> Diagnostic).

Let step (acc : gmap string A * list Diagnostic) (res : A) :=
  let '(ids, diagnostics) := acc in
  match ids !! id res with
  | Some _ => (ids, (diagnostics ++ [report res])%list)
  | None => (<[id res := res]> ids, diagnostics)
  end.

Lemma checkDuplicates_fold (l : list A) :
  forall (ids : gmap string A) (d : list Diagnostic),
    exists extra,
      snd (fold_left step l (ids, d)) = (d ++ extra)%list /\
      (extra = [] <->
       NoDup (id <$> l) /\ forall x, x ∈ l -> ids !! id x = None) /\
      length extra + size (list_to_set (id <$> l) ∪ dom ids : gset string)
      = length l + size (dom ids : gset string).
Proof.
  induction l as [|x l IH]; intros ids d.
  - exists []. simpl. rewrite app_nil_r. split; [reflexivity|]. split.
    + split; [|reflexivity]. intros _. split; [constructor | set_solver].
    + f_equal. set_solver.
  - change (fold_left step (x :: l) (ids, d))
      with (fold_left step l (step (ids, d) x)).
    assert (step (ids, d) x
            = match ids !! id x with
              | Some _ => (ids, (d ++ [report x])%list)
              | None => (<[id x := x]> ids, d)
              end) as -> by reflexivity.
    rewrite fmap_cons, list_to_set_cons.
    destruct (ids !! id x) as [y|] eqn:E.
    + destruct (IH ids (d ++ [report x])%list) as (extra & Hr & _ & Hlen).
      exists (report x :: extra). rewrite Hr, <- app_assoc. split; [reflexivity|].
      split.
      * split; [discriminate|]. intros [_ Hall].
        specialize (Hall x ltac:(set_solver)). congruence.
      * assert (id x ∈ (dom ids : gset string)) as Hin by (apply elem_of_dom; eauto).
                replace ({[id x]} ∪ list_to_set (id <$> l) ∪ dom ids)
          with (list_to_set (id <$> l) ∪ dom ids : gset string) by set_solver.
        simpl length. lia.
    + destruct (IH (<[id x := x]> ids) d) as (extra & Hr & Hnil & Hlen).
      exists extra. split; [exact Hr|]. split.
      * rewrite Hnil, NoDup_cons. split.
        -- intros [Hnd Hall]. split; [split; [|exact Hnd]|].
           ++ intros Hin. apply list_elem_of_fmap in Hin as (z & Hz & Hzl).
              specialize (Hall z Hzl). rewrite Hz, lookup_insert in Hall.
              rewrite decide_True in Hall by reflexivity. discriminate.
           ++ intros z Hz. apply elem_of_cons in Hz as [->|Hz]; [exact E|].
              specialize (Hall z Hz).
              destruct (decide (id x = id z)) as [Heq|Hne].
              ** rewrite Heq, lookup_insert, decide_True in Hall by reflexivity.
                 discriminate.
              ** rewrite lookup_insert_ne in Hall by exact Hne. exact Hall.
        -- intros [[Hnin Hnd] Hall]. split; [exact Hnd|].
           intros z Hz. rewrite lookup_insert_ne; [apply Hall; set_solver|].
           intros Heq. apply Hnin. apply list_elem_of_fmap. eauto.
      * rewrite dom_insert_L in Hlen.
        assert (id x ∉ (dom ids : gset string)) by (apply not_elem_of_dom; exact E).
        rewrite (size_union {[id x]} (dom ids)) in Hlen by set_solver.
        rewrite size_singleton in Hlen.
                replace ({[id x]} ∪ list_to_set (id <$> l) ∪ dom ids)
          with (list_to_set (id <$> l) ∪ ({[id x]} ∪ dom ids) : gset string)
          by set_solver.
        simpl length. lia.
Qed.

Lemma checkDuplicates_spec (l : list A) (d : list Diagnostic) :
  exists extra,
    checkDuplicates id report l d = (d ++ extra)%list /\
    (extra = [] <-> NoDup (id <$> l)) /\
    length extra + size (list_to_set (id <$> l) : gset string) = length l.
Proof.
  destruct (checkDuplicates_fold l ∅ d) as (extra & Hr & Hnil & Hlen).
  exists extra. split; [exact Hr|]. split.
  - rewrite Hnil. split; [tauto|]. intros Hnd. split; [exact Hnd|].
    intros x _. apply lookup_empty.
  - rewrite dom_empty_L, size_empty, union_empty_r_L in Hlen. lia.
Qed.

(** The resources of a list whose ID one of the resources before them
    has, in the order of the list; [earlier] are the resources before
    the list. *)
Fixpoint laterOccurrences (earlier : list A) (l : list A) : list A :=
  match l with
  | [] => []
  | x :: rest =>
    (if bool_decide (id x ∈ id <$> earlier) then [x] else [])
    ++ laterOccurrences (earlier ++ [x]) rest
  end.

Lemma checkDuplicates_fold_later (l : list A) :
  forall (earlier : list A) (ids : gmap string A) (d : list Diagnostic),
    (forall k, is_Some (ids !! k) <-> k ∈ id <$> earlier) ->
    snd (fold_left step l (ids, d))
    = (d ++ (report <$> laterOccurrences earlier l))%list.
Proof.
  induction l as [|x l IH]; intros earlier ids d Hids.
  - simpl. by rewrite app_nil_r.
  - change (fold_left step (x :: l) (ids, d))
      with (fold_left step l (step (ids, d) x)).
    assert (step (ids, d) x
            = match ids !! id x with
              | Some _ => (ids, (d ++ [report x])%list)
              | None => (<[id x := x]> ids, d)
              end) as -> by reflexivity.
    cbn [laterOccurrences].
    assert (forall ids' : gmap string A,
              (forall k, is_Some (ids' !! k) <-> k = id x \/ is_Some (ids !! k)) ->
            forall k, is_Some (ids' !! k) <-> k ∈ id <$> (earlier ++ [x])%list) as Hnext.
    { intros ids' H' k. rewrite H', fmap_app, elem_of_app, Hids. simpl.
      rewrite list_elem_of_singleton. tauto. }
    destruct (ids !! id x) as [y|] eqn:E.
    + rewrite bool_decide_eq_true_2 by (apply Hids; rewrite E; eauto).
      rewrite (IH (earlier ++ [x])%list ids).
      * rewrite fmap_app, <- app_assoc. reflexivity.
      * apply Hnext. intros k. split; [auto|].
        intros [-> | H]; [rewrite E; eauto | exact H].
    + rewrite bool_decide_eq_false_2
        by (intros Hin; apply Hids in Hin; rewrite E in Hin; by destruct Hin).
      apply IH, Hnext. intros k. rewrite lookup_insert.
      destruct (decide (id x = k)) as [<-|Hne].
      * split; [auto | eauto].
      * split; [auto|]. intros [-> | H]; [contradiction | exact H].
Qed.

Lemma checkDuplicates_later (l : list A) (d : list Diagnostic) :
  checkDuplicates id report l d = (d ++ (report <$> laterOccurrences [] l))%list.
Proof.
  apply checkDuplicates_fold_later. intros k. rewrite lookup_empty. simpl.
  split; [intros [? ?]; discriminate | intros H; by apply not_elem_of_nil in H].
Qed.

End CheckDuplicates.

(** [checkDuplicateIDs] reports every resource but the first of each ID.
    The diagnostics are, in this order, one for every external resource
    whose ID an external resource before it has, then one for every
    sub-resource whose ID a sub-resource before it has; each has the
    range of the resource it reports, the severity of an error and the
    message of its kind with the ID; there is no other.  So they are as
    many as the resources that repeat an ID of their own kind, and there
    is none exactly when no ID is repeated among the external resources
    and none among the sub-resources.  The IDs of the two kinds do not
    clash. *)
Theorem checkDuplicateIDs_spec (doc : Document) :
  checkDuplicateIDs doc
  = (((fun ext => mkDiagnostic (protoRange (eRange ext)) SeverityError "gdls"
                    ("Duplicate external resource ID: " +:+ eID ext))
        <$> laterOccurrences eID [] (ExtResources doc))
     ++ ((fun sub => mkDiagnostic (protoRange (sRange sub)) SeverityError "gdls"
                       ("Duplicate sub-resource ID: " +:+ sID sub))
           <$> laterOccurrences sID [] (SubResources doc)))%list /\
  length (checkDuplicateIDs doc)
  + size (list_to_set (eID <$> ExtResources doc) : gset string)
  + size (list_to_set (sID <$> SubResources doc) : gset string)
  = length (ExtResources doc) + length (SubResources doc) /\
  (checkDuplicateIDs doc = [] <->
   NoDup (eID <$> ExtResources doc) /\ NoDup (sID <$> SubResources doc)).
Proof.
  split.
  - unfold checkDuplicateIDs. rewrite !checkDuplicates_later. reflexivity.
  - unfold checkDuplicateIDs.
    destruct (checkDuplicates_spec eID duplicateExtResource (ExtResources doc) [])
      as (e1 & -> & Hn1 & Hl1).
    destruct (checkDuplicates_spec sID duplicateSubResource (SubResources doc)
                ([] ++ e1)) as (e2 & -> & Hn2 & Hl2).
    simpl. rewrite length_app. split; [lia|].
    rewrite <- Hn1, <- Hn2. split.
    + intros H. apply app_eq_nil in H. exact H.
    + intros [-> ->]. reflexivity.
Qed.

(** *** Go to definition and find references *)

(** The values in which the two features look for references: a value and
    what is nested in it, the keys of dictionaries left out. *)
Fixpoint searched (v : Value) : list Value :=
  v :: match v with
       | ArrayValue _ values => flat_map searched values
       | DictValue _ entries =>
         flat_map (fun e : Range * Value * Value =>
                     let '(_, _, value) := e in searched value) entries
       | TypedValue _ _ _ args => flat_map searched args
       | _ => []
       end.

Definition searchedProperties (props : list Property) : list Value :=
  flat_map (fun prop => searched (pValue prop)) props.

Definition searchedValues (ast : Document) : list Value :=
  (flat_map (fun sub => searchedProperties (sProperties sub)) (SubResources ast)
   ++ flat_map (fun node => from_option searched [] (Instance node)
                            ++ searchedProperties (nProperties node))
        (Nodes ast))%list.

(** The location of a value if it is a reference of the kind and ID. *)
Definition referenceTo (id refType uri : string) (v : Value) : list Location :=
  match v with
  | ResourceRef r valType valID _ =>
    if decide (valType = refType /\ valID = id) then [locationOf uri r] else []
  | _ => []
  end.

Lemma firstSome_flat_map {A B C : Type} (f : B -> option C) (g : A -> list B)
    (l : list A) :
  firstSome f (flat_map g l) = firstSome (fun a => firstSome f (g a)) l.
Proof.
  induction l as [|a l IH]; simpl; [reflexivity|].
  rewrite <- IH. generalize (flat_map g l). intros rest.
  induction (g a) as [|b bs IHb]; simpl; [reflexivity|].
  destruct (f b); [reflexivity | exact IHb].
Qed.

Lemma firstSome_app {A B : Type} (f : A -> option B) (l1 l2 : list A) :
  firstSome f (l1 ++ l2)
  = match firstSome f l1 with Some y => Some y | None => firstSome f l2 end.
Proof.
  induction l1 as [|a l1 IH]; simpl; [reflexivity|].
  destruct (f a); [reflexivity | exact IH].
Qed.

Lemma firstSome_ext_Forall {A B : Type} (f g : A -> option B) (l : list A) :
  Forall (fun a => f a = g a) l -> firstSome f l = firstSome g l.
Proof.
  induction 1 as [|a l Ha _ IH]; simpl; [reflexivity|]. rewrite Ha, IH. reflexivity.
Qed.

Lemma firstSome_find {A B : Type} (p : A -> bool) (g : A -> B) (l : list A) :
  firstSome (fun a => if p a then Some (g a) else None) l = g <$> List.find p l.
Proof.
  induction l as [|a l IH]; simpl; [reflexivity|].
  destruct (p a); [reflexivity | exact IH].
Qed.

(** What go to definition gives for one value, not looking inside it. *)
Definition definitionOf (ast : Document) (uri : string) (line col : Z) (v : Value)
    : option Location :=
  match v with
  | ResourceRef _ _ _ _ => findDefinitionIn ast uri line col v
  | _ => None
  end.

Lemma findDefinitionIn_searched (ast : Document) (uri : string) (line col : Z)
    (v : Value) :
  findDefinitionIn ast uri line col v
  = firstSome (definitionOf ast uri line col) (searched v).
Proof.
  induction v as [| | | |r values IH|r entries IH| |r name tr args IH|]
    using Value_nested_ind; try reflexivity.
  - cbn [findDefinitionIn searched firstSome definitionOf].
    rewrite firstSome_flat_map. apply firstSome_ext_Forall. exact IH.
  - cbn [findDefinitionIn searched firstSome definitionOf].
    rewrite firstSome_flat_map. apply firstSome_ext_Forall.
    eapply Forall_impl; [exact IH|]. intros [[r0 k] x] [_ Hx]. exact Hx.
  - cbn [findDefinitionIn searched firstSome definitionOf].
    rewrite firstSome_flat_map. apply firstSome_ext_Forall. exact IH.
  - cbn [searched firstSome definitionOf].
    destruct (findDefinitionIn _ _ _ _ _); reflexivity.
Qed.

Lemma find_first {A : Type} (p : A -> bool) (l : list A) (x : A) :
  List.find p l = Some x <->
  exists pre post, l = (pre ++ x :: post)%list /\ p x = true /\
                   Forall (fun y => p y = false) pre.
Proof.
  induction l as [|a l IH]; simpl.
  - split; [discriminate|]. intros (pre & post & E & _). destruct pre; discriminate.
  - destruct (p a) eqn:Ha.
    + split.
      * intros [= <-]. exists [], l. repeat split; auto.
      * intros (pre & post & E & Hx & Hpre). destruct pre as [|b pre].
        -- simpl in E. congruence.
        -- injection E as -> _. apply Forall_cons in Hpre as [Hb _]. congruence.
    + rewrite IH. split.
      * intros (pre & post & -> & Hx & Hpre). exists (a :: pre), post.
        repeat split; auto.
      * intros (pre & post & E & Hx & Hpre). destruct pre as [|b pre].
        -- simpl in E. injection E as -> _. congruence.
        -- injection E as -> ->. apply Forall_cons in Hpre as [_ Hpre].
           exists pre, post. auto.
Qed.

Lemma find_None_iff {A : Type} (p : A -> bool) (l : list A) :
  List.find p l = None <-> Forall (fun y => p y = false) l.
Proof.
  induction l as [|a l IH]; simpl.
  - split; [constructor | reflexivity].
  - destruct (p a) eqn:Ha.
    + split; [discriminate|]. intros H. apply Forall_cons in H as [H _]. congruence.
    + rewrite IH. split; [intros H; constructor; assumption|].
      intros H. apply Forall_cons in H as [_ H]. exact H.
Qed.

(** Go to definition on a reference.  Outside the range of the reference
    there is no result.  Inside, there is one exactly when the reference
    resolves, that is exactly when [checkResourceReferences] has no
    diagnostic for it; and the result is the range of the first resource
    of the kind with the ID, the one that [checkDuplicateIDs] does not
    report. *)
Theorem findDefinitionIn_reference (ast : Document) (uri : string) (line col : Z)
    (r : Range) (refType id : string) (idRange : Range) :
  let ref := ResourceRef r refType id idRange in
  let result := findDefinitionIn ast uri line col ref in
  (isInRange r line col = false -> result = None) /\
  (isInRange r line col = true ->
   (is_Some result <-> resolves ast refType id) /\
   (result = None <-> reportReference ast ref = [undefinedReference r id]) /\
   (forall loc, result = Some loc ->
      (refType = "ExtResource" /\
       exists pre ext post,
         ExtResources ast = (pre ++ ext :: post)%list /\ eID ext = id /\
         (id ∉ eID <$> pre) /\ loc = locationOf uri (eRange ext)) \/
      (refType = "SubResource" /\
       exists pre sub post,
         SubResources ast = (pre ++ sub :: post)%list /\ sID sub = id /\
         (id ∉ sID <$> pre) /\ loc = locationOf uri (sRange sub)))).
Proof.
  intros ref result. subst ref result. cbn [findDefinitionIn].
  split; [intros ->; reflexivity|]. intros ->.
  rewrite !firstSome_find, !eqb_decide.
  assert (forall {A} (key : A -> string) (l : list A),
             is_Some (List.find (fun x => String.eqb (key x) id) l) <-> id ∈ key <$> l)
    as Hfind.
  { intros A key l. induction l as [|a l IH]; simpl.
    - rewrite elem_of_nil. split; [intros [x Hx]; discriminate | tauto].
    - rewrite elem_of_cons. destruct (String.eqb_spec (key a) id) as [E|E].
      + split; [auto | eauto].
      + rewrite IH. intuition congruence. }
  assert (forall {A} (key : A -> string) (l : list A) (x : A),
             List.find (fun x => String.eqb (key x) id) l = Some x ->
             exists pre post, l = (pre ++ x :: post)%list /\ key x = id /\
                              (id ∉ key <$> pre)) as Hfirst.
  { intros A key l x Hx. apply find_first in Hx as (pre & post & -> & Hk & Hpre).
    exists pre, post. split; [reflexivity|]. apply String.eqb_eq in Hk.
    split; [exact Hk|]. intros Hin. apply list_elem_of_fmap in Hin as (y & Hy & Hyin).
    rewrite Forall_forall in Hpre. specialize (Hpre y Hyin).
    apply String.eqb_neq in Hpre. congruence. }
  assert (forall A (o : option A) (g : A -> Location), is_Some (g <$> o) <-> is_Some o)
    as Hsome.
  { intros A [x|] g; simpl; split; intros [y Hy]; try discriminate; eauto. }
  unfold resolves, reportReference.
  case_bool_decide as Hext; [|case_bool_decide as Hsub].
  - subst refType. rewrite Hsome, Hfind. split; [|split].
    + split; [intros H; left; auto | intros [[_ H]|[H _]]; [exact H | discriminate]].
    + destruct (decide _) as [Hr|Hr].
      * split; [|discriminate]. intros Hn. exfalso.
        assert (is_Some (locationOf uri ∘ eRange <$>
                  List.find (fun ext => String.eqb (eID ext) id) (ExtResources ast)))
          as [y Hy].
        { apply Hsome, Hfind. destruct Hr as [[_ H]|[H _]]; [exact H | discriminate]. }
        unfold compose in Hy. congruence.
      * split; [reflexivity|]. intros _.
        destruct (List.find _ _) as [x|] eqn:Hx; [|reflexivity].
        exfalso. apply Hr. left. split; [reflexivity|].
        apply Hfind. rewrite Hx. eauto.
    + intros loc Hloc. left. split; [reflexivity|].
      destruct (List.find _ _) as [x|] eqn:Hx; [|discriminate].
      injection Hloc as <-. destruct (Hfirst _ _ _ _ Hx) as (pre & post & E & Hk & Hn).
      exists pre, x, post. auto.
  - subst refType. rewrite Hsome, Hfind. split; [|split].
    + split; [intros H; right; auto | intros [[H _]|[_ H]]; [discriminate | exact H]].
    + destruct (decide _) as [Hr|Hr].
      * split; [|discriminate]. intros Hn. exfalso.
        assert (is_Some (locationOf uri ∘ sRange <$>
                  List.find (fun sub => String.eqb (sID sub) id) (SubResources ast)))
          as [y Hy].
        { apply Hsome, Hfind. destruct Hr as [[H _]|[_ H]]; [discriminate | exact H]. }
        unfold compose in Hy. congruence.
      * split; [reflexivity|]. intros _.
        destruct (List.find _ _) as [x|] eqn:Hx; [|reflexivity].
        exfalso. apply Hr. right. split; [reflexivity|].
        apply Hfind. rewrite Hx. eauto.
    + intros loc Hloc. right. split; [reflexivity|].
      destruct (List.find _ _) as [x|] eqn:Hx; [|discriminate].
      injection Hloc as <-. destruct (Hfirst _ _ _ _ Hx) as (pre & post & E & Hk & Hn).
      exists pre, x, post. auto.
  - split; [|split].
    + split; [intros [x Hx]; discriminate | intros [[H _]|[H _]]; contradiction].
    + rewrite decide_False by (intros [[H _]|[H _]]; contradiction).
      split; reflexivity.
    + discriminate.
Qed.

Lemma fold_left_report_gen {A B : Type} (f : list B -> A -> list B)
    (g : A -> list B) (l : list A) :
  Forall (fun a => forall d, f d a = (d ++ g a)%list) l ->
  forall d, fold_left f l d = (d ++ flat_map g l)%list.
Proof.
  induction 1 as [|a l Ha _ IH]; intros d; simpl.
  - by rewrite app_nil_r.
  - by rewrite IH, Ha, <- app_assoc.
Qed.

Lemma fold_left_append {A B : Type} (f : list B -> A -> list B)
    (g : A -> list B) (l : list A) :
  (forall d a, f d a = (d ++ g a)%list) ->
  forall d, fold_left f l d = (d ++ flat_map g l)%list.
Proof.
  intros Hf. apply fold_left_report_gen. apply Forall_forall. intros a _ d. apply Hf.
Qed.

Lemma findInValue_searched (id refType uri : string) (v : Value) :
  forall locations,
    findInValue id refType uri v locations
    = (locations ++ flat_map (referenceTo id refType uri) (searched v))%list.
Proof.
  induction v as [| | | |r values IH|r entries IH| |r name tr args IH|]
    using Value_nested_ind; intros locations;
    try (simpl; by rewrite app_nil_r).
  - cbn [findInValue searched flat_map referenceTo app].
    rewrite flat_map_flat_map. apply fold_left_report_gen.
    exact IH.
  - cbn [findInValue searched flat_map referenceTo app].
    rewrite flat_map_flat_map. apply fold_left_report_gen.
    eapply Forall_impl; [exact IH|]. intros [[r0 k] x] [_ Hx]. exact Hx.
  - cbn [findInValue searched flat_map referenceTo app].
    rewrite flat_map_flat_map. apply fold_left_report_gen.
    exact IH.
  - cbn [findInValue searched flat_map referenceTo]. rewrite !eqb_decide.
    rewrite app_nil_r.
    destruct (decide (refType0 = refType /\ id0 = id)) as [[-> ->]|Hn].
    + rewrite !bool_decide_eq_true_2 by reflexivity. reflexivity.
    + rewrite app_nil_r.
      destruct (decide (refType0 = refType)) as [->|H1].
      * rewrite bool_decide_eq_true_2 by reflexivity.
        rewrite bool_decide_eq_false_2; [reflexivity|]. intros ->. auto.
      * rewrite bool_decide_eq_false_2 by exact H1. reflexivity.
Qed.

Lemma findResourceReferences_flat (ast : Document) (id refType uri : string) :
  findResourceReferences ast id refType uri
  = flat_map (referenceTo id refType uri) (searchedValues ast).
Proof.
  unfold findResourceReferences, searchedValues.
  assert (forall props d,
    fold_left (fun locations prop => findInValue id refType uri (pValue prop) locations)
      props d
    = (d ++ flat_map (referenceTo id refType uri) (searchedProperties props))%list)
    as Hprops.
  { intros props d. unfold searchedProperties. rewrite flat_map_flat_map.
    apply fold_left_append. intros d0 prop. apply findInValue_searched. }
  rewrite (fold_left_append _
             (fun sub => flat_map (referenceTo id refType uri)
                           (searchedProperties (sProperties sub))))
    by (intros d sub; apply Hprops).
  rewrite (fold_left_append _
             (fun node => flat_map (referenceTo id refType uri)
                            (from_option searched [] (Instance node)
                             ++ searchedProperties (nProperties node)))).
  - simpl. by rewrite flat_map_app, !flat_map_flat_map.
  - intros d node. rewrite Hprops, flat_map_app, app_assoc. f_equal.
    destruct (Instance node) as [v|]; simpl.
    + apply findInValue_searched.
    + by rewrite app_nil_r.
Qed.

(** [findResourceReferences] gives, in document order, the ranges of the
    references of the kind and ID among the values searched: the values
    of the properties of the sub-resources and nodes and the instances of
    the nodes, with what is nested in them, dictionary keys excepted.  A
    location is among them exactly when such a reference has its
    range. *)
Theorem findResourceReferences_spec (ast : Document) (id refType uri : string) :
  findResourceReferences ast id refType uri
  = flat_map (referenceTo id refType uri) (searchedValues ast) /\
  (forall loc,
     loc ∈ findResourceReferences ast id refType uri <->
     exists r idRange,
       ResourceRef r refType id idRange ∈ searchedValues ast /\
       loc = locationOf uri r).
Proof.
  split; [apply findResourceReferences_flat|].
  intros loc. rewrite findResourceReferences_flat, list_elem_of_In, in_flat_map.
  split.
  - intros (v & Hv & Hloc). destruct v; try destruct Hloc. simpl in Hloc.
    destruct (decide _) as [[-> ->]|]; [|destruct Hloc].
    destruct Hloc as [<-|[]]. exists r, idRange.
    split; [apply list_elem_of_In; exact Hv | reflexivity].
  - intros (r & idRange & Hin & ->). eexists. split; [apply list_elem_of_In, Hin|].
    simpl. rewrite decide_True by auto. left. reflexivity.
Qed.

Lemma firstSome_None {A B : Type} (f : A -> option B) (l : list A) :
  Forall (fun a => f a = None) l -> firstSome f l = None.
Proof. induction 1 as [|a l Ha _ IH]; simpl; [reflexivity|]. by rewrite Ha. Qed.

(** The loops of [findDefinition] over the values look at the values
    searched, in their order. *)
Lemma findDefinition_searched
    (resolveResourcePath : string -> string -> option Location)
    (ast : Document) (uri : string) (line col : Z) (loc : Location) :
  firstSome (definitionOf ast uri line col) (searchedValues ast) = Some loc ->
  findDefinition resolveResourcePath ast uri line col = Some loc.
Proof.
  unfold findDefinition, searchedValues.
  assert (forall props,
    firstSome (fun prop => findDefinitionInValue (Some (pValue prop)) ast uri line col)
      props
    = firstSome (definitionOf ast uri line col) (searchedProperties props)) as Hprops.
  { intros props. unfold searchedProperties. rewrite firstSome_flat_map.
    apply firstSome_ext_Forall, Forall_forall. intros prop _.
    apply findDefinitionIn_searched. }
  rewrite firstSome_app, !firstSome_flat_map.
  rewrite (firstSome_ext_Forall
             (fun sub => firstSome _ (sProperties sub))
             (fun sub => firstSome (definitionOf ast uri line col)
                           (searchedProperties (sProperties sub))))
    by (apply Forall_forall; intros sub _; apply Hprops).
  destruct (firstSome _ (SubResources ast)); [intros H; exact H|].
  rewrite (firstSome_ext_Forall
             (fun node => match findDefinitionInValue (Instance node) ast uri line col with
                          | Some loc => Some loc
                          | None => _
                          end)
             (fun node => firstSome (definitionOf ast uri line col)
                            (from_option searched [] (Instance node)
                             ++ searchedProperties (nProperties node)))).
  - intros ->. reflexivity.
  - apply Forall_forall. intros node _. rewrite firstSome_app, Hprops.
    destruct (Instance node) as [v|]; simpl; [|reflexivity].
    rewrite findDefinitionIn_searched. reflexivity.
Qed.

(** From the references back to the definition.  A location that
    [findResourceReferences] lists for the ID of an external resource,
    the first with its ID, is the range of a reference among the values
    searched; at every position in that range [findDefinitionInValue]
    on the reference gives the range of the resource, and so does
    [findDefinition], the request itself, when the position is in the
    range of no reference searched before this one. *)
Theorem references_lead_to_definition
    (resolveResourcePath : string -> string -> option Location)
    (ast : Document) (uri : string)
    (pre post : list ExtResource) (ext : ExtResource) (loc : Location) :
  ExtResources ast = (pre ++ ext :: post)%list ->
  (eID ext ∉ eID <$> pre) ->
  loc ∈ findResourceReferences ast (eID ext) "ExtResource" uri ->
  exists r idRange before after,
    searchedValues ast
    = (before ++ ResourceRef r "ExtResource" (eID ext) idRange :: after)%list /\
    loc = locationOf uri r /\
    forall line col,
      isInRange r line col = true ->
      findDefinitionInValue (Some (ResourceRef r "ExtResource" (eID ext) idRange))
        ast uri line col
      = Some (locationOf uri (eRange ext)) /\
      ((forall r' refType' id' idRange',
          ResourceRef r' refType' id' idRange' ∈ before ->
          isInRange r' line col = false) ->
       findDefinition resolveResourcePath ast uri line col
       = Some (locationOf uri (eRange ext))).
Proof.
  intros Hexts Hfirst Hloc.
  rewrite findResourceReferences_flat, list_elem_of_In, in_flat_map in Hloc.
  destruct Hloc as (v & Hv & Hloc). destruct v; try destruct Hloc. simpl in Hloc.
  destruct (decide _) as [[-> ->]|]; [|destruct Hloc].
  destruct Hloc as [<-|[]].
  apply in_split in Hv as (before & after & Hsplit).
  exists r, idRange, before, after.
  split; [exact Hsplit|]. split; [reflexivity|].
  intros line col Hin.
  assert (findDefinitionIn ast uri line col
            (ResourceRef r "ExtResource" (eID ext) idRange)
          = Some (locationOf uri (eRange ext))) as Hdef.
  { cbn [findDefinitionIn]. rewrite Hin.
    change (String.eqb "ExtResource" "ExtResource") with true. cbv iota.
    rewrite firstSome_find, Hexts.
    assert (List.find (fun x => String.eqb (eID x) (eID ext)) (pre ++ ext :: post)
            = Some ext) as ->; [|reflexivity].
    apply find_first. exists pre, post. split; [reflexivity|].
    split; [apply String.eqb_refl|].
    apply Forall_forall. intros y Hy. apply String.eqb_neq. intros E.
    apply Hfirst. rewrite <- E. apply list_elem_of_fmap_2. exact Hy. }
  split; [exact Hdef|].
  intros Hbefore. apply findDefinition_searched.
  rewrite Hsplit, firstSome_app, firstSome_None.
  - cbn [firstSome definitionOf]. rewrite Hdef. reflexivity.
  - apply Forall_forall. intros v Hv. destruct v; try reflexivity.
    cbn [definitionOf findDefinitionIn].
    rewrite (Hbefore _ _ _ _ Hv). reflexivity.
Qed.

(** [findNodeByPath] finds the last node of the document with the path;
    there is a result exactly when some node has the path. *)
Theorem findNodeByPath_spec (ast : Document) (path uri : string) :
  findNodeByPath ast path uri
  = (fun node => locationOf uri (nRange node))
      <$> last (filter (fun node => nodePathOf node = path) (Nodes ast)) /\
  (is_Some (findNodeByPath ast path uri) <-> path ∈ nodePathOf <$> Nodes ast).
Proof.
  unfold findNodeByPath.
  assert (forall (l : list Node) (m : gmap string Node),
    fold_left (fun (m : gmap string Node) node => <[nodePathOf node := node]> m) l m
      !! path
    = match last (filter (fun node => nodePathOf node = path) l) with
      | Some node => Some node
      | None => m !! path
      end) as Hfold.
  { intros l. induction l as [|n l IH] using rev_ind; intros m; [reflexivity|].
    rewrite fold_left_app, filter_app. simpl. rewrite lookup_insert.
    destruct (decide (nodePathOf n = path)) as [E|E].
    - rewrite filter_cons_True by exact E. rewrite filter_nil, last_snoc. reflexivity.
    - rewrite filter_cons_False by exact E. rewrite filter_nil, app_nil_r. apply IH. }
  rewrite Hfold, lookup_empty.
  set (found := last (filter (fun node => nodePathOf node = path) (Nodes ast))).
  split; [destruct found; reflexivity|].
  assert (is_Some found <-> path ∈ nodePathOf <$> Nodes ast) as <-.
  { subst found. rewrite list_elem_of_fmap. split.
    - intros [n Hn]. apply last_Some in Hn as [l' Hl'].
      assert (n ∈ filter (fun node => nodePathOf node = path) (Nodes ast)) as Hin
          by (rewrite Hl'; set_solver).
      apply list_elem_of_filter in Hin as [Hp Hin]. eauto.
    - intros (n & Hp & Hin).
      assert (n ∈ filter (fun node => nodePathOf node = path) (Nodes ast)) as Hf
          by (apply list_elem_of_filter; auto).
      destruct (filter _ _) as [|x l'] using rev_ind; [set_solver|].
      rewrite last_snoc. eauto. }
  destruct found; split; intros [x Hx]; try discriminate; eauto.
Qed.

(** [findDefinition] looks for a reference under the position in the
    values [findResourceReferences] searches, in the same order, and
    gives the definition of the first that has one; [resolveResourcePath]
    is asked only when there is none, for the first external resource at
    the position, and [findNodeByPath] only after that, for the parent of
    the first node at the position that names one. *)
Theorem findDefinition_spec (resolveResourcePath : string -> string -> option Location)
    (ast : Document) (uri : string) (line col : Z) :
  findDefinition resolveResourcePath ast uri line col
  = match firstSome (definitionOf ast uri line col) (searchedValues ast) with
    | Some loc => Some loc
    | None =>
      match List.find (fun ext => isInRange (eRange ext) line col) (ExtResources ast) with
      | Some ext => resolveResourcePath (Path ext) uri
      | None =>
        match List.find
                (fun node => isInRange (nRange node) line col
                             && negb (String.eqb (Parent node) "")
                             && negb (String.eqb (Parent node) "."))
                (Nodes ast) with
        | Some node => findNodeByPath ast (Parent node) uri
        | None => None
        end
      end
    end.
Proof.
  unfold findDefinition, searchedValues.
  assert (forall props,
    firstSome (fun prop => findDefinitionInValue (Some (pValue prop)) ast uri line col)
      props
    = firstSome (definitionOf ast uri line col) (searchedProperties props)) as Hprops.
  { intros props. unfold searchedProperties. rewrite firstSome_flat_map.
    apply firstSome_ext_Forall, Forall_forall. intros prop _.
    apply findDefinitionIn_searched. }
  rewrite firstSome_app, !firstSome_flat_map.
  rewrite (firstSome_ext_Forall
             (fun sub => firstSome _ (sProperties sub))
             (fun sub => firstSome (definitionOf ast uri line col)
                           (searchedProperties (sProperties sub))))
    by (apply Forall_forall; intros sub _; apply Hprops).
  destruct (firstSome _ (SubResources ast)); [reflexivity|].
  rewrite (firstSome_ext_Forall
             (fun node => match findDefinitionInValue (Instance node) ast uri line col with
                          | Some loc => Some loc
                          | None => _
                          end)
             (fun node => firstSome (definitionOf ast uri line col)
                            (from_option searched [] (Instance node)
                             ++ searchedProperties (nProperties node)))).
  - reflexivity.
  - apply Forall_forall. intros node _. rewrite firstSome_app, Hprops.
    destruct (Instance node) as [v|]; simpl; [|reflexivity].
    rewrite findDefinitionIn_searched. reflexivity.
Qed.

(** [findNodeReferences] lists the nodes whose parent is the path, for
    the path of the root also those whose parent is ["."], and the
    connections from or to the path.  The root, whose parent is empty as
    its path is, is so listed among the references to itself. *)
Theorem findNodeReferences_spec (ast : Document) (uri : string) :
  (forall nodePath loc,
     loc ∈ findNodeReferences ast nodePath uri <->
     (exists node, node ∈ Nodes ast /\
        (Parent node = nodePath \/ (nodePath = "" /\ Parent node = ".")) /\
        loc = locationOf uri (nRange node)) \/
     (exists conn, conn ∈ Connections ast /\
        (From conn = nodePath \/ To conn = nodePath) /\
        loc = locationOf uri (cRange conn))) /\
  (forall root, root ∈ Nodes ast -> Parent root = "" ->
     locationOf uri (nRange root) ∈ findNodeReferences ast (nodePathOf root) uri).
Proof.
  assert (forall nodePath loc,
     loc ∈ findNodeReferences ast nodePath uri <->
     (exists node, node ∈ Nodes ast /\
        (Parent node = nodePath \/ (nodePath = "" /\ Parent node = ".")) /\
        loc = locationOf uri (nRange node)) \/
     (exists conn, conn ∈ Connections ast /\
        (From conn = nodePath \/ To conn = nodePath) /\
        loc = locationOf uri (cRange conn))) as Hspec.
  { intros nodePath loc. unfold findNodeReferences.
    rewrite (fold_left_append _
               (fun conn => if String.eqb (From conn) nodePath
                               || String.eqb (To conn) nodePath
                            then [locationOf uri (cRange conn)] else []))
      by (intros d conn; destruct (_ || _); [reflexivity | by rewrite app_nil_r]).
    rewrite (fold_left_append _
               (fun node => if String.eqb (Parent node) nodePath
                               || (String.eqb nodePath ""
                                   && String.eqb (Parent node) ".")
                            then [locationOf uri (nRange node)] else []))
      by (intros d node; destruct (_ || _); [reflexivity | by rewrite app_nil_r]).
    simpl. rewrite elem_of_app, !list_elem_of_In, !in_flat_map.
    match goal with
    | |- ?A \/ ?B <-> ?A' \/ ?B' =>
      enough ((A <-> A') /\ (B <-> B')) by tauto
    end.
    split.
    - split.
      + intros (node & Hin & Hloc). destruct (_ || _) eqn:E; [|destruct Hloc].
        destruct Hloc as [<-|[]]. exists node. rewrite list_elem_of_In.
        split; [exact Hin|]. split; [|reflexivity].
        apply orb_true_iff in E as [E|E].
        * left. by apply String.eqb_eq.
        * apply andb_true_iff in E as [E1 E2]. right.
          split; by apply String.eqb_eq.
      + intros (node & Hin & Hp & ->). exists node. rewrite list_elem_of_In in Hin.
        split; [exact Hin|].
        assert (String.eqb (Parent node) nodePath
                || (String.eqb nodePath "" && String.eqb (Parent node) ".") = true)
          as ->; [|left; reflexivity].
        destruct Hp as [-> | [-> ->]]; [rewrite String.eqb_refl; reflexivity|].
        apply orb_true_r.
    - split.
      + intros (conn & Hin & Hloc). destruct (_ || _) eqn:E; [|destruct Hloc].
        destruct Hloc as [<-|[]]. exists conn. rewrite list_elem_of_In.
        split; [exact Hin|]. split; [|reflexivity].
        apply orb_true_iff in E as [E|E]; [left | right]; by apply String.eqb_eq.
      + intros (conn & Hin & Hp & ->). exists conn. rewrite list_elem_of_In in Hin.
        split; [exact Hin|].
        assert (String.eqb (From conn) nodePath || String.eqb (To conn) nodePath = true)
          as ->; [|left; reflexivity].
        destruct Hp as [-> | ->]; rewrite String.eqb_refl;
          [reflexivity | apply orb_true_r]. }
  split; [exact Hspec|].
  intros root Hin Hp. apply Hspec. left. exists root.
  split; [exact Hin|]. split; [|reflexivity].
  left. unfold nodePathOf. rewrite Hp. reflexivity.
Qed.

(** [findReferences] at a position: the resource or node there, external
    resources before sub-resources before nodes; with the declaration
    asked for, its range comes first and the references follow, which
    are those of [findResourceReferences] for the ID of the resource or of
    [findNodeReferences] for the path of the node.  Away from any of them
    there is no result. *)
Theorem findReferences_declaration_first (ast : Document) (uri : string) (line col : Z) :
  let entity :=
    match List.find (fun ext => isInRange (eRange ext) line col) (ExtResources ast) with
    | Some ext => Some (eRange ext)
    | None =>
      match List.find (fun sub => isInRange (sRange sub) line col) (SubResources ast) with
      | Some sub => Some (sRange sub)
      | None => nRange <$> List.find (fun node => isInRange (nRange node) line col)
                             (Nodes ast)
      end
    end in
  match entity with
  | Some r =>
    isInRange r line col = true /\
    findReferences ast uri line col true
    = locationOf uri r :: findReferences ast uri line col false
  | None =>
    findReferences ast uri line col true = [] /\
    findReferences ast uri line col false = []
  end.
Proof.
  unfold findReferences. cbv zeta.
  destruct (List.find _ (ExtResources ast)) as [ext|] eqn:He.
  { split; [|reflexivity]. apply find_some in He as [_ He]. exact He. }
  destruct (List.find _ (SubResources ast)) as [sub|] eqn:Hs.
  { split; [|reflexivity]. apply find_some in Hs as [_ Hs]. exact Hs. }
  destruct (List.find _ (Nodes ast)) as [node|] eqn:Hn; simpl.
  { split; [|reflexivity]. apply find_some in Hn as [_ Hn]. exact Hn. }
  split; reflexivity.
Qed.

(** A scene that instances an external resource. *)
Definition instanceRange : Range := mkRange (mkPosition 2 20 60) (mkPosition 2 36 76).

Definition sceneResource : ExtResource :=
  mkExtResource (mkRange (mkPosition 0 0 0) (mkPosition 0 50 50))
    "PackedScene" "" "res://enemy.tscn" zeroRange "1".

Definition sceneWithInstance : Document :=
  mkDocument None [sceneResource] []
    [mkNode (mkRange (mkPosition 2 0 40) (mkPosition 2 38 78)) "Enemy" "" ""
       (Some (ResourceRef instanceRange "ExtResource" "1" zeroRange))
       "" "" None [] []]
    [] [] [].

Lemma references_lead_to_definition_witness :
  exists r idRange before after,
    searchedValues sceneWithInstance
    = (before ++ ResourceRef r "ExtResource" (eID sceneResource) idRange :: after)%list /\
    locationOf "file:///scene.tscn" instanceRange = locationOf "file:///scene.tscn" r /\
    forall line col,
      isInRange r line col = true ->
      findDefinitionInValue
        (Some (ResourceRef r "ExtResource" (eID sceneResource) idRange))
        sceneWithInstance "file:///scene.tscn" line col
      = Some (locationOf "file:///scene.tscn" (eRange sceneResource)) /\
      ((forall r' refType' id' idRange',
          ResourceRef r' refType' id' idRange' ∈ before ->
          isInRange r' line col = false) ->
       findDefinition (fun _ _ => None) sceneWithInstance "file:///scene.tscn" line col
       = Some (locationOf "file:///scene.tscn" (eRange sceneResource))).
Proof.
  apply (references_lead_to_definition (fun _ _ => None) sceneWithInstance
           "file:///scene.tscn" [] [] sceneResource
           (locationOf "file:///scene.tscn" instanceRange)).
  - reflexivity.
  - simpl. apply not_elem_of_nil.
  - apply list_elem_of_In. vm_compute. left. reflexivity.
Defined.

(** In that scene the request at the first column of the instance leads
    to the resource. *)
Example instance_definition_found :
  findDefinition (fun _ _ => None) sceneWithInstance "file:///scene.tscn" 2 20
  = Some (locationOf "file:///scene.tscn" (eRange sceneResource)).
Proof. vm_compute. reflexivity. Qed.

(** Two references that touch, as in an array written without a comma:
    at the first column of the second one the request gives the resource
    of the first, whose range ends at that column. *)
Definition firstTexture : ExtResource :=
  mkExtResource (mkRange (mkPosition 0 0 0) (mkPosition 0 40 40))
    "Texture2D" "" "res://a.png" zeroRange "1".

Definition secondTexture : ExtResource :=
  mkExtResource (mkRange (mkPosition 1 0 41) (mkPosition 1 40 81))
    "Texture2D" "" "res://b.png" zeroRange "2".

Definition sceneWithTouchingReferences : Document :=
  mkDocument None [firstTexture; secondTexture] []
    [mkNode (mkRange (mkPosition 3 0 90) (mkPosition 4 44 150)) "Sprite" "" ""
       None "" "" None []
       [mkProperty (mkRange (mkPosition 4 0 106) (mkPosition 4 44 150)) "frames"
          zeroRange
          (ArrayValue (mkRange (mkPosition 4 9 115) (mkPosition 4 44 150))
             [ResourceRef (mkRange (mkPosition 4 10 116) (mkPosition 4 26 132))
                "ExtResource" "1" zeroRange;
              ResourceRef (mkRange (mkPosition 4 26 132) (mkPosition 4 42 148))
                "ExtResource" "2" zeroRange])]]
    [] [] [].

Example touching_reference_shadowed :
  isInRange (mkRange (mkPosition 4 26 132) (mkPosition 4 42 148)) 4 26 = true /\
  findDefinition (fun _ _ => None) sceneWithTouchingReferences "file:///scene.tscn" 4 26
  = Some (locationOf "file:///scene.tscn" (eRange firstTexture)) /\
  findDefinition (fun _ _ => None) sceneWithTouchingReferences "file:///scene.tscn" 4 27
  = Some (locationOf "file:///scene.tscn" (eRange secondTexture)).
Proof. vm_compute. repeat split. Qed.

(** *** The tree of node symbols *)

Lemma mapM_None_elem {A B : Type} (f : A -> option B) (l : list A) (x : A) :
  x ∈ l -> f x = None -> mapM f l = None.
Proof.
  intros Hin Hx. induction l as [|a l IH]; [set_solver|].
  simpl. apply elem_of_cons in Hin as [<-|Hin].
  - rewrite Hx. reflexivity.
  - destruct (f a); [|reflexivity]. simpl. rewrite (IH Hin). reflexivity.
Qed.

Definition linkStep (pathToNode : gmap string (Node * list Node)) (node : Node)
    : gmap string (Node * list Node) :=
  if String.eqb (Parent node) "" then pathToNode
  else
    let parentPath := if String.eqb (Parent node) "." then "" else Parent node in
    match pathToNode !! parentPath with
    | Some (parent, children) =>
      <[parentPath := (parent, (children ++ [node])%list)]> pathToNode
    | None => pathToNode
    end.

Definition childAt (m : gmap string (Node * list Node)) (p : string) (x : Node) : Prop :=
  exists node children, m !! p = Some (node, children) /\ x ∈ children.

Lemma linkStep_is_Some m n p : is_Some (m !! p) -> is_Some (linkStep m n !! p).
Proof.
  intros Hs. unfold linkStep. destruct (String.eqb (Parent n) ""); [exact Hs|].
  set (q := if String.eqb (Parent n) "." then "" else Parent n).
  destruct (m !! q) as [[parent children]|] eqn:E; [|exact Hs].
  rewrite lookup_insert. destruct (decide (q = p)); [eauto | exact Hs].
Qed.

Lemma linkStep_childAt m n p x : childAt m p x -> childAt (linkStep m n) p x.
Proof.
  intros (node & children & Hm & Hx). unfold linkStep, childAt.
  destruct (String.eqb (Parent n) ""); [eauto|].
  set (q := if String.eqb (Parent n) "." then "" else Parent n).
  destruct (m !! q) as [[parent ch]|] eqn:E; [|eauto].
  rewrite lookup_insert. destruct (decide (q = p)) as [->|Hne]; [|eauto].
  rewrite Hm in E. injection E as <- <-.
  exists node, (children ++ [n])%list. split; [reflexivity | set_solver].
Qed.

Lemma linkChildren_is_Some nodes m p :
  is_Some (m !! p) -> is_Some (linkChildren nodes m !! p).
Proof.
  unfold linkChildren. revert m.
  induction nodes as [|n nodes IH]; intros m Hs; [exact Hs|].
  simpl. apply IH. apply (linkStep_is_Some m n p Hs).
Qed.

Lemma linkChildren_childAt nodes m p x :
  childAt m p x -> childAt (linkChildren nodes m) p x.
Proof.
  unfold linkChildren. revert m.
  induction nodes as [|n nodes IH]; intros m Hs; [exact Hs|].
  simpl. apply IH. apply (linkStep_childAt m n p x Hs).
Qed.

Lemma linkChildren_links nodes m c :
  c ∈ nodes -> Parent c = "." -> is_Some (m !! "") ->
  childAt (linkChildren nodes m) "" c.
Proof.
  intros Hin Hp Hs. apply list_elem_of_split in Hin as (pre & post & ->).
  unfold linkChildren. rewrite fold_left_app. simpl.
  apply (linkChildren_childAt post).
  pose proof (linkChildren_is_Some pre m "" Hs) as [[node children] Hm].
  unfold linkChildren in Hm. unfold childAt.
  rewrite Hp. simpl. rewrite Hm, lookup_insert, decide_True by reflexivity.
  exists node, (children ++ [c])%list. split; [reflexivity | set_solver].
Qed.

Lemma nodeInfos_root nodes root :
  root ∈ nodes -> Parent root = "" ->
  is_Some (nodeInfos nodes).2 /\ is_Some ((nodeInfos nodes).1 !! "").
Proof.
  intros Hin Hp. apply list_elem_of_split in Hin as (pre & post & ->).
  unfold nodeInfos. rewrite fold_left_app. simpl.
  destruct (fold_left _ pre (∅, None)) as [m0 r0]. rewrite Hp. simpl.
  assert (nodePathOf root = "") as -> by (unfold nodePathOf; rewrite Hp; reflexivity).
  assert (is_Some (Some root) /\ is_Some (<["" := (root, [])]> m0 !! "")) as H0.
  { split; [eauto|]. rewrite lookup_insert, decide_True by reflexivity. eauto. }
  revert H0. generalize (Some root) (<["" := (root, [])]> m0).
  induction post as [|n post IH]; intros r m [Hr Hm]; [split; assumption|].
  simpl. apply IH. split.
  - destruct (String.eqb (Parent n) ""); [eauto | exact Hr].
  - rewrite lookup_insert. destruct (decide (nodePathOf n = "")); [eauto | exact Hm].
Qed.

Lemma buildSymbol_cycle (m : gmap string (Node * list Node)) (c : Node) :
  childAt m "" c -> Name c = "" ->
  forall fuel node, buildSymbol m fuel node "" = None.
Proof.
  intros (n0 & children & Hm & Hc) Hname fuel.
  induction fuel as [|f IH]; intros node; [reflexivity|].
  cbn [buildSymbol]. rewrite Hm.
  rewrite (mapM_None_elem _ children c Hc); [reflexivity|].
  simpl. rewrite Hname. apply IH.
Qed.

(** In a scene with a root node, a node with parent ["."] and an empty
    name (a node section without a name) makes [buildNodeTree] recurse
    without end: its path is the empty path of the root, so it is among
    the children looked up for itself.  No depth is enough. *)
Theorem buildNodeTree_never_returns (nodes : list Node) (root child : Node)
    (fuel : nat) :
  root ∈ nodes -> Parent root = "" ->
  child ∈ nodes -> Parent child = "." -> Name child = "" ->
  buildNodeTree fuel nodes = None.
Proof.
  intros Hroot Hrp Hchild Hcp Hcn. unfold buildNodeTree.
  destruct nodes as [|n0 rest] eqn:E; [set_solver|]. rewrite <- E in *. clear E n0 rest.
  destruct (nodeInfos_root nodes root Hroot Hrp) as [[r Hr] Hm].
  destruct (nodeInfos nodes) as [m rootNode]. simpl in Hr, Hm. subst rootNode.
  rewrite (buildSymbol_cycle (linkChildren nodes m) child); [reflexivity| |exact Hcn].
  apply linkChildren_links; assumption.
Qed.

Lemma buildNodeTree_never_returns_witness :
  buildNodeTree 1000 [node0 "Root" ""; node0 "" "."] = None.
Proof.
  apply (buildNodeTree_never_returns _ (node0 "Root" "") (node0 "" "."));
    try reflexivity; set_solver.
Defined.

(** Otherwise the recursion ends: the paths get longer at every level,
    and no longer than the longest path of a node. *)
Lemma linkStep_is_Some_inv m n p : is_Some (linkStep m n !! p) -> is_Some (m !! p).
Proof.
  unfold linkStep. destruct (String.eqb (Parent n) ""); [auto|].
  set (q := if String.eqb (Parent n) "." then "" else Parent n).
  destruct (m !! q) as [[parent children]|] eqn:E; [|auto].
  rewrite lookup_insert. destruct (decide (q = p)) as [<-|]; [|auto].
  intros _. rewrite E. eauto.
Qed.

Lemma linkStep_childAt_inv m n x :
  childAt (linkStep m n) "" x -> childAt m "" x \/ (x = n /\ Parent n = ".").
Proof.
  unfold linkStep, childAt.
  destruct (String.eqb_spec (Parent n) "") as [Hp|Hp]; [auto|].
  destruct (String.eqb_spec (Parent n) ".") as [Hd|Hd].
  - destruct (m !! "") as [[parent ch]|] eqn:E; [|rewrite E; auto].
    rewrite lookup_insert, decide_True by reflexivity.
    intros (node & children & [= <- <-] & Hx).
    apply elem_of_app in Hx as [Hx|Hx]; [left; eauto|].
    right. split; [set_solver | exact Hd].
  - destruct (m !! Parent n) as [[parent ch]|] eqn:E; [|auto].
    rewrite lookup_insert_ne by exact Hp. auto.
Qed.

Lemma linkChildren_inv nodes m :
  (forall p, is_Some (linkChildren nodes m !! p) -> is_Some (m !! p)) /\
  (forall x, childAt (linkChildren nodes m) "" x ->
             childAt m "" x \/ (x ∈ nodes /\ Parent x = ".")).
Proof.
  unfold linkChildren. revert m.
  induction nodes as [|n nodes IH]; intros m; [simpl; auto|].
  simpl. destruct (IH (linkStep m n)) as [IH1 IH2]. fold (linkStep m n). split.
  - intros p Hp. apply (linkStep_is_Some_inv m n), IH1, Hp.
  - intros x Hx. apply IH2 in Hx as [Hx|[Hx Hp]]; [|right; split; [set_solver | exact Hp]].
    apply linkStep_childAt_inv in Hx as [Hx|[-> Hp]]; [auto|].
    right. split; [set_solver | exact Hp].
Qed.

Lemma nodeInfos_inv nodes :
  (forall p, is_Some ((nodeInfos nodes).1 !! p) -> p ∈ nodePathOf <$> nodes) /\
  (forall p node children, (nodeInfos nodes).1 !! p = Some (node, children) ->
                           children = []).
Proof.
  unfold nodeInfos. induction nodes as [|n nodes IH] using rev_ind.
  - simpl. split; [intros p [x Hx]|intros p node ch Hx]; rewrite lookup_empty in Hx;
      discriminate.
  - rewrite fold_left_app. simpl.
    destruct (fold_left _ nodes (∅, None)) as [m r]. simpl in *.
    destruct IH as [IH1 IH2]. split.
    + intros p. rewrite lookup_insert, fmap_app.
      destruct (decide (nodePathOf n = p)) as [<-|]; [set_solver|].
      intros Hp. apply IH1 in Hp. set_solver.
    + intros p node ch. rewrite lookup_insert.
      destruct (decide (nodePathOf n = p)); [intros [= _ <-]; reflexivity|].
      apply IH2.
Qed.

Lemma string_length_app (a b : string) :
  String.length (a +:+ b) = String.length a + String.length b.
Proof.
  induction a as [|c a IH]; [reflexivity|].
  change (String c a +:+ b) with (String c (a +:+ b)). simpl. rewrite IH. reflexivity.
Qed.

Lemma buildSymbol_returns (m : gmap string (Node * list Node)) (L : nat) :
  (forall p, is_Some (m !! p) -> String.length p <= L) ->
  (forall x, childAt m "" x -> Name x <> "") ->
  forall fuel node path,
    L + 1 - String.length path < fuel -> is_Some (buildSymbol m fuel node path).
Proof.
  intros Hkeys Hnames fuel. induction fuel as [|f IH]; intros node path Hf; [lia|].
  cbn [buildSymbol].
  destruct (m !! path) as [[n0 children]|] eqn:E; [|simpl; eauto].
  assert (is_Some (mapM
            (fun child =>
               buildSymbol m f child
                 (if String.eqb path "" then Name child
                  else path +:+ "/" +:+ Name child)) children)) as [syms ->];
    [|simpl; eauto].
  apply mapM_is_Some, Forall_forall. intros c Hc. simpl.
  pose proof (Hkeys path ltac:(rewrite E; eauto)) as Hlen.
  apply IH. destruct (String.eqb_spec path "") as [->|Hne].
  - assert (Name c <> "") as Hn by (apply Hnames; exists n0, children; auto).
    destruct (Name c); [contradiction|]. simpl in *. lia.
  - rewrite !string_length_app. simpl. lia.
Qed.

Definition longestPath (nodes : list Node) : nat :=
  list_max (map (fun node => String.length (nodePathOf node)) nodes).

(** When no node with parent ["."] has an empty name, [buildNodeTree]
    returns, at a depth of recursion of at most two more than the length
    of the longest path of a node. *)
Theorem buildNodeTree_returns (nodes : list Node) :
  (forall node, node ∈ nodes -> Parent node = "." -> Name node <> "") ->
  is_Some (buildNodeTree (longestPath nodes + 2) nodes).
Proof.
  intros Hnames. unfold buildNodeTree. destruct nodes as [|n0 rest] eqn:E; [eauto|].
  rewrite <- E in *. clear E n0 rest.
  destruct (nodeInfos_inv nodes) as [Hk Hc].
  destruct (nodeInfos nodes) as [m rootNode]. simpl in Hk, Hc.
  destruct rootNode as [root|]; [|eauto].
  destruct (linkChildren_inv nodes m) as [Hk' Hc'].
  destruct (buildSymbol_returns (linkChildren nodes m) (longestPath nodes))
    with (fuel := longestPath nodes + 2) (node := root) (path := "") as [sym ->];
    [| |simpl; lia|simpl; eauto].
  - intros p Hp. apply Hk', Hk in Hp.
    apply list_elem_of_fmap in Hp as (n & -> & Hn). unfold longestPath.
    pose proof (proj1 (list_max_le
                         (map (fun node => String.length (nodePathOf node)) nodes) _)
                  (Nat.le_refl _)) as Hall.
    rewrite List.Forall_forall in Hall. apply Hall.
    apply in_map_iff. exists n. split; [reflexivity | by apply list_elem_of_In].
  - intros x Hx. apply Hc' in Hx as [(node & ch & Hm & Hin)|[Hin Hp]].
    + apply Hc in Hm. subst ch. set_solver.
    + apply Hnames; assumption.
Qed.

Lemma buildNodeTree_returns_witness :
  is_Some (buildNodeTree
             (longestPath [node0 "Root" ""; node0 "A" "."; node0 "B" "A"] + 2)
             [node0 "Root" ""; node0 "A" "."; node0 "B" "A"]).
Proof.
  apply (buildNodeTree_returns [node0 "Root" ""; node0 "A" "."; node0 "B" "A"]).
  intros node Hin Hp.
  repeat (apply elem_of_cons in Hin as [->|Hin]); try discriminate.
  set_solver.
Defined.

(** A scene of three nodes gets its tree. *)
Example buildNodeTree_small_scene :
  (fun syms : list DocumentSymbol =>
     (map dsName syms, map (fun s => map dsName (dsChildren s)) syms))
    <$> buildNodeTree 5 [node0 "Root" ""; node0 "A" "."; node0 "B" "A"]
  = Some (["Root"], [["A"]]).
Proof. vm_compute. reflexivity. Qed.

End LspProps.

(* --------------------------------------------------------------------- *)
(** ** The GDShader analyzer *)
(* --------------------------------------------------------------------- *)

Module GDShaderProps.
Import GDShader.

(** Running a method and keeping the errors it adds. *)
Definition withError (a : Analyzer) (r : Range) (msg : string) : Analyzer :=
  set_errors (errors a ++ [mkSemanticError msg r]) a.

Lemma bind_Some {S A B} (m : SM S A) (f : A -> SM S B) s x s' :
  m s = Some (x, s') -> bind m f s = f x s'.
Proof. unfold bind. intros ->. reflexivity. Qed.

Lemma bind_None {S A B} (m : SM S A) (f : A -> SM S B) s :
  m s = None -> bind m f s = None.
Proof. unfold bind. intros ->. reflexivity. Qed.

(** *** Built-in variables of particles shaders (C1) *)

(** What the stage switch and the table switch do for [start] and
    [process]: the stage is ["compute"], for which the particles case of
    [registerBuiltinVariables] has no table, so nothing is registered. *)
Lemma stageOfFunction_particles (name : string) :
  name = "start" \/ name = "process" -> stageOfFunction name = "compute".
Proof. intros [-> | ->]; reflexivity. Qed.

Lemma registerBuiltinVariables_particles (a : Analyzer) (name : string) :
  name = "start" \/ name = "process" ->
  shaderType a = ShaderTypeParticles ->
  currentStage a = stageOfFunction name ->
  registerBuiltinVariables a = Some (tt, a).
Proof.
  intros Hn Ht Hs. rewrite (stageOfFunction_particles _ Hn) in Hs.
  unfold registerBuiltinVariables, bind, get. rewrite Ht, Hs. reflexivity.
Qed.

Definition R0 : Range := zeroRange.
Definition typeSpec (name : string) : option TypeSpec :=
  Some (mkTypeSpec R0 "" name NilExpr).
Definition floatLit (v : string) : Expr := LiteralExpr R0 "float" v.
Definition call (name : string) (args : list Expr) : Expr :=
  CallExpr R0 (IdentExpr R0 name) args.
Definition assign (lhs rhs : Expr) : Stmt := ExprStmt R0 (BinaryExpr R0 lhs "=" rhs).
Definition voidFunction (name : string) (body : list Stmt) : FunctionDecl :=
  mkFunctionDecl R0 (typeSpec "void") name [] (Some (R0, body)).
Definition shader (type : string) (uniforms : list UniformDecl)
    (functions : list FunctionDecl) : ShaderDocument :=
  mkShaderDocument (Some (mkShaderTypeDecl R0 type)) None [] uniforms [] []
    functions.

(** [shader_type particles;
     void start() { VELOCITY = vec3(0.0); }
     void process() { VELOCITY; }] *)
Definition particlesStart : ShaderDocument :=
  shader "particles" []
    [voidFunction "start"
       [assign (IdentExpr R0 "VELOCITY") (call "vec3" [floatLit "0.0"])];
     voidFunction "process" [ExprStmt R0 (IdentExpr R0 "VELOCITY")]].

(** [shader_type canvas_item; void fragment() { COLOR = vec4(0.0); }] *)
Definition canvasFragment : ShaderDocument :=
  shader "canvas_item" []
    [voidFunction "fragment"
       [assign (IdentExpr R0 "COLOR") (call "vec4" [floatLit "0.0"])]].

(** C1 fails on the code: in a particles shader the built-in [VELOCITY],
    an entry of the particles table, is an undefined symbol inside
    [start] and inside [process]. *)
Theorem particles_builtin_undefined :
  In "VELOCITY" (map fst GetParticlesBuiltins) /\
  analyzeDocument particlesStart
  = Some [ mkSemanticError "undefined symbol 'VELOCITY'" R0;
           mkSemanticError "cannot assign 'vec3' to 'error'" R0;
           mkSemanticError "undefined symbol 'VELOCITY'" R0 ].
Proof. split; [simpl; tauto | vm_compute; reflexivity]. Qed.

(** The sibling path does register its table. *)
Lemma canvas_item_builtin_defined : analyzeDocument canvasFragment = Some [].
Proof. vm_compute. reflexivity. Qed.


(** *** Overload resolution for built-in functions (C8) *)


















Example sin_of_float :
  fst <$> analyzeExpr (call "sin" [floatLit "1.0"]) NewAnalyzer
  = Some (Some TypeFloat).
Proof. vm_compute. reflexivity. Qed.

Example sin_of_bool :
  analyzeExpr (call "sin" [LiteralExpr R0 "bool" "true"]) NewAnalyzer
  = Some (Some TypeFloat,
          withError NewAnalyzer R0 "no matching overload for 'sin(bool)'").
Proof. vm_compute. reflexivity. Qed.


(** *** Array sizes (C10) *)

Definition intLiteralText (e : Expr) : option string :=
  match e with
  | LiteralExpr _ kind value => if String.eqb kind "int" then Some value else None
  | _ => None
  end.

(** [evaluateConstExpr] changes nothing in the analyzer; its value is the
    conversion of the text of an integer literal, and -1 for every other
    expression. *)
Lemma evaluateConstExpr_value (e : Expr) (a : Analyzer) :
  scopes a <> [] ->
  evaluateConstExpr e a
  = Some (match intLiteralText e with
          | Some text => strconv.Atoi text
          | None => (-1)%Z
          end, a).
Proof.
  intros Hs. destruct e; try reflexivity.
  - simpl. destruct (String.eqb kind "int"); reflexivity.
  - simpl. unfold bind, lookup. destruct (scopes a) eqn:E; [done|].
    destruct (lookupChain _ _) as [s|]; [destruct (Constant s)|]; reflexivity.
Qed.

(** A declared array whose size is not an integer literal gets the
    unsized array type, and resolving it changes nothing in the analyzer,
    the error list included. *)
Lemma resolveType_unsized (ts : TypeSpec) (t : Ty) (a : Analyzer) :
  scopes a <> [] ->
  TypeFromName (tsName ts) = Some t ->
  tsArraySize ts <> NilExpr ->
  intLiteralText (tsArraySize ts) = None ->
  resolveType (Some ts) a = Some (Some (MakeArrayType (Some t) (-1)), a) /\
  TypeString (Some (MakeArrayType (Some t) (-1))) = TyString t +:+ "[]".
Proof.
  intros Hs Ht Hn Hl. split; [|reflexivity].
  unfold resolveType. rewrite Ht.
  destruct (tsArraySize ts) eqn:E; [done|..];
    cbn [isNilExpr negb];
    rewrite (bind_Some _ _ _ _ _ (evaluateConstExpr_value _ a Hs)), ?Hl;
    try reflexivity.
Qed.

(** A decimal literal is converted to its value. *)
Example evaluateConstExpr_decimal :
  evaluateConstExpr (LiteralExpr R0 "int" "16") NewAnalyzer = Some (16%Z, NewAnalyzer).
Proof. reflexivity. Qed.

(** C10 fails on the code for integer literals that are not decimal: the
    lexer gives the literals [0x10] and [3u] the kind ["int"], and they
    evaluate to 0, neither their own value nor -1. *)
Theorem evaluateConstExpr_hex_literal :
  evaluateConstExpr (LiteralExpr R0 "int" "0x10") NewAnalyzer = Some (0%Z, NewAnalyzer) /\
  evaluateConstExpr (LiteralExpr R0 "int" "3u") NewAnalyzer = Some (0%Z, NewAnalyzer).
Proof. split; reflexivity. Qed.

(** [void f() { float a[N] = {1.0, 2.0}; }] for a size expression [N]. *)
Definition arrayDecl (size : Expr) : ShaderDocument :=
  shader "spatial" []
    [voidFunction "f"
       [VarDeclStmt R0 false (typeSpec "float")
          [mkVarDecl R0 "a" size (ArrayExpr R0 [floatLit "1.0"; floatLit "2.0"])]]].

Example array_size_decimal :
  analyzeDocument (arrayDecl (LiteralExpr R0 "int" "2")) = Some [].
Proof. vm_compute. reflexivity. Qed.

Example array_size_hex :
  analyzeDocument (arrayDecl (LiteralExpr R0 "int" "0x2"))
  = Some [mkSemanticError
            "cannot initialize 'a' of type 'float[0]' with 'float[2]'" R0].
Proof. vm_compute. reflexivity. Qed.


(** *** Swizzles: reading and assigning (C6) *)

(** The specification's words: 1 to 4 characters, all from one of the
    sets [xyzw], [rgba], [stpq], each indexing below the vector size. *)
Definition swizzleSets : list string := ["xyzw"; "rgba"; "stpq"].

Definition chars (s : string) : list ascii := list_ascii_of_string s.

Fixpoint indexIn (set : list ascii) (c : ascii) : option nat :=
  match set with
  | [] => None
  | x :: rest => if Ascii.eqb x c then Some 0 else S <$> indexIn rest c
  end.

Definition componentOf (size : Z) (set : string) (c : ascii) : bool :=
  match indexIn (chars set) c with
  | Some i => (Z.of_nat i <? size)%Z
  | None => false
  end.

Definition wellFormedSwizzle (size : Z) (m : string) : bool :=
  (1 <=? String.length m)%nat && (String.length m <=? 4)%nat
  && existsb (fun set => forallb (componentOf size set) (chars m)) swizzleSets.

(** The result of reading: the component type for one character, the
    vector of as many components otherwise. *)
Definition swizzleResult (b : Ty) (m : string) : option Ty :=
  if (String.length m =? 1)%nat then ComponentType b
  else (fun c => VectorTypeForSize c (Z.of_nat (String.length m))) <$> ComponentType b.

Lemma runes_ascii (m : string) :
  Forall (fun c => nat_of_ascii c < 128) (chars m) ->
  utf8.runes m = utf8.byteZ <$> chars m.
Proof.
  unfold utf8.runes. induction m as [|c m IH]; intros H; [reflexivity|].
  inversion H as [|? ? Hc Hm]; subst.
  cbn [String.length utf8.runes_fuel chars list_ascii_of_string fmap list_fmap].
  unfold utf8.DecodeRuneInString.
  assert ((utf8.byteZ c <? 128)%Z = true) as ->
    by (apply Z.ltb_lt; unfold utf8.byteZ; lia).
  cbn [utf8.drop_string]. f_equal. apply IH, Hm.
Qed.

Lemma componentOf_table (size : Z) (set : string) (c : ascii) :
  In set swizzleSets -> componentOf size set c = true ->
  nat_of_ascii c < 128 /\
  exists idx, ValidSwizzleChars (utf8.byteZ c) = Some idx /\ (idx <? size)%Z = true /\
    SwizzleSet (utf8.byteZ c)
    = (if String.eqb set "xyzw" then 0 else if String.eqb set "rgba" then 1 else 2)%Z.
Proof.
  unfold componentOf.
  intros [<- | [<- | [<- | []]]]; cbn [chars list_ascii_of_string indexIn];
    repeat (match goal with
            | |- context [Ascii.eqb ?x c] =>
              destruct (Ascii.eqb_spec x c) as [<- | ?]
            end;
            [intros H; split; [vm_compute; lia | eexists; split; [reflexivity |]];
             split; [exact H | reflexivity] |]);
    cbn; discriminate.
Qed.

Lemma swizzleLoop_wellFormed (b : Ty) (size : Z) (set : string) (cs : list ascii) (seen : Z) :
  In set swizzleSets ->
  (seen = -1 \/ seen = if String.eqb set "xyzw" then 0
                       else if String.eqb set "rgba" then 1 else 2)%Z ->
  forallb (componentOf size set) cs = true ->
  swizzleLoop b size seen (utf8.byteZ <$> cs) = None.
Proof.
  intros Hset. revert seen. induction cs as [|c cs IH]; intros seen Hseen Hall;
    [reflexivity|].
  cbn [forallb] in Hall. apply andb_true_iff in Hall as [Hc Hall].
  destruct (componentOf_table _ _ _ Hset Hc) as (_ & idx & Hidx & Hlt & Hs).
  cbn [fmap list_fmap swizzleLoop]. rewrite Hidx, Hs.
  assert ((idx >=? size)%Z = false) as ->
    by (apply Z.ltb_lt in Hlt; rewrite Z.geb_leb; apply Z.leb_gt; lia).
  assert (negb (seen =? -1)%Z
          && negb ((if String.eqb set "xyzw" then 0
                    else if String.eqb set "rgba" then 1 else 2) =? seen)%Z = false) as ->.
  { destruct Hseen as [-> | ->]; [reflexivity|].
    rewrite Z.eqb_refl. apply andb_false_r. }
  apply IH; [right; reflexivity | exact Hall].
Qed.

Lemma wellFormedSwizzle_ascii (size : Z) (m : string) :
  wellFormedSwizzle size m = true ->
  Forall (fun c => nat_of_ascii c < 128) (chars m).
Proof.
  unfold wellFormedSwizzle. intros H.
  apply andb_true_iff in H as [_ H]. apply existsb_exists in H as (set & Hset & Hall).
  apply Forall_forall. intros c Hc.
  eapply componentOf_table; [exact Hset|].
  apply (proj1 (forallb_forall _ _) Hall), list_elem_of_In, Hc.
Qed.

Lemma chars_length (m : string) : length (chars m) = String.length m.
Proof. induction m; simpl; congruence. Qed.

(** Reading: a well-formed swizzle validates, with or without repeated
    components. *)
Lemma ValidateSwizzle_wellFormed (b : Ty) (m : string) :
  IsVector b = true ->
  wellFormedSwizzle (VectorSize b) m = true ->
  ValidateSwizzle b m = (swizzleResult b m, None) /\
  exists t, swizzleResult b m = Some t /\ Kind t <> TypeKindError /\
    (1 < String.length m -> IsVector t = true /\
       VectorSize t = Z.of_nat (String.length m) /\
       ComponentType t = ComponentType b).
Proof.
  intros Hv Hwf. pose proof (wellFormedSwizzle_ascii _ _ Hwf) as Hascii.
  unfold wellFormedSwizzle in Hwf.
  apply andb_true_iff in Hwf as [Hlen Hex].
  apply andb_true_iff in Hlen as [H1 H4].
  apply Nat.leb_le in H1, H4.
  apply existsb_exists in Hex as (set & Hset & Hall).
  split.
  - unfold ValidateSwizzle. rewrite Hv. cbn [negb].
    assert ((String.length m =? 0)%nat || (4 <? String.length m)%nat = false) as ->.
    { apply orb_false_iff. split; [apply Nat.eqb_neq | apply Nat.ltb_ge]; lia. }
    rewrite (runes_ascii _ Hascii).
    rewrite (swizzleLoop_wellFormed b _ set (chars m) (-1) Hset (or_introl eq_refl) Hall).
    unfold swizzleResult.
    destruct (String.length m =? 1)%nat; [reflexivity|].
    destruct b as [k ? ? ? ?]; destruct k; try discriminate Hv; reflexivity.
  - unfold swizzleResult.
    assert (String.length m = 1 \/ String.length m = 2 \/ String.length m = 3
            \/ String.length m = 4) as Hl by lia.
    destruct b as [k ? ? ? ?]; destruct k; try discriminate Hv;
      destruct Hl as [-> | [-> | [-> | ->]]]; cbn;
      (eexists; split; [reflexivity | split; [discriminate | intros ?; try lia; auto]]).
Qed.


Lemma byteZ_inj (c d : ascii) : utf8.byteZ c = utf8.byteZ d -> c = d.
Proof.
  unfold utf8.byteZ. intros H. apply Nat2Z.inj in H.
  rewrite <- (ascii_nat_embedding c), <- (ascii_nat_embedding d). congruence.
Qed.




(** A scope in which [v] is a local [vec3] variable. *)
Definition localVec3 : Analyzer :=
  set_scopes
    [ {[ "v" := mkSymbol "v" (Some TypeVec3) SymbolVariable R0
                  false false false [] None ]} ]
    NewAnalyzer.


(** The scenario of the specification: for a local [vec3 v], [v.xxx = ...]
    is rejected and [v.xy = ...] is accepted. *)
Definition localSwizzle (m : string) (rhs : Expr) : ShaderDocument :=
  shader "spatial" []
    [voidFunction "f"
       [VarDeclStmt R0 false (typeSpec "vec3") [mkVarDecl R0 "v" NilExpr NilExpr];
        assign (MemberExpr R0 (IdentExpr R0 "v") m) rhs]].

Example local_swizzle_xxx :
  analyzeDocument (localSwizzle "xxx" (call "vec3" [floatLit "1.0"]))
  = Some [mkSemanticError "cannot assign to swizzle with duplicate components" R0].
Proof. vm_compute. reflexivity. Qed.

Example local_swizzle_xy :
  analyzeDocument (localSwizzle "xy" (call "vec2" [floatLit "1.0"])) = Some [].
Proof. vm_compute. reflexivity. Qed.



(** *** Equality of types *)

(** Induction over a type along its element type. *)
Section TyInduction.
Variable P : Ty -> Prop.
Hypothesis HNone : forall k name size fields, P (mkTy k name size None fields).
Hypothesis HSome : forall k name size e fields,
  P e -> P (mkTy k name size (Some e) fields).

Fixpoint Ty_element_ind (t : Ty) : P t :=
  match t with
  | mkTy k name size None fields => HNone k name size fields
  | mkTy k name size (Some e) fields => HSome k name size e fields (Ty_element_ind e)
  end.

End TyInduction.

Lemma kindEq_true (a b : TypeKind) : kindEq a b = true <-> a = b.
Proof. unfold kindEq. apply bool_decide_eq_true. Qed.

Lemma kindEq_refl (a : TypeKind) : kindEq a a = true.
Proof. by apply kindEq_true. Qed.

Lemma kindEq_false (a b : TypeKind) : a <> b -> kindEq a b = false.
Proof. intros Hne. unfold kindEq. by apply bool_decide_eq_false_2. Qed.

Lemma kindEq_sym (a b : TypeKind) : kindEq a b = kindEq b a.
Proof.
  unfold kindEq. destruct (decide (a = b)) as [->|Hne]; [reflexivity|].
  rewrite !bool_decide_eq_false_2; [reflexivity| |]; congruence.
Qed.

Lemma EqualsTy_None (t : Ty) : EqualsTy t None = false.
Proof. destruct t. reflexivity. Qed.

Lemma EqualsTy_refl (t : Ty) : EqualsTy t (Some t) = true.
Proof.
  induction t as [k name size fields|k name size e fields IH] using Ty_element_ind;
    cbn [EqualsTy Kind TName ArraySize ElementType];
    rewrite kindEq_refl; cbn [negb];
    destruct (kindEq k TypeKindStruct); try apply String.eqb_refl;
    destruct (kindEq k TypeKindArray); try reflexivity;
    rewrite Z.eqb_refl; [reflexivity | exact IH].
Qed.

Lemma EqualsTy_sym (t : Ty) : forall o, EqualsTy t (Some o) = EqualsTy o (Some t).
Proof.
  induction t as [k name size fields|k name size e fields IH] using Ty_element_ind;
    intros [k' name' size' e' fields'];
    cbn [EqualsTy Kind TName ArraySize ElementType];
    rewrite (kindEq_sym k' k);
    (destruct (decide (k = k')) as [<-|Hne];
     [|rewrite (kindEq_false _ _ Hne); reflexivity]);
    rewrite kindEq_refl; cbn [negb];
    (destruct (kindEq k TypeKindStruct); [apply String.eqb_sym|]);
    (destruct (kindEq k TypeKindArray); [|reflexivity]);
    rewrite (Z.eqb_sym size' size); f_equal;
    destruct e' as [e'|]; rewrite ?EqualsTy_None; try reflexivity.
  apply IH.
Qed.

Lemma EqualsTy_Kind (t o : Ty) : EqualsTy t (Some o) = true -> Kind t = Kind o.
Proof.
  destruct t as [k name size e fields]. cbn [EqualsTy Kind].
  destruct (kindEq k (Kind o)) eqn:E; [|discriminate].
  intros _. by apply kindEq_true.
Qed.

Lemma EqualsTy_trans (t : Ty) :
  forall u v, EqualsTy t (Some u) = true -> EqualsTy u (Some v) = true ->
              EqualsTy t (Some v) = true.
Proof.
  induction t as [k name size fields|k name size e fields IH] using Ty_element_ind;
    intros [k1 name1 size1 e1 fields1] [k2 name2 size2 e2 fields2];
    cbn [EqualsTy Kind TName ArraySize ElementType];
    (destruct (decide (k = k1)) as [<-|Hne];
     [|rewrite (kindEq_false _ _ Hne); discriminate]);
    rewrite kindEq_refl; cbn [negb];
    (destruct (decide (k = k2)) as [<-|Hne];
     [|rewrite (kindEq_false _ _ Hne); intros; discriminate]);
    rewrite kindEq_refl; cbn [negb];
    (destruct (kindEq k TypeKindStruct);
     [rewrite !String.eqb_eq; congruence|]);
    (destruct (kindEq k TypeKindArray); [|reflexivity]);
    rewrite !andb_true_iff, !Z.eqb_eq; intros [-> H1] [-> H2];
    (split; [reflexivity|]).
  - destruct e1; [discriminate|]. exact H2.
  - destruct e1 as [e1|]; [|rewrite EqualsTy_None in H1; discriminate].
    destruct e2 as [e2|]; [|rewrite EqualsTy_None in H2; discriminate].
    eapply IH; eassumption.
Qed.

(** Equal types print the same. *)
Lemma EqualsTy_TyString (t : Ty) :
  forall u, EqualsTy t (Some u) = true -> TyString t = TyString u.
Proof.
  induction t as [k name size fields|k name size e fields IH] using Ty_element_ind;
    intros [k1 name1 size1 e1 fields1];
    cbn [EqualsTy Kind TName ArraySize ElementType];
    (destruct (decide (k = k1)) as [<-|Hne];
     [|rewrite (kindEq_false _ _ Hne); discriminate]);
    rewrite kindEq_refl; cbn [negb];
    destruct k; try (intros _; reflexivity).
  - change (kindEq TypeKindStruct TypeKindStruct) with true. cbv iota.
    rewrite String.eqb_eq. intros ->. reflexivity.
  - change (kindEq TypeKindArray TypeKindStruct) with false.
    change (kindEq TypeKindArray TypeKindArray) with true. cbv iota.
    rewrite andb_true_iff, Z.eqb_eq. intros [-> He].
    destruct e1; [discriminate | reflexivity].
  - change (kindEq TypeKindStruct TypeKindStruct) with true. cbv iota.
    rewrite String.eqb_eq. intros ->. reflexivity.
  - change (kindEq TypeKindArray TypeKindStruct) with false.
    change (kindEq TypeKindArray TypeKindArray) with true. cbv iota.
    rewrite andb_true_iff, Z.eqb_eq. intros [-> He].
    destruct e1 as [e1|]; [|rewrite EqualsTy_None in He; discriminate].
    cbn [TyString]. rewrite (IH _ He). reflexivity.
Qed.

(** [Equals] is an equivalence on types, nil included: a nil type equals
    nil only.  Struct types are equal by name alone, whatever their
    fields; array types by size and element type.  Equal types print
    the same. *)
Theorem Equals_equivalence :
  (forall t, Equals t t = true) /\
  (forall t u, Equals t u = Equals u t) /\
  (forall t u v, Equals t u = true -> Equals u v = true -> Equals t v = true) /\
  (forall name fields fields',
     Equals (Some (MakeStructType name fields)) (Some (MakeStructType name fields'))
     = true) /\
  (forall t u, Equals t u = true -> TypeString t = TypeString u).
Proof.
  split; [|split; [|split; [|split]]].
  - intros [t|]; [apply EqualsTy_refl | reflexivity].
  - intros [t|] [u|]; simpl; try reflexivity; rewrite ?EqualsTy_None; try reflexivity.
    apply EqualsTy_sym.
  - intros [t|] [u|] [v|]; simpl; rewrite ?EqualsTy_None; try discriminate;
      try reflexivity. apply EqualsTy_trans.
  - intros name fields fields'. simpl. apply String.eqb_refl.
  - intros [t|] [u|]; simpl; rewrite ?EqualsTy_None; try discriminate;
      try reflexivity. apply EqualsTy_TyString.
Qed.


(** *** Names of types *)

Definition isNamedKind (k : TypeKind) : bool :=
  match k with
  | TypeKindStruct | TypeKindArray | TypeKindError => false
  | _ => true
  end.

(** [TypeFromName] and [String] are inverse to each other on the built-in
    types: a name that [TypeFromName] knows is the name its type prints
    as, and the printed name of a built-in type gives the type back.  No
    name gives a struct, an array or the error type. *)
Theorem TypeFromName_String_round_trip :
  (forall name t, TypeFromName name = Some t ->
     TyString t = name /\ t = prim (Kind t) /\ isNamedKind (Kind t) = true) /\
  (forall k, isNamedKind k = true -> TypeFromName (TyString (prim k)) = Some (prim k)).
Proof.
  split.
  - intros name t. unfold TypeFromName, typeNames. cbn [List.find fst snd].
    repeat match goal with
           | |- context [String.eqb name ?s] =>
             destruct (String.eqb_spec name s) as [->|_];
             [intros [= <-]; repeat split; reflexivity|]
           end.
    discriminate.
  - intros k Hk. destruct k; try discriminate Hk; reflexivity.
Qed.

(** *** Implicit conversion *)

Definition widens (s d : TypeKind) : bool :=
  match s, d with
  | TypeKindInt, TypeKindFloat | TypeKindUint, TypeKindFloat
  | TypeKindInt, TypeKindUint
  | TypeKindIvec2, TypeKindVec2 | TypeKindIvec3, TypeKindVec3
  | TypeKindIvec4, TypeKindVec4
  | TypeKindUvec2, TypeKindVec2 | TypeKindUvec3, TypeKindVec3
  | TypeKindUvec4, TypeKindVec4 => true
  | _, _ => false
  end.

Lemma CanImplicitlyConvert_cases (s d : Ty) :
  CanImplicitlyConvert (Some s) (Some d)
  = EqualsTy s (Some d) || widens (Kind s) (Kind d).
Proof.
  unfold CanImplicitlyConvert, Equals.
  destruct (EqualsTy s (Some d)); [reflexivity|].
  destruct (Kind s), (Kind d); reflexivity.
Qed.

Lemma widens_trans (a b c : TypeKind) :
  widens a b = true -> widens b c = true -> widens a c = true.
Proof. destruct a, b; try discriminate; destruct c; try discriminate; reflexivity. Qed.

Lemma widens_antisym (a b : TypeKind) : widens a b = true -> widens b a = false.
Proof. destruct a, b; try discriminate; reflexivity. Qed.

Lemma widens_irrefl (a : TypeKind) : widens a a = false.
Proof. destruct a; reflexivity. Qed.

(** Implicit conversion orders the types: every type converts to itself,
    conversions compose, and two types that convert to each other are
    equal.  A conversion between unequal types keeps the number of
    components and never ends at an integer type from a float type. *)
Theorem CanImplicitlyConvert_order :
  (forall t : Ty, CanImplicitlyConvert (Some t) (Some t) = true) /\
  (forall a b c,
     CanImplicitlyConvert a b = true -> CanImplicitlyConvert b c = true ->
     CanImplicitlyConvert a c = true) /\
  (forall a b,
     CanImplicitlyConvert a b = true -> CanImplicitlyConvert b a = true ->
     Equals a b = true) /\
  (forall s d : Ty,
     CanImplicitlyConvert (Some s) (Some d) = true -> Equals (Some s) (Some d) = false ->
     VectorSize s = VectorSize d /\ Kind s <> TypeKindFloat /\
     (Kind d = TypeKindFloat \/ Kind d = TypeKindUint \/ IsVector d = true)).
Proof.
  split; [|split; [|split]].
  - intros t. rewrite CanImplicitlyConvert_cases, EqualsTy_refl. reflexivity.
  - intros [a|] [b|] [c|]; try discriminate.
    rewrite !CanImplicitlyConvert_cases, !orb_true_iff.
    intros [Hab|Hab] [Hbc|Hbc].
    + left. eapply EqualsTy_trans; eassumption.
    + right. rewrite (EqualsTy_Kind _ _ Hab). exact Hbc.
    + right. rewrite <- (EqualsTy_Kind _ _ Hbc). exact Hab.
    + right. eapply widens_trans; eassumption.
  - intros [a|] [b|]; try discriminate.
    rewrite !CanImplicitlyConvert_cases, !orb_true_iff. simpl.
    intros [Hab|Hab] [Hba|Hba]; try exact Hab.
    + rewrite EqualsTy_sym. exact Hba.
    + rewrite (widens_antisym _ _ Hab) in Hba. discriminate.
  - intros s d. rewrite CanImplicitlyConvert_cases. intros H He.
    simpl in He. rewrite He in H. simpl in H. unfold VectorSize, IsVector.
    destruct (Kind s), (Kind d); try discriminate H; repeat split; auto; discriminate.
Qed.

(** *** Binary operators without a result type *)

Lemma IsInteger_IsNumeric (t : Ty) : IsInteger t = true -> IsNumeric t = true.
Proof. unfold IsInteger, IsNumeric. destruct (Kind t); auto. Qed.

Lemma CommonType_numeric (l r : Ty) :
  IsNumeric l = true -> IsNumeric r = true -> CommonType (Some l) (Some r) <> None.
Proof.
  intros Hl Hr. unfold CommonType, CommonTypeWith.
  destruct (Equals (Some l) (Some r)); [discriminate|].
  rewrite Hl, Hr. cbn [andb].
  repeat match goal with
         | |- context [if ?c then _ else _] => destruct c
         end; discriminate.
Qed.

Definition isArithmetic (op : TokenType) : bool :=
  match op with
  | TokenPlus | TokenMinus | TokenStar | TokenSlash => true
  | _ => false
  end.

(** [BinaryOpResultType] gives the error type for operands it rejects,
    with one exception: for [+], [-], [*] and [/] it hands on the result
    of [CommonType], which is nil when the operand types have no common
    type.  That is the only way to a nil result; and operands that are
    no matrices and have no common type do get it, a boolean and a
    number among them. *)
Theorem BinaryOpResultType_nil :
  (forall op left right,
     BinaryOpResultType op left right = None ->
     isArithmetic op = true /\ CommonType left right = None /\
     exists l r, left = Some l /\ right = Some r /\
                 Kind l <> TypeKindError /\ Kind r <> TypeKindError) /\
  (forall op (l r : Ty),
     isArithmetic op = true ->
     Kind l <> TypeKindError -> Kind r <> TypeKindError ->
     IsMatrix l = false -> IsMatrix r = false ->
     CommonType (Some l) (Some r) = None ->
     BinaryOpResultType op (Some l) (Some r) = None) /\
  (forall l r : Ty,
     Kind l = TypeKindBool -> IsNumeric r = true ->
     CommonType (Some l) (Some r) = None /\ CommonType (Some r) (Some l) = None).
Proof.
  split; [|split].
  - intros op [l|] [r|] H; try discriminate H.
    unfold BinaryOpResultType in H.
    destruct (isErrorKind l || isErrorKind r) eqn:He; [discriminate|].
    apply orb_false_iff in He as [He1 He2].
    assert (Kind l <> TypeKindError /\ Kind r <> TypeKindError) as [Hl Hr].
    { unfold isErrorKind in *. split; intros E.
      - rewrite E in He1. discriminate.
      - rewrite E in He2. discriminate. }
    destruct op; try discriminate H;
      repeat match type of H with
             | (if ?c then _ else _) = None => destruct c eqn:?; try discriminate H
             end;
      try (exfalso;
           match goal with
           | Hi : IsInteger l && IsInteger r = true |- _ =>
             apply andb_true_iff in Hi as [Hi1 Hi2];
             exact (CommonType_numeric l r (IsInteger_IsNumeric _ Hi1)
                      (IsInteger_IsNumeric _ Hi2) H)
           end);
      (split; [reflexivity|]; split; [exact H|]; eauto 10).
  - intros op l r Hop Hl Hr Hml Hmr Hc. unfold BinaryOpResultType.
    assert (isErrorKind l = false) as -> by (unfold isErrorKind; by apply kindEq_false).
    assert (isErrorKind r = false) as -> by (unfold isErrorKind; by apply kindEq_false).
    rewrite Hml, Hmr. cbn [orb andb].
    destruct op; try discriminate Hop;
      rewrite !andb_false_r; exact Hc.
  - intros l r Hl Hr. unfold CommonType, CommonTypeWith, Equals.
    assert (Kind l <> Kind r) as Hne.
    { rewrite Hl. unfold IsNumeric in Hr. destruct (Kind r); discriminate. }
    assert (EqualsTy l (Some r) = false) as Hlr.
    { destruct (EqualsTy l (Some r)) eqn:E; [|reflexivity].
      exfalso. exact (Hne (EqualsTy_Kind _ _ E)). }
    assert (EqualsTy r (Some l) = false) as Hrl by (rewrite EqualsTy_sym; exact Hlr).
    rewrite Hlr, Hrl.
    unfold IsNumeric, IsVector, IsScalar in *. rewrite Hl.
    destruct (Kind r); try discriminate Hr; split; reflexivity.
Qed.

(** *** The analyzer on operands without a common type *)

(** The analyzer reads the kind of the result type of a binary operator
    without testing it for nil.  So a binary expression whose operands
    analyze to types for which [BinaryOpResultType] gives nil makes the
    analyzer panic, for an arithmetic operator as for its compound
    assignment; no error is reported. *)
Theorem analyzeBinary_nil_result_panics (r : Range) (lhs rhs : Expr)
    (operator : string) (a a1 a2 : Analyzer) (leftType rightType : option Ty) :
  let op := operatorToTokenType operator in
  analyzeExpr lhs a = Some (leftType, a1) ->
  analyzeExpr rhs a1 = Some (rightType, a2) ->
  op <> TokenAssign ->
  BinaryOpResultType (if isAssignOp op then compoundToOp op else op)
    leftType rightType = None ->
  analyzeExpr (BinaryExpr r lhs operator rhs) a = None.
Proof.
  intros op H1 H2 Hop Hnil.
  change (analyzeExpr (BinaryExpr r lhs operator rhs))
    with (analyzeBinary analyzeExpr checkAssignable r lhs operator rhs).
  unfold analyzeBinary. fold op.
  rewrite (bind_Some _ _ _ _ _ H1), (bind_Some _ _ _ _ _ H2).
  destruct (isAssignOp op).
  - unfold bind at 1. destruct (checkAssignable lhs a2) as [[[] a3]|]; [|reflexivity].
    rewrite bool_decide_eq_false_2 by exact Hop.
    rewrite Hnil. reflexivity.
  - rewrite Hnil. reflexivity.
Qed.

Lemma analyzeBinary_nil_result_panics_witness :
  analyzeExpr (BinaryExpr R0 (floatLit "1.0") "+" (LiteralExpr R0 "bool" "true"))
    NewAnalyzer = None.
Proof.
  apply (analyzeBinary_nil_result_panics R0 (floatLit "1.0")
           (LiteralExpr R0 "bool" "true") "+" NewAnalyzer NewAnalyzer NewAnalyzer
           (Some TypeFloat) (Some TypeBool));
    [reflexivity | reflexivity | discriminate | reflexivity].
Defined.

(** [void f() { float x = 1.0 + true; }]: the analysis of the document
    ends in the panic. *)
Example float_plus_bool_panics :
  analyzeDocument
    (shader "spatial" []
       [voidFunction "f"
          [VarDeclStmt R0 false (typeSpec "float")
             [mkVarDecl R0 "x" NilExpr
                (BinaryExpr R0 (floatLit "1.0") "+" (LiteralExpr R0 "bool" "true"))]]])
  = None.
Proof. vm_compute. reflexivity. Qed.

(** *** Scopes *)

(** A symbol defined in a scope just entered is defined without an error
    whatever the enclosing scopes hold, a lookup of its name finds it,
    and after the scope is left the lookup gives what the enclosing
    scopes gave before: the scope chain is as it was. *)
Theorem scope_shadowing (a : Analyzer) (sym : Symbol) :
  scopes a <> [] ->
  (enterScope;;
   err ← defineCurrent sym;
   inner ← lookup (symName sym);
   exitScope;;
   outer ← lookup (symName sym);
   ret (err, inner, outer))%sm a
  = Some ((None, Some sym, lookupChain (scopes a) (symName sym)), a).
Proof.
  intros Hne. destruct a as [st sc er cf cs sts ld sd]. simpl in Hne.
  destruct sc as [|s0 rest]; [contradiction|].
  unfold bind, enterScope, exitScope, defineCurrent, lookup, modify, ret, define.
  simpl. rewrite lookup_empty. simpl. rewrite lookup_insert.
  rewrite decide_True by reflexivity. reflexivity.
Qed.

Lemma scope_shadowing_witness :
  (enterScope;;
   err ← defineCurrent (mkSymbol "v" (Some TypeFloat) SymbolVariable R0
                          false false false [] None);
   inner ← lookup "v";
   exitScope;;
   outer ← lookup "v";
   ret (err, inner, outer))%sm localVec3
  = Some ((None,
           Some (mkSymbol "v" (Some TypeFloat) SymbolVariable R0
                   false false false [] None),
           lookupChain (scopes localVec3) "v"), localVec3).
Proof.
  apply (scope_shadowing localVec3
           (mkSymbol "v" (Some TypeFloat) SymbolVariable R0
              false false false [] None)).
  discriminate.
Defined.

(** A second definition of a name in one scope is refused: the error
    names the line of the first, and the first stays what a lookup
    finds. *)
Theorem define_twice_keeps_first (a : Analyzer) (first second : Symbol)
    (s0 : gmap string Symbol) (rest : list (gmap string Symbol)) :
  scopes a = s0 :: rest -> s0 !! symName first = None ->
  symName second = symName first ->
  exists a',
    (err1 ← defineCurrent first;
     err2 ← defineCurrent second;
     found ← lookup (symName second);
     ret (err1, err2, found))%sm a
    = Some ((None,
             Some ("symbol '" +:+ symName second +:+ "' already defined at line "
                   +:+ pretty (Line (Start (symRange first)) + 1)),
             Some first), a') /\
    scopes a' = <[symName first := first]> s0 :: rest.
Proof.
  intros Hs Hfree Hname. destruct a as [st sc er cf cs sts ld sd]. simpl in Hs.
  subst sc. eexists.
  unfold bind, defineCurrent, lookup, ret, define. simpl.
  rewrite Hfree. simpl. rewrite Hname, lookup_insert.
  rewrite decide_True by reflexivity. simpl.
  rewrite lookup_insert, decide_True by reflexivity.
  split; reflexivity.
Qed.

Lemma define_twice_keeps_first_witness :
  exists a',
    (err1 ← defineCurrent (mkSymbol "w" (Some TypeFloat) SymbolVariable R0
                             false false false [] None);
     err2 ← defineCurrent (mkSymbol "w" (Some TypeInt) SymbolVariable R0
                             false false false [] None);
     found ← lookup "w";
     ret (err1, err2, found))%sm NewAnalyzer
    = Some ((None,
             Some ("symbol '" +:+ "w" +:+ "' already defined at line "
                   +:+ pretty (0 + 1)),
             Some (mkSymbol "w" (Some TypeFloat) SymbolVariable R0
                     false false false [] None)), a') /\
    scopes a' = <["w" := mkSymbol "w" (Some TypeFloat) SymbolVariable R0
                           false false false [] None]> ∅ :: [].
Proof.
  apply (define_twice_keeps_first NewAnalyzer
           (mkSymbol "w" (Some TypeFloat) SymbolVariable R0 false false false [] None)
           (mkSymbol "w" (Some TypeInt) SymbolVariable R0 false false false [] None)
           ∅ []); reflexivity.
Defined.

(** *** Swizzles: what is accepted *)

Lemma lor_ge_128_l (a b : Z) : (0 <= a -> 0 <= b -> 128 <= a -> 128 <= Z.lor a b)%Z.
Proof.
  intros Ha Hb H.
  assert (0 <= Z.lor a b)%Z as Hn by (apply Z.lor_nonneg; auto).
  assert (7 <= Z.log2 a)%Z as Hl by (apply Z.log2_le_pow2; lia).
  pose proof (Z.log2_lor a b Ha Hb) as Hlor.
  assert (7 <= Z.log2 (Z.lor a b))%Z as Hl2 by lia.
  destruct (Z.eq_dec (Z.lor a b) 0%Z) as [E|E]; [rewrite E in Hl2; simpl in Hl2; lia|].
  apply (Z.log2_le_pow2 (Z.lor a b) 7%Z) in Hl2; lia.
Qed.

Lemma lor_ge_128_r (a b : Z) : (0 <= a -> 0 <= b -> 128 <= b -> 128 <= Z.lor a b)%Z.
Proof. intros. rewrite Z.lor_comm. apply lor_ge_128_l; assumption. Qed.

Lemma byteZ_range (c : ascii) : (0 <= utf8.byteZ c < 256)%Z.
Proof. unfold utf8.byteZ. pose proof (nat_ascii_bounded c). lia. Qed.

Lemma field_low (b : Z) : (0 <= Z.land b 63)%Z.
Proof. apply Z.land_nonneg. right. lia. Qed.

Lemma field_value (b k n : Z) :
  (0 <= k -> 0 <= n ->
   Z.shiftl (Z.land b (Z.ones k)) n = (b mod 2 ^ k) * 2 ^ n)%Z.
Proof. intros Hk Hn. rewrite Z.land_ones, Z.shiftl_mul_pow2 by assumption. reflexivity. Qed.

Ltac low_bits :=
  repeat (apply Z.lor_nonneg; split); Z.div_mod_to_equations; lia.

Ltac high_rune :=
  lazymatch goal with
  | |- (128 <= Z.lor _ _)%Z =>
    first [ apply lor_ge_128_l; [low_bits | low_bits | high_rune]
          | apply lor_ge_128_r; [low_bits | low_bits | high_rune] ]
  | |- _ => Z.div_mod_to_equations; lia
  end.

(** A rune decoded from a first byte that is not ASCII is not below
    128. *)
Lemma DecodeRuneInString_high (c0 : ascii) (rest : string) :
  (utf8.byteZ c0 <? 128)%Z = false ->
  (128 <= fst (utf8.DecodeRuneInString (String c0 rest)))%Z.
Proof.
  intros Hhigh. unfold utf8.DecodeRuneInString. rewrite Hhigh.
  pose proof (byteZ_range c0) as Hb0. apply Z.ltb_ge in Hhigh.
  set (b0 := utf8.byteZ c0) in *.
  destruct (utf8.first b0) as [[[sz lo] hi]|] eqn:F; [|simpl; unfold utf8.RuneError; lia].
  destruct rest as [|c1 rest1]; [simpl; unfold utf8.RuneError; lia|].
  pose proof (byteZ_range c1) as Hb1. set (b1 := utf8.byteZ c1) in *.
  destruct (utf8.inRange lo hi b1) eqn:R1; cbn [negb];
    [|simpl; unfold utf8.RuneError; lia].
  unfold utf8.inRange in R1. apply andb_true_iff in R1 as [R1a R1b].
  apply Z.leb_le in R1a, R1b.
  assert (forall x y, 0 <= x -> 0 <= y -> 0 <= Z.lor x y)%Z as Hnn
      by (intros; apply Z.lor_nonneg; auto).
  pose proof (field_low b1) as Hl1.
  unfold utf8.first, utf8.inRange in F.
  repeat match type of F with
         | (if ?c then _ else _) = _ =>
           let E := fresh "E" in
           destruct c eqn:E;
           [injection F as <- <- <-;
            repeat match goal with
                   | H : (_ && _) = true |- _ => apply andb_true_iff in H as [? ?]
                   | H : (_ <=? _)%Z = true |- _ => apply Z.leb_le in H
                   | H : (_ =? _)%Z = true |- _ => apply Z.eqb_eq in H
                   end|]
         end; try discriminate F.
  all: cbn [Nat.leb].
  all: repeat match goal with
              | |- context [match ?s with EmptyString => _ | String _ _ => _ end] =>
                destruct s as [|? ?]; [simpl; unfold utf8.RuneError; lia|]
              | |- context [if negb ?c then _ else _] =>
                let E := fresh "R" in
                destruct c eqn:E; cbn [negb];
                [unfold utf8.inRange in E; apply andb_true_iff in E as [? ?]
                |simpl; unfold utf8.RuneError; lia]
              end.
  all: cbn [fst].
  all: repeat match goal with
              | H : (_ <=? _)%Z = true |- _ => apply Z.leb_le in H
              end.
  all: change 31%Z with (Z.ones 5); change 15%Z with (Z.ones 4);
       change 7%Z with (Z.ones 3); change 63%Z with (Z.ones 6).
  all: rewrite ?field_value by lia.
  all: rewrite ?Z.land_ones by lia.
  all: change (2 ^ 3)%Z with 8%Z; change (2 ^ 4)%Z with 16%Z;
       change (2 ^ 5)%Z with 32%Z; change (2 ^ 6)%Z with 64%Z;
       change (2 ^ 12)%Z with 4096%Z; change (2 ^ 18)%Z with 262144%Z.
  all: repeat match goal with
              | a : ascii |- _ =>
                lazymatch goal with
                | |- context [utf8.byteZ a] =>
                  let H := fresh "Hb" in
                  pose proof (byteZ_range a) as H;
                  let b := fresh "b" in
                  set (b := utf8.byteZ a) in *; clearbody b
                end
              end.
  all: subst b0 b1.
  all: repeat match goal with
              | a : ascii |- _ =>
                lazymatch goal with
                | |- context [utf8.byteZ a] =>
                  let b := fresh "b" in
                  set (b := utf8.byteZ a) in *; clearbody b
                end
              end.
  all: high_rune.
Qed.


Lemma ValidSwizzleChars_low (r idx : Z) :
  ValidSwizzleChars r = Some idx -> (r < 128)%Z.
Proof.
  unfold ValidSwizzleChars, swizzleTable. cbn [List.find fst].
  repeat match goal with
         | |- context [(?k =? r)%Z] =>
           destruct (Z.eqb_spec k r) as [<- | ?]; [intros _; lia|]
         end.
  discriminate.
Qed.

(** A swizzle the loop lets through holds ASCII bytes only: what a
    longer encoding decodes to is in no table. *)
Lemma swizzleLoop_ascii (b : Ty) (size : Z) (fuel : nat) (s : string) (seen : Z) :
  String.length s <= fuel ->
  swizzleLoop b size seen (utf8.runes_fuel fuel s) = None ->
  Forall (fun c => nat_of_ascii c < 128) (chars s).
Proof.
  revert s seen. induction fuel as [|fuel IH]; intros s seen Hlen Hloop.
  - destruct s; [constructor | simpl in Hlen; lia].
  - destruct s as [|c s]; [constructor|].
    cbn [utf8.runes_fuel] in Hloop.
    destruct (utf8.byteZ c <? 128)%Z eqn:Hc.
    + unfold utf8.DecodeRuneInString in Hloop. rewrite Hc in Hloop.
      cbn [utf8.drop_string swizzleLoop] in Hloop.
      destruct (ValidSwizzleChars (utf8.byteZ c)) as [idx|]; [|discriminate].
      destruct (negb (seen =? -1)%Z && negb (SwizzleSet (utf8.byteZ c) =? seen)%Z);
        [discriminate|].
      destruct (idx >=? size)%Z; [discriminate|].
      cbn [chars list_ascii_of_string]. constructor.
      * apply Z.ltb_lt in Hc. unfold utf8.byteZ in Hc. lia.
      * eapply IH; [simpl in Hlen; lia | exact Hloop].
    + exfalso. pose proof (DecodeRuneInString_high c s Hc) as Hhigh.
      destruct (utf8.DecodeRuneInString (String c s)) as [r w].
      cbn [fst] in Hhigh. cbn [swizzleLoop] in Hloop.
      destruct (ValidSwizzleChars r) as [idx|] eqn:Hr; [|discriminate].
      apply ValidSwizzleChars_low in Hr. lia.
Qed.

(** The set a set number stands for. *)
Definition setOf (k : Z) : string :=
  if (k =? 0)%Z then "xyzw" else if (k =? 1)%Z then "rgba" else "stpq".

Lemma setOf_In (k : Z) : In (setOf k) swizzleSets.
Proof.
  unfold setOf, swizzleSets.
  destruct (k =? 0)%Z; [left; reflexivity|].
  destruct (k =? 1)%Z; [right; left; reflexivity | right; right; left; reflexivity].
Qed.

Lemma table_componentOf (size : Z) (c : ascii) (idx : Z) :
  ValidSwizzleChars (utf8.byteZ c) = Some idx ->
  (idx <? size)%Z = true ->
  componentOf size (setOf (SwizzleSet (utf8.byteZ c))) c = true.
Proof.
  unfold ValidSwizzleChars, SwizzleSet, swizzleTable. cbn [List.find fst].
  repeat match goal with
         | |- context [(?k =? utf8.byteZ c)%Z] =>
           destruct (Z.eqb_spec k (utf8.byteZ c)) as [E | ?];
           [apply (byteZ_inj (utf8.byteOfZ k) c) in E; subst c;
            intros [= <-] H; exact H|]
         end.
  discriminate.
Qed.

Lemma swizzleLoop_seen (b : Ty) (size : Z) (cs : list ascii) (seen : Z) :
  seen <> (-1)%Z ->
  swizzleLoop b size seen (utf8.byteZ <$> cs) = None ->
  forallb (componentOf size (setOf seen)) cs = true.
Proof.
  intros Hseen. induction cs as [|c cs IH]; intros Hloop; [reflexivity|].
  cbn [fmap list_fmap swizzleLoop] in Hloop.
  destruct (ValidSwizzleChars (utf8.byteZ c)) as [idx|] eqn:Hidx; [|discriminate].
  assert ((seen =? -1)%Z = false) as E by (apply Z.eqb_neq; exact Hseen).
  rewrite E in Hloop. cbn [negb andb] in Hloop.
  destruct (Z.eqb_spec (SwizzleSet (utf8.byteZ c)) seen) as [Hs | ?]; [|discriminate].
  cbn [negb] in Hloop.
  destruct (idx >=? size)%Z eqn:Hge; [discriminate|].
  rewrite Hs in Hloop. cbn [forallb]. apply andb_true_iff. split.
  - rewrite <- Hs. apply (table_componentOf size c idx Hidx).
    rewrite Z.geb_leb in Hge. apply Z.leb_gt in Hge. apply Z.ltb_lt. lia.
  - apply IH, Hloop.
Qed.

Lemma SwizzleSet_not_unset (r : Z) : SwizzleSet r <> (-1)%Z.
Proof.
  unfold SwizzleSet, swizzleTable. cbn [List.find fst].
  repeat match goal with
         | |- context [(?k =? r)%Z] => destruct (k =? r)%Z; [cbn; lia|]
         end.
  cbn. lia.
Qed.

Lemma swizzleLoop_start (b : Ty) (size : Z) (cs : list ascii) :
  swizzleLoop b size (-1) (utf8.byteZ <$> cs) = None ->
  exists set, In set swizzleSets /\ forallb (componentOf size set) cs = true.
Proof.
  destruct cs as [|c cs]; intros Hloop.
  - exists "xyzw". split; [left; reflexivity | reflexivity].
  - exists (setOf (SwizzleSet (utf8.byteZ c))). split; [apply setOf_In|].
    cbn [fmap list_fmap swizzleLoop] in Hloop.
    destruct (ValidSwizzleChars (utf8.byteZ c)) as [idx|] eqn:Hidx; [|discriminate].
    cbn [Z.eqb negb andb] in Hloop.
    destruct (idx >=? size)%Z eqn:Hge; [discriminate|].
    cbn [forallb]. apply andb_true_iff. split.
    + apply (table_componentOf size c idx Hidx).
      rewrite Z.geb_leb in Hge. apply Z.leb_gt in Hge. apply Z.ltb_lt. lia.
    + apply swizzleLoop_seen in Hloop; [exact Hloop | apply SwizzleSet_not_unset].
Qed.

(** [ValidateSwizzle] returns without an error exactly for a vector and a
    swizzle of one to four bytes, all of them components of one of the
    sets [xyzw], [rgba], [stpq] that index below the vector's size; the
    type it returns is then the component type for one component and the
    vector of as many components otherwise. *)
Theorem ValidateSwizzle_accepts_iff (b : Ty) (m : string) :
  (snd (ValidateSwizzle b m) = None <->
   IsVector b = true /\ wellFormedSwizzle (VectorSize b) m = true) /\
  (snd (ValidateSwizzle b m) = None ->
   fst (ValidateSwizzle b m) = swizzleResult b m) /\
  (snd (ValidateSwizzle b m) <> None -> fst (ValidateSwizzle b m) = None).
Proof.
  assert (snd (ValidateSwizzle b m) = None ->
          IsVector b = true /\ wellFormedSwizzle (VectorSize b) m = true) as Hto.
  { unfold ValidateSwizzle.
    destruct (IsVector b) eqn:Hv; cbn [negb]; [|discriminate].
    destruct ((String.length m =? 0)%nat || (4 <? String.length m)%nat) eqn:Hlen;
      [discriminate|].
    destruct (swizzleLoop b (VectorSize b) (-1) (utf8.runes m)) eqn:Hloop;
      [discriminate|].
    intros _. split; [reflexivity|].
    pose proof (swizzleLoop_ascii b _ _ m _ (le_n _) Hloop) as Hascii.
    rewrite (runes_ascii _ Hascii) in Hloop.
    apply swizzleLoop_start in Hloop as (set & Hset & Hall).
    apply orb_false_iff in Hlen as [H0 H4].
    apply Nat.eqb_neq in H0. apply Nat.ltb_ge in H4.
    unfold wellFormedSwizzle. apply andb_true_iff. split.
    - apply andb_true_iff. split; apply Nat.leb_le; lia.
    - apply existsb_exists. exists set. split; assumption. }
  split; [split; [exact Hto|]|split].
  - intros [Hv Hwf]. destruct (ValidateSwizzle_wellFormed b m Hv Hwf) as [-> _].
    reflexivity.
  - intros H. destruct (Hto H) as [Hv Hwf].
    destruct (ValidateSwizzle_wellFormed b m Hv Hwf) as [-> _]. reflexivity.
  - unfold ValidateSwizzle.
    destruct (negb (IsVector b)); [reflexivity|].
    destruct ((String.length m =? 0)%nat || (4 <? String.length m)%nat); [reflexivity|].
    destruct (swizzleLoop b (VectorSize b) (-1) (utf8.runes m)); [reflexivity|].
    destruct (String.length m =? 1)%nat; [intros H; exfalso; apply H; reflexivity|].
    destruct (ComponentType b); intros H; [exfalso; apply H|]; reflexivity.
Qed.

(** *** The common type of two operands *)

(** Apart from equal operands, [CommonType] looks at the kinds only. *)
Definition commonKind (l r : TypeKind) : option TypeKind :=
  match l, r with
  | TypeKindInt, TypeKindUint | TypeKindUint, TypeKindInt => Some TypeKindUint
  | TypeKindInt, TypeKindFloat | TypeKindFloat, TypeKindInt
  | TypeKindUint, TypeKindFloat | TypeKindFloat, TypeKindUint => Some TypeKindFloat
  | TypeKindVec2, (TypeKindFloat | TypeKindInt | TypeKindUint)
  | (TypeKindFloat | TypeKindInt | TypeKindUint), TypeKindVec2
  | TypeKindVec2, (TypeKindIvec2 | TypeKindUvec2)
  | (TypeKindIvec2 | TypeKindUvec2), TypeKindVec2 => Some TypeKindVec2
  | TypeKindVec3, (TypeKindFloat | TypeKindInt | TypeKindUint)
  | (TypeKindFloat | TypeKindInt | TypeKindUint), TypeKindVec3
  | TypeKindVec3, (TypeKindIvec3 | TypeKindUvec3)
  | (TypeKindIvec3 | TypeKindUvec3), TypeKindVec3 => Some TypeKindVec3
  | TypeKindVec4, (TypeKindFloat | TypeKindInt | TypeKindUint)
  | (TypeKindFloat | TypeKindInt | TypeKindUint), TypeKindVec4
  | TypeKindVec4, (TypeKindIvec4 | TypeKindUvec4)
  | (TypeKindIvec4 | TypeKindUvec4), TypeKindVec4 => Some TypeKindVec4
  | TypeKindIvec2, TypeKindInt | TypeKindInt, TypeKindIvec2 => Some TypeKindIvec2
  | TypeKindIvec3, TypeKindInt | TypeKindInt, TypeKindIvec3 => Some TypeKindIvec3
  | TypeKindIvec4, TypeKindInt | TypeKindInt, TypeKindIvec4 => Some TypeKindIvec4
  | TypeKindUvec2, (TypeKindInt | TypeKindUint | TypeKindIvec2)
  | (TypeKindInt | TypeKindUint | TypeKindIvec2), TypeKindUvec2 => Some TypeKindUvec2
  | TypeKindUvec3, (TypeKindInt | TypeKindUint | TypeKindIvec3)
  | (TypeKindInt | TypeKindUint | TypeKindIvec3), TypeKindUvec3 => Some TypeKindUvec3
  | TypeKindUvec4, (TypeKindInt | TypeKindUint | TypeKindIvec4)
  | (TypeKindInt | TypeKindUint | TypeKindIvec4), TypeKindUvec4 => Some TypeKindUvec4
  | TypeKindBvec2, TypeKindBool | TypeKindBool, TypeKindBvec2 => Some TypeKindBvec2
  | TypeKindBvec3, TypeKindBool | TypeKindBool, TypeKindBvec3 => Some TypeKindBvec3
  | TypeKindBvec4, TypeKindBool | TypeKindBool, TypeKindBvec4 => Some TypeKindBvec4
  | _, _ => None
  end.

Lemma CommonType_kinds (l r : Ty) :
  Equals (Some l) (Some r) = false ->
  Kind <$> CommonType (Some l) (Some r) = commonKind (Kind l) (Kind r) /\
  forall c, CommonType (Some l) (Some r) = Some c ->
            Equals (Some c) (Some l) = true \/ Equals (Some c) (Some r) = true.
Proof.
  intros E. unfold CommonType, CommonTypeWith. rewrite E.
  destruct l as [kl nl sl el fl], r as [kr nr sr er fr].
  destruct kl, kr; try (cbn in E; discriminate E); (split; [reflexivity|]); cbn;
    intros c Hc; try discriminate Hc; injection Hc as <-;
    first [left; reflexivity | right; reflexivity].
Qed.

Lemma commonKind_sym (l r : TypeKind) : commonKind l r = commonKind r l.
Proof. destruct l, r; reflexivity. Qed.

Lemma commonKind_plain (l r k : TypeKind) :
  commonKind l r = Some k -> k <> TypeKindStruct /\ k <> TypeKindArray.
Proof. destruct l, r; intros [= <-]; split; discriminate. Qed.

Lemma commonKind_widens (s d : TypeKind) :
  widens s d = true -> commonKind s d = Some d.
Proof. destruct s, d; try discriminate; reflexivity. Qed.

Lemma EqualsTy_plain (c d : Ty) :
  Kind c = Kind d -> Kind c <> TypeKindStruct -> Kind c <> TypeKindArray ->
  EqualsTy c (Some d) = true.
Proof.
  destruct c as [k n s e f]. cbn [Kind EqualsTy]. intros <- Hs Ha.
  rewrite kindEq_refl, (kindEq_false _ _ Hs), (kindEq_false _ _ Ha). reflexivity.
Qed.

Lemma CommonType_equal (l r : Ty) :
  Equals (Some l) (Some r) = true -> CommonType (Some l) (Some r) = Some l.
Proof. intros E. unfold CommonType, CommonTypeWith. rewrite E. reflexivity. Qed.

(** [CommonType] does not depend on the order of the operands, up to
    [Equals]; what it returns equals one of the two operands; when one
    operand converts implicitly to the other, it is the other.  It is
    not limited to that: an [ivecN] and a [uvecN] have the common type
    [uvecN], though no implicit conversion leads from the one to the
    other. *)
Theorem CommonType_operands :
  (forall a b, Equals (CommonType a b) (CommonType b a) = true) /\
  (forall a b c, CommonType a b = Some c ->
     Equals (Some c) a = true \/ Equals (Some c) b = true) /\
  (forall a b, CanImplicitlyConvert a b = true -> Equals (CommonType a b) b = true) /\
  (forall n, (2 <= n <= 4)%Z ->
     CommonType (Some (VectorTypeForSize TypeInt n)) (Some (VectorTypeForSize TypeUint n))
     = Some (VectorTypeForSize TypeUint n) /\
     CanImplicitlyConvert (Some (VectorTypeForSize TypeInt n))
       (Some (VectorTypeForSize TypeUint n)) = false).
Proof.
  split; [|split; [|split]].
  - intros [l|] [r|]; try reflexivity.
    destruct (Equals (Some l) (Some r)) eqn:E.
    + rewrite (CommonType_equal l r E), (CommonType_equal r l); [exact E|].
      cbn. rewrite <- EqualsTy_sym. exact E.
    + assert (Equals (Some r) (Some l) = false) as E'
          by (cbn; rewrite <- EqualsTy_sym; exact E).
      destruct (CommonType_kinds l r E) as [Hk _].
      destruct (CommonType_kinds r l E') as [Hk' _].
      rewrite commonKind_sym in Hk'.
      destruct (CommonType (Some l) (Some r)) as [c|],
               (CommonType (Some r) (Some l)) as [c'|];
        cbn in Hk, Hk'; try congruence; [|reflexivity].
      symmetry in Hk. destruct (commonKind_plain _ _ _ Hk) as [Hs Ha].
      apply EqualsTy_plain; congruence.
  - intros [l|] [r|] c Hc; try discriminate Hc.
    destruct (Equals (Some l) (Some r)) eqn:E.
    + rewrite (CommonType_equal l r E) in Hc. injection Hc as <-.
      left. apply EqualsTy_refl.
    + apply (CommonType_kinds l r E), Hc.
  - intros [s|] [d|] Hc; try discriminate Hc.
    rewrite CanImplicitlyConvert_cases in Hc.
    destruct (Equals (Some s) (Some d)) eqn:E.
    + rewrite (CommonType_equal s d E). exact E.
    + cbn in E. rewrite E in Hc. cbn [orb] in Hc.
      destruct (CommonType_kinds s d E) as [Hk _].
      rewrite (commonKind_widens _ _ Hc) in Hk.
      destruct (CommonType (Some s) (Some d)) as [c|]; [|discriminate Hk].
      injection Hk as Hk.
      assert (commonKind (Kind s) (Kind d) = Some (Kind c)) as Hp
          by (rewrite Hk; apply commonKind_widens, Hc).
      destruct (commonKind_plain _ _ _ Hp) as [Hs Ha].
      apply EqualsTy_plain; assumption.
  - intros n Hn.
    assert (n = 2 \/ n = 3 \/ n = 4)%Z as [-> | [-> | ->]] by lia;
      split; reflexivity.
Qed.

End GDShaderProps.

(* --------------------------------------------------------------------- *)
(** ** The TSCN parser *)
(* --------------------------------------------------------------------- *)

Module TscnProps.
Import Tscn.

(** *** Weakest preconditions for the parser's methods *)

(** [wp m Q p]: from [p], [m] gives a result, and the result and the
    state after it satisfy [Q]. *)
Definition wp {A} (m : P A) (Q : A -> Parser -> Prop) (p : Parser) : Prop :=
  match m p with
  | Some (a, p') => Q a p'
  | None => False
  end.

Lemma wp_ret {A} (a : A) (Q : A -> Parser -> Prop) p : Q a p -> wp (ret a) Q p.
Proof. exact id. Qed.

Lemma wp_bind {A B} (m : P A) (f : A -> P B) (Q : B -> Parser -> Prop) p :
  wp m (fun a p' => wp (f a) Q p') p -> wp (bind m f) Q p.
Proof. unfold wp, bind. destruct (m p) as [[a p']|]; auto. Qed.

Lemma wp_mono {A} (m : P A) (Q Q' : A -> Parser -> Prop) p :
  wp m Q p -> (forall a p', Q a p' -> Q' a p') -> wp m Q' p.
Proof. unfold wp. destruct (m p) as [[a p']|]; auto. Qed.

Lemma wp_result {A} (m : P A) (Q : A -> Parser -> Prop) p :
  wp m Q p -> exists a p', m p = Some (a, p') /\ Q a p'.
Proof. unfold wp. destruct (m p) as [[a p']|]; [eauto | tauto]. Qed.

Lemma wp_cur (Q : Token -> Parser -> Prop) p : Q (current p) p -> wp cur Q p.
Proof. exact id. Qed.

Lemma wp_curType (Q : TokenType -> Parser -> Prop) p :
  Q (Type_ (current p)) p -> wp curType Q p.
Proof. exact id. Qed.

Lemma wp_modify (f : Parser -> Parser) (Q : unit -> Parser -> Prop) p :
  Q tt (f p) -> wp (modify f) Q p.
Proof. exact id. Qed.

Lemma wp_when (b : bool) (m : P unit) (Q : unit -> Parser -> Prop) p :
  (b = true -> wp m Q p) -> (b = false -> Q tt p) -> wp (when b m) Q p.
Proof. destruct b; simpl; intros H1 H2; [apply H1 | apply H2]; reflexivity. Qed.

Lemma isType_true t u : isType t u = true <-> t = u.
Proof. apply bool_decide_eq_true. Qed.

Lemma isType_false t u : isType t u = false <-> t <> u.
Proof. apply bool_decide_eq_false. Qed.

(** *** The invariant of a parser state *)

(** Tokens left before the last one. *)
Definition rem (p : Parser) : nat := length (tokens p) - 1 - pos p.

Definition tokenAt (toks : list Token) (i : nat) : Token := nth i toks zeroToken.

(** The current token is the one at the position, the position is in the
    list, and the list ends with the end-of-file token. *)
Definition wf (p : Parser) : Prop :=
  current p = tokenAt (tokens p) (pos p) /\
  pos p <= length (tokens p) - 1 /\
  Type_ (tokenAt (tokens p) (length (tokens p) - 1)) = TokenEOF.

(** A path and its range are set together, from one string token. *)
Definition pathFrom (toks : list Token) (e : ExtResource) : Prop :=
  (Path e = "" /\ PathRange e = zeroRange) \/
  exists tok, In tok toks /\ Type_ tok = TokenString /\
              Path e = tValue tok /\ PathRange e = makeRange tok.

Definition docOK (toks : list Token) (d : Document) : Prop :=
  length (Errors d) <= maxErrors /\ Forall (pathFrom toks) (ExtResources d).

Definition G (toks : list Token) (p : Parser) : Prop :=
  tokens p = toks /\ wf p /\ docOK toks (doc p).

Lemma G_not_last toks p :
  G toks p -> Type_ (current p) <> TokenEOF -> pos p < length toks - 1.
Proof.
  intros (<- & (Hc & Hp & Hl) & _) Hne.
  destruct (decide (pos p = length (tokens p) - 1)) as [E|E]; [|lia].
  exfalso. apply Hne. rewrite Hc, E. exact Hl.
Qed.

Lemma G_current toks p q :
  G toks p -> G toks q -> pos p = pos q -> current p = current q.
Proof.
  intros (Hp & (Hcp & _) & _) (Hq & (Hcq & _) & _) E.
  rewrite Hcp, Hcq, Hp, Hq, E. reflexivity.
Qed.

Lemma G_current_in toks p :
  G toks p -> Type_ (current p) <> TokenEOF -> In (current p) toks.
Proof.
  intros HG Hne. pose proof (G_not_last _ _ HG Hne) as Hlt.
  destruct HG as (<- & (Hc & _) & _). rewrite Hc. apply nth_In. lia.
Qed.

(** Progress: a state whose current token has another type is at another
    position. *)
Lemma G_changed toks p q :
  G toks p -> G toks q -> Type_ (current p) <> Type_ (current q) ->
  pos p <> pos q.
Proof.
  intros Hp Hq Hne E. apply Hne. rewrite (G_current _ _ _ Hp Hq E). reflexivity.
Qed.

Lemma wp_advance toks (Q : unit -> Parser -> Prop) p :
  G toks p ->
  (forall p', G toks p' -> pos p <= pos p' -> doc p' = doc p ->
     (Type_ (current p) <> TokenEOF -> pos p' = S (pos p)) -> Q tt p') ->
  wp advanceP Q p.
Proof.
  intros HG HQ. apply wp_modify.
  destruct (Nat.ltb_spec (pos p) (length (tokens p) - 1)) as [Hlt|Hge].
  - apply HQ; simpl; try lia; [|reflexivity].
    destruct HG as (Ht & (Hc & Hp & Hl) & (He & Hx)). subst toks.
    repeat split; simpl; auto. lia.
  - apply HQ; auto. intros Hne.
    pose proof (G_not_last _ _ HG Hne). destruct HG as (<- & _). lia.
Qed.

Lemma wp_prevToken toks (Q : Token -> Parser -> Prop) p :
  G toks p -> (forall t, Q t p) -> wp prevToken Q p.
Proof. intros _ HQ. apply HQ. Qed.

Lemma wp_addError toks msg (Q : unit -> Parser -> Prop) p :
  G toks p ->
  (forall p', G toks p' -> pos p' = pos p -> current p' = current p ->
     ExtResources (doc p') = ExtResources (doc p) -> Q tt p') ->
  wp (addError msg) Q p.
Proof.
  intros HG HQ. apply wp_modify.
  destruct (Nat.leb_spec maxErrors (length (Errors (doc p)))) as [Hle|Hlt];
    [apply HQ; auto|].
  apply HQ; try reflexivity.
  destruct HG as (Ht & (Hc & Hp & Hl) & (He & Hx)).
  split; [exact Ht|]. split; [repeat split; assumption|].
  split; [|exact Hx]. simpl. rewrite length_app. simpl. lia.
Qed.

Lemma wp_modifyDoc toks f (Q : unit -> Parser -> Prop) p :
  G toks p ->
  (docOK toks (doc p) -> docOK toks (f (doc p))) ->
  (forall p', G toks p' -> pos p' = pos p -> current p' = current p ->
     doc p' = f (doc p) -> Q tt p') ->
  wp (modifyDoc f) Q p.
Proof.
  intros (Ht & Hwf & Hd) Hf HQ. apply wp_modify. apply HQ; try reflexivity.
  repeat split; simpl; auto; try apply Hwf; apply Hf, Hd.
Qed.

Lemma wp_parseComment toks (Q : unit -> Parser -> Prop) p :
  G toks p ->
  (forall p', G toks p' -> pos p <= pos p' ->
     (Type_ (current p) <> TokenEOF -> pos p' = S (pos p)) -> Q tt p') ->
  wp parseComment Q p.
Proof.
  intros HG HQ. unfold parseComment.
  apply wp_bind, wp_cur, wp_bind.
  apply (wp_modifyDoc toks); [exact HG | intros [? ?]; split; assumption |].
  intros p1 G1 Hpos Hcur _.
  apply (wp_advance toks); [exact G1|].
  intros p2 G2 Hle _ Hadv. apply HQ; [exact G2 | lia |].
  rewrite <- Hcur, <- Hpos. exact Hadv.
Qed.

(** The loop rule: every round that goes on leaves fewer tokens. *)
Lemma wp_iter {A B} (body : A -> P (A + B)) (Inv : A -> Parser -> Prop)
    (Q : B -> Parser -> Prop) :
  (forall a p, Inv a p ->
     wp (body a)
        (fun x p' => match x with
                     | inl a' => Inv a' p' /\ rem p' < rem p
                     | inr b => Q b p'
                     end) p) ->
  forall fuel a p, Inv a p -> rem p < fuel -> wp (iter fuel body a) Q p.
Proof.
  intros Hbody fuel. induction fuel as [|f IH]; intros a p HI Hf; [lia|].
  simpl. apply wp_bind. eapply wp_mono; [apply Hbody, HI|].
  intros [a'|b] p' H; simpl.
  - destruct H as [HI' Hlt]. apply IH; [exact HI' | lia].
  - exact H.
Qed.

Lemma rem_lt toks p q :
  G toks p -> G toks q -> pos p < pos q -> rem q < rem p.
Proof.
  intros (Hp & (_ & Hpp & _) & _) (Hq & (_ & Hqq & _) & _) Hlt.
  unfold rem. rewrite Hp, Hq in *. lia.
Qed.

Lemma rem_le toks p q :
  G toks p -> G toks q -> pos p <= pos q -> rem q <= rem p.
Proof.
  intros (Hp & _) (Hq & _) Hle. unfold rem. rewrite Hp, Hq. lia.
Qed.


(** *** Stepping through a method *)

Ltac wp_step toks :=
  lazymatch goal with
  | |- wp (bind _ _) _ _ => apply wp_bind
  | |- wp (ret _) _ _ => apply wp_ret
  | |- wp (continue _) _ _ => apply wp_ret
  | |- wp (break _) _ _ => apply wp_ret
  | |- wp cur _ _ => apply wp_cur
  | |- wp curType _ _ => apply wp_curType
  | |- wp (when _ _) _ _ => apply wp_when; intros ?
  | |- wp advanceP _ _ =>
    apply (wp_advance toks); [assumption | intros ? ? ? ? ?]
  | |- wp prevToken _ _ => apply (wp_prevToken toks); [assumption | intros ?]
  | |- wp (addError _) _ _ =>
    apply (wp_addError toks); [assumption | intros ? ? ? ? ?]
  | |- wp parseComment _ _ =>
    apply (wp_parseComment toks); [assumption | intros ? ? ? ?]
  | |- wp (if ?b then _ else _) _ _ => destruct b eqn:?
  | |- wp (match ?x with _ => _ end) _ _ => destruct x eqn:?
  end.

Ltac type_facts :=
  repeat match goal with
  | H : isType _ _ = true |- _ => apply isType_true in H
  | H : isType _ _ = false |- _ => apply isType_false in H
  | H : negb _ = true |- _ => apply negb_true_iff in H
  | H : negb _ = false |- _ => apply negb_false_iff in H
  | H : _ || _ = false |- _ => apply orb_false_iff in H; destruct H
  | H : _ && _ = true |- _ => apply andb_true_iff in H; destruct H
  | H : _ && _ = false |- _ => apply andb_false_iff in H; destruct H
  | H : _ || _ = true |- _ => apply orb_true_iff in H; destruct H
  end.

(** Case analysis on the tokens that [advance] was called at, and the
    progress made when the current token changed on the way from [p0]. *)
Ltac adv_facts :=
  repeat match goal with
  | H : Type_ (current ?q) <> TokenEOF -> pos _ = S (pos ?q) |- _ =>
    destruct (decide (Type_ (current q) = TokenEOF));
    [clear H | specialize (H ltac:(assumption))]
  end.

Ltac moved toks p0 :=
  repeat match goal with
  | Hq : G toks ?q |- _ =>
    lazymatch goal with
    | _ : pos p0 <> pos q |- _ => fail
    | _ =>
      assert (pos p0 <> pos q)
        by (apply (G_changed toks p0 q); [assumption | assumption | congruence])
    end
  end.

Ltac finish toks p0 :=
  type_facts; adv_facts; try congruence;
  repeat match goal with |- _ /\ _ => split end;
  try assumption; try (moved toks p0); try lia;
  try (eapply rem_lt; [eassumption | eassumption | lia]).

(** *** The loops that skip tokens *)

Lemma wp_skipNewlines toks fuel (Q : unit -> Parser -> Prop) p :
  G toks p -> rem p < fuel ->
  (forall p', G toks p' -> pos p <= pos p' -> Q tt p') ->
  wp (skipNewlines fuel) Q p.
Proof.
  intros HG Hf HQ. unfold skipNewlines.
  eapply wp_mono.
  - apply (wp_iter _ (fun _ q => G toks q /\ pos p <= pos q)
                     (fun _ q => G toks q /\ pos p <= pos q));
      [|split; [assumption | lia] | exact Hf].
    intros [] q [Gq Hle]. repeat wp_step toks; finish toks q.
  - intros [] p' [? ?]. auto.
Qed.

Lemma wp_skipToNextSection toks fuel (Q : unit -> Parser -> Prop) p :
  G toks p -> rem p < fuel ->
  (forall p', G toks p' -> pos p <= pos p' -> Q tt p') ->
  wp (skipToNextSection fuel) Q p.
Proof.
  intros HG Hf HQ. unfold skipToNextSection.
  eapply wp_mono.
  - apply (wp_iter _ (fun _ q => G toks q /\ pos p <= pos q)
                     (fun _ q => G toks q /\ pos p <= pos q));
      [|split; [assumption | lia] | exact Hf].
    intros [] q [Gq Hle]. repeat wp_step toks; finish toks q.
  - intros [] p' [? ?]. auto.
Qed.


(** *** Values *)

Ltac G_facts toks :=
  repeat match goal with
  | H : G toks ?q |- _ =>
    lazymatch goal with
    | _ : tokens q = toks |- _ => fail
    | _ => pose proof (proj1 H);
           pose proof (proj1 (proj2 (proj1 (proj2 H))))
    end
  end;
  unfold rem in *;
  repeat match goal with
  | H : tokens ?q = toks |- _ => rewrite !H in *
  end.

Ltac finish' toks p0 :=
  type_facts; adv_facts; try congruence;
  repeat match goal with |- _ /\ _ => split end;
  try assumption; try (moved toks p0); G_facts toks; try lia.

(** What a loop needs of the parser of nested values: from a state with
    fewer than [f] tokens left it gives a result, and a value was only
    given after at least one token was consumed. *)
Definition valueParser (toks : list Token) (f : nat) (pv : P (option Value)) : Prop :=
  forall q (Q : option Value -> Parser -> Prop),
    G toks q -> rem q < f ->
    (forall v q', G toks q' -> pos q <= pos q' ->
       (is_Some v -> pos q < pos q') -> Q v q') ->
    wp pv Q q.

Ltac wp_call toks :=
  lazymatch goal with
  | |- wp (skipNewlines _) _ _ =>
    apply (wp_skipNewlines toks); [assumption | G_facts toks; lia | intros ? ? ?]
  | |- wp (skipToNextSection _) _ _ =>
    apply (wp_skipToNextSection toks); [assumption | G_facts toks; lia | intros ? ? ?]
  | HV : valueParser toks _ ?pv |- wp ?pv _ _ =>
    apply HV; [assumption | G_facts toks; lia | intros ? ? ? ? ?]
  | _ => wp_step toks
  end.

Lemma is_Some_None_false {A} : is_Some (@None A) -> False.
Proof. intros [x Hx]. discriminate. Qed.

Ltac some_facts :=
  repeat match goal with
  | H : is_Some (Some _) -> _ |- _ => specialize (H (ex_intro _ _ eq_refl))
  | H : is_Some None -> _ |- _ => clear H
  end.

Lemma wp_parseArray toks f pv (Q : Value -> Parser -> Prop) p :
  valueParser toks f pv -> G toks p -> Type_ (current p) <> TokenEOF ->
  rem p <= f ->
  (forall v p', G toks p' -> pos p < pos p' ->
     (exists r values, v = ArrayValue r values) -> Q v p') ->
  wp (parseArray pv f) Q p.
Proof.
  intros HV HG Hne Hf HQ. unfold parseArray.
  wp_step toks. wp_step toks. wp_step toks. wp_step toks. wp_step toks.
  eapply wp_mono.
  - apply (wp_iter _ (fun _ q => G toks q /\ pos p < pos q)
                     (fun _ q => G toks q /\ pos p < pos q)).
    + intros values q [Gq Hlt].
      repeat wp_call toks; some_facts; finish' toks q.
    + finish' toks p.
    + finish' toks p.
  - intros values q [Gq Hlt]. cbv beta.
    repeat wp_call toks; apply HQ; try (finish' toks q); eauto.
Qed.


Lemma wp_skipEntry toks fuel (Q : unit -> Parser -> Prop) p :
  G toks p -> rem p < fuel ->
  (forall p', G toks p' -> pos p <= pos p' -> Q tt p') ->
  wp (skipEntry fuel) Q p.
Proof.
  intros HG Hf HQ. unfold skipEntry.
  eapply wp_mono.
  - apply (wp_iter _ (fun _ q => G toks q /\ pos p <= pos q)
                     (fun _ q => G toks q /\ pos p <= pos q));
      [|split; [assumption | lia] | exact Hf].
    intros [] q [Gq Hle]. repeat wp_step toks; finish toks q.
  - intros [] p' [? ?]. auto.
Qed.

Ltac wp_call2 toks :=
  lazymatch goal with
  | |- wp (skipEntry _) _ _ =>
    apply (wp_skipEntry toks); [assumption | G_facts toks; lia | intros ? ? ?]
  | _ => wp_call toks
  end.

Lemma wp_parseDict toks f pv (Q : Value -> Parser -> Prop) p :
  valueParser toks f pv -> G toks p -> Type_ (current p) <> TokenEOF ->
  rem p <= f ->
  (forall v p', G toks p' -> pos p < pos p' ->
     (exists r entries, v = DictValue r entries) -> Q v p') ->
  wp (parseDict pv f) Q p.
Proof.
  intros HV HG Hne Hf HQ. unfold parseDict.
  wp_step toks. wp_step toks. wp_step toks. wp_step toks. wp_step toks.
  eapply wp_mono.
  - apply (wp_iter _ (fun _ q => G toks q /\ pos p < pos q)
                     (fun _ q => G toks q /\ pos p < pos q)).
    + intros entries q [Gq Hlt].
      repeat wp_call2 toks; some_facts; finish' toks q.
    + finish' toks p.
    + finish' toks p.
  - intros entries q [Gq Hlt]. cbv beta.
    repeat wp_call2 toks; apply HQ; try (finish' toks q); eauto.
Qed.

Lemma wp_parseTypedValueOrIdent toks f pv (Q : Value -> Parser -> Prop) p :
  valueParser toks f pv -> G toks p -> Type_ (current p) <> TokenEOF ->
  rem p <= f ->
  (forall v p', G toks p' -> pos p < pos p' -> Q v p') ->
  wp (parseTypedValueOrIdent pv f) Q p.
Proof.
  intros HV HG Hne Hf HQ. unfold parseTypedValueOrIdent.
  wp_step toks. wp_step toks. wp_step toks. wp_step toks.
  wp_step toks. wp_step toks. wp_step toks.
  - wp_step toks. wp_step toks. wp_step toks. wp_step toks. wp_step toks.
    + repeat wp_call2 toks; apply HQ; finish' toks p.
    + wp_step toks. eapply wp_mono.
      * apply (wp_iter _ (fun _ q => G toks q /\ pos p < pos q)
                         (fun _ q => G toks q /\ pos p < pos q)).
        -- intros args q [Gq Hlt].
           repeat wp_call2 toks; some_facts; finish' toks q.
        -- finish' toks p.
        -- finish' toks p.
      * intros args q [Gq Hlt]. cbv beta.
        repeat wp_call2 toks; apply HQ; finish' toks q.
  - wp_step toks. apply HQ; finish' toks p.
Qed.

(** [parseValue] gives a result whenever its fuel exceeds the tokens
    left. *)
Lemma parseValue_valueParser toks f : valueParser toks f (parseValue f).
Proof.
  induction f as [|f IH]; intros q Q HG Hf HQ; [lia|].
  cbn [parseValue]. wp_step toks. wp_step toks.
  destruct (Type_ (current q)) eqn:Ht;
    try (wp_step toks; apply HQ;
         [assumption | lia | intros Hs; exfalso; exact (is_Some_None_false Hs)]);
    try (repeat wp_step toks; apply HQ; [assumption | lia | intros _];
         finish' toks q).
  - wp_step toks.
    apply (wp_parseArray toks f); [exact IH | exact HG | congruence | lia |].
    intros v p' G' Hlt _. wp_step toks. apply HQ; [assumption | lia | intros _; lia].
  - wp_step toks.
    apply (wp_parseDict toks f); [exact IH | exact HG | congruence | lia |].
    intros v p' G' Hlt _. wp_step toks. apply HQ; [assumption | lia | intros _; lia].
  - wp_step toks.
    apply (wp_parseTypedValueOrIdent toks f);
      [exact IH | exact HG | congruence | lia |].
    intros v p' G' Hlt. wp_step toks. apply HQ; [assumption | lia | intros _; lia].
Qed.


(** *** Properties, headers and sections *)

Ltac wp_call3 toks :=
  lazymatch goal with
  | |- wp (parseValue ?f) _ _ =>
    apply (parseValue_valueParser toks f);
    [assumption | G_facts toks; lia | intros ? ? ? ? ?]
  | _ => wp_call2 toks
  end.

Lemma wp_parseProperty toks fuel (Q : option Property -> Parser -> Prop) p :
  G toks p -> rem p < fuel ->
  (forall r p', G toks p' -> pos p <= pos p' ->
     (Type_ (current p) = TokenIdent -> pos p < pos p') -> Q r p') ->
  wp (parseProperty fuel) Q p.
Proof.
  intros HG Hf HQ. unfold parseProperty.
  wp_step toks. wp_step toks. wp_step toks.
  { wp_step toks. apply HQ; finish' toks p. }
  wp_step toks. eapply wp_mono.
  - apply (wp_iter _ (fun _ q => G toks q /\ pos p <= pos q)
                     (fun _ q => G toks q /\ pos p < pos q)).
    + intros key q (Gq & Hle).
      repeat wp_step toks;
        first [solve [finish' toks q] | solve [finish' toks p]].
    + finish' toks p.
    + exact Hf.
  - intros key q [Gq Hlt]. cbv beta.
    repeat wp_call3 toks; apply HQ; finish' toks q.
Qed.

Lemma wp_takeIf {A} toks typ (store : Token -> A -> A) (J : A -> Prop) a
    (Q : A -> Parser -> Prop) p :
  G toks p -> J a -> typ <> TokenEOF ->
  (forall c, In c toks -> Type_ c = typ -> J (store c a)) ->
  (forall a' p', G toks p' -> pos p <= pos p' -> J a' -> Q a' p') ->
  wp (takeIf typ store a) Q p.
Proof.
  intros HG HJ Ht Hs HQ. unfold takeIf.
  repeat wp_step toks; apply HQ; finish' toks p.
  apply Hs; [|assumption]. apply (G_current_in toks p HG). congruence.
Qed.

(** What a section parser's [switch key] has to satisfy. *)
Definition attributeOK {A} (toks : list Token) (fuel : nat) (J : A -> Prop)
    (attribute : string -> A -> P A) : Prop :=
  forall key a q (Q : A -> Parser -> Prop),
    G toks q -> rem q < fuel -> J a ->
    (forall a' q', G toks q' -> pos q <= pos q' -> J a' -> Q a' q') ->
    wp (attribute key a) Q q.

Lemma wp_parseHeader {A} toks fuel (attribute : string -> A -> P A)
    (J : A -> Prop) a (Q : A -> Parser -> Prop) p :
  attributeOK toks fuel J attribute ->
  G toks p -> rem p < fuel -> J a ->
  (forall a' p', G toks p' -> pos p <= pos p' -> J a' -> Q a' p') ->
  wp (parseHeader fuel attribute a) Q p.
Proof.
  intros Hattr HG Hf HJ HQ. unfold parseHeader.
  eapply wp_mono.
  - apply (wp_iter _ (fun a q => G toks q /\ pos p <= pos q /\ J a)
                     (fun a q => G toks q /\ pos p <= pos q /\ J a));
      [|auto | exact Hf].
    intros a0 q (Gq & Hle & HJ0).
    repeat wp_step toks; try (finish' toks q).
    apply Hattr; [assumption | G_facts toks; lia | assumption |].
    intros a' q' G' Hle' HJ'. wp_step toks. finish' toks q.
  - intros a' p' (? & ? & ?). auto.
Qed.

Lemma wp_closeBracket toks (Q : unit -> Parser -> Prop) p :
  G toks p ->
  (forall p', G toks p' -> pos p <= pos p' -> doc p' = doc p -> Q tt p') ->
  wp closeBracket Q p.
Proof.
  intros HG HQ. unfold closeBracket.
  repeat wp_step toks; apply HQ; finish' toks p.
Qed.

Lemma wp_parseProperties toks fuel (Q : list Property -> Parser -> Prop) p :
  G toks p -> rem p < fuel ->
  (forall r p', G toks p' -> pos p <= pos p' -> Q r p') ->
  wp (parseProperties fuel) Q p.
Proof.
  intros HG Hf HQ. unfold parseProperties.
  eapply wp_mono.
  - apply (wp_iter _ (fun _ q => G toks q /\ pos p <= pos q)
                     (fun _ q => G toks q /\ pos p <= pos q));
      [|split; [assumption | lia] | exact Hf].
    intros props q [Gq Hle].
    repeat wp_step toks; try (finish' toks q).
    apply (wp_parseProperty toks); [assumption | G_facts toks; lia |].
    intros r q' G' Hle' Hadv. type_facts. specialize (Hadv ltac:(assumption)).
    repeat wp_step toks; finish' toks q.
  - intros r p' [? ?]. auto.
Qed.

Ltac wp_call4 toks :=
  lazymatch goal with
  | |- wp closeBracket _ _ =>
    apply (wp_closeBracket toks); [assumption | intros ? ? ? ?]
  | |- wp (parseProperties _) _ _ =>
    apply (wp_parseProperties toks); [assumption | G_facts toks; lia | intros ? ? ? ?]
  | _ => wp_call3 toks
  end.

(** Any [switch key] made of [takeIf] on string and number tokens and of
    discarded or stored values keeps [G]. *)
Ltac attribute_ok toks :=
  let key := fresh "key" in
  let aQ := fresh "aQ" in
  let aG := fresh "aG" in
  let aHQ := fresh "aHQ" in
  intros key ? ? aQ aG ? ? aHQ; cbv beta;
  repeat match goal with
  | |- wp (if keyIs key ?s then _ else _) _ _ => destruct (keyIs key s)
  end;
  first
    [ apply (wp_takeIf toks _ _ (fun _ => True));
      [assumption | exact I | discriminate | intros; exact I
      | intros ? ? ? ? _; apply aHQ; [assumption | assumption | exact I]]
    | repeat wp_call4 toks; apply aHQ; [assumption | lia | exact I] ].

Ltac doc_ok :=
  let H := fresh in
  intros H; destruct H; split; simpl; assumption.

Lemma wp_parseGdScene toks fuel startToken sectionType
    (Q : unit -> Parser -> Prop) p :
  G toks p -> rem p < fuel ->
  (forall p', G toks p' -> pos p <= pos p' -> Q tt p') ->
  wp (parseGdScene fuel startToken sectionType) Q p.
Proof.
  intros HG Hf HQ. unfold parseGdScene. wp_step toks.
  apply (wp_parseHeader toks fuel _ (fun _ => True));
    [attribute_ok toks | assumption | assumption | exact I |].
  intros gd p1 G1 Hle1 _. repeat wp_call4 toks.
  apply (wp_modifyDoc toks); [assumption | doc_ok |].
  intros p3 G3 Hpos Hcur Hdoc. apply HQ; finish' toks p.
Qed.

Lemma pathFrom_zero toks : pathFrom toks (mkExtResource zeroRange "" "" "" zeroRange "").
Proof. left. split; reflexivity. Qed.

Lemma wp_parseExtResource toks fuel startToken (Q : unit -> Parser -> Prop) p :
  G toks p -> rem p < fuel ->
  (forall p', G toks p' -> pos p <= pos p' -> Q tt p') ->
  wp (parseExtResource fuel startToken) Q p.
Proof.
  intros HG Hf HQ. unfold parseExtResource. wp_step toks.
  apply (wp_parseHeader toks fuel _ (pathFrom toks));
    [| assumption | assumption | apply pathFrom_zero |].
  - intros key a q Q' Gq Hfq HJ HQ'. cbv beta.
    repeat match goal with
    | |- wp (if keyIs key ?s then _ else _) _ _ => destruct (keyIs key s)
    end;
    first
      [ apply (wp_takeIf toks _ _ (pathFrom toks));
        [assumption | assumption | discriminate
        | intros c Hin Hc; first [exact HJ | right; exists c; auto]
        | exact HQ']
      | repeat wp_call4 toks; apply HQ'; [assumption | lia | assumption] ].
  - intros ext p1 G1 Hle1 HJ. repeat wp_call4 toks.
    apply (wp_modifyDoc toks); [assumption | |].
    + intros [He Hx]. split; [exact He|]. simpl.
      apply Forall_app. split; [exact Hx|]. constructor; [|constructor].
      exact HJ.
    + intros p3 G3 Hpos Hcur Hdoc. apply HQ; finish' toks p.
Qed.

Lemma wp_parseSubResource toks fuel startToken (Q : unit -> Parser -> Prop) p :
  G toks p -> rem p < fuel ->
  (forall p', G toks p' -> pos p <= pos p' -> Q tt p') ->
  wp (parseSubResource fuel startToken) Q p.
Proof.
  intros HG Hf HQ. unfold parseSubResource. wp_step toks.
  apply (wp_parseHeader toks fuel _ (fun _ => True));
    [attribute_ok toks | assumption | assumption | exact I |].
  intros sub p1 G1 Hle1 _. repeat wp_call4 toks.
  apply (wp_modifyDoc toks); [assumption | doc_ok |].
  intros p5 G5 Hpos Hcur Hdoc. apply HQ; finish' toks p.
Qed.

Lemma wp_parseNode toks fuel startToken (Q : unit -> Parser -> Prop) p :
  G toks p -> rem p < fuel ->
  (forall p', G toks p' -> pos p <= pos p' -> Q tt p') ->
  wp (parseNode fuel startToken) Q p.
Proof.
  intros HG Hf HQ. unfold parseNode. wp_step toks.
  apply (wp_parseHeader toks fuel _ (fun _ => True));
    [attribute_ok toks | assumption | assumption | exact I |].
  intros node p1 G1 Hle1 _. repeat wp_call4 toks.
  apply (wp_modifyDoc toks); [assumption | doc_ok |].
  intros p5 G5 Hpos Hcur Hdoc. apply HQ; finish' toks p.
Qed.

Lemma wp_parseConnection toks fuel startToken (Q : unit -> Parser -> Prop) p :
  G toks p -> rem p < fuel ->
  (forall p', G toks p' -> pos p <= pos p' -> Q tt p') ->
  wp (parseConnection fuel startToken) Q p.
Proof.
  intros HG Hf HQ. unfold parseConnection. wp_step toks.
  apply (wp_parseHeader toks fuel _ (fun _ => True));
    [attribute_ok toks | assumption | assumption | exact I |].
  intros conn p1 G1 Hle1 _. repeat wp_call4 toks.
  apply (wp_modifyDoc toks); [assumption | doc_ok |].
  intros p3 G3 Hpos Hcur Hdoc. apply HQ; finish' toks p.
Qed.

Lemma wp_parseResourceSection toks fuel (Q : unit -> Parser -> Prop) p :
  G toks p -> rem p < fuel ->
  (forall p', G toks p' -> pos p <= pos p' -> Q tt p') ->
  wp (parseResourceSection fuel) Q p.
Proof.
  intros HG Hf HQ. unfold parseResourceSection. wp_step toks.
  eapply wp_mono.
  - apply (wp_iter _ (fun _ q => G toks q /\ pos p <= pos q)
                     (fun _ q => G toks q /\ pos p <= pos q));
      [|split; [assumption | lia] | exact Hf].
    intros [] q [Gq Hle]. repeat wp_step toks; finish' toks q.
  - intros [] q [Gq Hle]. cbv beta.
    repeat wp_call4 toks. apply HQ; finish' toks q.
Qed.

Lemma wp_parseSection toks fuel (Q : unit -> Parser -> Prop) p :
  G toks p -> rem p < fuel -> Type_ (current p) <> TokenEOF ->
  (forall p', G toks p' -> pos p < pos p' -> Q tt p') ->
  wp (parseSection fuel) Q p.
Proof.
  intros HG Hf Hne HQ. unfold parseSection.
  wp_step toks. wp_step toks. wp_step toks. wp_step toks.
  wp_step toks. wp_step toks. wp_step toks.
  { repeat wp_call4 toks. apply HQ; finish' toks p. }
  wp_step toks. wp_step toks.
  repeat match goal with
  | |- wp (if ?b then _ else _) _ _ => destruct b
  end.
  - apply (wp_parseGdScene toks); [assumption | G_facts toks; lia |].
    intros q Gq Hle. apply HQ; finish' toks p.
  - apply (wp_parseExtResource toks); [assumption | G_facts toks; lia |].
    intros q Gq Hle. apply HQ; finish' toks p.
  - apply (wp_parseSubResource toks); [assumption | G_facts toks; lia |].
    intros q Gq Hle. apply HQ; finish' toks p.
  - apply (wp_parseNode toks); [assumption | G_facts toks; lia |].
    intros q Gq Hle. apply HQ; finish' toks p.
  - apply (wp_parseConnection toks); [assumption | G_facts toks; lia |].
    intros q Gq Hle. apply HQ; finish' toks p.
  - apply (wp_parseResourceSection toks); [assumption | G_facts toks; lia |].
    intros q Gq Hle. apply HQ; finish' toks p.
  - repeat wp_call4 toks. apply HQ; finish' toks p.
Qed.

Lemma wp_parse toks fuel (Q : unit -> Parser -> Prop) p :
  G toks p -> rem p < fuel ->
  (forall p', G toks p' -> Q tt p') ->
  wp (parse fuel) Q p.
Proof.
  intros HG Hf HQ. unfold parse.
  eapply wp_mono.
  - apply (wp_iter _ (fun _ q => G toks q /\ pos p <= pos q)
                     (fun _ q => G toks q));
      [|split; [assumption | lia] | exact Hf].
    intros [] q [Gq Hle].
    wp_step toks. wp_step toks. wp_step toks; [wp_step toks; assumption|].
    wp_step toks. wp_call4 toks. wp_step toks. wp_step toks.
    wp_step toks; [wp_step toks; assumption|].
    wp_step toks; [repeat wp_step toks; finish' toks q|].
    wp_step toks.
    { wp_step toks.
      apply (wp_parseSection toks); [assumption | G_facts toks; lia | finish' toks q |].
      intros q' G' Hlt. wp_step toks. finish' toks q. }
    wp_step toks.
    { wp_step toks.
      apply (wp_parseProperty toks); [assumption | G_facts toks; lia |].
      intros r q' G' Hle' Hadv. type_facts. specialize (Hadv ltac:(assumption)).
      wp_step toks. finish' toks q. }
    repeat wp_step toks. finish' toks q.
  - intros [] q Gq. auto.
Qed.

(** *** The parser is total *)

Definition endsWithEOF (toks : list Token) : Prop :=
  Type_ (tokenAt toks (length toks - 1)) = TokenEOF.

Lemma G_newParser toks : endsWithEOF toks -> G toks (newParser toks).
Proof.
  intros H. split; [reflexivity|]. split.
  - split; [reflexivity|]. split; [simpl; lia | exact H].
  - split; simpl; [unfold maxErrors; lia | constructor].
Qed.

(** On every token list that ends with the end-of-file token the parser
    returns a document, with at most 100 errors, in which the path and the
    path range of every external resource come from one string token. *)
Lemma parseTokens_total (toks : list Token) :
  endsWithEOF toks ->
  exists d, parseTokens toks = Some d /\ docOK toks d.
Proof.
  intros H. unfold parseTokens.
  pose proof (wp_parse toks (S (length toks)) (fun _ q => docOK toks (doc q))
                (newParser toks) (G_newParser toks H)) as Hwp.
  apply wp_result in Hwp as ([] & q & Hq & Hd).
  - rewrite Hq. eauto.
  - unfold rem. simpl. lia.
  - intros q (_ & _ & Hd). exact Hd.
Qed.


(** *** The lexer's loop *)

(** *** Resource references and typed values *)

Definition isResourceName (name : string) : Prop :=
  name = "ExtResource" \/ name = "SubResource".

Lemma isResourceName_eqb (name : string) :
  String.eqb name "ExtResource" || String.eqb name "SubResource" = true
  <-> isResourceName name.
Proof.
  unfold isResourceName. rewrite orb_true_iff, !String.eqb_eq. reflexivity.
Qed.

Definition typedShape (toks : list Token) (i : nat) (v : Value) : Prop :=
  let t0 := tokenAt toks i in
  let t1 := tokenAt toks (S i) in
  let t2 := tokenAt toks (S (S i)) in
  match v with
  | ResourceRef _ refType id idRange =>
    refType = tValue t0 /\ isResourceName refType /\
    Type_ t1 = TokenLParen /\ Type_ t2 = TokenString /\
    id = tValue t2 /\ idRange = makeRange t2
  | TypedValue _ name typeRange _ =>
    name = tValue t0 /\ typeRange = makeRange t0 /\ Type_ t1 = TokenLParen /\
    ~ (isResourceName name /\ Type_ t2 = TokenString)
  | IdentValue _ name => name = tValue t0 /\ Type_ t1 <> TokenLParen
  | _ => False
  end.

Lemma G_tokenAt toks p : G toks p -> current p = tokenAt toks (pos p).
Proof. intros (<- & (Hc & _) & _). exact Hc. Qed.

Lemma wp_parseTypedValueOrIdent_shape toks f pv (Q : Value -> Parser -> Prop) p :
  valueParser toks f pv -> G toks p -> Type_ (current p) <> TokenEOF ->
  rem p <= f ->
  (forall v p', G toks p' -> pos p < pos p' -> typedShape toks (pos p) v -> Q v p') ->
  wp (parseTypedValueOrIdent pv f) Q p.
Proof.
  intros HV HG Hne Hf HQ. unfold parseTypedValueOrIdent.
  pose proof (G_tokenAt _ _ HG) as Hc0.
  apply wp_bind, wp_cur. cbv zeta. apply wp_bind.
  apply (wp_advance toks); [exact HG|]. intros p1 G1 Hle1 _ Hadv1.
  pose proof (Hadv1 Hne) as Hp1.
  pose proof (G_tokenAt _ _ G1) as Hc1. rewrite Hp1 in Hc1.
  apply wp_bind, wp_curType.
  destruct (isType (Type_ (current p1)) TokenLParen) eqn:Hparen.
  - apply isType_true in Hparen. apply wp_bind.
    apply (wp_advance toks); [exact G1|]. intros p2 G2 Hle2 _ Hadv2.
    assert (Type_ (current p1) <> TokenEOF) as Hne1 by congruence.
    pose proof (Hadv2 Hne1) as Hp2.
    pose proof (G_tokenAt _ _ G2) as Hc2. rewrite Hp2, Hp1 in Hc2.
    apply wp_bind, wp_cur.
    destruct ((String.eqb (tValue (current p)) "ExtResource"
               || String.eqb (tValue (current p)) "SubResource")
              && isType (Type_ (current p2)) TokenString) eqn:Hcond.
    + pose proof Hcond as Hcond'.
      apply andb_true_iff in Hcond' as [Hname Hstr].
      apply isResourceName_eqb in Hname. apply isType_true in Hstr.
      repeat wp_call2 toks; apply HQ; try (finish' toks p);
        unfold typedShape; rewrite <- Hc0, <- Hc1, <- Hc2;
        repeat split; assumption.
    + assert (~ (isResourceName (tValue (current p))
                 /\ Type_ (current p2) = TokenString)) as Hnot.
      { intros [Hname Hstr]. apply isResourceName_eqb in Hname.
        rewrite Hname in Hcond. simpl in Hcond.
        apply isType_false in Hcond. contradiction. }
      clear Hcond.
      apply wp_bind. eapply wp_mono.
      * apply (wp_iter _ (fun _ q => G toks q /\ pos p < pos q)
                         (fun _ q => G toks q /\ pos p < pos q)).
        -- intros args q [Gq Hlt].
           repeat wp_call2 toks; some_facts; finish' toks q.
        -- finish' toks p.
        -- finish' toks p.
      * intros args q [Gq Hlt]. cbv beta.
        repeat wp_call2 toks; apply HQ; try (finish' toks q);
          unfold typedShape; rewrite <- Hc0, <- Hc1, <- Hc2;
          repeat split; assumption.
  - apply wp_ret. apply isType_false in Hparen.
    apply HQ; [exact G1 | lia |].
    unfold typedShape. rewrite <- Hc0, <- Hc1. auto.
Qed.

Definition valueShape (toks : list Token) (i : nat) (v : option Value) : Prop :=
  match v with
  | Some (StringValue _ _) => Type_ (tokenAt toks i) = TokenString
  | Some (NumberValue _ _ _) => Type_ (tokenAt toks i) = TokenNumber
  | Some (BoolValue _ _) => Type_ (tokenAt toks i) = TokenBool
  | Some (NullValue _) => Type_ (tokenAt toks i) = TokenNull
  | Some (ArrayValue _ _) => Type_ (tokenAt toks i) = TokenLBracket
  | Some (DictValue _ _) => Type_ (tokenAt toks i) = TokenLBrace
  | Some v => Type_ (tokenAt toks i) = TokenIdent /\ typedShape toks i v
  | None =>
    ~ In (Type_ (tokenAt toks i))
        [TokenString; TokenNumber; TokenBool; TokenNull; TokenLBracket;
         TokenLBrace; TokenIdent]
  end.

Lemma wp_parseValue_shape toks fuel (Q : option Value -> Parser -> Prop) p :
  G toks p -> rem p < fuel ->
  (forall v p', G toks p' -> pos p <= pos p' -> valueShape toks (pos p) v -> Q v p') ->
  wp (parseValue fuel) Q p.
Proof.
  intros HG Hf HQ. destruct fuel as [|f]; [lia|].
  pose proof (parseValue_valueParser toks f) as IH.
  pose proof (G_tokenAt _ _ HG) as Hc0.
  cbn [parseValue]. wp_step toks. wp_step toks.
  destruct (Type_ (current p)) eqn:Ht;
    try (wp_step toks; apply HQ; [assumption | lia |];
         unfold valueShape; rewrite <- Hc0, Ht; simpl; intuition discriminate);
    try (repeat wp_step toks; apply HQ; [assumption | lia |];
         unfold valueShape, numberValue; rewrite <- Hc0; exact Ht).
  - wp_step toks.
    apply (wp_parseArray toks f); [exact IH | exact HG | congruence | lia |].
    intros v p' G' Hlt (r & vs & ->). wp_step toks. apply HQ; [assumption | lia |].
    simpl. rewrite <- Hc0. exact Ht.
  - wp_step toks.
    apply (wp_parseDict toks f); [exact IH | exact HG | congruence | lia |].
    intros v p' G' Hlt (r & vs & ->). wp_step toks. apply HQ; [assumption | lia |].
    simpl. rewrite <- Hc0. exact Ht.
  - wp_step toks.
    apply (wp_parseTypedValueOrIdent_shape toks f);
      [exact IH | exact HG | congruence | lia |].
    intros v p' G' Hlt Hs. wp_step toks. apply HQ; [assumption | lia |].
    destruct v; simpl in Hs |- *; try contradiction;
      rewrite <- Hc0 in Hs |- *; auto.
Qed.

(** A value is given from every well-formed state. *)
Lemma parseValue_returns toks fuel p :
  G toks p -> rem p < fuel ->
  exists v p', parseValue fuel p = Some (v, p') /\ valueShape toks (pos p) v.
Proof.
  intros HG Hf.
  destruct (wp_result (parseValue fuel) (fun v _ => valueShape toks (pos p) v) p)
    as (v & p' & E & Hs).
  - apply (wp_parseValue_shape toks); [exact HG | exact Hf |]. auto.
  - eauto.
Qed.

(** C9.  From a well-formed parser state, [parseValue] run with more fuel
    than there are tokens left behaves as follows at an identifier
    ExtResource or SubResource followed by an opening parenthesis.  When
    the token after the parenthesis is not a string literal, the result
    is a typed value that carries the identifier as its type name; its
    arguments come from the argument loop, which calls [parseValue] on
    each.  Conversely, whenever the result is a resource reference, the
    value started at such an identifier, the next token is the opening
    parenthesis, the one after it is a string literal, and the
    reference's id is the text of that literal. *)
Theorem resource_ref_needs_string_id (toks : list Token) (fuel : nat) (p : Parser) :
  G toks p -> rem p < fuel ->
  let t0 := tokenAt toks (pos p) in
  let t1 := tokenAt toks (S (pos p)) in
  let t2 := tokenAt toks (S (S (pos p))) in
  (Type_ t0 = TokenIdent -> isResourceName (tValue t0) ->
   Type_ t1 = TokenLParen -> Type_ t2 <> TokenString ->
   exists r args p',
     parseValue fuel p
     = Some (Some (TypedValue r (tValue t0) (makeRange t0) args), p')) /\
  (forall r refType id idRange p',
     parseValue fuel p = Some (Some (ResourceRef r refType id idRange), p') ->
     Type_ t0 = TokenIdent /\ refType = tValue t0 /\ isResourceName refType /\
     Type_ t1 = TokenLParen /\ Type_ t2 = TokenString /\
     id = tValue t2 /\ idRange = makeRange t2).
Proof.
  intros HG Hf t0 t1 t2. subst t0 t1 t2.
  destruct (parseValue_returns toks fuel p HG Hf) as (v & p' & E & Hs).
  split.
  - intros H0 Hname H1 H2.
    destruct v as [v|]; [destruct v|]; simpl in Hs;
      try (rewrite H0 in Hs; discriminate).
    + destruct Hs as (_ & -> & Hn). contradiction.
    + destruct Hs as (_ & -> & -> & _). eauto.
    + destruct Hs as (_ & _ & _ & _ & Hstr & _). contradiction.
    + exfalso. apply Hs. rewrite H0. simpl. tauto.
  - intros r refType id idRange p'' E'. rewrite E in E'.
    injection E' as -> _. exact Hs.
Qed.


(** The tokens of a source text, under the ASCII classification of
    runes. *)
Definition tokensOf (input : string) : list Token :=
  default [] (@Tokenize asciiUnicode (S (String.length input)) (NewLexer input)).

Definition refTokens : list Token := Eval vm_compute in tokensOf "ExtResource(1)".

Lemma resource_ref_needs_string_id_witness :
  exists r args p',
    parseValue 5 (newParser refTokens)
    = Some (Some (TypedValue r "ExtResource" (makeRange (tokenAt refTokens 0)) args), p').
Proof.
  assert (G refTokens (newParser refTokens)) as HG by (apply G_newParser; reflexivity).
  assert (rem (newParser refTokens) < 5) as Hf by (vm_compute; lia).
  destruct (resource_ref_needs_string_id refTokens 5 (newParser refTokens) HG Hf) as [H1 _].
  apply H1; [reflexivity | left; reflexivity | reflexivity | discriminate].
Defined.

(** The two forms in a property of a node, from source text to value. *)
Definition firstNodeValues (input : string) : list (string * Value) :=
  match @Parse asciiUnicode (S (String.length input)) input with
  | Some d =>
    match Nodes d with
    | n :: _ => map (fun pr => (Key pr, pValue pr)) (nProperties n)
    | [] => []
    end
  | None => []
  end.

Lemma typed_value_from_number_argument :
  exists r tr arg,
    firstNodeValues ("[node name=" ++ str1 ch_quote ++ "A" ++ str1 ch_quote ++ "]"
                     ++ str1 ch_newline ++ "texture = ExtResource(1)")
    = [("texture", TypedValue r "ExtResource" tr [NumberValue arg "1" true])].
Proof. vm_compute. eauto. Qed.

Lemma resource_ref_from_string_argument :
  exists r idr,
    firstNodeValues ("[node name=" ++ str1 ch_quote ++ "A" ++ str1 ch_quote ++ "]"
                     ++ str1 ch_newline ++ "texture = ExtResource("
                     ++ str1 ch_quote ++ "1_abc" ++ str1 ch_quote ++ ")")
    = [("texture", ResourceRef r "ExtResource" "1_abc" idr)].
Proof. vm_compute. eauto. Qed.


Section WithUnicode.
Context `{Unicode}.

Lemma tokenizeLoop_ends (fuel : nat) (acc : list Token) (l : Lexer) (toks : list Token) :
  tokenizeLoop fuel acc l = Some toks ->
  exists pre tok, toks = (pre ++ [tok])%list /\ Type_ tok = TokenEOF.
Proof.
  revert acc l. induction fuel as [|f IH]; intros acc l; [discriminate|].
  cbn [tokenizeLoop]. destruct (Next l) as [tok l'].
  destruct (isType (Type_ tok) TokenEOF) eqn:E.
  - intros [= <-]. exists acc, tok. split; [reflexivity|]. by apply isType_true.
  - apply IH.
Qed.

Lemma Tokenize_endsWithEOF (fuel : nat) (l : Lexer) (toks : list Token) :
  Tokenize fuel l = Some toks -> endsWithEOF toks.
Proof.
  intros Ht. apply tokenizeLoop_ends in Ht as (pre & tok & -> & He).
  unfold endsWithEOF, tokenAt. rewrite length_app. simpl.
  replace (length pre + 1 - 1) with (length pre) by lia.
  rewrite nth_middle. exact He.
Qed.

(** Whenever the lexer returns, the parser returns a document. *)
Lemma Parse_returns (fuel : nat) (input : string) (toks : list Token) :
  Tokenize fuel (NewLexer input) = Some toks ->
  exists d, Parse fuel input = Some d /\ docOK toks d.
Proof.
  intros Ht. unfold Parse. rewrite Ht.
  apply parseTokens_total, (Tokenize_endsWithEOF _ _ _ Ht).
Qed.

Lemma Parse_inv (fuel : nat) (input : string) (d : Document) :
  Parse fuel input = Some d ->
  exists toks, Tokenize fuel (NewLexer input) = Some toks /\
               parseTokens toks = Some d /\ docOK toks d.
Proof.
  unfold Parse. destruct (Tokenize fuel (NewLexer input)) as [toks|] eqn:Ht;
    [|discriminate].
  intros Hd. exists toks. split; [reflexivity|]. split; [exact Hd|].
  destruct (parseTokens_total toks (Tokenize_endsWithEOF _ _ _ Ht)) as (d' & Hd' & Hok).
  congruence.
Qed.

(** *** The error cap (C3) *)

Lemma addError_full (p : Parser) (msg : string) :
  maxErrors <= length (Errors (doc p)) -> addError msg p = Some (tt, p).
Proof.
  intros Hle. unfold addError, modify.
  destruct (Nat.leb_spec maxErrors (length (Errors (doc p)))); [reflexivity | lia].
Qed.

Lemma addError_room (p : Parser) (msg : string) :
  length (Errors (doc p)) < maxErrors ->
  exists p', addError msg p = Some (tt, p') /\
    Errors (doc p') = (Errors (doc p) ++ [mkParseError (makeRange (current p)) msg])%list /\
    tokens p' = tokens p /\ pos p' = pos p /\ current p' = current p.
Proof.
  intros Hlt. unfold addError, modify.
  destruct (Nat.leb_spec maxErrors (length (Errors (doc p)))); [lia|].
  eexists. split; [reflexivity|]. repeat split.
Qed.

(** C3: whenever the lexer has produced its tokens, [Parse] returns a
    document, and that document has at most 100 errors; an error reported
    when 100 are recorded leaves the parser as it is, the error list, the
    position and the document included, so the parse goes on as if it had
    not been reported. *)
Theorem Parse_error_cap (fuel : nat) (input : string) (toks : list Token) :
  Tokenize fuel (NewLexer input) = Some toks ->
  exists d, Parse fuel input = Some d /\ length (Errors d) <= 100 /\
    (forall (p : Parser) (msg : string),
        100 <= length (Errors (doc p)) -> addError msg p = Some (tt, p)).
Proof.
  intros Ht. destruct (Parse_returns _ _ _ Ht) as (d & Hd & Hok & _).
  exists d. split; [exact Hd|]. split; [exact Hok|].
  intros p msg Hle. apply addError_full. exact Hle.
Qed.

(** *** Inputs on which the lexer does not stop (C2) *)

(** A lexer state in which [Next] gives a token other than the
    end-of-file token and does not move: the loop of [Tokenize] never
    ends from it. *)
Definition stuck (l : Lexer) : Prop :=
  exists tok, Next l = (tok, l) /\ Type_ tok <> TokenEOF.

Lemma tokenizeLoop_stuck (l : Lexer) :
  stuck l -> forall fuel acc, tokenizeLoop fuel acc l = None.
Proof.
  intros (tok & Hn & Hne) fuel. induction fuel as [|f IH]; intros acc;
    [reflexivity|].
  cbn [tokenizeLoop]. rewrite Hn.
  rewrite (proj2 (isType_false _ _) Hne). apply IH.
Qed.

Lemma stuck_dot : stuck (NewLexer ".").
Proof.
  exists (mkToken TokenError "invalid number" 0 0 0 0).
  split; [reflexivity | discriminate].
Qed.

(** C2 fails on the code: on the input ["."] the loop of [Tokenize] never
    reaches the end of the file, whatever the number of rounds, so [Parse]
    returns no document. *)
Theorem Parse_dot_never_returns (fuel : nat) : Parse fuel "." = None.
Proof.
  unfold Parse, Tokenize. rewrite (tokenizeLoop_stuck _ stuck_dot). reflexivity.
Qed.

End WithUnicode.

(** An input with 150 errors: the document keeps 100 of them. *)
Fixpoint repeatString (n : nat) (s : string) : string :=
  match n with O => "" | S k => s ++ repeatString k s end.

Definition manyErrors : string := repeatString 150 ("=" ++ str1 ch_newline).

Lemma Parse_error_cap_witness :
  exists d, @Parse asciiUnicode 400 manyErrors = Some d /\
    length (Errors d) <= 100 /\
    (forall (p : Parser) (msg : string),
        100 <= length (Errors (doc p)) -> addError msg p = Some (tt, p)).
Proof.
  eapply (@Parse_error_cap asciiUnicode 400 manyErrors).
  vm_compute. reflexivity.
Defined.

Lemma manyErrors_capped :
  option_map (fun d => length (Errors d)) (@Parse asciiUnicode 400 manyErrors)
  = Some 100.
Proof. vm_compute. reflexivity. Qed.

(** More inputs on which [Tokenize] does not stop: a number that ends in
    a dot, and a sign that no digit follows. *)
Lemma tokenizeLoop_step `{Unicode} (l l' : Lexer) (tok : Token) :
  Next l = (tok, l') -> Type_ tok <> TokenEOF ->
  (forall fuel acc, tokenizeLoop fuel acc l' = None) ->
  forall fuel acc, tokenizeLoop fuel acc l = None.
Proof.
  intros Hn Hne Hl' [|f] acc; [reflexivity|].
  cbn [tokenizeLoop]. rewrite Hn, (proj2 (isType_false _ _) Hne). apply Hl'.
Qed.

Lemma Parse_trailing_dot_never_returns `{Unicode} (fuel : nat) :
  Parse fuel "1." = None.
Proof.
  unfold Parse, Tokenize.
  rewrite (tokenizeLoop_step (NewLexer "1.")
             (mkLexer "1." 1 0 1 0 0 0) (mkToken TokenNumber "1" 0 0 0 1));
    [reflexivity | reflexivity | discriminate |].
  apply (tokenizeLoop_step _ (mkLexer "1." 1 0 1 1 0 1)
           (mkToken TokenError "invalid number" 0 1 1 0));
    [reflexivity | discriminate |].
  apply tokenizeLoop_stuck.
  exists (mkToken TokenError "invalid number" 0 1 1 0).
  split; [reflexivity | discriminate].
Qed.

Lemma Parse_lone_minus_never_returns (fuel : nat) :
  @Parse asciiUnicode fuel "-" = None.
Proof.
  unfold Parse, Tokenize. rewrite tokenizeLoop_stuck; [reflexivity|].
  exists (mkToken TokenIdent "" 0 0 0 0).
  split; [reflexivity | discriminate].
Qed.

(** *** String tokens and the range of a path *)

(** The escape sequences that [scanString] replaces by one byte. *)
Definition recognised (e : ascii) : bool :=
  Ascii.eqb e "n" || Ascii.eqb e "t" || Ascii.eqb e "r"
  || Ascii.eqb e ch_backslash || Ascii.eqb e ch_quote.

(** How many of them a piece of source text holds. *)
Fixpoint escapes (s : string) : nat :=
  match s with
  | EmptyString => 0
  | String c rest =>
    if Ascii.eqb c ch_backslash then
      match rest with
      | String e rest' => (if recognised e then 1 else 0) + escapes rest'
      | EmptyString => 0
      end
    else escapes rest
  end.

(** One for a literal written with the prefix of a string name. *)
Definition ampersand (s : string) : nat :=
  match s with
  | String c _ => if Ascii.eqb c "&" then 1 else 0
  | EmptyString => 0
  end.

Lemma length_append (a b : string) :
  String.length (a +:+ b) = String.length a + String.length b.
Proof.
  induction a as [|c a IH]; [reflexivity|].
  change (String c a +:+ b) with (String c (a +:+ b)). simpl. rewrite IH. reflexivity.
Qed.

Lemma length_writeByte (b : string) (c : ascii) :
  String.length (writeByte b c) = S (String.length b).
Proof. unfold writeByte. rewrite length_append. simpl. lia. Qed.

Lemma slice_empty (s : string) (a : nat) : slice s a a = "".
Proof.
  unfold slice. rewrite Nat.sub_diag. revert a.
  induction s as [|c s IH]; intros [|a]; simpl; auto.
Qed.

Lemma slice_cons (s : string) (a b : nat) :
  a < b -> a < String.length s ->
  slice s a b = String (byteAt s a) (slice s (S a) b).
Proof.
  unfold slice, byteAt. revert s b.
  induction a as [|a IH]; intros [|c s] b Hab Hlen; simpl in Hlen; try lia.
  - destruct b as [|b]; [lia|]. simpl. rewrite Nat.sub_0_r. reflexivity.
  - destruct b as [|b]; [lia|]. simpl String.get. simpl substring at 1.
    rewrite (IH s b) by lia.
    change (substring (S (S a)) (S b - S (S a)) (String c s))
      with (substring (S a) (b - S a) s).
    reflexivity.
Qed.

(** [advance] below the end of the input. *)
Definition sameToken (l l' : Lexer) : Prop :=
  input l' = input l /\ start l' = start l /\
  startLine l' = startLine l /\ startColumn l' = startColumn l.

Lemma advance_spec (l : Lexer) :
  lpos l < len l ->
  exists l', advance l = (byteAt (input l) (lpos l), l') /\
             sameToken l l' /\ lpos l' = S (lpos l).
Proof.
  intros Hlt. unfold advance.
  destruct (Nat.leb_spec (len l) (lpos l)) as [Hle|_]; [lia|].
  destruct (Ascii.eqb _ _); eexists; (split; [reflexivity|]);
    (split; [repeat split | simpl; lia]).
Qed.

Lemma peek_spec (l : Lexer) : lpos l < len l -> peek l = byteAt (input l) (lpos l).
Proof.
  intros Hlt. unfold peek.
  destruct (Nat.leb_spec (len l) (lpos l)) as [Hle|_]; [lia | reflexivity].
Qed.

Lemma scanStringLoop_spec (fuel : nat) :
  forall (b : string) (l : Lexer) (tok : Token) (l' : Lexer),
    scanStringLoop fuel b l = (tok, l') -> Type_ tok = TokenString ->
    sameToken l l' /\ lpos l < lpos l' /\ lpos l' <= len l /\
    tok = makeToken TokenString (tValue tok) l' /\
    byteAt (input l) (lpos l' - 1) = ch_quote /\
    String.length (tValue tok) + 1
    + escapes (slice (input l) (lpos l) (lpos l')) + lpos l
    = lpos l' + String.length b.
Proof.
  induction fuel as [|f IH]; intros b l tok l' E Ht.
  - simpl in E. destruct (lpos l <? len l)%nat; injection E as <- <-; discriminate.
  - cbn [scanStringLoop] in E.
    destruct (Nat.ltb_spec (lpos l) (len l)) as [Hlt|Hge];
      [|injection E as <- <-; discriminate].
    rewrite (peek_spec l Hlt) in E.
    destruct (advance_spec l Hlt) as (l1 & Ha & (Hi1 & Hs1 & Hsl1 & Hsc1) & Hp1).
    unfold advance_ in E. rewrite Ha in E. cbn [snd] in E.
    destruct (Ascii.eqb_spec (byteAt (input l) (lpos l)) ch_quote) as [Hq|Hnq].
    + injection E as <- <-. cbn [tValue].
      split; [repeat split; assumption|].
      split; [lia|]. split; [unfold len in *; lia|]. split; [reflexivity|].
      rewrite Hp1. split; [replace (S (lpos l) - 1) with (lpos l) by lia; exact Hq|].
      rewrite slice_cons by (unfold len in *; lia). rewrite Hq.
      rewrite slice_empty. simpl. lia.
    + destruct (Ascii.eqb_spec (byteAt (input l) (lpos l)) ch_backslash) as [Hb|Hnb].
      * destruct (Nat.ltb_spec (lpos l1) (len l1)) as [Hlt1|Hge1].
        -- destruct (advance_spec l1 Hlt1)
             as (l2 & Ha2 & (Hi2 & Hs2 & Hsl2 & Hsc2) & Hp2).
           rewrite Ha2 in E.
           apply IH in E; [|exact Ht].
           destruct E as ((Hi & Hs & Hsl & Hsc) & Hlt' & Hle' & Htok & Hlast & Hlen).
           split; [repeat split; congruence|].
           split; [lia|]. split; [unfold len in *; rewrite <- Hi1, <- Hi2; lia|].
           split; [exact Htok|].
           split; [rewrite <- Hi1, <- Hi2; exact Hlast|].
           rewrite (slice_cons (input l) (lpos l)) by (unfold len in *; lia).
           rewrite (slice_cons (input l) (S (lpos l)))
             by (unfold len in *; rewrite Hi1 in Hlt1; lia).
           rewrite Hb. cbn [escapes]. rewrite Ascii.eqb_refl.
           rewrite Hi2, Hi1, Hp2, Hp1 in Hlen.
           rewrite Hi1, Hp1 in *.
           revert Hlen. unfold recognised.
           repeat match goal with
                  | |- context [Ascii.eqb ?x ?y] =>
                    destruct (Ascii.eqb x y); cbn [orb]
                  end;
             rewrite ?length_writeByte; lia.
        -- exfalso. destruct f; simpl in E;
             destruct (Nat.ltb_spec (lpos l1) (len l1)); try lia;
             injection E as <- <-; discriminate.
      * destruct (Ascii.eqb_spec (byteAt (input l) (lpos l)) ch_newline) as [Hn|Hnn];
          [injection E as <- <-; discriminate|].
        apply IH in E; [|exact Ht].
        destruct E as ((Hi & Hs & Hsl & Hsc) & Hlt' & Hle' & Htok & Hlast & Hlen).
        split; [repeat split; congruence|].
        split; [lia|]. split; [unfold len in *; rewrite <- Hi1; lia|].
        split; [exact Htok|].
        split; [rewrite <- Hi1; exact Hlast|].
        rewrite (slice_cons (input l) (lpos l)) by (unfold len in *; lia).
        cbn [escapes].
        destruct (Ascii.eqb_spec (byteAt (input l) (lpos l)) ch_backslash);
          [contradiction|].
        rewrite Hi1, Hp1, length_writeByte in Hlen. lia.
Qed.

(** No function of the lexer changes the input. *)
Lemma advance_input (l : Lexer) : input (advance_ l) = input l.
Proof.
  unfold advance_, advance.
  destruct (len l <=? lpos l)%nat; [reflexivity|].
  destruct (Ascii.eqb _ _); reflexivity.
Qed.

Lemma advance_fst_input (l : Lexer) : input (snd (advance l)) = input l.
Proof. apply advance_input. Qed.

Lemma loopWhile_input (step : Lexer -> option Lexer) :
  (forall l l', step l = Some l' -> input l' = input l) ->
  forall fuel l, input (loopWhile fuel step l) = input l.
Proof.
  intros Hstep fuel. induction fuel as [|f IH]; intros l; [reflexivity|].
  simpl. destruct (lpos l <? len l)%nat; [|reflexivity].
  destruct (step l) as [l'|] eqn:E; [|reflexivity].
  rewrite IH. apply Hstep, E.
Qed.

Lemma skipWhitespace_input (l : Lexer) : input (skipWhitespace l) = input l.
Proof.
  apply loopWhile_input. intros l0 l' E.
  destruct (isSpace (peek l0)); [|discriminate].
  injection E as <-. apply advance_input.
Qed.

Lemma scanStringLoop_input (fuel : nat) :
  forall b l, input (snd (scanStringLoop fuel b l)) = input l.
Proof.
  induction fuel as [|f IH]; intros b l.
  - simpl. destruct (lpos l <? len l)%nat; reflexivity.
  - cbn [scanStringLoop].
    destruct (lpos l <? len l)%nat; [|reflexivity].
    destruct (Ascii.eqb (peek l) ch_quote); [apply advance_input|].
    destruct (Ascii.eqb (peek l) ch_backslash).
    + destruct (lpos (advance_ l) <? len (advance_ l))%nat.
      * destruct (advance (advance_ l)) as [e l2] eqn:E.
        rewrite IH. change l2 with (snd (e, l2)). rewrite <- E.
        rewrite advance_fst_input. apply advance_input.
      * rewrite IH. apply advance_input.
    + destruct (Ascii.eqb (peek l) ch_newline); [reflexivity|].
      destruct (advance l) as [c l2] eqn:E.
      rewrite IH. change l2 with (snd (c, l2)). rewrite <- E.
      apply advance_fst_input.
Qed.

Lemma scanString_input (l : Lexer) : input (snd (scanString l)) = input l.
Proof. unfold scanString. rewrite scanStringLoop_input. apply advance_input. Qed.

Lemma scanComment_input (l : Lexer) : input (snd (scanComment l)) = input l.
Proof.
  unfold scanComment. cbn [snd]. rewrite loopWhile_input; [apply advance_input|].
  intros l0 l' E. destruct (negb _); [|discriminate].
  injection E as <-. apply advance_input.
Qed.

Lemma single_input typ value (l : Lexer) : input (snd (single typ value l)) = input l.
Proof. apply advance_input. Qed.

(** The source text of a token. *)
Definition literal (input : string) (tok : Token) : string :=
  slice input (tOffset tok) (tOffset tok + Length tok).

(** A string token of an input: its text ends with the closing quote, and
    its length is that of its value, the two quotes, one byte for every
    escape sequence replaced, and the prefix if there is one. *)
Definition stringToken (input : string) (tok : Token) : Prop :=
  tOffset tok + Length tok <= String.length input /\
  byteAt input (tOffset tok + Length tok - 1) = ch_quote /\
  Length tok
  = String.length (tValue tok) + 2 + escapes (literal input tok)
    + ampersand (literal input tok).

Lemma scanString_spec (l : Lexer) (tok : Token) (l' : Lexer) :
  lpos l < len l -> byteAt (input l) (lpos l) = ch_quote ->
  scanString l = (tok, l') -> Type_ tok = TokenString ->
  start l' = start l /\ tOffset tok = start l /\ Length tok = lpos l' - start l /\
  lpos l < lpos l' /\ lpos l' <= len l /\
  byteAt (input l) (lpos l' - 1) = ch_quote /\
  String.length (tValue tok) + 2
  + escapes (slice (input l) (lpos l) (lpos l')) + lpos l = lpos l'.
Proof.
  intros Hlt Hq E Ht. unfold scanString in E.
  destruct (advance_spec l Hlt) as (l1 & Ha & (Hi1 & Hs1 & Hsl1 & Hsc1) & Hp1).
  unfold advance_ in E. rewrite Ha in E. cbn [snd] in E.
  apply scanStringLoop_spec in E; [|exact Ht].
  destruct E as ((Hi & Hs & Hsl & Hsc) & Hlt' & Hle' & Htok & Hlast & Hlen).
  rewrite Htok. cbn [tOffset Length makeToken tValue].
  rewrite Hi1, Hp1 in *. unfold len in *. rewrite Hi1 in *.
  repeat split; try congruence; try lia.
  rewrite (slice_cons (input l) (lpos l)) by lia.
  rewrite Hq. cbn [escapes]. change (Ascii.eqb ch_quote ch_backslash) with false.
  cbv iota. simpl String.length in Hlen. lia.
Qed.

Section StringTokens.
Context `{Unicode}.

Lemma matchKeyword_input (k : string) (l : Lexer) :
  input (snd (matchKeyword k l)) = input l.
Proof.
  unfold matchKeyword.
  repeat match goal with
         | |- context [if ?c then _ else _] => destruct c
         end; reflexivity.
Qed.

Lemma scanDigits_input (l : Lexer) : input (scanDigits l) = input l.
Proof.
  apply loopWhile_input. intros l0 l' E.
  destruct (isDigitByte (peek l0)); [|discriminate].
  injection E as <-. apply advance_input.
Qed.

Lemma scanNumber_input (l : Lexer) : input (snd (scanNumber l)) = input l.
Proof.
  unfold scanNumber.
  match goal with |- context [matchKeyword "inf" ?x] => set (l1 := x) end.
  assert (input l1 = input l) as H1
      by (subst l1; destruct (_ || _); [apply advance_input | reflexivity]).
  destruct (matchKeyword "inf" l1) as [isInf l2] eqn:E2.
  assert (input l2 = input l) as H2.
  { change l2 with (snd (isInf, l2)). rewrite <- E2, matchKeyword_input. exact H1. }
  destruct (if isInf then (false, l2) else matchKeyword "nan" l2) as [isNan l3] eqn:E3.
  assert (input l3 = input l) as H3.
  { change l3 with (snd (isNan, l3)). rewrite <- E3.
    destruct isInf; [exact H2 | rewrite matchKeyword_input; exact H2]. }
  destruct (isInf || isNan); [exact H3|].
  destruct (_ && _ && _); cbn [snd]; [rewrite scanDigits_input; exact H3|].
  repeat match goal with
         | |- context [if ?c then _ else _] => destruct c
         end;
    cbn [snd]; repeat (rewrite scanDigits_input || rewrite advance_input);
    exact H3.
Qed.

Lemma scanNumber_type (l : Lexer) : Type_ (fst (scanNumber l)) <> TokenString.
Proof.
  unfold scanNumber.
  destruct (matchKeyword "inf" _) as [isInf l2].
  destruct (if isInf then (false, l2) else matchKeyword "nan" l2) as [isNan l3].
  destruct (isInf || isNan); [discriminate|].
  destruct (_ && _ && _); discriminate.
Qed.

Lemma scanIdentifier_input (l : Lexer) : input (snd (scanIdentifier l)) = input l.
Proof.
  unfold scanIdentifier.
  set (l1 := loopWhile _ _ l).
  assert (input l1 = input l) as H1.
  { apply loopWhile_input. intros l0 l' E.
    destruct (utf8.DecodeRuneInString _) as [r size].
    destruct (negb _); [discriminate|]. injection E as <-. reflexivity. }
  repeat match goal with
         | |- context [if ?c then _ else _] => destruct c
         end; exact H1.
Qed.

Lemma scanIdentifier_type (l : Lexer) : Type_ (fst (scanIdentifier l)) <> TokenString.
Proof.
  unfold scanIdentifier.
  repeat match goal with
         | |- context [if ?c then _ else _] => destruct c
         end; discriminate.
Qed.

(** [Next] keeps the input, and a string token it gives is one of the
    input. *)
Lemma Next_spec (l : Lexer) (tok : Token) (l' : Lexer) :
  Next l = (tok, l') ->
  input l' = input l /\ (Type_ tok = TokenString -> stringToken (input l) tok).
Proof.
  unfold Next.
  pose proof (skipWhitespace_input l) as Hw.
  set (l0 := skipWhitespace l) in *.
  set (l1 := mkLexer (input l0) (lpos l0) (line l0) (column l0)
               (lpos l0) (line l0) (column l0)).
  assert (input l1 = input l) as Hin by exact Hw.
  assert (start l1 = lpos l1) as Hst by reflexivity.
  clearbody l1. clear Hw l0.
  destruct (Nat.leb_spec (len l1) (lpos l1)) as [Hge|Hlt].
  { intros E. injection E as <- <-. split; [exact Hin | discriminate]. }
  rewrite (peek_spec l1 Hlt).
  repeat match goal with
         | |- (if Ascii.eqb ?x ?y then single _ _ _ else _) = _ -> _ =>
           destruct (Ascii.eqb x y);
           [intros E; unfold single in E; injection E as <- <-;
            split; [rewrite advance_input; exact Hin | discriminate]|]
         end.
  destruct (Ascii.eqb _ ";").
  { intros E. pose proof (scanComment_input l1) as Hc. rewrite E in Hc.
    unfold scanComment in E. injection E as <- _.
    split; [rewrite <- Hin; exact Hc | discriminate]. }
  destruct (Ascii.eqb_spec (byteAt (input l1) (lpos l1)) ch_quote) as [Hq|Hnq].
  { intros E. pose proof (scanString_input l1) as Hc. rewrite E in Hc.
    split; [rewrite <- Hin; exact Hc|]. intros Ht.
    destruct (scanString_spec l1 tok l' Hlt Hq E Ht)
      as (Hs & Ho & Hl & Hlt' & Hle & Hlast & Hlen).
    unfold stringToken, literal. rewrite Ho, Hl, Hst, <- Hin.
    replace (lpos l1 + (lpos l' - lpos l1)) with (lpos l') by lia.
    split; [exact Hle|]. split; [exact Hlast|].
    rewrite (slice_cons (input l1) (lpos l1)) by (unfold len in *; lia).
    rewrite Hq. cbn [ampersand].
    change (Ascii.eqb ch_quote "&") with false. cbv iota.
    rewrite (slice_cons (input l1) (lpos l1)) in Hlen by (unfold len in *; lia).
    rewrite Hq in Hlen. lia. }
  destruct (Ascii.eqb_spec (byteAt (input l1) (lpos l1)) "&") as [Ha|Hna].
  { destruct (_ && _) eqn:Hnext.
    - intros E. apply andb_true_iff in Hnext as [Hlt2 Hq2].
      apply Nat.ltb_lt in Hlt2. apply Ascii.eqb_eq in Hq2.
      destruct (advance_spec l1 Hlt) as (l2 & Hadv & (Hi2 & Hs2 & _ & _) & Hp2).
      unfold advance_ in E. rewrite Hadv in E. cbn [snd] in E.
      assert (lpos l2 < len l2) as Hlt3 by (unfold len in *; rewrite Hi2; lia).
      assert (byteAt (input l2) (lpos l2) = ch_quote) as Hq3.
      { rewrite Hi2, Hp2. replace (S (lpos l1)) with (lpos l1 + 1) by lia. exact Hq2. }
      pose proof (scanString_input l2) as Hc. rewrite E in Hc. cbn [snd] in Hc.
      split; [congruence|]. intros Ht.
      destruct (scanString_spec l2 tok l' Hlt3 Hq3 E Ht)
        as (Hs & Ho & Hl & Hlt' & Hle & Hlast & Hlen).
      unfold stringToken, literal. rewrite Ho, Hl, Hs2, Hst, <- Hin.
      rewrite Hi2, Hp2 in *. unfold len in *. rewrite Hi2 in *.
      replace (lpos l1 + (lpos l' - lpos l1)) with (lpos l') by lia.
      split; [exact Hle|]. split; [exact Hlast|].
      rewrite (slice_cons (input l1) (lpos l1)) by lia.
      rewrite Ha. cbn [ampersand escapes].
      change (Ascii.eqb "&" ch_backslash) with false.
      change (Ascii.eqb "&" "&") with true. cbv iota. lia.
    - intros E. unfold single in E. injection E as <- <-.
      split; [rewrite advance_input; exact Hin | discriminate]. }
  assert (forall b : bool,
    (if b then scanNumber l1 else scanIdentifier l1) = (tok, l') ->
    input l' = input l /\ (Type_ tok = TokenString -> stringToken (input l) tok))
    as Hnum.
  { intros b E. destruct b.
    - pose proof (scanNumber_input l1) as Hc. pose proof (scanNumber_type l1) as Hty.
      rewrite E in Hc, Hty. cbn [fst snd] in Hc, Hty.
      split; [congruence | intros Ht; contradiction].
    - pose proof (scanIdentifier_input l1) as Hc.
      pose proof (scanIdentifier_type l1) as Hty.
      rewrite E in Hc, Hty. cbn [fst snd] in Hc, Hty.
      split; [congruence | intros Ht; contradiction]. }
  destruct (_ || _); [apply Hnum|].
  destruct (_ || _); [apply (Hnum true)|].
  destruct (isIdentStart _); [apply (Hnum false)|].
  intros E. unfold single in E. injection E as <- <-.
  split; [rewrite advance_input; exact Hin | discriminate].
Qed.

Lemma tokenizeLoop_strings (fuel : nat) :
  forall (acc : list Token) (l : Lexer) (toks : list Token),
    tokenizeLoop fuel acc l = Some toks ->
    Forall (fun tok => Type_ tok = TokenString -> stringToken (input l) tok) acc ->
    Forall (fun tok => Type_ tok = TokenString -> stringToken (input l) tok) toks.
Proof.
  induction fuel as [|f IH]; intros acc l toks E Hacc; [discriminate|].
  cbn [tokenizeLoop] in E.
  destruct (Next l) as [tok l1] eqn:En.
  destruct (Next_spec l tok l1 En) as [Hin Htok].
  assert (Forall (fun tok => Type_ tok = TokenString -> stringToken (input l) tok)
            (acc ++ [tok])) as Hacc'.
  { apply Forall_app. split; [exact Hacc|]. constructor; [exact Htok | constructor]. }
  destruct (isType (Type_ tok) TokenEOF).
  - injection E as <-. exact Hacc'.
  - rewrite <- Hin. apply (IH _ _ _ E). rewrite Hin. exact Hacc'.
Qed.

Lemma Tokenize_strings (fuel : nat) (source : string) (toks : list Token) :
  Tokenize fuel (NewLexer source) = Some toks ->
  forall tok, In tok toks -> Type_ tok = TokenString -> stringToken source tok.
Proof.
  intros E. apply tokenizeLoop_strings in E; [|constructor].
  intros tok Hin. exact (proj1 (List.Forall_forall _ _) E tok Hin).
Qed.

(** In a document that [Parse] returns, the path range of an
    external resource whose path was given spans the string literal as it
    is written in the input, up to and including the closing quote.  Its
    width in columns is the length of the path plus two for the quotes,
    plus one for every escape sequence that the lexer replaced by one
    byte, plus one when the literal has the prefix of a string name; so it
    is the length of the path plus two exactly when the literal has no
    such escape sequence and no prefix. *)
Theorem PathRange_covers_literal (fuel : nat) (source : string) (d : Document)
    (ext : ExtResource) :
  Parse fuel source = Some d -> In ext (ExtResources d) ->
  PathRange ext <> zeroRange ->
  let r := PathRange ext in
  let text := slice source (Offset (Start r)) (Offset (End r)) in
  let width := Column (End r) - Column (Start r) in
  Offset (End r) <= String.length source /\
  byteAt source (Offset (End r) - 1) = ch_quote /\
  width = String.length (Path ext) + 2 + escapes text + ampersand text /\
  (width = String.length (Path ext) + 2 <-> escapes text = 0 /\ ampersand text = 0).
Proof.
  intros Hd Hext Hnz.
  destruct (Parse_inv _ _ _ Hd) as (toks & Ht & _ & _ & Hpaths).
  pose proof (proj1 (List.Forall_forall _ _) Hpaths ext Hext) as [[_ Hz]|Hp];
    [contradiction|].
  destruct Hp as (tok & Hin & Hty & Hpath & Hrange).
  destruct (Tokenize_strings _ _ _ Ht tok Hin Hty) as (Hle & Hlast & Hlen).
  unfold literal in Hlen. rewrite Hrange, Hpath. cbn.
  split; [exact Hle|]. split; [exact Hlast|]. lia.
Qed.

End StringTokens.

(** The scenario of a texture: the literal has 19 columns. *)
Definition extResourceSource (pathLiteral : string) : string :=
  "[ext_resource type=" ++ str1 ch_quote ++ "Texture2D" ++ str1 ch_quote
  ++ " path=" ++ pathLiteral ++ " id=" ++ str1 ch_quote ++ "1" ++ str1 ch_quote
  ++ "]".

Definition quoted (s : string) : string := str1 ch_quote ++ s ++ str1 ch_quote.

Definition parsed (source : string) : Document :=
  default emptyDocument (@Parse asciiUnicode (S (String.length source)) source).

Definition firstExtResource (source : string) : ExtResource :=
  hd (mkExtResource zeroRange "" "" "" zeroRange "") (ExtResources (parsed source)).

Definition pathWidth (ext : ExtResource) : nat :=
  Column (End (PathRange ext)) - Column (Start (PathRange ext)).

Definition textureSource : string :=
  Eval vm_compute in extResourceSource (quoted "res://texture.png").
Definition textureDocument : Document := Eval vm_compute in parsed textureSource.
Definition textureResource : ExtResource :=
  Eval vm_compute in firstExtResource textureSource.

Lemma PathRange_covers_literal_witness :
  let r := PathRange textureResource in
  let text := slice textureSource (Offset (Start r)) (Offset (End r)) in
  let width := Column (End r) - Column (Start r) in
  Offset (End r) <= String.length textureSource /\
  byteAt textureSource (Offset (End r) - 1) = ch_quote /\
  width = String.length (Path textureResource) + 2 + escapes text + ampersand text /\
  (width = String.length (Path textureResource) + 2
   <-> escapes text = 0 /\ ampersand text = 0).
Proof.
  apply (@PathRange_covers_literal asciiUnicode 80 textureSource textureDocument
           textureResource);
    [vm_compute; reflexivity | left; reflexivity | discriminate].
Defined.

Lemma texture_path_width :
  Path textureResource = "res://texture.png" /\ pathWidth textureResource = 19.
Proof. vm_compute. split; reflexivity. Qed.

(** A path written with an escaped backslash: the path has three bytes,
    its literal six columns. *)
Definition escapedSource : string :=
  Eval vm_compute in
    extResourceSource (quoted ("a" ++ str1 ch_backslash ++ str1 ch_backslash ++ "b")).
Definition escapedDocument : Document := Eval vm_compute in parsed escapedSource.
Definition escapedResource : ExtResource :=
  Eval vm_compute in firstExtResource escapedSource.

Lemma PathRange_escaped_path_wider :
  @Parse asciiUnicode 80 escapedSource = Some escapedDocument /\
  In escapedResource (ExtResources escapedDocument) /\
  PathRange escapedResource <> zeroRange /\
  String.length (Path escapedResource) = 3 /\
  pathWidth escapedResource = 6 /\
  pathWidth escapedResource <> String.length (Path escapedResource) + 2.
Proof.
  split; [vm_compute; reflexivity|]. split; [left; reflexivity|].
  split; [discriminate|]. split; [reflexivity|].
  split; [reflexivity | vm_compute; lia].
Qed.

(** The same for a literal with the prefix of a string name. *)
Definition stringNameResource : ExtResource :=
  Eval vm_compute in
    firstExtResource (extResourceSource ("&" ++ quoted "res://a.png")).

Lemma PathRange_string_name_wider :
  Path stringNameResource = "res://a.png" /\ pathWidth stringNameResource = 14.
Proof. split; reflexivity. Qed.

(** *** The hang of the lexer at a dot *)

Lemma loopWhile_stop (step : Lexer -> option Lexer) (fuel : nat) (l : Lexer) :
  step l = None -> loopWhile fuel step l = l.
Proof.
  intros Hs. destruct fuel as [|f]; [reflexivity|].
  simpl. destruct (lpos l <? len l)%nat; [rewrite Hs|]; reflexivity.
Qed.

Section LoneDot.
Context `{Unicode}.

Lemma matchKeyword_mismatch (c k : ascii) (rest : string) (l : Lexer) :
  peek l = c -> c <> k -> matchKeyword (String k rest) l = (false, l).
Proof.
  intros Hp Hne. unfold matchKeyword.
  destruct (Nat.ltb_spec (len l) (lpos l + String.length (String k rest)))
    as [_|Hle]; [reflexivity|].
  simpl String.length in *.
  assert (lpos l < len l) as Hlt by lia.
  rewrite slice_cons by (unfold len in *; lia).
  rewrite <- (peek_spec l Hlt), Hp.
  cbn [String.eqb]. rewrite (proj2 (Ascii.eqb_neq c k) Hne). reflexivity.
Qed.

Lemma scanNumber_lone_dot (l : Lexer) :
  peek l = "."%char -> isDigitByte (peekN 1 l) = false ->
  scanNumber l = (makeToken TokenError "invalid number" l, l).
Proof.
  intros Hp Hd. unfold scanNumber. rewrite Hp.
  change (Ascii.eqb "." "-" || Ascii.eqb "." "+") with false. cbv iota.
  rewrite (matchKeyword_mismatch "." "i" "nf" l Hp) by discriminate.
  rewrite (matchKeyword_mismatch "." "n" "an" l Hp) by discriminate.
  cbv iota beta. cbn [orb].
  assert (scanDigits l = l) as Hs.
  { unfold scanDigits. apply loopWhile_stop. rewrite Hp. reflexivity. }
  rewrite Hs. rewrite Hp, Hd, Nat.eqb_refl. reflexivity.
Qed.

(** [Next] at a dot that no digit follows: an error token, and the dot is
    not consumed. *)
Lemma Next_lone_dot (l : Lexer) :
  let l0 := skipWhitespace l in
  let l1 := mkLexer (input l0) (lpos l0) (line l0) (column l0)
              (lpos l0) (line l0) (column l0) in
  peek l0 = "."%char -> isDigitByte (peekN 1 l0) = false ->
  Next l = (makeToken TokenError "invalid number" l1, l1).
Proof.
  intros l0 l1 Hp Hd. unfold Next. fold l0. fold l1.
  assert (peek l1 = "."%char) as Hp1 by exact Hp.
  assert (isDigitByte (peekN 1 l1) = false) as Hd1 by exact Hd.
  assert (lpos l1 < len l1) as Hlt.
  { destruct (Nat.ltb_spec (lpos l1) (len l1)) as [Hlt|Hge]; [exact Hlt|].
    exfalso. unfold peek in Hp1.
    destruct (Nat.leb_spec (len l1) (lpos l1)); [discriminate | lia]. }
  destruct (Nat.leb_spec (len l1) (lpos l1)) as [Hge|_]; [lia|].
  rewrite Hp1. cbn -[scanNumber]. apply scanNumber_lone_dot; assumption.
Qed.

Lemma skipWhitespace_at_dot (l : Lexer) :
  peek l = "."%char -> skipWhitespace l = l.
Proof.
  intros Hp. unfold skipWhitespace. apply loopWhile_stop. rewrite Hp. reflexivity.
Qed.

(** Wherever the next byte that is not blank is a dot that no digit
    follows, the loop of [Tokenize] does not end: [Next] gives the error
    token for an invalid number without consuming the dot, and the loop
    calls it again in the same state.  No number of rounds is enough. *)
Theorem Tokenize_never_ends_at_lone_dot (l : Lexer) (fuel : nat) (acc : list Token) :
  peek (skipWhitespace l) = "."%char ->
  isDigitByte (peekN 1 (skipWhitespace l)) = false ->
  tokenizeLoop fuel acc l = None.
Proof.
  intros Hp Hd.
  pose proof (Next_lone_dot l Hp Hd) as Hn. cbv zeta in Hn.
  set (l0 := skipWhitespace l) in *.
  set (l1 := mkLexer (input l0) (lpos l0) (line l0) (column l0)
               (lpos l0) (line l0) (column l0)) in *.
  revert fuel acc. apply (tokenizeLoop_step l l1 _ Hn); [discriminate|].
  apply tokenizeLoop_stuck.
  exists (makeToken TokenError "invalid number" l1). split; [|discriminate].
  assert (peek l1 = "."%char) as Hp1 by exact Hp.
  pose proof (Next_lone_dot l1) as Hn1. cbv zeta in Hn1.
  rewrite (skipWhitespace_at_dot l1 Hp1) in Hn1.
  apply Hn1; [exact Hp1 | exact Hd].
Qed.

End LoneDot.

Lemma Tokenize_never_ends_at_lone_dot_witness :
  @tokenizeLoop asciiUnicode 1000 [] (NewLexer ("  .x = 1")) = None.
Proof.
  apply (@Tokenize_never_ends_at_lone_dot asciiUnicode); reflexivity.
Defined.

(** *** The hang of the lexer at a sign *)

Lemma drop_string_cons (s : string) (i : nat) :
  i < String.length s ->
  utf8.drop_string i s = String (byteAt s i) (utf8.drop_string (S i) s).
Proof.
  unfold byteAt. revert s. induction i as [|i IH]; intros [|c s] Hlt;
    simpl in Hlt; try lia.
  - reflexivity.
  - simpl. rewrite IH by lia. reflexivity.
Qed.

Lemma DecodeRuneInString_ascii (c : ascii) (rest : string) :
  (utf8.byteZ c <? 128)%Z = true ->
  utf8.DecodeRuneInString (String c rest) = (utf8.byteZ c, 1).
Proof. intros Hc. simpl. rewrite Hc. reflexivity. Qed.

Section LoneSign.
Context `{Unicode}.

Definition isSign (c : ascii) : bool := Ascii.eqb c "-" || Ascii.eqb c "+".

Lemma scanIdentifier_lone_sign (l : Lexer) :
  lpos l < len l -> isSign (peek l) = true -> start l = lpos l ->
  isIdentPart (utf8.byteZ (peek l)) = false ->
  scanIdentifier l = (makeToken TokenIdent "" l, l).
Proof.
  intros Hlt Hs Hst Hi. unfold scanIdentifier.
  rewrite loopWhile_stop.
  - rewrite Hst, slice_empty. reflexivity.
  - unfold suffix. rewrite drop_string_cons by exact Hlt.
    rewrite <- (peek_spec l Hlt).
    rewrite DecodeRuneInString_ascii.
    + rewrite Hi. reflexivity.
    + unfold isSign in Hs. apply orb_true_iff in Hs as [Hs|Hs];
        apply Ascii.eqb_eq in Hs; rewrite Hs; reflexivity.
Qed.

Lemma Next_lone_sign (l : Lexer) :
  let l0 := skipWhitespace l in
  let l1 := mkLexer (input l0) (lpos l0) (line l0) (column l0)
              (lpos l0) (line l0) (column l0) in
  isSign (peek l0) = true ->
  (lpos l0 + 1 <? len l0)%nat
  && (isDigitByte (byteAt (input l0) (lpos l0 + 1))
      || Ascii.eqb (byteAt (input l0) (lpos l0 + 1)) ".") = false ->
  isIdentPart (utf8.byteZ (peek l0)) = false ->
  Next l = (makeToken TokenIdent "" l1, l1).
Proof.
  intros l0 l1 Hs Hn Hi. unfold Next. fold l0. fold l1.
  assert (peek l1 = peek l0) as Hp1 by reflexivity.
  assert (lpos l1 < len l1) as Hlt.
  { destruct (Nat.ltb_spec (lpos l1) (len l1)) as [Hlt|Hge]; [exact Hlt|].
    exfalso. rewrite <- Hp1 in Hs. unfold peek in Hs.
    destruct (Nat.leb_spec (len l1) (lpos l1)); [discriminate | lia]. }
  destruct (Nat.leb_spec (len l1) (lpos l1)) as [Hge|_]; [lia|].
  change ((lpos l1 + 1 <? len l1)%nat
          && (isDigitByte (byteAt (input l1) (lpos l1 + 1))
              || Ascii.eqb (byteAt (input l1) (lpos l1 + 1)) "."))
    with ((lpos l0 + 1 <? len l0)%nat
          && (isDigitByte (byteAt (input l0) (lpos l0 + 1))
              || Ascii.eqb (byteAt (input l0) (lpos l0 + 1)) ".")).
  rewrite Hn.
  assert (scanIdentifier l1 = (makeToken TokenIdent "" l1, l1)) as Hscan
    by (apply scanIdentifier_lone_sign; [exact Hlt | exact Hs | reflexivity | exact Hi]).
  rewrite Hp1. unfold isSign in Hs.
  apply orb_true_iff in Hs as [Hs|Hs]; apply Ascii.eqb_eq in Hs; rewrite Hs;
    cbn -[scanIdentifier]; exact Hscan.
Qed.

(** The same at a sign that neither a digit nor a dot follows, when the
    sign is no letter and no digit for the classification of runes in
    use: [Next] gives an identifier token of length zero and does not
    consume the sign. *)
Theorem Tokenize_never_ends_at_lone_sign (l : Lexer) (fuel : nat) (acc : list Token) :
  let l0 := skipWhitespace l in
  isSign (peek l0) = true ->
  (lpos l0 + 1 <? len l0)%nat
  && (isDigitByte (byteAt (input l0) (lpos l0 + 1))
      || Ascii.eqb (byteAt (input l0) (lpos l0 + 1)) ".") = false ->
  isIdentPart (utf8.byteZ (peek l0)) = false ->
  tokenizeLoop fuel acc l = None.
Proof.
  intros l0 Hs Hn Hi.
  pose proof (Next_lone_sign l Hs Hn Hi) as Hnext. cbv zeta in Hnext. fold l0 in Hnext.
  set (l1 := mkLexer (input l0) (lpos l0) (line l0) (column l0)
               (lpos l0) (line l0) (column l0)) in *.
  revert fuel acc. apply (tokenizeLoop_step l l1 _ Hnext); [discriminate|].
  apply tokenizeLoop_stuck.
  exists (makeToken TokenIdent "" l1). split; [|discriminate].
  assert (peek l1 = peek l0) as Hp1 by reflexivity.
  assert (skipWhitespace l1 = l1) as Hsk.
  { unfold skipWhitespace. apply loopWhile_stop. rewrite Hp1.
    unfold isSign in Hs.
    apply orb_true_iff in Hs as [Hs'|Hs']; apply Ascii.eqb_eq in Hs';
      rewrite Hs'; reflexivity. }
  pose proof (Next_lone_sign l1) as Hn1. cbv zeta in Hn1.
  rewrite Hsk in Hn1. apply Hn1; assumption.
Qed.

End LoneSign.

Lemma Tokenize_never_ends_at_lone_sign_witness :
  @tokenizeLoop asciiUnicode 1000 [] (NewLexer "x = -inf") = None.
Proof.
  apply (@tokenizeLoop_step asciiUnicode (NewLexer "x = -inf")
           (mkLexer "x = -inf" 1 0 1 0 0 0) (mkToken TokenIdent "x" 0 0 0 1));
    [reflexivity | discriminate |].
  apply (@tokenizeLoop_step asciiUnicode (mkLexer "x = -inf" 1 0 1 0 0 0)
           (mkLexer "x = -inf" 3 0 3 2 0 2) (mkToken TokenEquals "=" 0 2 2 1));
    [reflexivity | discriminate |].
  intros fuel acc.
  apply (@Tokenize_never_ends_at_lone_sign asciiUnicode); reflexivity.
Defined.

(** *** The shape of the token list *)

Section TokenList.
Context `{Unicode}.

Lemma tokenizeLoop_single_EOF (fuel : nat) :
  forall (acc : list Token) (l : Lexer) (toks : list Token),
    tokenizeLoop fuel acc l = Some toks ->
    exists mid tok,
      toks = (acc ++ mid ++ [tok])%list /\ Type_ tok = TokenEOF /\
      Forall (fun t => Type_ t <> TokenEOF) mid /\ S (length mid) <= fuel.
Proof.
  induction fuel as [|f IH]; intros acc l toks E; [discriminate|].
  cbn [tokenizeLoop] in E. destruct (Next l) as [tok l'].
  destruct (isType (Type_ tok) TokenEOF) eqn:Ht.
  - injection E as <-. exists [], tok. simpl.
    split; [reflexivity|]. split; [by apply isType_true|].
    split; [constructor | lia].
  - apply IH in E as (mid & last & -> & He & Hmid & Hlen).
    exists (tok :: mid), last. rewrite <- app_assoc. simpl.
    split; [reflexivity|]. split; [exact He|]. split; [|lia].
    constructor; [by apply isType_false | exact Hmid].
Qed.

(** The list [Tokenize] returns is never empty: it ends with the
    end-of-file token, no token before it is an end-of-file token, and it
    has one token for every round of the loop. *)
Theorem Tokenize_single_EOF (fuel : nat) (l : Lexer) (toks : list Token) :
  Tokenize fuel l = Some toks ->
  exists pre tok,
    toks = (pre ++ [tok])%list /\ Type_ tok = TokenEOF /\
    Forall (fun t => Type_ t <> TokenEOF) pre /\ length toks <= fuel.
Proof.
  intros E. apply tokenizeLoop_single_EOF in E as (mid & tok & -> & He & Hmid & Hlen).
  exists mid, tok. simpl. rewrite length_app. simpl.
  split; [reflexivity|]. split; [exact He|]. split; [exact Hmid | lia].
Qed.

(** [Parse] returns a document exactly when the loop of [Tokenize] ends:
    the parser itself gives a document for whatever token list it is
    handed, malformed or not. *)
Theorem Parse_returns_iff_Tokenize_ends (fuel : nat) (source : string) :
  is_Some (Parse fuel source) <-> is_Some (Tokenize fuel (NewLexer source)).
Proof.
  split.
  - intros [d Hd]. apply Parse_inv in Hd as (toks & Ht & _). eauto.
  - intros [toks Ht]. apply Parse_returns in Ht as (d & Hd & _). eauto.
Qed.

End TokenList.

Lemma Tokenize_single_EOF_witness :
  exists pre tok,
    refTokens = (pre ++ [tok])%list /\ Type_ tok = TokenEOF /\
    Forall (fun t => Type_ t <> TokenEOF) pre /\ length refTokens <= 15.
Proof.
  apply (@Tokenize_single_EOF asciiUnicode 15 (NewLexer "ExtResource(1)")).
  vm_compute. reflexivity.
Defined.

(** *** Progress of the value parser *)

Lemma wp_conj {A} (m : P A) (Q1 Q2 : A -> Parser -> Prop) p :
  wp m Q1 p -> wp m Q2 p -> wp m (fun a p' => Q1 a p' /\ Q2 a p') p.
Proof. unfold wp. destruct (m p) as [[a p']|]; tauto. Qed.

Definition startsValue (t : TokenType) : Prop :=
  In t [TokenString; TokenNumber; TokenBool; TokenNull; TokenLBracket;
        TokenLBrace; TokenIdent].

(** From a well-formed state and with fuel above the number of tokens
    left, [parseValue] returns.  It gives no value exactly when the
    current token cannot start one, and then it has consumed nothing;
    when it gives a value it has consumed at least one token.  This is
    what the loops over arrays, dictionaries and arguments rely on to
    move forward. *)
Theorem parseValue_progress (toks : list Token) (fuel : nat) (p : Parser) :
  G toks p -> rem p < fuel ->
  exists v p',
    parseValue fuel p = Some (v, p') /\ G toks p' /\
    (v = None <-> ~ startsValue (Type_ (current p))) /\
    (v = None -> p' = p) /\
    (is_Some v -> pos p < pos p').
Proof.
  intros HG Hf.
  destruct (wp_result (parseValue fuel)
              (fun v p' => (G toks p' /\ valueShape toks (pos p) v) /\
                           (is_Some v -> pos p < pos p')) p)
    as (v & p' & E & (G' & Hs) & Hprog).
  { apply wp_conj.
    - apply (wp_parseValue_shape toks); [exact HG | exact Hf | auto].
    - apply (parseValue_valueParser toks fuel); [exact HG | exact Hf | auto]. }
  exists v, p'. split; [exact E|]. split; [exact G'|].
  assert (v = None <-> ~ startsValue (Type_ (current p))) as Hnone.
  { unfold startsValue. rewrite (G_tokenAt _ _ HG). destruct v as [v|].
    - split; [discriminate|]. intros Hn. exfalso. apply Hn.
      destruct v; simpl in Hs; first [rewrite Hs | rewrite (proj1 Hs)]; simpl; tauto.
    - split; [intros _; exact Hs | reflexivity]. }
  split; [exact Hnone|]. split; [|exact Hprog].
  intros Hv. apply Hnone in Hv. unfold startsValue in Hv.
  destruct fuel as [|f]; [lia|]. cbn [parseValue] in E.
  unfold bind, cur in E.
  destruct (Type_ (current p)); simpl in Hv;
    try (exfalso; tauto); injection E as _ <-; reflexivity.
Qed.

Lemma parseValue_progress_witness :
  exists v p',
    parseValue 5 (newParser refTokens) = Some (v, p') /\ G refTokens p' /\
    (v = None <-> ~ startsValue (Type_ (current (newParser refTokens)))) /\
    (v = None -> p' = newParser refTokens) /\
    (is_Some v -> pos (newParser refTokens) < pos p').
Proof.
  apply (parseValue_progress refTokens 5 (newParser refTokens));
    [apply G_newParser; reflexivity | vm_compute; lia].
Defined.

(** *** Where the tokens lie in the input *)

(** A scanner moves the position forward, not past the end of the input,
    and leaves the input and the start of the token alone. *)
Definition advances (l l' : Lexer) : Prop :=
  sameToken l l' /\ lpos l <= lpos l' /\ (lpos l <= len l -> lpos l' <= len l).

Lemma advances_refl (l : Lexer) : advances l l.
Proof. unfold advances, sameToken. auto 10. Qed.

Lemma advances_trans (l1 l2 l3 : Lexer) :
  advances l1 l2 -> advances l2 l3 -> advances l1 l3.
Proof.
  unfold advances, sameToken, len.
  intros ((Hi1 & Hs1 & Hl1 & Hc1) & Hle1 & Hb1) ((Hi2 & Hs2 & Hl2 & Hc2) & Hle2 & Hb2).
  rewrite Hi1 in *. repeat split; try congruence; try lia.
Qed.

Lemma advance_advances (l : Lexer) : advances l (advance_ l).
Proof.
  unfold advance_, advance, advances, sameToken.
  destruct (Nat.leb_spec (len l) (lpos l)); [simpl; auto 10|].
  destruct (Ascii.eqb _ _); simpl; unfold len in *; simpl;
    repeat split; lia.
Qed.

Lemma advance_snd_advances (l : Lexer) : advances l (snd (advance l)).
Proof. apply advance_advances. Qed.

Lemma loopWhile_advances (step : Lexer -> option Lexer) :
  (forall l l', lpos l < len l -> step l = Some l' -> advances l l') ->
  forall fuel l, advances l (loopWhile fuel step l).
Proof.
  intros Hstep fuel. induction fuel as [|f IH]; intros l; [apply advances_refl|].
  simpl. destruct (Nat.ltb_spec (lpos l) (len l)) as [Hlt|_]; [|apply advances_refl].
  destruct (step l) as [l'|] eqn:E; [|apply advances_refl].
  eapply advances_trans; [apply (Hstep _ _ Hlt E) | apply IH].
Qed.

Lemma skipWhitespace_advances (l : Lexer) : advances l (skipWhitespace l).
Proof.
  apply loopWhile_advances. intros l0 l' _ E.
  destruct (isSpace (peek l0)); [|discriminate].
  injection E as <-. apply advance_advances.
Qed.

Lemma scanStringLoop_advances (fuel : nat) :
  forall b l, advances l (snd (scanStringLoop fuel b l)).
Proof.
  induction fuel as [|f IH]; intros b l.
  - simpl. destruct (lpos l <? len l)%nat; apply advances_refl.
  - cbn [scanStringLoop].
    destruct (lpos l <? len l)%nat; [|apply advances_refl].
    destruct (Ascii.eqb (peek l) ch_quote); [apply advance_advances|].
    destruct (Ascii.eqb (peek l) ch_backslash).
    + destruct (lpos (advance_ l) <? len (advance_ l))%nat.
      * destruct (advance (advance_ l)) as [e l2] eqn:E.
        eapply advances_trans; [|apply IH].
        eapply advances_trans; [apply advance_advances|].
        change l2 with (snd (e, l2)). rewrite <- E. apply advance_snd_advances.
      * eapply advances_trans; [apply advance_advances | apply IH].
    + destruct (Ascii.eqb (peek l) ch_newline); [apply advances_refl|].
      destruct (advance l) as [c l2] eqn:E.
      eapply advances_trans; [|apply IH].
      change l2 with (snd (c, l2)). rewrite <- E. apply advance_snd_advances.
Qed.

(** The token a scanner returns is made from the state it returns. *)
Definition tokenOf (r : Token * Lexer) : Prop :=
  tOffset (fst r) = start (snd r) /\ Length (fst r) = lpos (snd r) - start (snd r).

Lemma scanStringLoop_tokenOf (fuel : nat) :
  forall b l, tokenOf (scanStringLoop fuel b l).
Proof.
  induction fuel as [|f IH]; intros b l.
  - simpl. destruct (lpos l <? len l)%nat; split; reflexivity.
  - cbn [scanStringLoop].
    destruct (lpos l <? len l)%nat; [|split; reflexivity].
    destruct (Ascii.eqb (peek l) ch_quote); [split; reflexivity|].
    destruct (Ascii.eqb (peek l) ch_backslash).
    + destruct (lpos (advance_ l) <? len (advance_ l))%nat; [|apply IH].
      destruct (advance (advance_ l)) as [e l2]. apply IH.
    + destruct (Ascii.eqb (peek l) ch_newline); [split; reflexivity|].
      destruct (advance l) as [c l2]. apply IH.
Qed.

Lemma DecodeRuneInString_size (s : string) :
  snd (utf8.DecodeRuneInString s) <= String.length s.
Proof.
  destruct s as [|c0 [|c1 [|c2 [|c3 s]]]]; simpl; try lia;
    repeat match goal with
           | |- context [if ?c then _ else _] => destruct c
           | |- context [match ?x with _ => _ end] => destruct x
           end; simpl; lia.
Qed.

Lemma length_drop_string (s : string) (i : nat) :
  String.length (utf8.drop_string i s) = String.length s - i.
Proof.
  revert s. induction i as [|i IH]; intros [|c s]; simpl; auto.
Qed.

Section TokenLayout.
Context `{Unicode}.

Lemma matchKeyword_advances (k : string) (l : Lexer) :
  advances l (snd (matchKeyword k l)).
Proof.
  unfold matchKeyword.
  destruct (Nat.ltb_spec (len l) (lpos l + String.length k)); [apply advances_refl|].
  repeat match goal with
         | |- context [if ?c then _ else _] => destruct c
         end; try apply advances_refl.
  unfold advances, sameToken, len in *. simpl. repeat split; lia.
Qed.

Lemma scanDigits_advances (l : Lexer) : advances l (scanDigits l).
Proof.
  apply loopWhile_advances. intros l0 l' _ E.
  destruct (isDigitByte (peek l0)); [|discriminate].
  injection E as <-. apply advance_advances.
Qed.

Lemma scanNumber_advances (l : Lexer) :
  advances l (snd (scanNumber l)) /\ tokenOf (scanNumber l).
Proof.
  unfold scanNumber.
  match goal with |- context [matchKeyword "inf" ?x] => set (l1 := x) end.
  assert (advances l l1) as H1
      by (subst l1; destruct (_ || _); [apply advance_advances | apply advances_refl]).
  destruct (matchKeyword "inf" l1) as [isInf l2] eqn:E2.
  assert (advances l l2) as H2.
  { eapply advances_trans; [exact H1|].
    change l2 with (snd (isInf, l2)). rewrite <- E2. apply matchKeyword_advances. }
  destruct (if isInf then (false, l2) else matchKeyword "nan" l2) as [isNan l3] eqn:E3.
  assert (advances l l3) as H3.
  { change l3 with (snd (isNan, l3)). rewrite <- E3.
    destruct isInf; [exact H2|].
    eapply advances_trans; [exact H2 | apply matchKeyword_advances]. }
  destruct (isInf || isNan); [split; [exact H3 | split; reflexivity]|].
  assert (advances l (scanDigits l3)) as H4
      by (eapply advances_trans; [exact H3 | apply scanDigits_advances]).
  destruct (_ && _ && _); cbn [snd]; [split; [exact H4 | split; reflexivity]|].
  split; [|split; reflexivity]. cbn [snd].
  repeat match goal with
         | |- advances _ (if ?c then _ else _) => destruct c
         | |- advances l (scanDigits ?x) =>
           apply (advances_trans l x); [|apply scanDigits_advances]
         | |- advances l (advance_ ?x) =>
           apply (advances_trans l x); [|apply advance_advances]
         end; exact H3 || exact H4.
Qed.

Lemma scanIdentifier_advances (l : Lexer) :
  advances l (snd (scanIdentifier l)) /\ tokenOf (scanIdentifier l).
Proof.
  unfold scanIdentifier.
  match goal with |- context [slice (input ?x) _ _] => set (l1 := x) end.
  assert (advances l l1) as H1.
  { apply loopWhile_advances. intros l0 l' Hlt E.
    pose proof (DecodeRuneInString_size (suffix (input l0) (lpos l0))) as Hsize.
    unfold suffix in *. rewrite length_drop_string in Hsize.
    destruct (utf8.DecodeRuneInString _) as [r size].
    destruct (negb _); [discriminate|]. injection E as <-.
    unfold advances, sameToken, len in *. simpl in *. repeat split; lia. }
  repeat match goal with
         | |- context [if ?c then _ else _] => destruct c
         end; (split; [exact H1 | split; reflexivity]).
Qed.

Lemma scanString_advances (l : Lexer) :
  advances l (snd (scanString l)) /\ tokenOf (scanString l).
Proof.
  unfold scanString. split; [|apply scanStringLoop_tokenOf].
  eapply advances_trans; [apply advance_advances | apply scanStringLoop_advances].
Qed.

Lemma scanComment_advances (l : Lexer) :
  advances l (snd (scanComment l)) /\ tokenOf (scanComment l).
Proof.
  unfold scanComment. cbn [snd]. split; [|split; reflexivity].
  eapply advances_trans; [apply advance_advances|].
  apply loopWhile_advances. intros l0 l' _ E. destruct (negb _); [|discriminate].
  injection E as <-. apply advance_advances.
Qed.

Lemma single_advances typ value (l : Lexer) :
  advances l (snd (single typ value l)) /\ tokenOf (single typ value l).
Proof. split; [apply advance_advances | split; reflexivity]. Qed.

(** One call of [Next]: the token starts at or after the position of the
    call and ends where the lexer is left, inside the input. *)
Lemma Next_layout (l : Lexer) (tok : Token) (l' : Lexer) :
  Next l = (tok, l') -> lpos l <= len l ->
  input l' = input l /\ lpos l <= tOffset tok /\
  tOffset tok + Length tok = lpos l' /\ lpos l' <= len l'.
Proof.
  intros E Hle.
  enough (exists l1, input l1 = input l /\ lpos l <= lpos l1 /\ lpos l1 <= len l1 /\
                     start l1 = lpos l1 /\
                     advances l1 l' /\ tokenOf (tok, l'))
    as (l1 & Hi0 & Hle0 & Hb0 & Hst & H1 & Ht).
  { destruct H1 as ((Hi1 & Hs1 & _) & Hle1 & Hb1).
    destruct Ht as [Ho Hl]. cbn [fst snd] in Ho, Hl.
    unfold len in *. rewrite Hi1 in *.
    rewrite Ho, Hl, Hs1, Hst. repeat split; try lia; congruence. }
  revert E. unfold Next.
  pose proof (skipWhitespace_advances l) as Hw.
  set (l0 := skipWhitespace l) in *.
  set (l1 := mkLexer (input l0) (lpos l0) (line l0) (column l0)
               (lpos l0) (line l0) (column l0)).
  assert (input l1 = input l /\ lpos l <= lpos l1 /\ lpos l1 <= len l1 /\
          start l1 = lpos l1) as H0.
  { destruct Hw as ((Hi & _) & Hle0 & Hb0).
    unfold len in *. simpl. rewrite Hi in *. repeat split; try lia; congruence. }
  clearbody l1. clear Hw l0.
  assert (forall r : Token * Lexer,
            advances l1 (snd r) /\ tokenOf r -> r = (tok, l') ->
            exists l2, input l2 = input l /\ lpos l <= lpos l2 /\ lpos l2 <= len l2 /\
                       start l2 = lpos l2 /\ advances l2 l' /\ tokenOf (tok, l'))
    as Hfin.
  { intros r [Ha Ht] ->. exists l1. tauto. }
  destruct (len l1 <=? lpos l1)%nat.
  { apply Hfin. split; [apply advances_refl | split; reflexivity]. }
  repeat match goal with
         | |- (if ?c then _ else _) = _ -> _ => destruct c
         end;
    first [ apply Hfin, single_advances
          | apply Hfin, scanComment_advances
          | apply Hfin, scanString_advances
          | apply Hfin, scanNumber_advances
          | apply Hfin, scanIdentifier_advances
          | idtac ].
  apply Hfin. split.
  - eapply advances_trans; [apply advance_advances | apply scanString_advances].
  - apply scanString_advances.
Qed.

(** Tokens laid out from an offset on, in order and without overlap, up
    to a bound. *)
Fixpoint laidOut (from : nat) (toks : list Token) (bound : nat) : Prop :=
  match toks with
  | [] => from <= bound
  | tok :: rest =>
    from <= tOffset tok /\ laidOut (tOffset tok + Length tok) rest bound
  end.

Lemma tokenizeLoop_layout (fuel : nat) :
  forall (acc : list Token) (l : Lexer) (toks : list Token),
    tokenizeLoop fuel acc l = Some toks -> lpos l <= len l ->
    exists rest, toks = (acc ++ rest)%list /\ laidOut (lpos l) rest (len l).
Proof.
  induction fuel as [|f IH]; intros acc l toks E Hle; [discriminate|].
  cbn [tokenizeLoop] in E. destruct (Next l) as [tok l'] eqn:En.
  destruct (Next_layout l tok l' En Hle) as (Hin & Hfrom & Hend & Hle').
  destruct (isType (Type_ tok) TokenEOF).
  - injection E as <-. exists [tok]. split; [reflexivity|]. simpl.
    unfold len in *. rewrite Hin in Hle'. lia.
  - apply IH in E as (rest & -> & Hrest); [|exact Hle'].
    exists (tok :: rest). rewrite <- app_assoc. split; [reflexivity|]. simpl.
    unfold len in *. rewrite Hin in Hrest. rewrite Hend. split; [exact Hfrom | exact Hrest].
Qed.

Lemma laidOut_In (from : nat) (toks : list Token) (bound : nat) (tok : Token) :
  laidOut from toks bound -> In tok toks ->
  from <= tOffset tok /\ tOffset tok + Length tok <= bound.
Proof.
  revert from. induction toks as [|t rest IH]; intros from Hl Hin; [destruct Hin|].
  destruct Hl as [Hfrom Hrest]. destruct Hin as [->|Hin].
  - split; [exact Hfrom|]. clear IH Hfrom.
    revert Hrest. generalize (tOffset tok + Length tok).
    induction rest as [|t rest IH]; intros n; simpl; [auto|].
    intros [Hn Hr]. specialize (IH _ Hr). lia.
  - destruct (IH _ Hrest Hin). lia.
Qed.

(** The tokens [Tokenize] returns lie in the input in the order of the
    list and do not overlap: each starts at or after the end of the one
    before it, and each ends within the input. *)
Theorem Tokenize_layout (fuel : nat) (source : string) (toks : list Token) :
  Tokenize fuel (NewLexer source) = Some toks ->
  laidOut 0 toks (String.length source) /\
  (forall tok, In tok toks -> tOffset tok + Length tok <= String.length source).
Proof.
  intros E. apply tokenizeLoop_layout in E as (rest & -> & Hl); [|simpl; lia].
  simpl in *. split; [exact Hl|].
  intros tok Hin. apply (laidOut_In _ _ _ _ Hl Hin).
Qed.

End TokenLayout.

Lemma Tokenize_layout_witness :
  laidOut 0 refTokens (String.length "ExtResource(1)") /\
  (forall tok, In tok refTokens ->
     tOffset tok + Length tok <= String.length "ExtResource(1)").
Proof.
  apply (@Tokenize_layout asciiUnicode 15 "ExtResource(1)" refTokens).
  vm_compute. reflexivity.
Defined.

(** *** String literals without escapes *)

Definition plainByte (c : ascii) : bool :=
  negb (Ascii.eqb c ch_quote) && negb (Ascii.eqb c ch_backslash)
  && negb (Ascii.eqb c ch_newline).

Fixpoint plain (s : string) : bool :=
  match s with
  | EmptyString => true
  | String c rest => plainByte c && plain rest
  end.

Lemma append_nil_r (s : string) : s +:+ "" = s.
Proof.
  induction s as [|c s IH]; [reflexivity|].
  change (String c s +:+ "") with (String c (s +:+ "")). rewrite IH. reflexivity.
Qed.

Lemma append_assoc (a b c : string) : (a +:+ b) +:+ c = a +:+ (b +:+ c).
Proof.
  induction a as [|x a IH]; [reflexivity|].
  change (String x a +:+ b) with (String x (a +:+ b)).
  change (String x (a +:+ b) +:+ c) with (String x ((a +:+ b) +:+ c)).
  rewrite IH. reflexivity.
Qed.

Lemma suffix_cons_inv (s : string) (i : nat) (c : ascii) (t : string) :
  utf8.drop_string i s = String c t ->
  i < String.length s /\ byteAt s i = c /\ utf8.drop_string (S i) s = t.
Proof.
  intros E. assert (i < String.length s) as Hlt.
  { pose proof (length_drop_string s i) as Hl. rewrite E in Hl. simpl in Hl. lia. }
  rewrite (drop_string_cons s i Hlt) in E. injection E as <- <-. auto.
Qed.

(** The loop of [scanString] on text without a quote, a backslash or a
    newline, up to the closing quote. *)
Lemma scanStringLoop_plain (s : string) :
  forall (rest b : string) (l : Lexer) (fuel : nat),
    utf8.drop_string (lpos l) (input l) = s +:+ String ch_quote rest ->
    plain s = true -> String.length s < fuel ->
    exists l',
      scanStringLoop fuel b l = (makeToken TokenString (b +:+ s) l', l') /\
      sameToken l l' /\ lpos l' = lpos l + String.length s + 1.
Proof.
  induction s as [|c s IH]; intros rest b l fuel Hsuf Hplain Hfuel.
  - change ("" +:+ String ch_quote rest) with (String ch_quote rest) in Hsuf.
    apply suffix_cons_inv in Hsuf as (Hlt & Hc & _).
    destruct fuel as [|f]; [simpl in Hfuel; lia|]. cbn [scanStringLoop].
    destruct (Nat.ltb_spec (lpos l) (len l)) as [_|Hge]; [|unfold len in Hge; lia].
    rewrite (peek_spec l Hlt), Hc, Ascii.eqb_refl.
    destruct (advance_spec l Hlt) as (l1 & Ha & Hsame & Hp).
    unfold advance_. rewrite Ha. cbn [snd]. exists l1.
    rewrite append_nil_r. split; [reflexivity|]. split; [exact Hsame|]. simpl. lia.
  - change (String c s +:+ String ch_quote rest)
      with (String c (s +:+ String ch_quote rest)) in Hsuf.
    apply suffix_cons_inv in Hsuf as (Hlt & Hc & Hsuf).
    simpl in Hplain. apply andb_true_iff in Hplain as [Hpc Hplain].
    unfold plainByte in Hpc.
    apply andb_true_iff in Hpc as [Hpc Hn]. apply andb_true_iff in Hpc as [Hq Hb].
    apply negb_true_iff in Hq, Hb, Hn.
    destruct fuel as [|f]; [simpl in Hfuel; lia|]. cbn [scanStringLoop].
    destruct (Nat.ltb_spec (lpos l) (len l)) as [_|Hge]; [|unfold len in Hge; lia].
    rewrite (peek_spec l Hlt), Hc, Hq, Hb, Hn.
    destruct (advance_spec l Hlt) as (l1 & Ha & (Hi & Hs & Hsl & Hsc) & Hp).
    rewrite Ha, Hc.
    destruct (IH rest (writeByte b c) l1 f) as (l' & Hloop & (Hi' & Hs' & Hsl' & Hsc') & Hp').
    + rewrite Hi, Hp. exact Hsuf.
    + exact Hplain.
    + simpl in Hfuel. lia.
    + exists l'. rewrite Hloop. unfold writeByte, str1. rewrite append_assoc.
      split; [reflexivity|].
      split; [repeat split; congruence|]. simpl. lia.
Qed.

Section PlainStrings.
Context `{Unicode}.

(** A string literal without escape sequences is read back as it is
    written: where the next byte that is not blank opens a literal
    whose text has no quote, backslash or newline before the closing
    quote, [Next] gives a string token with that text as its value, at the
    place of the opening quote and two bytes longer than the text. *)
Theorem Next_plain_string (l : Lexer) (s rest : string) :
  let l0 := skipWhitespace l in
  utf8.drop_string (lpos l0) (input l0) = String ch_quote (s +:+ String ch_quote rest) ->
  plain s = true ->
  exists l',
    Next l = (mkToken TokenString s (line l0) (column l0) (lpos l0)
                (String.length s + 2), l') /\
    input l' = input l /\ lpos l' = lpos l0 + String.length s + 2.
Proof.
  intros l0 Hsuf Hplain. unfold Next. fold l0.
  set (l1 := mkLexer (input l0) (lpos l0) (line l0) (column l0)
               (lpos l0) (line l0) (column l0)).
  apply suffix_cons_inv in Hsuf as (Hlt & Hc & Hsuf).
  assert (lpos l1 < len l1) as Hlt1 by exact Hlt.
  destruct (Nat.leb_spec (len l1) (lpos l1)) as [Hge|_]; [lia|].
  rewrite (peek_spec l1 Hlt1).
  change (byteAt (input l1) (lpos l1)) with (byteAt (input l0) (lpos l0)).
  rewrite Hc. cbn -[scanString]. unfold scanString.
  destruct (advance_spec l1 Hlt1) as (l2 & Ha & (Hi & Hs & Hsl & Hsc) & Hp).
  unfold advance_. rewrite Ha. cbn [snd].
  destruct (scanStringLoop_plain s rest "" l2 (remaining l2))
    as (l' & Hloop & (Hi' & Hs' & Hsl' & Hsc') & Hp').
  - rewrite Hi, Hp. exact Hsuf.
  - exact Hplain.
  - unfold remaining, len. rewrite Hi, Hp.
    pose proof (length_drop_string (input l0) (S (lpos l0))) as Hl.
    rewrite Hsuf, length_append in Hl. simpl in Hl.
    change (input l1) with (input l0). change (lpos l1) with (lpos l0). lia.
  - exists l'. rewrite Hloop. unfold makeToken.
    change ("" +:+ s) with s.
    rewrite Hs', Hsl', Hsc', Hs, Hsl, Hsc, Hp', Hp. simpl.
    split; [f_equal; f_equal; lia|]. split; [|lia].
    rewrite Hi', Hi. simpl. apply skipWhitespace_input.
Qed.

End PlainStrings.

Lemma Next_plain_string_witness :
  exists l',
    @Next asciiUnicode (mkLexer ("path = " +:+ quoted "res://a.png" +:+ " id") 6 0 6 0 0 0)
    = (mkToken TokenString "res://a.png" 0 7 7 (String.length "res://a.png" + 2), l') /\
    input l' = "path = " +:+ quoted "res://a.png" +:+ " id" /\
    lpos l' = 7 + String.length "res://a.png" + 2.
Proof.
  apply (@Next_plain_string asciiUnicode
           (mkLexer ("path = " +:+ quoted "res://a.png" +:+ " id") 6 0 6 0 0 0)
           "res://a.png" " id"); reflexivity.
Defined.

(** A node section without a name, as the parser hands it to the
    document symbols: [buildNodeTree] does not return on it. *)
Definition namelessChildSource : string :=
  Eval vm_compute in
    ("[node name=" ++ quoted "Root" ++ "]" ++ str1 ch_newline
     ++ "[node parent=" ++ quoted "." ++ "]" ++ str1 ch_newline).

Definition namelessChildNodes : list Node :=
  Eval vm_compute in Nodes (parsed namelessChildSource).

Example nameless_child_parsed :
  map (fun node => (Name node, Parent node)) namelessChildNodes
  = [("Root", ""); ("", ".")].
Proof. reflexivity. Qed.

Example nameless_child_symbols_not_returned :
  Lsp.buildNodeTree 200 namelessChildNodes = None.
Proof. vm_compute. reflexivity. Qed.

(** A byte from 128 on where no token starts: the error token has the
    two bytes that [string(ch)] gives for the rune of that value, and the
    length of the one byte consumed. *)
Example Next_unknown_high_byte :
  fst (@Next asciiUnicode (NewLexer (String (ascii_of_nat 195) (String (ascii_of_nat 169) ""))))
  = mkToken TokenError (String (ascii_of_nat 195) (String (ascii_of_nat 131) "")) 0 0 0 1.
Proof. vm_compute. reflexivity. Qed.

End TscnProps.
